(** * pathtrace.cu: iteration loop, accumulation, A-trous denoiser, buffer selection

    A shallow embedding of [src/pathtrace.cu].

    Conventions of the model
    - [int] values are integers in [Z]; where the C++ arithmetic is done on
      [unsigned int] the reduction modulo [2^32] is written out.  A remainder
      [%] by zero is a fault.
    - [float] values are exact reals ([R]): rounding is outside the model.
      Every division operator [/] written in the source is the checked
      division [fdiv], whose result is a fault when the divisor is zero (a
      real quotient does not exist there); the functions of glm ([sqrt],
      [exp], [pow], [floor], [max], [mix], [length2], [normalize]) are total.
      A conversion [static_cast<int>] of a float drops the fraction and
      saturates at the ends of the range of [int], as the conversion
      instruction of the device does.
    - Device arrays are lists; a load or a store outside an array is a fault.
    - A kernel is a function of the thread coordinates; a launch runs the
      threads of the grid one after the other.
    - Code of other translation units (the hash, the random engine, tree
      traversal, the BSDF and light sampling) is an interface, [Scene]. *)

From Stdlib Require Import ZArith List Bool Lia Permutation.
From Stdlib Require Import Reals Lra Zfloor.
Import ListNotations.

Open Scope Z_scope.

(* ===================================================================== *)
(** * Outcomes of a computation *)
(* ===================================================================== *)

Inductive fault : Type :=
| DivisionByZero   (* a quotient with a zero divisor *)
| OutOfBounds      (* a store or load outside a device array *)
| BadPointer       (* a null, unset or wrongly typed pointer is dereferenced *)
| MissingReturn.   (* control reaches the end of a value-returning function *)

Inductive outcome (A : Type) : Type :=
| Done (a : A)           (* the call returns *)
| Aborted                (* std::abort() *)
| Undefined (f : fault). (* no defined result *)

Arguments Done {A} a.
Arguments Aborted {A}.
Arguments Undefined {A} f.

Definition bind {A B : Type} (m : outcome A) (k : A -> outcome B) : outcome B :=
  match m with
  | Done a => k a
  | Aborted => Aborted
  | Undefined f => Undefined f
  end.

Notation "x <- m ;; k" := (bind m (fun x => k))
  (at level 61, m at next level, right associativity).
Notation "' p <- m ;; k" := (bind m (fun x => let p := x in k))
  (at level 61, p pattern, m at next level, right associativity).

(** A result was produced by a [return], not by an abort or a fault. *)
Definition returns {A : Type} (m : outcome A) : bool :=
  match m with Done _ => true | _ => false end.

(* ===================================================================== *)
(** * Scalars and vectors *)
(* ===================================================================== *)

(** [a / b] of the source, on floats. *)
Definition fdiv (a b : R) : outcome R :=
  if Req_dec_T b 0 then Undefined DivisionByZero else Done (a / b)%R.

Record vec2 : Type := mkVec2 { v2x : R; v2y : R }.
Record vec3 : Type := mkVec3 { vx : R; vy : R; vz : R }.

Definition vec3_splat (s : R) : vec3 := mkVec3 s s s.
Definition vzero : vec3 := vec3_splat 0.

Definition vadd (a b : vec3) : vec3 :=
  mkVec3 (vx a + vx b) (vy a + vy b) (vz a + vz b).
Definition vsub (a b : vec3) : vec3 :=
  mkVec3 (vx a - vx b) (vy a - vy b) (vz a - vz b).
Definition vscale (s : R) (a : vec3) : vec3 :=
  mkVec3 (s * vx a) (s * vy a) (s * vz a).
Definition vadds (a : vec3) (s : R) : vec3 :=
  mkVec3 (vx a + s) (vy a + s) (vz a + s).
Definition v2add (a b : vec2) : vec2 := mkVec2 (v2x a + v2x b) (v2y a + v2y b).
Definition v2scale (a : vec2) (s : R) : vec2 := mkVec2 (v2x a * s) (v2y a * s).

(** [v / s]: the three components divided by one scalar. *)
Definition vdivs (a : vec3) (s : R) : outcome vec3 :=
  x <- fdiv (vx a) s ;; y <- fdiv (vy a) s ;; z <- fdiv (vz a) s ;;
  Done (mkVec3 x y z).

(** glm::length2 *)
Definition length2 (a : vec3) : R := (vx a * vx a + vy a * vy a + vz a * vz a)%R.

(** glm::mix(x, y, a) = x * (1 - a) + y * a *)
Definition mixR (x y a : R) : R := (x * (1 - a) + y * a)%R.
Definition vmix (x y : vec3) (a : R) : vec3 :=
  mkVec3 (mixR (vx x) (vx y) a) (mixR (vy x) (vy y) a) (mixR (vz x) (vz y) a).

(** glm::normalize(v) = v * inversesqrt(dot(v, v)) *)
Definition normalize (v : vec3) : vec3 := vscale (/ sqrt (length2 v)) v.

(** glm::pow on floats, for a base that is not negative: [0] at a zero base,
    the real power elsewhere.  At a negative base glm::pow has no real value;
    the results on the display transform take the bases non-negative. *)
Definition powf (x y : R) : R := if Req_dec_T x 0 then 0%R else Rpower x y.
Definition vpow (a e : vec3) : vec3 :=
  mkVec3 (powf (vx a) (vx e)) (powf (vy a) (vy e)) (powf (vz a) (vz e)).

(** glm::clamp on int *)
Definition clampZ (x lo hi : Z) : Z := Z.min (Z.max x lo) hi.

(* ===================================================================== *)
(** * Device arrays *)
(* ===================================================================== *)

Section Arrays.
Context {A : Type}.

(** [a[i]] as an rvalue; [d] stands for whatever lies outside the array. *)
Definition load (d : A) (a : list A) (i : Z) : A :=
  if i <? 0 then d else nth (Z.to_nat i) a d.

(** [a[i]] read by a kernel. *)
Definition read (a : list A) (i : Z) : outcome A :=
  if i <? 0 then Undefined OutOfBounds
  else match nth_error a (Z.to_nat i) with
       | Some v => Done v
       | None => Undefined OutOfBounds
       end.

Fixpoint store_nat (a : list A) (n : nat) (v : A) : option (list A) :=
  match a, n with
  | [], _ => None
  | _ :: t, O => Some (v :: t)
  | h :: t, S m => option_map (cons h) (store_nat t m v)
  end.

(** [a[i] = v] *)
Definition store (a : list A) (i : Z) (v : A) : outcome (list A) :=
  if i <? 0 then Undefined OutOfBounds
  else match store_nat a (Z.to_nat i) v with
       | Some a' => Done a'
       | None => Undefined OutOfBounds
       end.

(** [a[i]] as an lvalue that is read and written: [a[i] = f (a[i])]. *)
Fixpoint update_nat (a : list A) (n : nat) (f : A -> A) : option (list A) :=
  match a, n with
  | [], _ => None
  | h :: t, O => Some (f h :: t)
  | h :: t, S m => option_map (cons h) (update_nat t m f)
  end.

Definition update (a : list A) (i : Z) (f : A -> A) : outcome (list A) :=
  if i <? 0 then Undefined OutOfBounds
  else match update_nat a (Z.to_nat i) f with
       | Some a' => Done a'
       | None => Undefined OutOfBounds
       end.
End Arrays.

(** The thread coordinates [0 .. n-1] of one grid dimension. *)
Definition upto (n : Z) : list Z := map Z.of_nat (seq 0 (Z.to_nat n)).

(* ===================================================================== *)
(** * Configuration *)
(* ===================================================================== *)

(** constexpr bool sortByMaterial = false, stratifiedSplat = false,
    cacheFirstBounce = false; *)
Definition sortByMaterial : bool := false.
Definition stratifiedSplat : bool := false.
Definition cacheFirstBounce : bool := false.

(* ===================================================================== *)
(** * 32-bit integers *)
(* ===================================================================== *)

Definition two32 : Z := 2 ^ 32.

(** Conversion of an [int] to [unsigned int], and the wrap of unsigned
    arithmetic. *)
Definition to_unsigned (z : Z) : Z := z mod two32.

(** Conversion of an [unsigned int] to [int]; also the wrap of a sum of
    [int]s computed in 32 bits. *)
Definition to_int (u : Z) : Z :=
  let w := u mod two32 in if w <? 2 ^ 31 then w else w - two32.

(** Conversion of a float to [int], [static_cast<int>(v)] and glm::ivec3(v):
    the fraction is dropped (rounding toward zero), and the conversion
    instruction of the device saturates at the ends of the range of [int]. *)
Definition truncZ (r : R) : Z := if Rle_lt_dec 0 r then Zfloor r else Zceil r.
Definition float_to_int (r : R) : Z := clampZ (truncZ r) (- 2 ^ 31) (2 ^ 31 - 1).

(* ===================================================================== *)
(** * Scene tables and collaborators *)
(* ===================================================================== *)

Record Ray : Type := mkRay { origin : vec3; direction : vec3 }.

Record PathSegment : Type := mkPathSegment {
  ray : Ray;
  colorThroughput : vec3;
  directAccum : vec3;
  indirectAccum : vec3;
  pixelIndex : Z;
  lastGeom : Z;
  remainingBounces : Z;
  prevBounceNoMis : bool;
  prevBounceSpecular : bool;
  indirectIllum : bool
}.

Record ShadeableIntersection : Type := mkShadeableIntersection {
  t : R;
  materialId : Z;
  geometricNormal : vec3;
  shadingNormal : vec3
}.

Record CameraSample : Type := mkCameraSample { pixel : vec2; dof : vec2 }.
Record IntersectionSample : Type :=
  mkIntersectionSample { out : vec2; mis1 : vec2; mis2 : vec2 }.

Record Camera : Type := mkCamera {
  resolution_x : Z;
  resolution_y : Z;
  position : vec3;
  view : vec3;
  up : vec3;
  right : vec3;
  pixelLength : vec2;
  focalDistance : R;
  aperture : R
}.

(** What this file takes from the other translation units
    (utilities.h, intersections.h, interactions.h, sceneStructs.h), which
    are not part of the sources read here.

    [utilhash] is the integer hash of utilities.h; its C++ result type is
    [unsigned int], so its values are taken in [0, 2^32) and arithmetic on
    them is unsigned.  [uniform01 h k] is the [k]-th draw, in [0, 1), of
    the thrust engine seeded with [h].  [traverseAABBTree r excl] returns
    the index of the nearest geometry hit ([-1]: none), the distance and the
    normal token; the tree, its root and the geometry table are those of the
    scene.  [scatterRay] and [multipleImportanceSampling] take the path by
    reference: they are functions from the path to the updated path.

    The last five fields are state that the functions modelled here only
    read: [traceDepth] is hst_scene->state.traceDepth, [camSamplePool] and
    [samplePool] are the device arrays dev_camSamplePool and dev_samplePool,
    [numStratifiedSamples] and [stratifiedSamplingRange] the statics of those
    names. *)
Class Scene : Type := {
  utilhash : Z -> Z;
  uniform01 : Z -> nat -> R;
  sampleUnitDiskUniform : vec2 -> vec2;
  traverseAABBTree : Ray -> Z -> Z * R * vec3;
  computeNormals : Z -> vec3 -> vec3 * vec3;
  geom_materialid : Z -> Z;
  geom_isTriangle : Z -> bool;
  Material : Type;
  materials : Z -> Material;
  mat_isSpecular : Material -> bool;
  multipleImportanceSampling :
    PathSegment -> vec3 -> vec3 -> vec3 -> Material -> vec2 -> vec2 ->
    Z -> Z -> bool -> PathSegment;
  scatterRay :
    PathSegment -> vec3 -> vec3 -> vec3 -> Material -> vec2 ->
    bool -> bool -> bool -> PathSegment * bool;
  traceDepth : Z;
  camSamplePool : list CameraSample;
  samplePool : list IntersectionSample;
  numStratifiedSamples : Z;
  stratifiedSamplingRange : R
}.

(* ===================================================================== *)
(** * Stratified sample index *)
(* ===================================================================== *)

Section Sampling.
Context {scene : Scene}.

(** int h = utilhash((1 << 31) | (depth << 22) | iter) ^ utilhash(index);
    the engine is identified with its seed. *)
Definition makeSeededRandomEngine (iter index depth : Z) : Z :=
  to_int (Z.lxor
    (utilhash (Z.lor (Z.lor (- 2 ^ 31) (to_int (Z.shiftl depth 22))) iter))
    (utilhash index)).

(** The value the function returns, with the policy as an argument, when
    the divisor of its remainder is not zero.
    - splatting: [iter % total], on [int];
    - full stratified: [(iter + utilhash(pixelIndex)) % total]; the sum has
      an [unsigned int] operand, so [iter] and [total] are converted to
      [unsigned int], the sum wraps modulo [2^32], the remainder is
      unsigned and the result is converted back to [int]. *)
Definition stratifiedSampleIndex_policy (splat : bool) (iter pixelIndex total : Z) : Z :=
  if splat then Z.rem iter total
  else to_int (to_unsigned (to_unsigned iter + utilhash pixelIndex)
               mod to_unsigned total).

Definition stratifiedSampleIndex (iter pixelIndex total : Z) : Z :=
  stratifiedSampleIndex_policy stratifiedSplat iter pixelIndex total.

(** The call [stratifiedSampleIndex(iter, pixelIndex, total)]: the remainder
    has no result when its divisor is zero, that is [total] under splatting
    and [total] as an [unsigned int] otherwise. *)
Definition stratifiedSampleIndex_call (iter pixelIndex total : Z) : outcome Z :=
  let divisor := if stratifiedSplat then total else to_unsigned total in
  if divisor =? 0 then Undefined DivisionByZero
  else Done (stratifiedSampleIndex iter pixelIndex total).
End Sampling.

(* ===================================================================== *)
(** * Camera rays *)
(* ===================================================================== *)

Section CameraRays.
Context {scene : Scene}.

(** dist(rand) for uniform_real_distribution<float> dist(0, range):
    the [k]-th draw of engine [h]. *)
Definition dist (range : R) (h : Z) (k : nat) : R := (range * uniform01 h k)%R.

(** The body of [generateRayFromCamera] for the thread with pixel
    coordinate [(x, y)]: [None] when the guard returns early, else the
    index written and the path segment stored there. *)
Definition generateRayFromCamera (cam : Camera) (iter traceDepth : Z) (x y : Z)
  : outcome (option (Z * PathSegment)) :=
  if (x >=? resolution_x cam) && (y >=? resolution_y cam) then Done None
  else
    let index := x + y * resolution_x cam in
    let rand := makeSeededRandomEngine iter index (-1) in
    k <- stratifiedSampleIndex_call iter index numStratifiedSamples ;;
    sample <- read camSamplePool k ;;
    let pixelOffset :=
      v2add (pixel sample)
            (mkVec2 (dist stratifiedSamplingRange rand 0) (dist stratifiedSamplingRange rand 1)) in
    qx <- fdiv (IZR x + v2x pixelOffset - 0.5) (IZR (resolution_x cam)) ;;
    qy <- fdiv (IZR y + v2y pixelOffset - 0.5) (IZR (resolution_x cam)) ;;
    let dir :=
      vsub (vsub (view cam)
                 (vscale (v2x (pixelLength cam) * (qx - 0.5)) (right cam)))
           (vscale (v2y (pixelLength cam) * (qy - 0.5)) (up cam)) in
    let dir := vscale (focalDistance cam) dir in
    let ap :=
      v2scale (sampleUnitDiskUniform
                 (v2add (dof sample)
                    (mkVec2 (dist stratifiedSamplingRange rand 2)
                            (dist stratifiedSamplingRange rand 3))))
              (aperture cam) in
    let dofOffset := vadd (vscale (v2x ap) (right cam)) (vscale (v2y ap) (up cam)) in
    Done (Some (index,
      {| ray := mkRay (vadd (position cam) dofOffset) (normalize (vsub dir dofOffset));
         colorThroughput := vec3_splat 1;
         directAccum := vec3_splat 0;
         indirectAccum := vec3_splat 0;
         pixelIndex := index;
         lastGeom := -1;
         remainingBounces := traceDepth;
         prevBounceNoMis := true;
         prevBounceSpecular := true;
         indirectIllum := false |})).

(** Threads of a launch with 2D blocks of [b] x [b] threads and
    [((w + b - 1) / b, (h + b - 1) / b)] blocks, row by row. *)
Definition grid2D (b w h : Z) : list (Z * Z) :=
  flat_map (fun y => map (fun x => (x, y)) (upto (((w + b - 1) / b) * b)))
           (upto (((h + b - 1) / b) * b)).

(** generateRayFromCamera<<<blocksPerGrid2d, blockSize2d>>>(...) with
    blockSize2d = (8, 8). *)
Definition launch_generateRayFromCamera (cam : Camera) (iter traceDepth : Z)
    (pathSegments : list PathSegment) : outcome (list PathSegment) :=
  fold_left
    (fun acc xy =>
       paths <- acc ;;
       w <- generateRayFromCamera cam iter traceDepth (fst xy) (snd xy) ;;
       match w with
       | None => Done paths
       | Some (index, segment) => store paths index segment
       end)
    (grid2D 8 (resolution_x cam) (resolution_y cam))
    (Done pathSegments).
End CameraRays.

(* ===================================================================== *)
(** * Launches *)
(* ===================================================================== *)

(** kernel<<<numBlocks, blockSize>>>: the threads
    [0 .. numBlocks * blockSize - 1], each applied to the device state left
    by the one before. *)
Definition launch1D {St : Type} (numBlocks blockSize : Z)
    (kernel : Z -> St -> outcome St) (s : St) : outcome St :=
  fold_left (fun acc i => s' <- acc ;; kernel i s')
            (upto (numBlocks * blockSize)) (Done s).

(** The same for a 2D grid of square blocks covering [w] x [h]. *)
Definition launch2D {St : Type} (b w h : Z)
    (kernel : Z -> Z -> St -> outcome St) (s : St) : outcome St :=
  fold_left (fun acc xy => s' <- acc ;; kernel (fst xy) (snd xy) s')
            (grid2D b w h) (Done s).

(** cudaMemset(a, 0, n * sizeof(A)) *)
Definition memset0 {A : Type} (zero : A) (a : list A) (n : Z) : outcome (list A) :=
  if (0 <=? n) && (n <=? Z.of_nat (length a))
  then Done (repeat zero (Z.to_nat n) ++ skipn (Z.to_nat n) a)
  else Undefined OutOfBounds.

(** cudaMemcpy(dst, src, n * sizeof(A), ...) *)
Definition memcpy {A : Type} (dst src : list A) (n : Z) : outcome (list A) :=
  if (0 <=? n) && (n <=? Z.of_nat (length dst)) && (n <=? Z.of_nat (length src))
  then Done (firstn (Z.to_nat n) src ++ skipn (Z.to_nat n) dst)
  else Undefined OutOfBounds.

(* ===================================================================== *)
(** * Intersection and shading kernels *)
(* ===================================================================== *)

Definition set_lastGeom (p : PathSegment) (g : Z) : PathSegment :=
  {| ray := ray p; colorThroughput := colorThroughput p;
     directAccum := directAccum p; indirectAccum := indirectAccum p;
     pixelIndex := pixelIndex p; lastGeom := g;
     remainingBounces := remainingBounces p;
     prevBounceNoMis := prevBounceNoMis p;
     prevBounceSpecular := prevBounceSpecular p;
     indirectIllum := indirectIllum p |}.

(** path.colorThroughput = glm::vec3(0.0f); path.remainingBounces = 0; *)
Definition terminate_miss (p : PathSegment) : PathSegment :=
  {| ray := ray p; colorThroughput := vec3_splat 0;
     directAccum := directAccum p; indirectAccum := indirectAccum p;
     pixelIndex := pixelIndex p; lastGeom := lastGeom p;
     remainingBounces := 0;
     prevBounceNoMis := prevBounceNoMis p;
     prevBounceSpecular := prevBounceSpecular p;
     indirectIllum := indirectIllum p |}.

(** path.indirectIllum = a; path.prevBounceNoMis = b;
    path.prevBounceSpecular = c; *)
Definition set_flags (p : PathSegment) (a b c : bool) : PathSegment :=
  {| ray := ray p; colorThroughput := colorThroughput p;
     directAccum := directAccum p; indirectAccum := indirectAccum p;
     pixelIndex := pixelIndex p; lastGeom := lastGeom p;
     remainingBounces := remainingBounces p;
     prevBounceNoMis := b; prevBounceSpecular := c; indirectIllum := a |}.

Definition zeroIntersection : ShadeableIntersection :=
  mkShadeableIntersection 0 0 vzero vzero.

Section TraceKernels.
Context {scene : Scene}.

(** The three arrays [computeIntersections] writes. *)
Definition IsectArrays : Type :=
  (list PathSegment * list ShadeableIntersection * list Z)%type.

Definition computeIntersections (depth numPaths : Z) (path_index : Z)
    (s : IsectArrays) : outcome IsectArrays :=
  let '(pathSegments, intersections, materialKeys) := s in
  if path_index >=? numPaths then Done s
  else
    pathSegment <- read pathSegments path_index ;;
    let '(hitGeomIndex, t_hit, normToken) :=
      traverseAABBTree (ray pathSegment) (lastGeom pathSegment) in
    pathSegments <- store pathSegments path_index (set_lastGeom pathSegment hitGeomIndex) ;;
    old <- read intersections path_index ;;
    let isect :=
      if hitGeomIndex =? -1 then
        mkShadeableIntersection (-1) (-1) (geometricNormal old) (shadingNormal old)
      else
        let '(geomNorm, shadeNorm) := computeNormals hitGeomIndex normToken in
        mkShadeableIntersection t_hit (geom_materialid hitGeomIndex) geomNorm shadeNorm in
    intersections <- store intersections path_index isect ;;
    materialKeys <- store materialKeys path_index (materialId isect) ;;
    Done (pathSegments, intersections, materialKeys).

(** What a thread of [computeIntersections] leaves in its slot of
    [pathSegments] and of [intersections], from the path and the
    intersection record it finds there. *)
Definition intersect_path (p : PathSegment) : PathSegment :=
  set_lastGeom p (fst (fst (traverseAABBTree (ray p) (lastGeom p)))).

Definition intersect_record (p : PathSegment) (old : ShadeableIntersection)
  : ShadeableIntersection :=
  let '(hitGeomIndex, t_hit, normToken) := traverseAABBTree (ray p) (lastGeom p) in
  if hitGeomIndex =? -1 then
    mkShadeableIntersection (-1) (-1) (geometricNormal old) (shadingNormal old)
  else
    let '(geomNorm, shadeNorm) := computeNormals hitGeomIndex normToken in
    mkShadeableIntersection t_hit (geom_materialid hitGeomIndex) geomNorm shadeNorm.

(** The branch of [shade] for a hit, after [sample] is read from the
    pool. *)
Definition shade_hit (iter depth : Z) (sample : IntersectionSample)
    (stratRange : R) (lightMis numLights : Z) (iSelf : Z)
    (intersection : ShadeableIntersection) (path : PathSegment) : PathSegment :=
  let rng := makeSeededRandomEngine iter iSelf depth in
  let s_out := v2add (out sample) (mkVec2 (dist stratRange rng 0) (dist stratRange rng 1)) in
  let s_mis1 := v2add (mis1 sample) (mkVec2 (dist stratRange rng 2) (dist stratRange rng 3)) in
  let s_mis2 := v2add (mis2 sample) (mkVec2 (dist stratRange rng 4) (dist stratRange rng 5)) in
  let intersectPoint :=
    vadd (origin (ray path)) (vscale (t intersection) (direction (ray path))) in
  let mat := materials (materialId intersection) in
  let isSpecular := mat_isSpecular mat in
  let misIsIndirect := indirectIllum path || negb (prevBounceSpecular path) in
  let path :=
    if negb (lightMis =? -1) && negb isSpecular then
      multipleImportanceSampling path intersectPoint
        (geometricNormal intersection) (shadingNormal intersection)
        mat s_mis1 s_mis2 lightMis numLights misIsIndirect
    else path in
  let '(path, isSpecularRay) :=
    scatterRay path intersectPoint
      (geometricNormal intersection) (shadingNormal intersection) mat s_out
      isSpecular
      ((depth =? 0) || (lightMis =? -1) || negb (geom_isTriangle (lastGeom path)))
      (indirectIllum path) in
  set_flags path misIsIndirect isSpecular isSpecularRay.

(** What [shade] does to the copy [path] of paths[iSelf] between the load
    and the store back.  The pointer argument [samplePool] of the kernel is
    [pool + offset], with [pool] the device array it points into. *)
Definition shade_path (iter depth : Z) (pool : list IntersectionSample)
    (offset : Z) (stratRange : R) (stratCount lightMis numLights : Z) (iSelf : Z)
    (intersection : ShadeableIntersection) (path : PathSegment)
  : outcome PathSegment :=
  if negb (materialId intersection =? -1) then
    k <- stratifiedSampleIndex_call iter (pixelIndex path) stratCount ;;
    sample <- read pool (offset + k) ;;
    Done (shade_hit iter depth sample stratRange lightMis numLights
                    iSelf intersection path)
  else Done (terminate_miss path).

Definition shade (iter depth numPaths : Z)
    (intersections : list ShadeableIntersection)
    (pool : list IntersectionSample) (offset : Z)
    (stratRange : R) (stratCount lightMis numLights : Z)
    (iSelf : Z) (paths : list PathSegment) : outcome (list PathSegment) :=
  if iSelf >=? numPaths then Done paths
  else
    intersection <- read intersections iSelf ;;
    path <- read paths iSelf ;;
    path <- shade_path iter depth pool offset stratRange stratCount
                       lightMis numLights iSelf intersection path ;;
    store paths iSelf path.
End TraceKernels.

(* ===================================================================== *)
(** * Compaction and sorting *)
(* ===================================================================== *)

(** struct IsRayTravelling *)
Definition IsRayTravelling (path : PathSegment) : bool := remainingBounces path >? 0.

(** thrust::partition(first, first + n, pred) - first, with the array it
    leaves.  thrust fixes no order inside the two groups; the order kept
    here is one of those it may produce. *)
Definition partition {A : Type} (pred : A -> bool) (a : list A) (n : Z) : list A * Z :=
  let active := firstn (Z.to_nat n) a in
  (filter pred active ++ filter (fun x => negb (pred x)) active ++ skipn (Z.to_nat n) a,
   Z.of_nat (length (filter pred active))).

Fixpoint insert_by_key {A : Type} (kv : Z * A) (l : list (Z * A)) : list (Z * A) :=
  match l with
  | [] => [kv]
  | kv' :: l' =>
      if fst kv <? fst kv' then kv :: l else kv' :: insert_by_key kv l'
  end.

(** thrust::sort_by_key(keys, keys + n, values): the first [n] keys in
    ascending order, the first [n] values moved with their keys. *)
Definition sort_by_key {A : Type} (keys : list Z) (values : list A) (n : Z)
  : list Z * list A :=
  let k := Z.to_nat n in
  let sorted := fold_right insert_by_key [] (combine (firstn k keys) (firstn k values)) in
  (map fst sorted ++ skipn k keys, map snd sorted ++ skipn k values).

(* ===================================================================== *)
(** * Device memory behind the static handles *)
(* ===================================================================== *)

(** The cudaMalloc'ed arrays of glm::vec3 of [pathtraceInit], named after the
    handle each is first assigned to, and those of float. *)
Inductive vbuf : Type :=
| A_directIllum | A_indirectIllum | A_normalBuffer | A_positionBuffer
| A_filteredDirectSpecular | A_filteredIndirectDiffuse | A_filteredTemp.

Inductive fbuf : Type :=
| A_directIllumSqr | A_indirectIllumSqr | A_stddevBuffer.

Definition vbuf_eqb (a b : vbuf) : bool :=
  match a, b with
  | A_directIllum, A_directIllum | A_indirectIllum, A_indirectIllum
  | A_normalBuffer, A_normalBuffer | A_positionBuffer, A_positionBuffer
  | A_filteredDirectSpecular, A_filteredDirectSpecular
  | A_filteredIndirectDiffuse, A_filteredIndirectDiffuse
  | A_filteredTemp, A_filteredTemp => true
  | _, _ => false
  end.

Definition fbuf_eqb (a b : fbuf) : bool :=
  match a, b with
  | A_directIllumSqr, A_directIllumSqr | A_indirectIllumSqr, A_indirectIllumSqr
  | A_stddevBuffer, A_stddevBuffer => true
  | _, _ => false
  end.

Record Memory : Type := mkMemory {
  m_directIllum : list vec3;
  m_indirectIllum : list vec3;
  m_normalBuffer : list vec3;
  m_positionBuffer : list vec3;
  m_filteredDirectSpecular : list vec3;
  m_filteredIndirectDiffuse : list vec3;
  m_filteredTemp : list vec3;
  m_directIllumSqr : list R;
  m_indirectIllumSqr : list R;
  m_stddevBuffer : list R
}.

(** The array a handle value points to. *)
Definition vmem (m : Memory) (b : vbuf) : list vec3 :=
  match b with
  | A_directIllum => m_directIllum m
  | A_indirectIllum => m_indirectIllum m
  | A_normalBuffer => m_normalBuffer m
  | A_positionBuffer => m_positionBuffer m
  | A_filteredDirectSpecular => m_filteredDirectSpecular m
  | A_filteredIndirectDiffuse => m_filteredIndirectDiffuse m
  | A_filteredTemp => m_filteredTemp m
  end.

Definition fmem (m : Memory) (b : fbuf) : list R :=
  match b with
  | A_directIllumSqr => m_directIllumSqr m
  | A_indirectIllumSqr => m_indirectIllumSqr m
  | A_stddevBuffer => m_stddevBuffer m
  end.

(** The memory with the array behind [b] replaced by [a]. *)
Definition vset (m : Memory) (b : vbuf) (a : list vec3) : Memory :=
  let pick b' := if vbuf_eqb b b' then a else vmem m b' in
  mkMemory (pick A_directIllum) (pick A_indirectIllum) (pick A_normalBuffer)
           (pick A_positionBuffer) (pick A_filteredDirectSpecular)
           (pick A_filteredIndirectDiffuse) (pick A_filteredTemp)
           (m_directIllumSqr m) (m_indirectIllumSqr m) (m_stddevBuffer m).

Definition fset (m : Memory) (b : fbuf) (a : list R) : Memory :=
  let pick b' := if fbuf_eqb b b' then a else fmem m b' in
  mkMemory (m_directIllum m) (m_indirectIllum m) (m_normalBuffer m)
           (m_positionBuffer m) (m_filteredDirectSpecular m)
           (m_filteredIndirectDiffuse m) (m_filteredTemp m)
           (pick A_directIllumSqr) (pick A_indirectIllumSqr) (pick A_stddevBuffer).

(** The static handles of the translation unit that point to those arrays. *)
Record Handles : Type := mkHandles {
  dev_directIllum : vbuf;
  dev_indirectIllum : vbuf;
  dev_directIllumSqr : fbuf;
  dev_indirectIllumSqr : fbuf;
  dev_normalBuffer : vbuf;
  dev_positionBuffer : vbuf;
  dev_filteredDirectSpecular : vbuf;
  dev_filteredIndirectDiffuse : vbuf;
  dev_filteredTemp : vbuf;
  dev_stddevBuffer : fbuf
}.

(** The handles as [pathtraceInit] leaves them. *)
Definition pathtraceInit_handles : Handles :=
  {| dev_directIllum := A_directIllum;
     dev_indirectIllum := A_indirectIllum;
     dev_directIllumSqr := A_directIllumSqr;
     dev_indirectIllumSqr := A_indirectIllumSqr;
     dev_normalBuffer := A_normalBuffer;
     dev_positionBuffer := A_positionBuffer;
     dev_filteredDirectSpecular := A_filteredDirectSpecular;
     dev_filteredIndirectDiffuse := A_filteredIndirectDiffuse;
     dev_filteredTemp := A_filteredTemp;
     dev_stddevBuffer := A_stddevBuffer |}.

(* ===================================================================== *)
(** * Final gather *)
(* ===================================================================== *)

(** buf[i] += v on an array of glm::vec3, and on an array of float. *)
Definition vadd_at (m : Memory) (buf : vbuf) (i : Z) (v : vec3) : outcome Memory :=
  a <- update (vmem m buf) i (fun old => vadd old v) ;; Done (vset m buf a).
Definition fadd_at (m : Memory) (buf : fbuf) (i : Z) (v : R) : outcome Memory :=
  a <- update (fmem m buf) i (fun old => (old + v)%R) ;; Done (fset m buf a).

Definition finalGather (nPaths : Z) (direct : vbuf) (directSqr : fbuf)
    (indirect : vbuf) (indirectSqr : fbuf) (iterationPaths : list PathSegment)
    (index : Z) (m : Memory) : outcome Memory :=
  if index <? nPaths then
    iterationPath <- read iterationPaths index ;;
    m <- vadd_at m direct (pixelIndex iterationPath) (directAccum iterationPath) ;;
    m <- fadd_at m directSqr (pixelIndex iterationPath) (length2 (directAccum iterationPath)) ;;
    m <- vadd_at m indirect (pixelIndex iterationPath) (indirectAccum iterationPath) ;;
    fadd_at m indirectSqr (pixelIndex iterationPath) (length2 (indirectAccum iterationPath))
  else Done m.

(* ===================================================================== *)
(** * One render iteration *)
(* ===================================================================== *)

(** The static state of the translation unit that [pathtrace] and the
    denoiser work on. *)
Record Device : Type := mkDevice {
  handles : Handles;
  memory : Memory;
  dev_paths : list PathSegment;
  dev_intersections : list ShadeableIntersection;
  dev_materialSortBuffer : list Z;
  dev_materialSortBuffer2 : list Z;
  firstBounceCached : bool;
  dev_firstBounceIntersections : list ShadeableIntersection
}.

Section Pathtrace.
Context {scene : Scene}.

(** The body of the loop [for (int depth = 0; numPaths > 0; ++depth)]:
    the device state and the value of [numPaths] it leaves. *)
Definition depthIteration (iter lightMis numLights pixelcount : Z)
    (depth numPaths : Z) (d : Device) : outcome (Device * Z) :=
  isects <- memset0 zeroIntersection (dev_intersections d) pixelcount ;;
  let numblocksPathSegmentTracing := Z.quot (numPaths + 128 - 1) 128 in
  '(paths, isects, keys, cached, firstBounce) <-
    (if (depth =? 0) && firstBounceCached d then
       isects <- memcpy isects (dev_firstBounceIntersections d) pixelcount ;;
       Done (dev_paths d, isects, dev_materialSortBuffer d,
             firstBounceCached d, dev_firstBounceIntersections d)
     else
       '(paths, isects, keys) <-
         launch1D numblocksPathSegmentTracing 128
           (computeIntersections depth numPaths)
           (dev_paths d, isects, dev_materialSortBuffer d) ;;
       if cacheFirstBounce && (depth =? 0) then
         firstBounce <- memcpy (dev_firstBounceIntersections d) isects pixelcount ;;
         Done (paths, isects, keys, true, firstBounce)
       else
         Done (paths, isects, keys, firstBounceCached d,
               dev_firstBounceIntersections d)) ;;
  '(paths, isects, keys, keys2) <-
    (if sortByMaterial then
       keys2 <- memcpy (dev_materialSortBuffer2 d) keys numPaths ;;
       let '(keys, isects) := sort_by_key keys isects numPaths in
       let '(keys2, paths) := sort_by_key keys2 paths numPaths in
       Done (paths, isects, keys, keys2)
     else Done (paths, isects, keys, dev_materialSortBuffer2 d)) ;;
  paths <-
    launch1D numblocksPathSegmentTracing 128
      (shade iter depth numPaths isects
         samplePool (depth * numStratifiedSamples)
         stratifiedSamplingRange numStratifiedSamples lightMis numLights)
      paths ;;
  let '(paths, numPaths) := partition IsRayTravelling paths numPaths in
  Done ({| handles := handles d; memory := memory d;
           dev_paths := paths; dev_intersections := isects;
           dev_materialSortBuffer := keys; dev_materialSortBuffer2 := keys2;
           firstBounceCached := cached;
           dev_firstBounceIntersections := firstBounce |},
        numPaths).

(** The loop, with the number of iterations it may still run; [None] when
    that number is used up before [numPaths] is [0].  The result is the
    state at loop exit and the value of [depth] there, which is the number
    of iterations run from [depth = 0]. *)
Fixpoint depthLoop (fuel : nat) (iter lightMis numLights pixelcount : Z)
    (depth numPaths : Z) (d : Device) : option (outcome (Device * Z)) :=
  if numPaths >? 0 then
    match fuel with
    | O => None
    | S fuel' =>
        match depthIteration iter lightMis numLights pixelcount depth numPaths d with
        | Done (d', numPaths') =>
            depthLoop fuel' iter lightMis numLights pixelcount (depth + 1) numPaths' d'
        | Aborted => Some Aborted
        | Undefined f => Some (Undefined f)
        end
    end
  else Some (Done (d, depth)).

(** finalGather<<<numBlocksPixels, blockSize1d>>>(pixelcount, ...) *)
Definition launch_finalGather (pixelcount : Z) (d : Device) : outcome Memory :=
  launch1D (Z.quot (pixelcount + 128 - 1) 128) 128
    (finalGather pixelcount
       (dev_directIllum (handles d)) (dev_directIllumSqr (handles d))
       (dev_indirectIllum (handles d)) (dev_indirectIllumSqr (handles d))
       (dev_paths d))
    (memory d).

Definition with_paths (d : Device) (paths : list PathSegment) : Device :=
  {| handles := handles d; memory := memory d;
     dev_paths := paths; dev_intersections := dev_intersections d;
     dev_materialSortBuffer := dev_materialSortBuffer d;
     dev_materialSortBuffer2 := dev_materialSortBuffer2 d;
     firstBounceCached := firstBounceCached d;
     dev_firstBounceIntersections := dev_firstBounceIntersections d |}.

Definition with_memory (d : Device) (m : Memory) : Device :=
  {| handles := handles d; memory := m;
     dev_paths := dev_paths d; dev_intersections := dev_intersections d;
     dev_materialSortBuffer := dev_materialSortBuffer d;
     dev_materialSortBuffer2 := dev_materialSortBuffer2 d;
     firstBounceCached := firstBounceCached d;
     dev_firstBounceIntersections := dev_firstBounceIntersections d |}.

(** void pathtrace(int frame, int iter, int lightMis, int numLights):
    the device state it leaves and the number of depth iterations run. *)
Definition pathtrace (fuel : nat) (cam : Camera) (frame iter lightMis numLights : Z)
    (d : Device) : option (outcome (Device * Z)) :=
  let pixelcount := resolution_x cam * resolution_y cam in
  match launch_generateRayFromCamera cam iter traceDepth (dev_paths d) with
  | Done paths =>
      let numPaths := pixelcount in
      match depthLoop fuel iter lightMis numLights pixelcount 0 numPaths
                      (with_paths d paths) with
      | Some (Done (d', depth)) =>
          Some (m <- launch_finalGather pixelcount d' ;; Done (with_memory d' m, depth))
      | Some Aborted => Some Aborted
      | Some (Undefined f) => Some (Undefined f)
      | None => None
      end
  | Aborted => Some Aborted
  | Undefined f => Some (Undefined f)
  end.
End Pathtrace.

(* ===================================================================== *)
(** * A-trous denoiser: kernels *)
(* ===================================================================== *)

(** The kernels below take the arrays behind their [const] pointer
    parameters as they are at the launch, and thread the array behind the
    output pointer through the threads. *)

(** template <typename T> T &texelFetch(T *tex, int width, int height, int x, int y) *)
Definition texelFetch {A : Type} (tex : list A) (width height x y : Z) : outcome A :=
  let x := clampZ x 0 (width - 1) in
  let y := clampZ y 0 (height - 1) in
  read tex (y * width + x).

(** glm::floor on a float: the largest integer not above it, as a float. *)
Definition floorf (r : R) : R := IZR (Zfloor r).

(** [x + 1] and [y + 1] are sums of [int]s: they wrap at the end of the
    range. *)
Definition textureSampleBilinear (tex : list vec3) (width height : Z)
    (pixelX pixelY : R) : outcome vec3 :=
  let pixelX := (pixelX - 0.5)%R in
  let pixelY := (pixelY - 0.5)%R in
  let x := float_to_int (floorf pixelX) in
  let y := float_to_int (floorf pixelY) in
  let fx := (pixelX - IZR x)%R in
  let fy := (pixelY - IZR y)%R in
  p11 <- texelFetch tex width height x y ;;
  p12 <- texelFetch tex width height (to_int (x + 1)) y ;;
  p21 <- texelFetch tex width height x (to_int (y + 1)) ;;
  p22 <- texelFetch tex width height (to_int (x + 1)) (to_int (y + 1)) ;;
  Done (vmix (vmix p11 p12 fx) (vmix p21 p22 fx) fy).

(** const float offsets[5]{ -2 step, -1 step, 0, 1 step, 2 step },
    weights[5]{ 0.0625f, 0.25f, 0.375f, 0.25f, 0.0625f }; *)
Definition aTrous_offsets (stepSize : R) : list R :=
  [(-2 * stepSize)%R; (-1 * stepSize)%R; 0%R; (1 * stepSize)%R; (2 * stepSize)%R].
Definition aTrous_weights : list R := [0.0625%R; 0.25%R; 0.375%R; 0.25%R; 0.0625%R].

Section ATrousIter.
Variables (color normal position : list vec3) (stddev : list R).
Variables (width height : Z) (stepSize : R).
Variables (colorWeightSqr normalWeightSqr positionWeightSqr : R).

(** The body of the inner loop at [(x, y)], for the pixel with centre
    [(centerX, centerY)]: the new [(totalWeight, totalColor)]. *)
Definition aTrousIter_tap (centerColor centerNormal centerPosition : vec3)
    (centerStddev centerX centerY : R) (x y : nat) (acc : R * vec3)
  : outcome (R * vec3) :=
  let '(totalWeight, totalColor) := acc in
  let curWeight := (nth x aTrous_weights 0 * nth y aTrous_weights 0)%R in
  '(curWeight, curColor) <-
    (if Nat.eqb x 2 && Nat.eqb y 2 then Done (curWeight, centerColor)
     else
       let pixelX := (centerX + nth x (aTrous_offsets stepSize) 0)%R in
       let pixelY := (centerY + nth y (aTrous_offsets stepSize) 0)%R in
       curColor <- textureSampleBilinear color width height pixelX pixelY ;;
       colorExp <- fdiv (length2 (vsub curColor centerColor))
                        (colorWeightSqr * centerStddev + 0.01) ;;
       curNormal <- textureSampleBilinear normal width height pixelX pixelY ;;
       normalExp <- fdiv (length2 (vsub curNormal centerNormal))
                         (normalWeightSqr * stepSize * stepSize) ;;
       curPosition <- textureSampleBilinear position width height pixelX pixelY ;;
       positionExp <- fdiv (length2 (vsub curPosition centerPosition))
                           positionWeightSqr ;;
       Done ((curWeight * exp (- (colorExp + normalExp + positionExp)))%R, curColor)) ;;
  Done ((totalWeight + curWeight)%R, vadd totalColor (vscale curWeight curColor)).

(** for (int x = 0; x < 5; ++x) for (int y = 0; y < 5; ++y) { ... } *)
Definition aTrousIter_loops (centerColor centerNormal centerPosition : vec3)
    (centerStddev centerX centerY : R) : outcome (R * vec3) :=
  fold_left
    (fun acc x =>
       fold_left
         (fun acc y =>
            a <- acc ;;
            aTrousIter_tap centerColor centerNormal centerPosition
                           centerStddev centerX centerY x y a)
         (seq 0 5) acc)
    (seq 0 5) (Done (0%R, vec3_splat 0)).

(** The value the thread of pixel [(ix, iy)] stores in [colorOut]. *)
Definition aTrousIter_pixel (ix iy : Z) : outcome vec3 :=
  let pixelIndex := iy * width + ix in
  centerColor <- read color pixelIndex ;;
  centerNormal <- read normal pixelIndex ;;
  centerPosition <- read position pixelIndex ;;
  centerStddev <- read stddev pixelIndex ;;
  let centerX := (IZR ix + 0.5)%R in
  let centerY := (IZR iy + 0.5)%R in
  '(totalWeight, totalColor) <-
    aTrousIter_loops centerColor centerNormal centerPosition
                     centerStddev centerX centerY ;;
  vdivs totalColor totalWeight.

Definition aTrousIter (ix iy : Z) (colorOut : list vec3) : outcome (list vec3) :=
  if (ix >=? width) || (iy >=? height) then Done colorOut
  else
    c <- aTrousIter_pixel ix iy ;;
    store colorOut (iy * width + ix) c.
End ATrousIter.

Definition aTrousCopyBuffer (accumBuf : list vec3) (numPixels iter : Z)
    (iSelf : Z) (target : list vec3) : outcome (list vec3) :=
  if iSelf >=? numPixels then Done target
  else
    a <- read accumBuf iSelf ;;
    c <- vdivs a (IZR iter) ;;
    store target iSelf c.

(** The value [aTrousComputeVariance] stores in [stddev] for one pixel. *)
Definition aTrousComputeVariance_pixel (pixColorTotal : vec3)
    (pixColorSqrTotal : R) (iter : Z) : outcome R :=
  if iter >? 1 then
    mean2 <- fdiv (length2 pixColorTotal) (IZR iter) ;;
    v <- fdiv (pixColorSqrTotal - mean2) (IZR (iter - 1)) ;;
    Done (sqrt (Rmax 0 v))
  else Done 1%R.

Definition aTrousComputeVariance (colorTotal : list vec3) (colorSqr : list R)
    (width height iter : Z) (ix iy : Z) (stddev : list R) : outcome (list R) :=
  if (ix >=? width) || (iy >=? height) then Done stddev
  else
    let pixelIndex := iy * width + ix in
    pixColorTotal <- read colorTotal pixelIndex ;;
    pixColorSqrTotal <- read colorSqr pixelIndex ;;
    s <- aTrousComputeVariance_pixel pixColorTotal pixColorSqrTotal iter ;;
    store stddev pixelIndex s.

(* ===================================================================== *)
(** * Buffer identifiers, buffer selection *)
(* ===================================================================== *)

(** enum class BufferType of pathtrace.h, with the enumerators this file
    names.  [UnlistedBufferType raw] is a value of the enumeration's
    underlying integer type that is none of them; a cast produces one. *)
Inductive BufferType : Type :=
| DirectSpecularIllumination
| IndirectDiffuseIllumination
| DirectSpecularIlluminationVariance
| IndirectDiffuseIlluminationVariance
| FullIllumination
| Normal
| Position
| FilteredDirectSpecular
| FilteredIndirectDiffuse
| FilteredColor
| UnlistedBufferType (raw : Z).

(** The identifiers of the closed set. *)
Definition recognized (buf : BufferType) : bool :=
  match buf with UnlistedBufferType _ => false | _ => true end.

(** The value of a pointer variable. *)
Inductive pointer (B : Type) : Type :=
| Null                 (* nullptr *)
| Indeterminate        (* never assigned *)
| PointsTo (b : B).

Arguments Null {B}.
Arguments Indeterminate {B}.
Arguments PointsTo {B} b.

(** What a [const void *] may point to. *)
Inductive anybuf : Type :=
| VecArray (b : vbuf)
| FloatArray (b : fbuf).

(** void getBuffers(BufferType buf, const glm::vec3 **buf1, const void **buf2):
    from the values of [*buf1] and [*buf2] at the call to their values at the
    return.  No static is assigned. *)
Definition getBuffers (h : Handles) (buf : BufferType)
    (buf1 : pointer vbuf) (buf2 : pointer anybuf) : pointer vbuf * pointer anybuf :=
  let buf2 := Null in
  match buf with
  | DirectSpecularIlluminationVariance =>
      (PointsTo (dev_directIllum h), PointsTo (FloatArray (dev_directIllumSqr h)))
  | DirectSpecularIllumination => (PointsTo (dev_directIllum h), buf2)
  | IndirectDiffuseIlluminationVariance =>
      (PointsTo (dev_indirectIllum h), PointsTo (FloatArray (dev_indirectIllumSqr h)))
  | IndirectDiffuseIllumination => (PointsTo (dev_indirectIllum h), buf2)
  | FullIllumination =>
      (PointsTo (dev_directIllum h), PointsTo (VecArray (dev_indirectIllum h)))
  | Normal => (PointsTo (dev_normalBuffer h), buf2)
  | Position => (PointsTo (dev_positionBuffer h), buf2)
  | FilteredDirectSpecular => (PointsTo (dev_filteredDirectSpecular h), buf2)
  | FilteredIndirectDiffuse => (PointsTo (dev_filteredIndirectDiffuse h), buf2)
  | FilteredColor =>
      (PointsTo (dev_filteredDirectSpecular h),
       PointsTo (VecArray (dev_filteredIndirectDiffuse h)))
  | UnlistedBufferType _ => (buf1, buf2)
  end.

(** The array of glm::vec3 a pointer gives access to. *)
Definition deref_vec3 (m : Memory) (p : pointer vbuf) : outcome (list vec3) :=
  match p with PointsTo b => Done (vmem m b) | _ => Undefined BadPointer end.

(** static_cast<const glm::vec3*>(buf2) and static_cast<const float*>(buf2) *)
Definition deref_as_vec3 (m : Memory) (p : pointer anybuf) : outcome (list vec3) :=
  match p with PointsTo (VecArray b) => Done (vmem m b) | _ => Undefined BadPointer end.
Definition deref_as_float (m : Memory) (p : pointer anybuf) : outcome (list R) :=
  match p with PointsTo (FloatArray b) => Done (fmem m b) | _ => Undefined BadPointer end.

(** [if (buf2)] *)
Definition is_nonnull {B : Type} (p : pointer B) : bool :=
  match p with Null => false | _ => true end.

(* ===================================================================== *)
(** * Display and readback transform *)
(* ===================================================================== *)

Definition processTexel (m : Memory) (buf1 : pointer vbuf) (buf2 : pointer anybuf)
    (index : Z) (bufType : BufferType) (iter : Z) : outcome vec3 :=
  a1 <- deref_vec3 m buf1 ;;
  pix1 <- read a1 index ;;
  match bufType with
  | DirectSpecularIlluminationVariance
  | IndirectDiffuseIlluminationVariance =>
      a2 <- deref_as_float m buf2 ;;
      sumSqr <- read a2 index ;;
      mean2 <- fdiv (length2 pix1) (IZR iter) ;;
      variance <- fdiv (sumSqr - mean2) (IZR (iter - 1)) ;;
      Done (vpow (mkVec3 variance 0 0) (vec3_splat 0.3))
  | DirectSpecularIllumination
  | IndirectDiffuseIllumination
  | FullIllumination =>
      pix1 <- (if is_nonnull buf2 then
                 a2 <- deref_as_vec3 m buf2 ;;
                 p2 <- read a2 index ;;
                 Done (vadd pix1 p2)
               else Done pix1) ;;
      raw <- vdivs pix1 (IZR iter) ;;
      Done (vpow raw (vec3_splat (1 / 2.2)))
  | Normal => Done (vscale 0.5 (vadds pix1 1))
  | Position =>
      let scale := 30%R in
      vdivs (vadds pix1 (0.5 * scale)) scale
  | FilteredDirectSpecular
  | FilteredIndirectDiffuse => Done (vpow pix1 (vec3_splat (1 / 2.2)))
  | FilteredColor =>
      a2 <- deref_as_vec3 m buf2 ;;
      p2 <- read a2 index ;;
      Done (vpow (vadd pix1 p2) (vec3_splat (1 / 2.2)))
  | UnlistedBufferType _ => Undefined MissingReturn
  end.

(** __global__ void processImage(out, in1, in2, resolution, iter, bufType) *)
Definition processImage (m : Memory) (in1 : pointer vbuf) (in2 : pointer anybuf)
    (res_x res_y iter : Z) (bufType : BufferType)
    (x y : Z) (out : list vec3) : outcome (list vec3) :=
  if (x <? res_x) && (y <? res_y) then
    let index := x + y * res_x in
    c <- processTexel m in1 in2 index bufType iter ;;
    store out index c
  else Done out.

(** void saveBufferState(BufferType buf, int iter): the image copied to the
    host; [tmpBuffer] is the content of the fresh allocation. *)
Definition saveBufferState (cam : Camera) (buf : BufferType) (iter : Z)
    (tmpBuffer : list vec3) (d : Device) : outcome (list vec3) :=
  let '(buf1, buf2) := getBuffers (handles d) buf Indeterminate Indeterminate in
  launch2D 8 (resolution_x cam) (resolution_y cam)
    (processImage (memory d) buf1 buf2 (resolution_x cam) (resolution_y cam) iter buf)
    tmpBuffer.

(* ===================================================================== *)
(** * A-trous denoiser: host side *)
(* ===================================================================== *)

(** glm::vec3 **resultBuf: the static handle it is the address of. *)
Inductive result_handle : Type :=
| addr_filteredDirectSpecular
| addr_filteredIndirectDiffuse.

(** *resultBuf *)
Definition get_result (h : Handles) (r : result_handle) : vbuf :=
  match r with
  | addr_filteredDirectSpecular => dev_filteredDirectSpecular h
  | addr_filteredIndirectDiffuse => dev_filteredIndirectDiffuse h
  end.

(** std::swap( *resultBuf, dev_filteredTemp) *)
Definition swap_result_temp (h : Handles) (r : result_handle) : Handles :=
  {| dev_directIllum := dev_directIllum h;
     dev_indirectIllum := dev_indirectIllum h;
     dev_directIllumSqr := dev_directIllumSqr h;
     dev_indirectIllumSqr := dev_indirectIllumSqr h;
     dev_normalBuffer := dev_normalBuffer h;
     dev_positionBuffer := dev_positionBuffer h;
     dev_filteredDirectSpecular :=
       match r with
       | addr_filteredDirectSpecular => dev_filteredTemp h
       | addr_filteredIndirectDiffuse => dev_filteredDirectSpecular h
       end;
     dev_filteredIndirectDiffuse :=
       match r with
       | addr_filteredDirectSpecular => dev_filteredIndirectDiffuse h
       | addr_filteredIndirectDiffuse => dev_filteredTemp h
       end;
     dev_filteredTemp := get_result h r;
     dev_stddevBuffer := dev_stddevBuffer h |}.

Definition with_handles_memory (d : Device) (h : Handles) (m : Memory) : Device :=
  {| handles := h; memory := m;
     dev_paths := dev_paths d; dev_intersections := dev_intersections d;
     dev_materialSortBuffer := dev_materialSortBuffer d;
     dev_materialSortBuffer2 := dev_materialSortBuffer2 d;
     firstBounceCached := firstBounceCached d;
     dev_firstBounceIntersections := dev_firstBounceIntersections d |}.

(** The if / else if / else at the head of [aTrous]:
    [(colorBuf, colorSqrBuf, resultBuf)]. *)
Definition aTrous_select (h : Handles) (buf : BufferType)
  : outcome (vbuf * fbuf * result_handle) :=
  match buf with
  | DirectSpecularIllumination =>
      Done (dev_indirectIllum h, dev_indirectIllumSqr h, addr_filteredIndirectDiffuse)
  | IndirectDiffuseIllumination =>
      Done (dev_directIllum h, dev_directIllumSqr h, addr_filteredDirectSpecular)
  | _ => Aborted
  end.

(** for (int i = 0; i < levels; ++i) { aTrousIter<<<...>>>(...);
    stepSize *= 2.0f; std::swap( *resultBuf, dev_filteredTemp); },
    with [n] iterations left. *)
Fixpoint aTrous_levels (n : nat) (res_x res_y : Z) (resultBuf : result_handle)
    (stepSize colorWeight normalWeight positionWeight : R) (d : Device)
  : outcome Device :=
  match n with
  | O => Done d
  | S n' =>
      let h := handles d in
      let m := memory d in
      out <- launch2D 16 res_x res_y
               (aTrousIter (vmem m (get_result h resultBuf))
                  (vmem m (dev_normalBuffer h)) (vmem m (dev_positionBuffer h))
                  (fmem m (dev_stddevBuffer h)) res_x res_y stepSize
                  (colorWeight * colorWeight) (normalWeight * normalWeight)
                  (positionWeight * positionWeight))
               (vmem m (dev_filteredTemp h)) ;;
      aTrous_levels n' res_x res_y resultBuf (stepSize * 2)
        colorWeight normalWeight positionWeight
        (with_handles_memory d (swap_result_temp h resultBuf)
                             (vset m (dev_filteredTemp h) out))
  end.

(** void aTrous(BufferType buf, int levels, float radius, int iter,
                float colorWeight, float normalWeight, float positionWeight) *)
Definition aTrous (cam : Camera) (buf : BufferType) (levels : Z) (radius : R)
    (iter : Z) (colorWeight normalWeight positionWeight : R) (d : Device)
  : outcome Device :=
  let h := handles d in
  let m := memory d in
  let numPixels := resolution_x cam * resolution_y cam in
  let numBlocks := Z.quot (numPixels + 128 - 1) 128 in
  '(colorBuf, colorSqrBuf, resultBuf) <- aTrous_select h buf ;;
  target <- launch1D numBlocks 128
              (aTrousCopyBuffer (vmem m colorBuf) numPixels iter)
              (vmem m (get_result h resultBuf)) ;;
  let m := vset m (get_result h resultBuf) target in
  sd <- launch2D 16 (resolution_x cam) (resolution_y cam)
          (aTrousComputeVariance (vmem m colorBuf) (fmem m colorSqrBuf)
             (resolution_x cam) (resolution_y cam) iter)
          (fmem m (dev_stddevBuffer h)) ;;
  let m := fset m (dev_stddevBuffer h) sd in
  stepSize <- fdiv (0.5 * radius) (powf 2 (IZR levels)) ;;
  aTrous_levels (Z.to_nat levels) (resolution_x cam) (resolution_y cam) resultBuf
    stepSize colorWeight normalWeight positionWeight (with_handles_memory d h m).

(* ===================================================================== *)
(** * Formulas of the specification *)
(* ===================================================================== *)

(** The unbiased sample variance [(sumSqr - |sum|^2 / iter) / (iter - 1)]
    of [iter] samples with sum [sum] and sum of squared magnitudes
    [sumSqr]. *)
Definition unbiasedSampleVariance (sum : vec3) (sumSqr : R) (iter : Z) : R :=
  ((sumSqr - length2 sum / IZR iter) / IZR (iter - 1))%R.

(** The two variance buffer types. *)
Definition is_variance_type (buf : BufferType) : bool :=
  match buf with
  | DirectSpecularIlluminationVariance | IndirectDiffuseIlluminationVariance => true
  | _ => false
  end.

(** Sums of a list of reals and of vectors. *)
Definition Rsum (l : list R) : R := fold_right Rplus 0%R l.
Definition vsum (l : list vec3) : vec3 := fold_right vadd vzero l.

(** A texel with clamped coordinates, and the bilinear sample at a point
    given in pixel coordinates (texel centres at half-integers): the values
    [texelFetch] and [textureSampleBilinear] return on an image of
    [width * height] texels. *)
Definition texel (tex : list vec3) (width height x y : Z) : vec3 :=
  load vzero tex (clampZ y 0 (height - 1) * width + clampZ x 0 (width - 1)).

Definition bilinear (tex : list vec3) (width height : Z) (px py : R) : vec3 :=
  let x := float_to_int (floorf (px - 0.5)) in
  let y := float_to_int (floorf (py - 0.5)) in
  let fx := (px - 0.5 - IZR x)%R in
  let fy := (py - 0.5 - IZR y)%R in
  vmix (vmix (texel tex width height x y)
             (texel tex width height (to_int (x + 1)) y) fx)
       (vmix (texel tex width height x (to_int (y + 1)))
             (texel tex width height (to_int (x + 1)) (to_int (y + 1))) fx)
       fy.

(** A position in pixel coordinates that [textureSampleBilinear] converts
    without leaving the range of [int]. *)
Definition samplable (p : R) : Prop := (- 2 ^ 31 <= p - 0.5 < 2 ^ 31 - 1)%R.

(** The binomial weights along one axis, and the 5 x 5 tap grid. *)
Definition binomial : list R := [0.0625%R; 0.25%R; 0.375%R; 0.25%R; 0.0625%R].
Definition taps5x5 : list (nat * nat) := list_prod (seq 0 5) (seq 0 5).

(** The weighted average of a filter level.  [estimate] is the array of
    per-pixel values that scale the colour tolerance: the kernel is handed
    the array of deviations that phase 1 stores; the specification names the
    variance. *)
Section FilterLevel.
Variables (color normal position : list vec3) (estimate : list R).
Variables (width height : Z) (stepSize : R).
Variables (colorWeight normalWeight positionWeight : R).
Variables (ix iy : Z).

Definition centerIndex : Z := iy * width + ix.
Definition centerColor : vec3 := load vzero color centerIndex.
Definition centerNormal : vec3 := load vzero normal centerIndex.
Definition centerPosition : vec3 := load vzero position centerIndex.
Definition centerEstimate : R := load 0%R estimate centerIndex.

(** Tap [k] of an axis lies [k - 2] steps from the centre of the pixel. *)
Definition tapX (x : nat) : R := (IZR ix + 0.5 + (INR x - 2) * stepSize)%R.
Definition tapY (y : nat) : R := (IZR iy + 0.5 + (INR y - 2) * stepSize)%R.

Definition colorTerm (x y : nat) : R :=
  (length2 (vsub (bilinear color width height (tapX x) (tapY y)) centerColor)
   / (colorWeight * colorWeight * centerEstimate + 0.01))%R.
Definition normalTerm (x y : nat) : R :=
  (length2 (vsub (bilinear normal width height (tapX x) (tapY y)) centerNormal)
   / (normalWeight * normalWeight * (stepSize * stepSize)))%R.
Definition positionTerm (x y : nat) : R :=
  (length2 (vsub (bilinear position width height (tapX x) (tapY y)) centerPosition)
   / (positionWeight * positionWeight))%R.

Definition is_center (xy : nat * nat) : bool :=
  Nat.eqb (fst xy) 2 && Nat.eqb (snd xy) 2.

(** The weight and the colour of a tap. *)
Definition tapWeight (xy : nat * nat) : R :=
  if is_center xy then (0.375 * 0.375)%R
  else (nth (fst xy) binomial 0 * nth (snd xy) binomial 0
        * exp (- (colorTerm (fst xy) (snd xy) + normalTerm (fst xy) (snd xy)
                  + positionTerm (fst xy) (snd xy))))%R.
Definition tapColor (xy : nat * nat) : vec3 :=
  if is_center xy then centerColor
  else bilinear color width height (tapX (fst xy)) (tapY (snd xy)).

(** The weighted average over the tap grid, normalized by the total weight. *)
Definition totalTapWeight : R := Rsum (map tapWeight taps5x5).
Definition weightedAverage : vec3 :=
  vscale (/ totalTapWeight)
         (vsum (map (fun xy => vscale (tapWeight xy) (tapColor xy)) taps5x5)).
End FilterLevel.


(** The handles to arrays of glm::vec3. [pathtraceInit] gives each its own
    allocation. *)
Definition vec_handles (h : Handles) : list vbuf :=
  [ dev_directIllum h; dev_indirectIllum h; dev_normalBuffer h;
    dev_positionBuffer h; dev_filteredDirectSpecular h;
    dev_filteredIndirectDiffuse h; dev_filteredTemp h ].

(** The filtered handle that [resultBuf] is not the address of. *)
Definition other_result (h : Handles) (r : result_handle) : vbuf :=
  match r with
  | addr_filteredDirectSpecular => dev_filteredIndirectDiffuse h
  | addr_filteredIndirectDiffuse => dev_filteredDirectSpecular h
  end.

(** [h'] is [h] up to an exchange of the values of [*resultBuf] and
    [dev_filteredTemp]. *)
Definition exchanged (r : result_handle) (h h' : Handles) : Prop :=
  dev_directIllum h' = dev_directIllum h
  /\ dev_indirectIllum h' = dev_indirectIllum h
  /\ dev_directIllumSqr h' = dev_directIllumSqr h
  /\ dev_indirectIllumSqr h' = dev_indirectIllumSqr h
  /\ dev_normalBuffer h' = dev_normalBuffer h
  /\ dev_positionBuffer h' = dev_positionBuffer h
  /\ dev_stddevBuffer h' = dev_stddevBuffer h
  /\ other_result h' r = other_result h r
  /\ ((get_result h' r = get_result h r /\ dev_filteredTemp h' = dev_filteredTemp h)
      \/ (get_result h' r = dev_filteredTemp h /\ dev_filteredTemp h' = get_result h r)).

(** The filter levels as a function of arrays: [cur] is filtered into
    [scratch], and the two exchange roles for the next level. *)
Fixpoint denoise_levels (n : nat) (res_x res_y : Z) (normal position : list vec3)
    (stddev : list R) (stepSize colorWeight normalWeight positionWeight : R)
    (cur scratch : list vec3) : outcome (list vec3 * list vec3) :=
  match n with
  | O => Done (cur, scratch)
  | S n' =>
      out <- launch2D 16 res_x res_y
               (aTrousIter cur normal position stddev res_x res_y stepSize
                  (colorWeight * colorWeight) (normalWeight * normalWeight)
                  (positionWeight * positionWeight))
               scratch ;;
      denoise_levels n' res_x res_y normal position stddev (stepSize * 2)
        colorWeight normalWeight positionWeight out cur
  end.

(** The denoiser as a function of arrays: the mean of the accumulated sums
    [colorTotal] over [iter], the estimate from [colorTotal] and [colorSqr],
    then [levels] filter levels guided by [normal] and [position].  The
    result is the filtered image, the other filtered array and the
    estimates. *)
Definition denoise (cam : Camera) (levels : Z) (radius : R) (iter : Z)
    (colorWeight normalWeight positionWeight : R)
    (colorTotal : list vec3) (colorSqr : list R) (normal position : list vec3)
    (result0 temp0 : list vec3) (stddev0 : list R)
  : outcome (list vec3 * list vec3 * list R) :=
  let numPixels := resolution_x cam * resolution_y cam in
  target <- launch1D (Z.quot (numPixels + 128 - 1) 128) 128
              (aTrousCopyBuffer colorTotal numPixels iter) result0 ;;
  sd <- launch2D 16 (resolution_x cam) (resolution_y cam)
          (aTrousComputeVariance colorTotal colorSqr
             (resolution_x cam) (resolution_y cam) iter) stddev0 ;;
  stepSize <- fdiv (0.5 * radius) (powf 2 (IZR levels)) ;;
  '(cur, scratch) <-
    denoise_levels (Z.to_nat levels) (resolution_x cam) (resolution_y cam)
      normal position sd stepSize colorWeight normalWeight positionWeight
      target temp0 ;;
  Done (cur, scratch, sd).


(** The arrays of the device as [pathtraceInit] allocates them for
    [pixelcount] pixels, with no first bounce cached. *)
Definition sized (pixelcount : Z) (d : Device) : Prop :=
  Z.of_nat (length (dev_paths d)) = pixelcount
  /\ Z.of_nat (length (dev_intersections d)) = pixelcount
  /\ Z.of_nat (length (dev_materialSortBuffer d)) = pixelcount
  /\ firstBounceCached d = false.

(** One accumulation [buf[i] += v], on an array of glm::vec3 or of float. *)
Inductive add_op : Type :=
| VAdd (buf : vbuf) (i : Z) (v : vec3)
| FAdd (buf : fbuf) (i : Z) (v : R).

Definition run_op (o : add_op) (m : Memory) : outcome Memory :=
  match o with
  | VAdd buf i v => vadd_at m buf i v
  | FAdd buf i v => fadd_at m buf i v
  end.

Fixpoint run_ops (l : list add_op) (m : Memory) : outcome Memory :=
  match l with
  | [] => Done m
  | o :: l' => m' <- run_op o m ;; run_ops l' m'
  end.

(** The contributions of one path slot to the four running sums: its two
    accumulators and their squared magnitudes, at its [pixelIndex]. *)
Definition gather_ops (direct : vbuf) (directSqr : fbuf) (indirect : vbuf)
    (indirectSqr : fbuf) (p : PathSegment) : list add_op :=
  [ VAdd direct (pixelIndex p) (directAccum p);
    FAdd directSqr (pixelIndex p) (length2 (directAccum p));
    VAdd indirect (pixelIndex p) (indirectAccum p);
    FAdd indirectSqr (pixelIndex p) (length2 (indirectAccum p)) ].

(* ===================================================================== *)
(** * Scenes for concrete runs *)
(* ===================================================================== *)

(** path.remainingBounces - 1, the rest of the path kept. *)
Definition decrement_bounces (p : PathSegment) : PathSegment :=
  {| ray := ray p; colorThroughput := colorThroughput p;
     directAccum := directAccum p; indirectAccum := indirectAccum p;
     pixelIndex := pixelIndex p; lastGeom := lastGeom p;
     remainingBounces := remainingBounces p - 1;
     prevBounceNoMis := prevBounceNoMis p;
     prevBounceSpecular := prevBounceSpecular p;
     indirectIllum := indirectIllum p |}.

(** A scene in which every ray hits geometry [hit] ([-1]: nothing), with one
    diffuse material, light sampling that adds nothing, a scatter step that
    uses up one bounce, trace depth [D] and one stratum: the pools are as
    [pathtraceInit] allocates them, one camera sample and [D] intersection
    samples. *)
Definition simple_scene (hash : Z -> Z) (hit : Z) (D : Z) : Scene :=
  {| utilhash := hash;
     uniform01 := fun _ _ => 0%R;
     sampleUnitDiskUniform := fun v => v;
     traverseAABBTree := fun _ _ => (hit, 1%R, vzero);
     computeNormals := fun _ _ => (mkVec3 0 0 1, mkVec3 0 0 1);
     geom_materialid := fun _ => 0;
     geom_isTriangle := fun _ => false;
     Material := unit;
     materials := fun _ => tt;
     mat_isSpecular := fun _ => false;
     multipleImportanceSampling := fun p _ _ _ _ _ _ _ _ _ => p;
     scatterRay := fun p _ _ _ _ _ spec _ _ => (decrement_bounces p, spec);
     traceDepth := D;
     camSamplePool := [mkCameraSample (mkVec2 0 0) (mkVec2 0 0)];
     samplePool :=
       repeat (mkIntersectionSample (mkVec2 0 0) (mkVec2 0 0) (mkVec2 0 0))
              (Z.to_nat D);
     numStratifiedSamples := 1;
     stratifiedSamplingRange := 1%R |}.

(** A hash with values over the whole range of [unsigned int]: the bitwise
    complement of the 32-bit argument. *)
Definition complement_hash (a : Z) : Z := (two32 - 1 - a) mod two32.

Definition simple_camera (w h : Z) : Camera :=
  {| resolution_x := w; resolution_y := h;
     position := vzero; view := mkVec3 0 0 1; up := mkVec3 0 1 0;
     right := mkVec3 1 0 0; pixelLength := mkVec2 1 1;
     focalDistance := 1; aperture := 0 |}.

(** A device whose arrays all have [n] elements: [n] zero texels, [n] path
    segments at rest, no cached first bounce. *)
Definition blank_memory (n : nat) : Memory :=
  {| m_directIllum := repeat vzero n; m_indirectIllum := repeat vzero n;
     m_normalBuffer := repeat vzero n; m_positionBuffer := repeat vzero n;
     m_filteredDirectSpecular := repeat vzero n;
     m_filteredIndirectDiffuse := repeat vzero n;
     m_filteredTemp := repeat vzero n;
     m_directIllumSqr := repeat 0%R n; m_indirectIllumSqr := repeat 0%R n;
     m_stddevBuffer := repeat 0%R n |}.

Definition blank_path : PathSegment :=
  {| ray := mkRay vzero vzero; colorThroughput := vzero;
     directAccum := vzero; indirectAccum := vzero;
     pixelIndex := 0; lastGeom := -1; remainingBounces := 0;
     prevBounceNoMis := false; prevBounceSpecular := false;
     indirectIllum := false |}.

(** A path at rest with [D] bounces left. *)
Definition path_with_bounces (D : Z) : PathSegment :=
  {| ray := mkRay vzero vzero; colorThroughput := vzero;
     directAccum := vzero; indirectAccum := vzero;
     pixelIndex := 0; lastGeom := -1; remainingBounces := D;
     prevBounceNoMis := false; prevBounceSpecular := false;
     indirectIllum := false |}.

(** A dead path of pixel [index] that carries the radiance [direct] and
    [indirect]. *)
Definition path_with_radiance (index : Z) (direct indirect : vec3) : PathSegment :=
  {| ray := mkRay vzero vzero; colorThroughput := vzero;
     directAccum := direct; indirectAccum := indirect;
     pixelIndex := index; lastGeom := -1; remainingBounces := 0;
     prevBounceNoMis := false; prevBounceSpecular := false;
     indirectIllum := false |}.

Definition blank_device (n : nat) : Device :=
  {| handles := pathtraceInit_handles;
     memory := blank_memory n;
     dev_paths := repeat blank_path n;
     dev_intersections := repeat zeroIntersection n;
     dev_materialSortBuffer := repeat 0 n;
     dev_materialSortBuffer2 := repeat 0 n;
     firstBounceCached := false;
     dev_firstBounceIntersections := [] |}.

(* ===================================================================== *)
(** * Random engine seeds *)
(* ===================================================================== *)

(** (1 << 31) | (depth << 22) | iter: the argument of the first hash in
    [makeSeededRandomEngine]. *)
Definition engine_key (iter depth : Z) : Z :=
  Z.lor (Z.lor (- 2 ^ 31) (to_int (Z.shiftl depth 22))) iter.

(* ===================================================================== *)
(** * Per-pixel totals *)
(* ===================================================================== *)

(** The sum of [f] over the path slots that report to pixel [p]. *)
Definition pixel_vtotal (f : PathSegment -> vec3) (paths : list PathSegment) (p : Z) : vec3 :=
  vsum (map f (filter (fun s => pixelIndex s =? p) paths)).
Definition pixel_ftotal (f : PathSegment -> R) (paths : list PathSegment) (p : Z) : R :=
  Rsum (map f (filter (fun s => pixelIndex s =? p) paths)).

(** The four accumulation arrays have [n] elements each. *)
Definition accum_sized (n : Z) (D : vbuf) (Ds : fbuf) (I : vbuf) (Is : fbuf)
    (m : Memory) : Prop :=
  Z.of_nat (length (vmem m D)) = n /\ Z.of_nat (length (fmem m Ds)) = n
  /\ Z.of_nat (length (vmem m I)) = n /\ Z.of_nat (length (fmem m Is)) = n.

(** Every path slot from index [n] on is dead. *)
Definition dead_from (n : Z) (d : Device) : Prop :=
  forall x, In x (skipn (Z.to_nat n) (dev_paths d)) -> remainingBounces x <= 0.

(* ===================================================================== *)
(** * Sample pools *)
(* ===================================================================== *)

(** cudaMemcpy(dst + offset, src, n * sizeof(A), ...) *)
Definition memcpy_at {A : Type} (dst : list A) (offset : Z) (src : list A) (n : Z)
  : outcome (list A) :=
  if (0 <=? offset) && (0 <=? n) && (offset + n <=? Z.of_nat (length dst))
     && (n <=? Z.of_nat (length src))
  then Done (firstn (Z.to_nat offset) dst ++ firstn (Z.to_nat n) src
             ++ skipn (Z.to_nat (offset + n)) dst)
  else Undefined OutOfBounds.

(** The loop of [updateStratifiedSamples]: [dev_ptr] is kept as its offset
    from [dev_samplePool]. *)
Fixpoint copy_pools (pools : list (list IntersectionSample))
    (dev_samplePool : list IntersectionSample) (dev_ptr : Z)
  : outcome (list IntersectionSample) :=
  match pools with
  | [] => Done dev_samplePool
  | pool :: rest =>
      dev_samplePool <-
        memcpy_at dev_samplePool dev_ptr pool (Z.of_nat (length pool)) ;;
      copy_pools rest dev_samplePool (dev_ptr + Z.of_nat (length pool))
  end.

(** void updateStratifiedSamples(pools, camSamples): the two device pools it
    leaves. *)
Definition updateStratifiedSamples (pools : list (list IntersectionSample))
    (camSamples : list CameraSample)
    (dev_samplePool : list IntersectionSample) (dev_camSamplePool : list CameraSample)
  : outcome (list IntersectionSample * list CameraSample) :=
  dev_samplePool <- copy_pools pools dev_samplePool 0 ;;
  dev_camSamplePool <-
    memcpy dev_camSamplePool camSamples (Z.of_nat (length camSamples)) ;;
  Done (dev_samplePool, dev_camSamplePool).

(** Every device array of the denoiser has [n] elements. *)
Definition arrays_sized (n : Z) (m : Memory) : Prop :=
  (forall b, Z.of_nat (length (vmem m b)) = n)
  /\ (forall fb, Z.of_nat (length (fmem m fb)) = n).

(* ===================================================================== *)
(** * A-trous denoiser: geometry buffers *)
(* ===================================================================== *)

(** buf[i] = v on an array of glm::vec3 behind a handle. *)
Definition vstore_at (m : Memory) (buf : vbuf) (i : Z) (v : vec3) : outcome Memory :=
  a <- store (vmem m buf) i v ;; Done (vset m buf a).

Section GenBuffers.
Context {scene : Scene}.

(** __global__ void aTrousGenBuffers(cam, normal, position, width, height,
    iter, geoms, aabbTree, aabbTreeRoot); the two output pointers are the
    handles [normalBuf] and [positionBuf]. *)
Definition aTrousGenBuffers (cam : Camera) (normalBuf positionBuf : vbuf)
    (width height iter : Z) (ix iy : Z) (m : Memory) : outcome Memory :=
  if (ix >=? width) || (iy >=? height) then Done m
  else
    let pixelIndex := iy * width + ix in
    qx <- fdiv (IZR ix - 0.5) (IZR (resolution_x cam)) ;;
    qy <- fdiv (IZR iy - 0.5) (IZR (resolution_x cam)) ;;
    let dir :=
      vsub (vsub (view cam)
                 (vscale (v2x (pixelLength cam) * (qx - 0.5)) (right cam)))
           (vscale (v2y (pixelLength cam) * (qy - 0.5)) (up cam)) in
    let ray := mkRay (position cam) dir in
    let '(geomId, dist, normalToken) := traverseAABBTree ray (-1) in
    if negb (geomId =? -1) then
      let '(geomNorm, shadeNorm) := computeNormals geomId normalToken in
      m <- vstore_at m positionBuf pixelIndex
             (vadd (origin ray) (vscale dist (direction ray))) ;;
      vstore_at m normalBuf pixelIndex shadeNorm
    else
      m <- vstore_at m positionBuf pixelIndex (vec3_splat 0) ;;
      vstore_at m normalBuf pixelIndex (vec3_splat 0).

(** void aTrousPrepare(int iter) *)
Definition aTrousPrepare (cam : Camera) (iter : Z) (d : Device) : outcome Device :=
  let h := handles d in
  m <- launch2D 16 (resolution_x cam) (resolution_y cam)
         (aTrousGenBuffers cam (dev_normalBuffer h) (dev_positionBuffer h)
            (resolution_x cam) (resolution_y cam) iter)
         (memory d) ;;
  Done (with_memory d m).
End GenBuffers.

(** The ray of pixel [(ix, iy)] from the position of the camera, without
    jitter and not normalized. *)
Definition primary_ray (cam : Camera) (ix iy : Z) : Ray :=
  mkRay (position cam)
    (vsub (vsub (view cam)
                (vscale (v2x (pixelLength cam)
                         * ((IZR ix - 0.5) / IZR (resolution_x cam) - 0.5))
                        (right cam)))
          (vscale (v2y (pixelLength cam)
                   * ((IZR iy - 0.5) / IZR (resolution_x cam) - 0.5))
                  (up cam))).

(* ===================================================================== *)
(** * Display *)
(* ===================================================================== *)

(** uchar4 *)
Record uchar4 : Type := mkUchar4 { u4x : Z; u4y : Z; u4z : Z; u4w : Z }.

Definition set_u4x (p : uchar4) (v : Z) : uchar4 := mkUchar4 v (u4y p) (u4z p) (u4w p).
Definition set_u4y (p : uchar4) (v : Z) : uchar4 := mkUchar4 (u4x p) v (u4z p) (u4w p).
Definition set_u4z (p : uchar4) (v : Z) : uchar4 := mkUchar4 (u4x p) (u4y p) v (u4w p).
Definition set_u4w (p : uchar4) (v : Z) : uchar4 := mkUchar4 (u4x p) (u4y p) (u4z p) v.

(** Conversion of an [int] to [unsigned char]. *)
Definition to_uchar (z : Z) : Z := z mod 256.

(** __global__ void sendImageToPBO(pbo, buf1, buf2, resolution, iter, bufType) *)
Definition sendImageToPBO (m : Memory) (buf1 : pointer vbuf) (buf2 : pointer anybuf)
    (res_x res_y iter : Z) (bufType : BufferType)
    (x y : Z) (pbo : list uchar4) : outcome (list uchar4) :=
  if (x <? res_x) && (y <? res_y) then
    let index := x + y * res_x in
    pix <- processTexel m buf1 buf2 index bufType iter ;;
    let color_x := clampZ (float_to_int (vx pix * 255)) 0 255 in
    let color_y := clampZ (float_to_int (vy pix * 255)) 0 255 in
    let color_z := clampZ (float_to_int (vz pix * 255)) 0 255 in
    pbo <- update pbo index (fun p => set_u4w p 0) ;;
    pbo <- update pbo index (fun p => set_u4x p (to_uchar color_x)) ;;
    pbo <- update pbo index (fun p => set_u4y p (to_uchar color_y)) ;;
    update pbo index (fun p => set_u4z p (to_uchar color_z))
  else Done pbo.

(** void sendBufferToPbo(uchar4 *pbo, BufferType buf, int iter) *)
Definition sendBufferToPbo (cam : Camera) (buf : BufferType) (iter : Z)
    (pbo : list uchar4) (d : Device) : outcome (list uchar4) :=
  let '(buf1, buf2) := getBuffers (handles d) buf Indeterminate Indeterminate in
  launch2D 8 (resolution_x cam) (resolution_y cam)
    (sendImageToPBO (memory d) buf1 buf2 (resolution_x cam) (resolution_y cam) iter buf)
    pbo.

(** The curve [v ^ (1 / 2.2)], and the colour shown for pixel [p] of each
    buffer. *)
Definition gamma_curve (v : vec3) : vec3 := vpow v (vec3_splat (1 / 2.2)).

Definition display_value (h : Handles) (m : Memory) (buf : BufferType) (iter : Z)
    (p : Z) : vec3 :=
  let vec (b : vbuf) := load vzero (vmem m b) p in
  let flt (b : fbuf) := load 0%R (fmem m b) p in
  match buf with
  | DirectSpecularIllumination =>
      gamma_curve (vscale (/ IZR iter) (vec (dev_directIllum h)))
  | IndirectDiffuseIllumination =>
      gamma_curve (vscale (/ IZR iter) (vec (dev_indirectIllum h)))
  | DirectSpecularIlluminationVariance =>
      vpow (mkVec3 (unbiasedSampleVariance (vec (dev_directIllum h))
                      (flt (dev_directIllumSqr h)) iter) 0 0)
           (vec3_splat 0.3)
  | IndirectDiffuseIlluminationVariance =>
      vpow (mkVec3 (unbiasedSampleVariance (vec (dev_indirectIllum h))
                      (flt (dev_indirectIllumSqr h)) iter) 0 0)
           (vec3_splat 0.3)
  | FullIllumination =>
      gamma_curve (vscale (/ IZR iter)
                     (vadd (vec (dev_directIllum h)) (vec (dev_indirectIllum h))))
  | Normal => vscale 0.5 (vadds (vec (dev_normalBuffer h)) 1)
  | Position => vscale (/ 30) (vadds (vec (dev_positionBuffer h)) 15)
  | FilteredDirectSpecular => gamma_curve (vec (dev_filteredDirectSpecular h))
  | FilteredIndirectDiffuse => gamma_curve (vec (dev_filteredIndirectDiffuse h))
  | FilteredColor =>
      gamma_curve (vadd (vec (dev_filteredDirectSpecular h))
                        (vec (dev_filteredIndirectDiffuse h)))
  | UnlistedBufferType _ => vzero
  end.

(** The vector that the transform raises to a power for pixel [p] of each
    buffer; normals and positions go through no power. *)
Definition curve_base (h : Handles) (m : Memory) (buf : BufferType) (iter : Z)
    (p : Z) : vec3 :=
  let vec (b : vbuf) := load vzero (vmem m b) p in
  let flt (b : fbuf) := load 0%R (fmem m b) p in
  match buf with
  | DirectSpecularIllumination => vscale (/ IZR iter) (vec (dev_directIllum h))
  | IndirectDiffuseIllumination => vscale (/ IZR iter) (vec (dev_indirectIllum h))
  | DirectSpecularIlluminationVariance =>
      mkVec3 (unbiasedSampleVariance (vec (dev_directIllum h))
                (flt (dev_directIllumSqr h)) iter) 0 0
  | IndirectDiffuseIlluminationVariance =>
      mkVec3 (unbiasedSampleVariance (vec (dev_indirectIllum h))
                (flt (dev_indirectIllumSqr h)) iter) 0 0
  | FullIllumination =>
      vscale (/ IZR iter)
             (vadd (vec (dev_directIllum h)) (vec (dev_indirectIllum h)))
  | Normal | Position => vzero
  | FilteredDirectSpecular => vec (dev_filteredDirectSpecular h)
  | FilteredIndirectDiffuse => vec (dev_filteredIndirectDiffuse h)
  | FilteredColor =>
      vadd (vec (dev_filteredDirectSpecular h)) (vec (dev_filteredIndirectDiffuse h))
  | UnlistedBufferType _ => vzero
  end.

Definition nonnegative (v : vec3) : Prop := (0 <= vx v /\ 0 <= vy v /\ 0 <= vz v)%R.

(** A channel of a colour as a byte of the pixel buffer. *)
Definition quantize (r : R) : Z := clampZ (truncZ (r * 255)) 0 255.

(* ===================================================================== *)
(** * Initialization *)
(* ===================================================================== *)

(** cudaMalloc(&p, n * sizeof(A)): a fresh array of [n] elements, holding
    whatever the memory held, [fresh]; no element when the size is negative. *)
Definition cudaMalloc {A : Type} (fresh : nat -> A) (n : Z) : list A :=
  map fresh (seq 0 (Z.to_nat n)).

(** What the fresh allocations of [pathtraceInit] hold before they are
    written. *)
Record Uninitialized : Type := mkUninitialized {
  junk_vec : vbuf -> nat -> vec3;
  junk_float : fbuf -> nat -> R;
  junk_path : nat -> PathSegment;
  junk_intersection : nat -> ShadeableIntersection;
  junk_key : nat -> Z;
  junk_key2 : nat -> Z;
  junk_sample : nat -> IntersectionSample;
  junk_camSample : nat -> CameraSample
}.

(** The statics [pathtraceInit] assigns, but for the copies of the scene
    tables, which are behind [Scene]. *)
Record InitState : Type := mkInitState {
  st_device : Device;
  st_samplePool : list IntersectionSample;
  st_camSamplePool : list CameraSample;
  st_numStratifiedSamples : Z;
  st_stratifiedSamplingRange : R
}.

Section Init.
Context {scene : Scene}.

(** void pathtraceInit(Scene *scene, int sqrtNumStratifiedSamples) *)
Definition pathtraceInit (cam : Camera) (sqrtNumStratifiedSamples : Z)
    (u : Uninitialized) : outcome InitState :=
  let pixelCount := resolution_x cam * resolution_y cam in
  directIllum <-
    memset0 vzero (cudaMalloc (junk_vec u A_directIllum) pixelCount) pixelCount ;;
  directIllumSqr <-
    memset0 0%R (cudaMalloc (junk_float u A_directIllumSqr) pixelCount) pixelCount ;;
  indirectIllum <-
    memset0 vzero (cudaMalloc (junk_vec u A_indirectIllum) pixelCount) pixelCount ;;
  indirectIllumSqr <-
    memset0 0%R (cudaMalloc (junk_float u A_indirectIllumSqr) pixelCount) pixelCount ;;
  let paths := cudaMalloc (junk_path u) pixelCount in
  intersections <-
    memset0 zeroIntersection (cudaMalloc (junk_intersection u) pixelCount) pixelCount ;;
  let firstBounceIntersections :=
    if cacheFirstBounce then cudaMalloc (junk_intersection u) pixelCount else [] in
  let materialSortBuffer := cudaMalloc (junk_key u) pixelCount in
  let materialSortBuffer2 := cudaMalloc (junk_key2 u) pixelCount in
  range <- fdiv 1 (IZR sqrtNumStratifiedSamples) ;;
  let count := sqrtNumStratifiedSamples * sqrtNumStratifiedSamples in
  let samples := cudaMalloc (junk_sample u) (traceDepth * count) in
  let camSamples := cudaMalloc (junk_camSample u) count in
  Done {|
    st_device :=
      {| handles := pathtraceInit_handles;
         memory :=
           {| m_directIllum := directIllum;
              m_indirectIllum := indirectIllum;
              m_normalBuffer := cudaMalloc (junk_vec u A_normalBuffer) pixelCount;
              m_positionBuffer := cudaMalloc (junk_vec u A_positionBuffer) pixelCount;
              m_filteredDirectSpecular :=
                cudaMalloc (junk_vec u A_filteredDirectSpecular) pixelCount;
              m_filteredIndirectDiffuse :=
                cudaMalloc (junk_vec u A_filteredIndirectDiffuse) pixelCount;
              m_filteredTemp := cudaMalloc (junk_vec u A_filteredTemp) pixelCount;
              m_directIllumSqr := directIllumSqr;
              m_indirectIllumSqr := indirectIllumSqr;
              m_stddevBuffer := cudaMalloc (junk_float u A_stddevBuffer) pixelCount |};
         dev_paths := paths;
         dev_intersections := intersections;
         dev_materialSortBuffer := materialSortBuffer;
         dev_materialSortBuffer2 := materialSortBuffer2;
         firstBounceCached := false;
         dev_firstBounceIntersections := firstBounceIntersections |};
    st_samplePool := samples;
    st_camSamplePool := camSamples;
    st_numStratifiedSamples := count;
    st_stratifiedSamplingRange := range |}.
End Init.

(** struct MaterialCompare *)
Definition MaterialCompare (lhs rhs : ShadeableIntersection) : bool :=
  materialId lhs >? materialId rhs.

(* ===================================================================== *)
(** * Theorems *)
(* ===================================================================== *)

(** ** Outcomes *)

Lemma bind_Done {A B : Type} (a : A) (k : A -> outcome B) : bind (Done a) k = k a.
Proof. reflexivity. Qed.

Lemma bind_eq_Done {A B : Type} (m : outcome A) (k : A -> outcome B) (b : B) :
  bind m k = Done b -> exists a, m = Done a /\ k a = Done b.
Proof. destruct m; simpl; intros H; try discriminate. eauto. Qed.

Lemma fdiv_nonzero (a b : R) : b <> 0%R -> fdiv a b = Done (a / b)%R.
Proof. intros H. unfold fdiv. destruct (Req_dec_T b 0); [contradiction | reflexivity]. Qed.

Lemma fdiv_zero (a : R) : fdiv a 0 = Undefined DivisionByZero.
Proof. unfold fdiv. destruct (Req_dec_T 0 0); [reflexivity | contradiction n; reflexivity]. Qed.

Lemma vdivs_nonzero (v : vec3) (s : R) :
  s <> 0%R -> vdivs v s = Done (mkVec3 (vx v / s) (vy v / s) (vz v / s)).
Proof. intros H. unfold vdivs. rewrite !fdiv_nonzero by assumption. reflexivity. Qed.

(** ** Stratified sample index *)

Lemma to_int_small (u : Z) : 0 <= u < 2 ^ 31 -> to_int u = u.
Proof.
  intros H. unfold to_int, two32. rewrite Z.mod_small by lia.
  destruct (u <? 2 ^ 31) eqn:E; [reflexivity | apply Z.ltb_ge in E; lia].
Qed.

Lemma to_unsigned_small (z : Z) : 0 <= z < 2 ^ 32 -> to_unsigned z = z.
Proof. intros H. unfold to_unsigned, two32. apply Z.mod_small; lia. Qed.

Lemma full_stratified_value {scene : Scene} (iter p N : Z) :
  0 <= iter < 2 ^ 31 -> 0 < N < 2 ^ 31 ->
  stratifiedSampleIndex_policy false iter p N
  = ((iter + utilhash p) mod 2 ^ 32) mod N.
Proof.
  intros Hi HN. unfold stratifiedSampleIndex_policy.
  rewrite (to_unsigned_small iter) by lia.
  rewrite (to_unsigned_small N) by lia.
  unfold to_unsigned, two32.
  apply to_int_small.
  pose proof (Z.mod_pos_bound ((iter + utilhash p) mod 2 ^ 32) N). lia.
Qed.

(** The call returns, and returns an index inside a pool of [N] samples,
    for a pool size that is a positive [int]. *)
Lemma stratifiedSampleIndex_call_in_pool {scene : Scene} (iter p N : Z) :
  0 < N < 2 ^ 31 ->
  stratifiedSampleIndex_call iter p N = Done (stratifiedSampleIndex iter p N)
  /\ 0 <= stratifiedSampleIndex iter p N < N.
Proof.
  intros HN. unfold stratifiedSampleIndex_call, stratifiedSplat.
  rewrite (to_unsigned_small N) by lia.
  replace (N =? 0) with false by (symmetry; apply Z.eqb_neq; lia).
  split; [reflexivity|].
  unfold stratifiedSampleIndex, stratifiedSplat, stratifiedSampleIndex_policy.
  rewrite (to_unsigned_small N) by lia.
  pose proof (Z.mod_pos_bound (to_unsigned (to_unsigned iter + utilhash p)) N) as B.
  rewrite to_int_small by lia. lia.
Qed.

Lemma stratifiedSampleIndex_call_zero {scene : Scene} (iter p : Z) :
  stratifiedSampleIndex_call iter p 0 = Undefined DivisionByZero.
Proof. reflexivity. Qed.

(** C3 (as amended).  For an iteration counter [0 <= iter < 2^31] and a pool
    size [0 < N < 2^31], with [unsigned int] hash values: the splatting
    policy returns [iter mod N]; the full-stratified policy, which is the one
    compiled in, returns [((iter + hash p) mod 2^32) mod N]; that is
    [(iter + hash p) mod N] when [iter + hash p] does not reach [2^32]; and
    two pixels whose sums both stay below [2^32] have indices that differ by
    the phase [(hash pA - hash pB) mod N]. *)
Theorem stratifiedSampleIndex_phase {scene : Scene} (iter pA pB N : Z) :
  0 <= iter < 2 ^ 31 -> 0 < N < 2 ^ 31 ->
  0 <= utilhash pA < 2 ^ 32 -> 0 <= utilhash pB < 2 ^ 32 ->
  stratifiedSampleIndex_policy true iter pA N = iter mod N
  /\ stratifiedSampleIndex iter pA N = ((iter + utilhash pA) mod 2 ^ 32) mod N
  /\ stratifiedSampleIndex iter pA N = stratifiedSampleIndex_policy false iter pA N
  /\ (iter + utilhash pA < 2 ^ 32 ->
      stratifiedSampleIndex iter pA N = (iter + utilhash pA) mod N)
  /\ (iter + utilhash pA < 2 ^ 32 -> iter + utilhash pB < 2 ^ 32 ->
      (stratifiedSampleIndex iter pA N - stratifiedSampleIndex iter pB N) mod N
      = (utilhash pA - utilhash pB) mod N).
Proof.
  intros Hi HN HA HB.
  assert (Hfull : forall p, stratifiedSampleIndex iter p N
                            = ((iter + utilhash p) mod 2 ^ 32) mod N).
  { intros p. unfold stratifiedSampleIndex, stratifiedSplat.
    apply full_stratified_value; assumption. }
  repeat split.
  - unfold stratifiedSampleIndex_policy. apply Z.rem_mod_nonneg; lia.
  - apply Hfull.
  - intros Hs. rewrite Hfull. rewrite (Z.mod_small (iter + utilhash pA)) by lia.
    reflexivity.
  - intros HsA HsB. rewrite !Hfull.
    rewrite (Z.mod_small (iter + utilhash pA)) by lia.
    rewrite (Z.mod_small (iter + utilhash pB)) by lia.
    rewrite <- Zminus_mod.
    f_equal. lia.
Qed.

Lemma stratifiedSampleIndex_phase_witness :
  let scene := simple_scene complement_hash (-1) 1 in
  stratifiedSampleIndex 5 10 3 = (5 + utilhash 10) mod 3
  /\ (stratifiedSampleIndex 5 10 3 - stratifiedSampleIndex 5 20 3) mod 3
     = (utilhash 10 - utilhash 20) mod 3.
Proof.
  intros scene.
  assert (Hi : 0 <= 5 < 2 ^ 31) by lia.
  assert (HN : 0 < 3 < 2 ^ 31) by lia.
  assert (HA : 0 <= utilhash 10 < 2 ^ 32) by (vm_compute; split; congruence).
  assert (HB : 0 <= utilhash 20 < 2 ^ 32) by (vm_compute; split; congruence).
  destruct (@stratifiedSampleIndex_phase scene 5 10 20 3 Hi HN HA HB)
    as (_ & _ & _ & H1 & H2).
  split; [apply H1 | apply H2]; vm_compute; reflexivity.
Defined.

(** C3, as stated, fails where the unsigned sum wraps: with hash value
    [2^32 - 1] at pixel [0] and [2^32 - 2] at pixel [1], iteration [1] and
    [N = 3], the index of pixel [0] is [0], not [(1 + hash 0) mod 3 = 1], and
    the two indices are equal while the phases differ by [1]. *)
Lemma stratifiedSampleIndex_wraps :
  let scene := simple_scene complement_hash (-1) 1 in
  utilhash 0 = 4294967295 /\ utilhash 1 = 4294967294
  /\ stratifiedSampleIndex 1 0 3 = 0
  /\ (1 + utilhash 0) mod 3 = 1
  /\ stratifiedSampleIndex 1 0 3 <> (1 + utilhash 0) mod 3
  /\ (stratifiedSampleIndex 1 0 3 - stratifiedSampleIndex 1 1 3) mod 3
     <> (utilhash 0 - utilhash 1) mod 3.
Proof.
  intros scene. vm_compute. repeat split; discriminate.
Qed.

(** ** Device arrays *)

Lemma store_nat_in {A : Type} (a : list A) (n : nat) (v : A) :
  (n < length a)%nat ->
  store_nat a n v = Some (firstn n a ++ v :: skipn (S n) a).
Proof.
  revert n. induction a as [|h tl IH]; intros n Hn; simpl in Hn; [lia|].
  destruct n as [|n]; simpl; [reflexivity|].
  rewrite IH by lia. reflexivity.
Qed.

Lemma store_nat_out {A : Type} (a : list A) (n : nat) (v : A) :
  (length a <= n)%nat -> store_nat a n v = None.
Proof.
  revert n. induction a as [|h tl IH]; intros n Hn; simpl in *; [reflexivity|].
  destruct n as [|n]; [lia|]. rewrite IH by lia. reflexivity.
Qed.

Lemma update_nat_in {A : Type} (a : list A) (n : nat) (f : A -> A) (d : A) :
  (n < length a)%nat ->
  update_nat a n f = Some (firstn n a ++ f (nth n a d) :: skipn (S n) a).
Proof.
  revert n. induction a as [|h tl IH]; intros n Hn; simpl in Hn; [lia|].
  destruct n as [|n]; simpl; [reflexivity|].
  rewrite IH by lia. reflexivity.
Qed.

Lemma update_nat_out {A : Type} (a : list A) (n : nat) (f : A -> A) :
  (length a <= n)%nat -> update_nat a n f = None.
Proof.
  revert n. induction a as [|h tl IH]; intros n Hn; simpl in *; [reflexivity|].
  destruct n as [|n]; [lia|]. rewrite IH by lia. reflexivity.
Qed.

Lemma store_in {A : Type} (a : list A) (i : Z) (v : A) :
  0 <= i < Z.of_nat (length a) ->
  store a i v = Done (firstn (Z.to_nat i) a ++ v :: skipn (S (Z.to_nat i)) a).
Proof.
  intros H. unfold store.
  destruct (i <? 0) eqn:E; [apply Z.ltb_lt in E; lia|].
  rewrite store_nat_in by lia. reflexivity.
Qed.

Lemma store_out {A : Type} (a : list A) (i : Z) (v : A) :
  i < 0 \/ Z.of_nat (length a) <= i -> store a i v = Undefined OutOfBounds.
Proof.
  intros H. unfold store.
  destruct (i <? 0) eqn:E; [reflexivity|].
  apply Z.ltb_ge in E. rewrite store_nat_out by lia. reflexivity.
Qed.


Lemma update_out {A : Type} (a : list A) (i : Z) (f : A -> A) :
  i < 0 \/ Z.of_nat (length a) <= i -> update a i f = Undefined OutOfBounds.
Proof.
  intros H. unfold update.
  destruct (i <? 0) eqn:E; [reflexivity|].
  apply Z.ltb_ge in E. rewrite update_nat_out by lia. reflexivity.
Qed.

Lemma read_in {A : Type} (a : list A) (i : Z) (d : A) :
  0 <= i < Z.of_nat (length a) -> read a i = Done (nth (Z.to_nat i) a d).
Proof.
  intros H. unfold read.
  destruct (i <? 0) eqn:E; [apply Z.ltb_lt in E; lia|].
  destruct (nth_error a (Z.to_nat i)) eqn:N.
  - f_equal. symmetry. apply nth_error_nth. exact N.
  - apply nth_error_None in N. lia.
Qed.

Lemma read_load {A : Type} (a : list A) (i : Z) (d : A) :
  0 <= i < Z.of_nat (length a) -> read a i = Done (load d a i).
Proof.
  intros H. rewrite (read_in a i d H). unfold load.
  destruct (i <? 0) eqn:E; [apply Z.ltb_lt in E; lia | reflexivity].
Qed.

Lemma In_upto (n i : Z) : In i (upto n) <-> 0 <= i < n.
Proof.
  unfold upto. rewrite in_map_iff. split.
  - intros (k & Hk & Hin). apply in_seq in Hin. lia.
  - intros H. exists (Z.to_nat i). split; [lia|]. apply in_seq. lia.
Qed.

Lemma In_grid2D (b w h x y : Z) :
  In (x, y) (grid2D b w h)
  <-> 0 <= x < ((w + b - 1) / b) * b /\ 0 <= y < ((h + b - 1) / b) * b.
Proof.
  unfold grid2D. rewrite in_flat_map. split.
  - intros (y' & Hy & Hin). apply in_map_iff in Hin.
    destruct Hin as (x' & Heq & Hx). inversion Heq; subst.
    apply In_upto in Hy. apply In_upto in Hx. tauto.
  - intros [Hx Hy]. exists y. split; [apply In_upto; exact Hy|].
    apply in_map_iff. exists x. split; [reflexivity | apply In_upto; exact Hx].
Qed.

(** ** Launches *)

Lemma store_nat_spec {A : Type} (a a' : list A) (n : nat) (v d : A) :
  store_nat a n v = Some a' ->
  length a' = length a /\ (n < length a)%nat /\ nth n a' d = v
  /\ forall j, j <> n -> nth j a' d = nth j a d.
Proof.
  revert n a'. induction a as [|h tl IH]; intros n a' H; simpl in H; [discriminate|].
  destruct n as [|n].
  - inversion H; subst. simpl. repeat split; try lia.
    intros [|j] Hj; [lia | reflexivity].
  - destruct (store_nat tl n v) as [tl'|] eqn:E; simpl in H; [|discriminate].
    inversion H; subst. destruct (IH n tl' E) as (Hl & Hn & Hs & Ho).
    simpl. repeat split; try lia; [exact Hs|].
    intros [|j] Hj; [reflexivity | apply Ho; lia].
Qed.

Lemma store_spec {A : Type} (a a' : list A) (i : Z) (v d : A) :
  store a i v = Done a' ->
  length a' = length a /\ 0 <= i < Z.of_nat (length a)
  /\ nth (Z.to_nat i) a' d = v
  /\ forall j, j <> Z.to_nat i -> nth j a' d = nth j a d.
Proof.
  unfold store. intros H.
  destruct (i <? 0) eqn:E; [discriminate|]. apply Z.ltb_ge in E.
  destruct (store_nat a (Z.to_nat i) v) as [a1|] eqn:E1; [|discriminate].
  inversion H; subst.
  destruct (store_nat_spec _ _ _ _ d E1) as (Hl & Hn & Hs & Ho).
  repeat split; try assumption; lia.
Qed.

(** Threads run one after the other keep an invariant of the set of threads
    already run. *)
Lemma fold_threads_invariant {St T : Type} (k : T -> St -> outcome St)
    (P : list T -> St -> Prop) (l : list T) (s0 : St) :
  P [] s0 ->
  (forall done t rest s, l = done ++ t :: rest -> P done s ->
     exists s', k t s = Done s' /\ P (done ++ [t]) s') ->
  exists s', fold_left (fun acc t => s <- acc ;; k t s) l (Done s0) = Done s' /\ P l s'.
Proof.
  intros H0. induction l as [|t l IH] using rev_ind; intros Hstep.
  - exists s0. split; [reflexivity | exact H0].
  - destruct IH as (s1 & Hrun & HP).
    { intros done t' rest s Heq. apply (Hstep done t' (rest ++ [t])).
      rewrite Heq. rewrite <- app_assoc. reflexivity. }
    destruct (Hstep l t [] s1 eq_refl HP) as (s2 & Hk & HP2).
    exists s2. split; [|exact HP2].
    rewrite fold_left_app. simpl. rewrite Hrun. simpl. exact Hk.
Qed.

Lemma grid2D_covers (b w h x y : Z) :
  0 < b -> 0 <= x < w -> 0 <= y < h -> In (x, y) (grid2D b w h).
Proof.
  intros Hb Hx Hy. apply In_grid2D.
  pose proof (Z.div_mod (w + b - 1) b ltac:(lia)) as Ew.
  pose proof (Z.mod_pos_bound (w + b - 1) b Hb) as Bw.
  pose proof (Z.div_mod (h + b - 1) b ltac:(lia)) as Eh.
  pose proof (Z.mod_pos_bound (h + b - 1) b Hb) as Bh.
  nia.
Qed.

Lemma pixel_index_inj (w x y x0 y0 : Z) :
  0 <= x < w -> 0 <= x0 < w -> y * w + x = y0 * w + x0 -> x = x0 /\ y = y0.
Proof.
  intros Hx Hx0 E.
  assert (y = y0).
  { destruct (Z.lt_trichotomy y y0) as [H|[H|H]]; [|exact H|]; nia. }
  subst. lia.
Qed.

(** A 2D launch of a kernel whose threads inside the image each store one
    value at their own pixel, and whose other threads store nothing. *)
Lemma launch2D_stores {A : Type} (b w h : Z)
    (k : Z -> Z -> list A -> outcome (list A)) (g : Z -> Z -> A)
    (a0 : list A) (d : A) :
  0 < b -> 0 <= w -> 0 <= h -> Z.of_nat (length a0) = w * h ->
  (forall x y s, In (x, y) (grid2D b w h) -> 0 <= x < w -> 0 <= y < h ->
     k x y s = store s (y * w + x) (g x y)) ->
  (forall x y s, In (x, y) (grid2D b w h) -> ~ (x < w /\ y < h) -> k x y s = Done s) ->
  exists a', launch2D b w h k a0 = Done a'
    /\ length a' = length a0
    /\ forall x y, 0 <= x < w -> 0 <= y < h ->
         nth (Z.to_nat (y * w + x)) a' d = g x y.
Proof.
  intros Hb Hw Hh Hlen Hin Hout. unfold launch2D.
  pose (P := fun (done : list (Z * Z)) (s : list A) =>
    length s = length a0 /\
    forall x y, 0 <= x < w -> 0 <= y < h -> In (x, y) done ->
      nth (Z.to_nat (y * w + x)) s d = g x y).
  destruct (fold_threads_invariant (fun xy s => k (fst xy) (snd xy) s) P
              (grid2D b w h) a0) as (a' & Hrun & Hlen' & HP).
  - split; [reflexivity|]. intros x y _ _ [].
  - intros done [x0 y0] rest s Heq [Hl HPd]. simpl.
    assert (Hg : In (x0, y0) (grid2D b w h)).
    { rewrite Heq. apply in_or_app. right. left. reflexivity. }
    pose proof (proj1 (In_grid2D _ _ _ _ _) Hg) as [Hx0 Hy0].
    assert (Hskip : k x0 y0 s = Done s -> (x0 < w /\ y0 < h -> False) ->
                    exists s', k x0 y0 s = Done s' /\ P (done ++ [(x0, y0)]) s').
    { intros Hk Hno. exists s. split; [exact Hk|]. split; [exact Hl|].
      intros x y Hx Hy Hd. apply in_app_or in Hd.
      destruct Hd as [Hd|[Hd|[]]]; [apply HPd; assumption|].
      inversion Hd; subst. lia. }
    destruct (Z_lt_ge_dec x0 w) as [Hxw|Hxw];
      [destruct (Z_lt_ge_dec y0 h) as [Hyh|Hyh]|];
      [| apply Hskip; [apply Hout; [assumption | lia] | lia]
       | apply Hskip; [apply Hout; [assumption | lia] | lia]].
    assert (Hidx : 0 <= y0 * w + x0 < Z.of_nat (length s)) by (rewrite Hl; nia).
    rewrite Hin by (assumption || lia).
    assert (Hst := store_in s (y0 * w + x0) (g x0 y0) Hidx).
    rewrite Hst. eexists. split; [reflexivity|].
    destruct (store_spec _ _ _ _ d Hst) as (Hl2 & _ & Hsame & Hother).
    split; [rewrite Hl2; exact Hl|].
    intros x y Hx Hy Hd. apply in_app_or in Hd.
    destruct (Z.eq_dec (y * w + x) (y0 * w + x0)) as [E|E].
    + destruct (pixel_index_inj w x y x0 y0 Hx (conj (proj1 Hx0) Hxw) E) as [-> ->].
      exact Hsame.
    + rewrite Hother by lia.
      destruct Hd as [Hd|[Hd|[]]]; [apply HPd; assumption|].
      inversion Hd; subst. contradiction E; reflexivity.
  - exists a'. split; [exact Hrun|]. split; [exact Hlen'|].
    intros x y Hx Hy. apply HP; try assumption.
    apply grid2D_covers; assumption.
Qed.

(** ** Variance estimate *)

Lemma aTrousComputeVariance_pixel_many (sum : vec3) (sumSqr : R) (iter : Z) :
  1 < iter ->
  aTrousComputeVariance_pixel sum sumSqr iter
  = Done (sqrt (Rmax 0 (unbiasedSampleVariance sum sumSqr iter))).
Proof.
  intros H. unfold aTrousComputeVariance_pixel.
  destruct (iter >? 1) eqn:E; [|rewrite Z.gtb_ltb in E; apply Z.ltb_ge in E; lia].
  rewrite fdiv_nonzero by (apply not_0_IZR; lia). rewrite bind_Done.
  rewrite fdiv_nonzero by (apply not_0_IZR; lia). reflexivity.
Qed.

Lemma aTrousComputeVariance_pixel_few (sum : vec3) (sumSqr : R) (iter : Z) :
  iter <= 1 -> aTrousComputeVariance_pixel sum sumSqr iter = Done 1%R.
Proof.
  intros H. unfold aTrousComputeVariance_pixel.
  destruct (iter >? 1) eqn:E; [rewrite Z.gtb_ltb in E; apply Z.ltb_lt in E; lia|].
  reflexivity.
Qed.

Lemma aTrousComputeVariance_pixel_returns (sum : vec3) (sumSqr : R) (iter : Z) :
  exists s, aTrousComputeVariance_pixel sum sumSqr iter = Done s.
Proof.
  destruct (Z_lt_ge_dec 1 iter) as [H|H].
  - rewrite aTrousComputeVariance_pixel_many by exact H. eauto.
  - rewrite aTrousComputeVariance_pixel_few by lia. eauto.
Qed.

(** The variance pass over an image: every pixel of [stddev] receives the
    value of [aTrousComputeVariance_pixel] at its sums. *)
Lemma launch_aTrousComputeVariance (colorTotal : list vec3) (colorSqr : list R)
    (width height iter : Z) (stddev0 : list R) :
  0 <= width -> 0 <= height ->
  Z.of_nat (length colorTotal) = width * height ->
  Z.of_nat (length colorSqr) = width * height ->
  Z.of_nat (length stddev0) = width * height ->
  exists stddev,
    launch2D 16 width height
      (aTrousComputeVariance colorTotal colorSqr width height iter) stddev0
    = Done stddev
    /\ length stddev = length stddev0
    /\ forall ix iy, 0 <= ix < width -> 0 <= iy < height ->
         aTrousComputeVariance_pixel
           (load vzero colorTotal (iy * width + ix))
           (load 0%R colorSqr (iy * width + ix)) iter
         = Done (load 0%R stddev (iy * width + ix)).
Proof.
  intros Hw Hh Ht Hs H0.
  pose (g := fun x y : Z =>
    match aTrousComputeVariance_pixel (load vzero colorTotal (y * width + x))
            (load 0%R colorSqr (y * width + x)) iter with
    | Done s => s
    | _ => 0%R
    end).
  destruct (launch2D_stores 16 width height
              (aTrousComputeVariance colorTotal colorSqr width height iter)
              g stddev0 0%R) as (sd & Hrun & Hlen & Hval); try assumption; try lia.
  - intros x y s _ Hx Hy. unfold aTrousComputeVariance.
    replace (x >=? width) with false by (symmetry; rewrite Z.geb_leb; apply Z.leb_gt; lia).
    replace (y >=? height) with false by (symmetry; rewrite Z.geb_leb; apply Z.leb_gt; lia).
    simpl orb. cbv iota.
    rewrite (read_load colorTotal _ vzero) by nia.
    rewrite (read_load colorSqr _ 0%R) by nia.
    rewrite !bind_Done. unfold g.
    destruct (aTrousComputeVariance_pixel_returns
                (load vzero colorTotal (y * width + x))
                (load 0%R colorSqr (y * width + x)) iter) as (v & Hv).
    rewrite Hv. reflexivity.
  - intros x y s _ Hno. unfold aTrousComputeVariance.
    destruct (x >=? width) eqn:Ex; [reflexivity|].
    destruct (y >=? height) eqn:Ey; [reflexivity|].
    rewrite Z.geb_leb in Ex, Ey. apply Z.leb_gt in Ex, Ey. contradiction Hno. lia.
  - exists sd. split; [exact Hrun|]. split; [exact Hlen|].
    intros ix iy Hx Hy. specialize (Hval ix iy Hx Hy).
    unfold load at 3.
    replace (iy * width + ix <? 0) with false by (symmetry; apply Z.ltb_ge; nia).
    rewrite Hval. unfold g.
    destruct (aTrousComputeVariance_pixel_returns
                (load vzero colorTotal (iy * width + ix))
                (load 0%R colorSqr (iy * width + ix)) iter) as (v & Hv).
    rewrite Hv. reflexivity.
Qed.

(** C1 (as amended).  After the variance pass of the denoiser, for every
    pixel: when [iter > 1] the stored estimate is the square root of the
    unbiased sample variance [(sumSqr - |sum|^2 / iter) / (iter - 1)] clamped
    below at [0]; when [iter <= 1], so at [iter = 1], it is exactly [1]. *)
Theorem variance_pass_stores_deviation (colorTotal : list vec3) (colorSqr : list R)
    (width height iter : Z) (stddev0 : list R) :
  0 <= width -> 0 <= height ->
  Z.of_nat (length colorTotal) = width * height ->
  Z.of_nat (length colorSqr) = width * height ->
  Z.of_nat (length stddev0) = width * height ->
  exists stddev,
    launch2D 16 width height
      (aTrousComputeVariance colorTotal colorSqr width height iter) stddev0
    = Done stddev
    /\ forall ix iy, 0 <= ix < width -> 0 <= iy < height ->
         (1 < iter ->
          load 0%R stddev (iy * width + ix)
          = sqrt (Rmax 0 (unbiasedSampleVariance
                            (load vzero colorTotal (iy * width + ix))
                            (load 0%R colorSqr (iy * width + ix)) iter)))
         /\ (iter <= 1 -> load 0%R stddev (iy * width + ix) = 1%R).
Proof.
  intros Hw Hh Ht Hs H0.
  destruct (launch_aTrousComputeVariance colorTotal colorSqr width height iter
              stddev0 Hw Hh Ht Hs H0) as (sd & Hrun & _ & Hval).
  exists sd. split; [exact Hrun|].
  intros ix iy Hx Hy. specialize (Hval ix iy Hx Hy). split; intros Hi.
  - rewrite aTrousComputeVariance_pixel_many in Hval by exact Hi.
    inversion Hval. reflexivity.
  - rewrite aTrousComputeVariance_pixel_few in Hval by exact Hi.
    inversion Hval. reflexivity.
Qed.

Lemma variance_pass_stores_deviation_witness :
  exists stddev,
    launch2D 16 1 1 (aTrousComputeVariance [mkVec3 2 2 0] [8%R] 1 1 2) [0%R]
    = Done stddev
    /\ load 0%R stddev 0
       = sqrt (Rmax 0 (unbiasedSampleVariance (mkVec3 2 2 0) 8 2)).
Proof.
  destruct (variance_pass_stores_deviation [mkVec3 2 2 0] [8%R] 1 1 2 [0%R])
    as (sd & Hrun & Hval); try reflexivity; try lia.
  exists sd. split; [exact Hrun|].
  destruct (Hval 0 0 ltac:(lia) ltac:(lia)) as [Hmany _].
  apply Hmany. lia.
Defined.

Lemma sample_variance_example :
  unbiasedSampleVariance (mkVec3 2 2 0) 8 2 = 4%R.
Proof.
  unfold unbiasedSampleVariance, length2. simpl.
  replace (IZR (2 - 1)) with 1%R by (simpl; reflexivity). field.
Qed.

Lemma sqrt_4 : sqrt 4 = 2%R.
Proof.
  replace 4%R with (2 * 2)%R by lra. apply sqrt_square. lra.
Qed.

(** C1, as stated, fails: for one pixel with the two samples [(0,0,0)] and
    [(2,2,0)], so sum [(2,2,0)], sum of squares [8] and [iter = 2], the
    unbiased sample variance is [4] and the stored estimate is [2]. *)
Lemma variance_pass_stores_not_the_variance :
  exists stddev,
    launch2D 16 1 1 (aTrousComputeVariance [mkVec3 2 2 0] [8%R] 1 1 2) [0%R]
    = Done stddev
    /\ load 0%R stddev 0 = 2%R
    /\ unbiasedSampleVariance (load vzero [mkVec3 2 2 0] 0) (load 0%R [8%R] 0) 2 = 4%R
    /\ load 0%R stddev 0
       <> unbiasedSampleVariance (load vzero [mkVec3 2 2 0] 0) (load 0%R [8%R] 0) 2.
Proof.
  destruct (launch_aTrousComputeVariance [mkVec3 2 2 0] [8%R] 1 1 2 [0%R])
    as (sd & Hrun & _ & Hval); try reflexivity; try lia.
  exists sd. split; [exact Hrun|].
  specialize (Hval 0 0 ltac:(lia) ltac:(lia)).
  rewrite aTrousComputeVariance_pixel_many in Hval by lia.
  change (load vzero [mkVec3 2 2 0] (0 * 1 + 0)) with (mkVec3 2 2 0) in Hval.
  change (load 0%R [8%R] (0 * 1 + 0)) with 8%R in Hval.
  change (load vzero [mkVec3 2 2 0] 0) with (mkVec3 2 2 0).
  change (load 0%R [8%R] 0) with 8%R.
  rewrite sample_variance_example in *.
  rewrite Rmax_right in Hval by lra. rewrite sqrt_4 in Hval.
  inversion Hval as [Hv]. repeat split; lra.
Qed.

(** ** Display transform of the variance buffers *)

Lemma processTexel_variance (m : Memory) (b : vbuf) (fb : fbuf)
    (index iter : Z) (bufType : BufferType) :
  is_variance_type bufType = true ->
  0 <= index < Z.of_nat (length (vmem m b)) ->
  0 <= index < Z.of_nat (length (fmem m fb)) ->
  processTexel m (PointsTo b) (PointsTo (FloatArray fb)) index bufType iter
  = (mean2 <- fdiv (length2 (load vzero (vmem m b) index)) (IZR iter) ;;
     variance <- fdiv (load 0%R (fmem m fb) index - mean2) (IZR (iter - 1)) ;;
     Done (vpow (mkVec3 variance 0 0) (vec3_splat 0.3))).
Proof.
  intros Hv H1 H2. unfold processTexel. simpl deref_vec3. rewrite bind_Done.
  rewrite (read_load _ _ vzero H1). rewrite bind_Done.
  destruct bufType; try discriminate Hv;
    simpl deref_as_float; rewrite bind_Done;
    rewrite (read_load _ _ 0%R H2); rewrite bind_Done; reflexivity.
Qed.

(** C10.  For the two variance buffer types the display/readback transform
    divides by [iter - 1] without a guard.  With [iter > 1] the divisor is
    not zero and the result is the power curve of
    [(sumSqr - |sum|^2 / iter) / (iter - 1)].  With [iter = 1] the division
    has a zero divisor and the transform has no result, where the variance
    pass of the denoiser stores [1]; the same holds at [iter = 0].  So for an
    iteration count (a non-negative [iter]) the transform returns only if
    [iter > 1]. *)
Theorem variance_transform_unguarded (h : Handles) (m : Memory) (b : vbuf) (fb : fbuf)
    (index iter : Z) (bufType : BufferType) :
  is_variance_type bufType = true ->
  0 <= index < Z.of_nat (length (vmem m b)) ->
  0 <= index < Z.of_nat (length (fmem m fb)) ->
  let pix1 := load vzero (vmem m b) index in
  let sumSqr := load 0%R (fmem m fb) index in
  let run i := processTexel m (PointsTo b) (PointsTo (FloatArray fb)) index bufType i in
  (exists b' fb', getBuffers h bufType Indeterminate Indeterminate
                  = (PointsTo b', PointsTo (FloatArray fb')))
  /\ (1 < iter ->
      IZR (iter - 1) <> 0%R
      /\ run iter = Done (vpow (mkVec3 (unbiasedSampleVariance pix1 sumSqr iter) 0 0)
                               (vec3_splat 0.3)))
  /\ run 1 = Undefined DivisionByZero
  /\ run 0 = Undefined DivisionByZero
  /\ aTrousComputeVariance_pixel pix1 sumSqr 1 = Done 1%R
  /\ (0 <= iter -> returns (run iter) = true -> 1 < iter).
Proof.
  intros Hv H1 H2 pix1 sumSqr run.
  assert (Hrun : forall i, run i
    = (mean2 <- fdiv (length2 pix1) (IZR i) ;;
       variance <- fdiv (sumSqr - mean2) (IZR (i - 1)) ;;
       Done (vpow (mkVec3 variance 0 0) (vec3_splat 0.3)))).
  { intros i. unfold run. apply processTexel_variance; assumption. }
  assert (Hone : run 1 = Undefined DivisionByZero).
  { rewrite Hrun. rewrite fdiv_nonzero by lra. rewrite bind_Done.
    change (IZR (1 - 1)) with 0%R. rewrite fdiv_zero. reflexivity. }
  assert (Hzero : run 0 = Undefined DivisionByZero).
  { rewrite Hrun. rewrite fdiv_zero. reflexivity. }
  split; [|split; [|split; [|split; [|split]]]].
  - destruct bufType; try discriminate Hv; simpl; eauto.
  - intros Hi. split; [apply not_0_IZR; lia|].
    rewrite Hrun. rewrite fdiv_nonzero by (apply not_0_IZR; lia). rewrite bind_Done.
    rewrite fdiv_nonzero by (apply not_0_IZR; lia). reflexivity.
  - exact Hone.
  - exact Hzero.
  - apply aTrousComputeVariance_pixel_few. lia.
  - intros Hnn Hret.
    destruct (Z_lt_ge_dec 1 iter) as [Hgt|Hle]; [exact Hgt|].
    assert (iter = 0 \/ iter = 1) as [-> | ->] by lia.
    + rewrite Hzero in Hret. discriminate.
    + rewrite Hone in Hret. discriminate.
Qed.

Lemma variance_transform_unguarded_witness :
  processTexel (blank_memory 4) (PointsTo A_directIllum)
    (PointsTo (FloatArray A_directIllumSqr)) 0 DirectSpecularIlluminationVariance 1
  = Undefined DivisionByZero
  /\ aTrousComputeVariance_pixel
       (load vzero (vmem (blank_memory 4) A_directIllum) 0)
       (load 0%R (fmem (blank_memory 4) A_directIllumSqr) 0) 1 = Done 1%R
  /\ IZR (3 - 1) <> 0%R.
Proof.
  assert (Hv : is_variance_type DirectSpecularIlluminationVariance = true)
    by reflexivity.
  assert (H1 : 0 <= 0 < Z.of_nat (length (vmem (blank_memory 4) A_directIllum)))
    by (simpl; lia).
  assert (H2 : 0 <= 0 < Z.of_nat (length (fmem (blank_memory 4) A_directIllumSqr)))
    by (simpl; lia).
  destruct (variance_transform_unguarded pathtraceInit_handles (blank_memory 4)
              A_directIllum A_directIllumSqr 0 3 DirectSpecularIlluminationVariance
              Hv H1 H2) as (_ & Hmany & Hone & _ & Hfall & _).
  split; [exact Hone|]. split; [exact Hfall|].
  destruct Hmany as [Hnz _]; [lia | exact Hnz].
Defined.

(** ** Memory behind the handles *)

Lemma vbuf_eqb_eq (a b : vbuf) : vbuf_eqb a b = true <-> a = b.
Proof. destruct a, b; simpl; split; intros H; try reflexivity; discriminate. Qed.

Lemma fbuf_eqb_eq (a b : fbuf) : fbuf_eqb a b = true <-> a = b.
Proof. destruct a, b; simpl; split; intros H; try reflexivity; discriminate. Qed.



Lemma vmem_vset_same (m : Memory) (b : vbuf) (a : list vec3) :
  vmem (vset m b a) b = a.
Proof. destruct b; reflexivity. Qed.

Lemma vmem_vset_other (m : Memory) (b b' : vbuf) (a : list vec3) :
  b <> b' -> vmem (vset m b a) b' = vmem m b'.
Proof. intros H. destruct b, b'; try reflexivity; contradiction H; reflexivity. Qed.

Lemma fmem_fset_same (m : Memory) (b : fbuf) (a : list R) :
  fmem (fset m b a) b = a.
Proof. destruct b; reflexivity. Qed.

Lemma fmem_fset_other (m : Memory) (b b' : fbuf) (a : list R) :
  b <> b' -> fmem (fset m b a) b' = fmem m b'.
Proof. intros H. destruct b, b'; try reflexivity; contradiction H; reflexivity. Qed.

Lemma fmem_vset (m : Memory) (b : vbuf) (a : list vec3) (fb : fbuf) :
  fmem (vset m b a) fb = fmem m fb.
Proof. destruct fb; reflexivity. Qed.

Lemma vmem_fset (m : Memory) (fb : fbuf) (a : list R) (b : vbuf) :
  vmem (fset m fb a) b = vmem m b.
Proof. destruct b; reflexivity. Qed.





Lemma vset_fset_comm (m : Memory) (b : vbuf) (a : list vec3) (fb : fbuf) (x : list R) :
  fset (vset m b a) fb x = vset (fset m fb x) b a.
Proof. destruct b, fb; reflexivity. Qed.



(** ** Accumulations commute *)

Lemma bind_assoc {A B C : Type} (m : outcome A) (f : A -> outcome B) (g : B -> outcome C) :
  bind (bind m f) g = bind m (fun a => bind (f a) g).
Proof. destruct m; reflexivity. Qed.

Lemma bind_ret {A : Type} (m : outcome A) : bind m (fun a => Done a) = m.
Proof. destruct m; reflexivity. Qed.









Lemma run_ops_app (l1 l2 : list add_op) (m : Memory) :
  run_ops (l1 ++ l2) m = (m1 <- run_ops l1 m ;; run_ops l2 m1).
Proof.
  revert m. induction l1 as [|o l1 IH]; intros m; simpl; [reflexivity|].
  rewrite bind_assoc. destruct (run_op o m); simpl; [apply IH | reflexivity | reflexivity].
Qed.

(** ** 1D launches *)

Lemma upto_split (n T : Z) :
  0 <= n <= T ->
  upto T = upto n ++ map Z.of_nat (seq (Z.to_nat n) (Z.to_nat (T - n))).
Proof.
  intros H. unfold upto. rewrite <- map_app. f_equal.
  replace (Z.to_nat T) with (Z.to_nat n + Z.to_nat (T - n))%nat by lia.
  apply seq_app.
Qed.

Lemma blocks_cover (n : Z) : 0 <= n -> n <= Z.quot (n + 128 - 1) 128 * 128.
Proof.
  intros H. rewrite Z.quot_div_nonneg by lia.
  pose proof (Z.div_mod (n + 128 - 1) 128 ltac:(lia)).
  pose proof (Z.mod_pos_bound (n + 128 - 1) 128 ltac:(lia)). lia.
Qed.

Lemma fold_left_ext_In {A B : Type} (f g : A -> B -> A) (l : list B) (a : A) :
  (forall acc x, In x l -> f acc x = g acc x) ->
  fold_left f l a = fold_left g l a.
Proof.
  revert a. induction l as [|x l IH]; intros a H; simpl; [reflexivity|].
  rewrite H by (left; reflexivity). apply IH.
  intros acc y Hy. apply H. right. exact Hy.
Qed.

Lemma fold_threads_noop {St T : Type} (k : T -> St -> outcome St) (l : list T)
    (acc : outcome St) :
  (forall t s, In t l -> k t s = Done s) ->
  fold_left (fun acc t => s <- acc ;; k t s) l acc = acc.
Proof.
  revert acc. induction l as [|t l IH]; intros acc H; simpl; [reflexivity|].
  rewrite IH by (intros; apply H; right; assumption).
  destruct acc; simpl; try reflexivity. apply H. left. reflexivity.
Qed.

(** Threads [length pre .. length pre + length l - 1] that each load their
    own element of an array do what a traversal of the elements does. *)
Lemma fold_threads_read {St A : Type} (G : A -> St -> outcome St)
    (l pre : list A) (acc : outcome St) :
  fold_left (fun acc i => s <- acc ;; x <- read (pre ++ l) i ;; G x s)
            (map Z.of_nat (seq (length pre) (length l))) acc
  = fold_left (fun acc x => s <- acc ;; G x s) l acc.
Proof.
  revert pre acc. induction l as [|x l IH]; intros pre acc; simpl; [reflexivity|].
  assert (Hr : read (pre ++ x :: l) (Z.of_nat (length pre)) = Done x).
  { rewrite (read_in _ _ x) by (rewrite length_app; simpl; lia).
    rewrite Nat2Z.id. rewrite app_nth2 by lia.
    replace (length pre - length pre)%nat with 0%nat by lia. reflexivity. }
  rewrite Hr.
  replace (pre ++ x :: l) with ((pre ++ [x]) ++ l) by (rewrite <- app_assoc; reflexivity).
  specialize (IH (pre ++ [x])).
  rewrite length_app in IH. simpl in IH.
  replace (length pre + 1)%nat with (S (length pre)) in IH by lia.
  rewrite IH. reflexivity.
Qed.

Lemma fold_run_ops {A : Type} (ops : A -> list add_op) (l : list A) (m : Memory) :
  fold_left (fun acc x => s <- acc ;; run_ops (ops x) s) l (Done m)
  = run_ops (flat_map ops l) m.
Proof.
  assert (H : forall acc,
    fold_left (fun acc x => s <- acc ;; run_ops (ops x) s) l acc
    = (s <- acc ;; run_ops (flat_map ops l) s)).
  { induction l as [|x l IH]; intros acc; simpl.
    - symmetry. apply bind_ret.
    - rewrite IH. rewrite bind_assoc.
      destruct acc; simpl; try reflexivity.
      rewrite run_ops_app. reflexivity. }
  rewrite H. reflexivity.
Qed.

Lemma finalGather_thread (nPaths : Z) (direct : vbuf) (directSqr : fbuf)
    (indirect : vbuf) (indirectSqr : fbuf) (paths : list PathSegment)
    (index : Z) (m : Memory) :
  finalGather nPaths direct directSqr indirect indirectSqr paths index m
  = if index <? nPaths then
      p <- read paths index ;;
      run_ops (gather_ops direct directSqr indirect indirectSqr p) m
    else Done m.
Proof.
  unfold finalGather. destruct (index <? nPaths); [|reflexivity].
  destruct (read paths index) as [p| |]; simpl; try reflexivity.
  destruct (vadd_at m direct (pixelIndex p) (directAccum p)); simpl; try reflexivity.
  destruct (fadd_at a directSqr (pixelIndex p) (length2 (directAccum p))); simpl;
    try reflexivity.
  destruct (vadd_at a0 indirect (pixelIndex p) (indirectAccum p)); simpl;
    try reflexivity.
  symmetry. apply bind_ret.
Qed.

(** The final gather over [pixelcount] path slots performs the accumulations
    of every slot, slot after slot. *)
Lemma launch_finalGather_run_ops {scene : Scene} (pixelcount : Z) (d : Device) :
  Z.of_nat (length (dev_paths d)) = pixelcount ->
  launch_finalGather pixelcount d
  = run_ops (flat_map (gather_ops (dev_directIllum (handles d))
                                  (dev_directIllumSqr (handles d))
                                  (dev_indirectIllum (handles d))
                                  (dev_indirectIllumSqr (handles d)))
                      (dev_paths d))
            (memory d).
Proof.
  intros Hlen. unfold launch_finalGather, launch1D.
  assert (Hn : 0 <= pixelcount) by lia.
  rewrite (upto_split pixelcount _ (conj Hn (blocks_cover _ Hn))).
  rewrite fold_left_app.
  rewrite fold_threads_noop.
  2:{ intros i s Hin. apply in_map_iff in Hin. destruct Hin as (k & <- & Hk).
      apply in_seq in Hk. rewrite finalGather_thread.
      destruct (Z.of_nat k <? pixelcount) eqn:E; [apply Z.ltb_lt in E; lia | reflexivity]. }
  rewrite <- fold_run_ops.
  rewrite <- (fold_threads_read _ (dev_paths d) []).
  unfold upto. simpl length. rewrite <- Hlen, Nat2Z.id. simpl app.
  apply fold_left_ext_In.
  intros acc i Hin. apply in_map_iff in Hin. destruct Hin as (k & <- & Hk).
  apply in_seq in Hk. destruct acc; simpl; try reflexivity.
  rewrite finalGather_thread.
  destruct (Z.of_nat k <? Z.of_nat (length (dev_paths d))) eqn:E;
    [reflexivity | apply Z.ltb_ge in E; lia].
Qed.

(** ** Compaction and sorting permute the path records *)

Lemma filter_split_Permutation {A : Type} (p : A -> bool) (l : list A) :
  Permutation (filter p l ++ filter (fun x => negb (p x)) l) l.
Proof.
  induction l as [|x l IH]; simpl; [constructor|].
  destruct (p x); simpl.
  - constructor. exact IH.
  - apply Permutation_sym. apply Permutation_cons_app.
    apply Permutation_sym. exact IH.
Qed.

Lemma partition_Permutation {A : Type} (p : A -> bool) (a : list A) (n : Z) :
  Permutation (fst (partition p a n)) a.
Proof.
  unfold partition. simpl.
  rewrite app_assoc.
  rewrite <- (firstn_skipn (Z.to_nat n) a) at 4.
  apply Permutation_app_tail. apply filter_split_Permutation.
Qed.

Lemma partition_count {A : Type} (p : A -> bool) (a : list A) (n : Z) :
  snd (partition p a n) = Z.of_nat (length (filter p (firstn (Z.to_nat n) a))).
Proof. reflexivity. Qed.





(** ** Shading keeps the pixel of a path *)

Lemma shade_hit_pixelIndex {scene : Scene} :
  (forall p a b c m u v l n i,
     pixelIndex (multipleImportanceSampling p a b c m u v l n i) = pixelIndex p) ->
  (forall p a b c m u s f i,
     pixelIndex (fst (scatterRay p a b c m u s f i)) = pixelIndex p) ->
  forall iter depth sample range lightMis numLights iSelf isect path,
    pixelIndex (shade_hit iter depth sample range lightMis numLights
                          iSelf isect path) = pixelIndex path.
Proof.
  intros Hmis Hscatter iter depth sample range lightMis numLights iSelf isect path.
  unfold shade_hit.
  match goal with
  | |- context [scatterRay ?p ?a ?b ?c ?m ?u ?s ?f ?i] =>
      pose proof (Hscatter p a b c m u s f i) as Hs;
      destruct (scatterRay p a b c m u s f i) as [path' spec]
  end.
  simpl in Hs |- *. rewrite Hs.
  destruct (negb (lightMis =? -1) && negb (mat_isSpecular (materials (materialId isect))));
    [apply Hmis | reflexivity].
Qed.

(** A shading step that returns took the miss branch, or read a sample and
    took the hit branch. *)
Lemma shade_path_cases {scene : Scene} (iter depth : Z)
    (pool : list IntersectionSample) (offset : Z) (range : R)
    (count lightMis numLights iSelf : Z) (isect : ShadeableIntersection)
    (path path' : PathSegment) :
  shade_path iter depth pool offset range count lightMis numLights iSelf isect path
  = Done path' ->
  (materialId isect = -1 /\ path' = terminate_miss path)
  \/ (materialId isect <> -1
      /\ exists sample,
           path' = shade_hit iter depth sample range lightMis numLights
                             iSelf isect path).
Proof.
  unfold shade_path. destruct (Z.eqb_spec (materialId isect) (-1)) as [E|E]; simpl negb;
    cbv iota; intros H.
  - left. split; [exact E|]. inversion H. reflexivity.
  - right. split; [exact E|].
    apply bind_eq_Done in H. destruct H as (k & _ & H).
    apply bind_eq_Done in H. destruct H as (sample & _ & H).
    exists sample. inversion H. reflexivity.
Qed.

Lemma shade_path_pixelIndex {scene : Scene} :
  (forall p a b c m u v l n i,
     pixelIndex (multipleImportanceSampling p a b c m u v l n i) = pixelIndex p) ->
  (forall p a b c m u s f i,
     pixelIndex (fst (scatterRay p a b c m u s f i)) = pixelIndex p) ->
  forall iter depth pool offset range count lightMis numLights iSelf isect path path',
    shade_path iter depth pool offset range count lightMis numLights iSelf isect path
    = Done path' ->
    pixelIndex path' = pixelIndex path.
Proof.
  intros Hmis Hscatter iter depth pool offset range count lightMis numLights iSelf
         isect path path' H.
  destruct (shade_path_cases _ _ _ _ _ _ _ _ _ _ _ _ H) as [[_ ->]|[_ [sample ->]]].
  - reflexivity.
  - apply shade_hit_pixelIndex; assumption.
Qed.

(** With a pool that holds the [count] samples of the bounce at [offset],
    [count] a positive [int], the shading step returns. *)
Lemma shade_path_returns {scene : Scene} (iter depth : Z)
    (pool : list IntersectionSample) (offset : Z) (range : R)
    (count lightMis numLights iSelf : Z) (isect : ShadeableIntersection)
    (path : PathSegment) :
  0 < count < 2 ^ 31 -> 0 <= offset ->
  offset + count <= Z.of_nat (length pool) ->
  exists path',
    shade_path iter depth pool offset range count lightMis numLights iSelf isect path
    = Done path'.
Proof.
  intros Hc Ho Hl. unfold shade_path.
  destruct (negb (materialId isect =? -1)); [|eexists; reflexivity].
  destruct (stratifiedSampleIndex_call_in_pool iter (pixelIndex path) count Hc)
    as [E B].
  rewrite E, bind_Done.
  rewrite (read_in pool _ (mkIntersectionSample (mkVec2 0 0) (mkVec2 0 0) (mkVec2 0 0)))
    by lia.
  rewrite bind_Done. eexists. reflexivity.
Qed.

Lemma upto_NoDup (n : Z) : NoDup (upto n).
Proof.
  unfold upto. apply Finite.Injective_map_NoDup.
  - intros a b H. lia.
  - apply seq_NoDup.
Qed.

Lemma NoDup_split_notin {A : Type} (l done rest : list A) (t : A) :
  NoDup l -> l = done ++ t :: rest -> ~ In t done.
Proof.
  intros Hnd Heq Hin. subst l. apply NoDup_remove_2 in Hnd.
  apply Hnd. apply in_or_app. left. exact Hin.
Qed.

(** A 1D launch over a device state seen as slots: thread [i < n] rewrites
    slot [i] from its old value and keeps the other slots and the invariant
    [Inv]; the other threads do nothing. *)
Lemma launch1D_slots {St V : Type} (slot : St -> nat -> V) (Inv : St -> Prop)
    (nb bs n : Z) (k : Z -> St -> outcome St) (F : Z -> V -> V) (s0 : St) :
  0 <= n <= nb * bs -> Inv s0 ->
  (forall i s, 0 <= i < n -> Inv s ->
     exists s', k i s = Done s' /\ Inv s'
       /\ slot s' (Z.to_nat i) = F i (slot s (Z.to_nat i))
       /\ forall q, q <> Z.to_nat i -> slot s' q = slot s q) ->
  (forall i s, n <= i -> k i s = Done s) ->
  exists s', launch1D nb bs k s0 = Done s' /\ Inv s'
    /\ forall q : nat,
         (Z.of_nat q < n -> slot s' q = F (Z.of_nat q) (slot s0 q))
         /\ (n <= Z.of_nat q -> slot s' q = slot s0 q).
Proof.
  intros Hn Hinv Hin Hout. unfold launch1D.
  pose (P := fun (done : list Z) (s : St) =>
    Inv s /\
    forall q : nat,
      (In (Z.of_nat q) done -> Z.of_nat q < n ->
       slot s q = F (Z.of_nat q) (slot s0 q))
      /\ (~ In (Z.of_nat q) done \/ n <= Z.of_nat q -> slot s q = slot s0 q)).
  destruct (fold_threads_invariant k P (upto (nb * bs)) s0) as (s' & Hrun & Hl & HP).
  - split; [exact Hinv|]. intros q. split; [intros []|reflexivity].
  - intros done t rest s Heq [Hl HPd].
    assert (Ht : In t (upto (nb * bs))).
    { rewrite Heq. apply in_or_app. right. left. reflexivity. }
    apply In_upto in Ht.
    pose proof (NoDup_split_notin _ _ _ _ (upto_NoDup _) Heq) as Hfresh.
    destruct (Z_lt_ge_dec t n) as [Hlt|Hge].
    + destruct (Hin t s (conj (proj1 Ht) Hlt) Hl) as (s1 & Hk & Hl1 & Hsame & Hother).
      exists s1. split; [exact Hk|]. split; [exact Hl1|]. intros q. split.
      * intros Hq Hqn. apply in_app_or in Hq.
        destruct (Nat.eq_dec q (Z.to_nat t)) as [->|Hne].
        -- rewrite Hsame. rewrite Z2Nat.id by lia.
           f_equal. apply (HPd (Z.to_nat t)). left.
           rewrite Z2Nat.id by lia. exact Hfresh.
        -- rewrite Hother by exact Hne.
           destruct Hq as [Hq|[Hq|[]]]; [apply HPd; assumption | lia].
      * intros Hq.
        assert (Hne : q <> Z.to_nat t).
        { intros ->. rewrite Z2Nat.id in Hq by lia.
          destruct Hq as [Hq|Hq]; [|lia].
          apply Hq. apply in_or_app. right. left. reflexivity. }
        rewrite Hother by exact Hne. apply HPd.
        destruct Hq as [Hq|Hq]; [left|right; exact Hq].
        intros Hd. apply Hq. apply in_or_app. left. exact Hd.
    + rewrite Hout by lia. exists s. split; [reflexivity|].
      split; [exact Hl|]. intros q. split.
      * intros Hq Hqn. apply in_app_or in Hq.
        destruct Hq as [Hq|[Hq|[]]]; [apply HPd; assumption | lia].
      * intros Hq. apply HPd.
        destruct Hq as [Hq|Hq]; [|right; exact Hq].
        destruct (Z_lt_ge_dec (Z.of_nat q) n) as [Hqn|Hqn]; [left|right; lia].
        intros Hd. apply Hq. apply in_or_app. left. exact Hd.
  - exists s'. split; [exact Hrun|]. split; [exact Hl|].
    intros q. split.
    + intros Hq. apply HP; [|exact Hq]. apply In_upto. lia.
    + intros Hq. apply HP. right. exact Hq.
Qed.

(** The same for threads that need not return: when the launch returns,
    every thread has returned, so the invariant of the set of threads run
    holds at the end. *)
Lemma fold_threads_invariant_cond {St T : Type} (k : T -> St -> outcome St)
    (P : list T -> St -> Prop) (l : list T) (s0 : St) :
  P [] s0 ->
  (forall done t rest s s', l = done ++ t :: rest -> P done s ->
     k t s = Done s' -> P (done ++ [t]) s') ->
  forall s', fold_left (fun acc t => s <- acc ;; k t s) l (Done s0) = Done s' ->
    P l s'.
Proof.
  intros H0. induction l as [|t l IH] using rev_ind; intros Hstep s' Hrun.
  - simpl in Hrun. inversion Hrun; subst. exact H0.
  - rewrite fold_left_app in Hrun. simpl in Hrun.
    apply bind_eq_Done in Hrun. destruct Hrun as (s1 & Hrun & Hk).
    apply (Hstep l t [] s1 s' eq_refl); [|exact Hk].
    apply IH; [|exact Hrun].
    intros done t' rest s s2 Heq. apply (Hstep done t' (rest ++ [t])).
    rewrite Heq. rewrite <- app_assoc. reflexivity.
Qed.

(** A 1D launch whose thread [i < n], when it returns, has rewritten slot
    [i] to a value related by [Rel i] to the old one and kept the other
    slots: if the launch returns, every slot below [n] is so related to its
    value before the launch. *)
Lemma launch1D_slots_rel {St V : Type} (slot : St -> nat -> V) (Inv : St -> Prop)
    (nb bs n : Z) (k : Z -> St -> outcome St) (Rel : Z -> V -> V -> Prop) (s0 : St) :
  0 <= n <= nb * bs -> Inv s0 ->
  (forall i s s', 0 <= i < n -> Inv s -> k i s = Done s' ->
     Inv s'
     /\ Rel i (slot s (Z.to_nat i)) (slot s' (Z.to_nat i))
     /\ forall q, q <> Z.to_nat i -> slot s' q = slot s q) ->
  (forall i s, n <= i -> k i s = Done s) ->
  forall s', launch1D nb bs k s0 = Done s' ->
    Inv s'
    /\ forall q : nat,
         (Z.of_nat q < n -> Rel (Z.of_nat q) (slot s0 q) (slot s' q))
         /\ (n <= Z.of_nat q -> slot s' q = slot s0 q).
Proof.
  intros Hn Hinv Hin Hout s' Hrun. unfold launch1D in Hrun.
  pose (P := fun (done : list Z) (s : St) =>
    Inv s /\
    forall q : nat,
      (In (Z.of_nat q) done -> Z.of_nat q < n ->
       Rel (Z.of_nat q) (slot s0 q) (slot s q))
      /\ (~ In (Z.of_nat q) done \/ n <= Z.of_nat q -> slot s q = slot s0 q)).
  assert (HP : P (upto (nb * bs)) s').
  { apply (fold_threads_invariant_cond k P (upto (nb * bs)) s0); [| |exact Hrun].
    - split; [exact Hinv|]. intros q. split; [intros []|reflexivity].
    - intros done t rest s s1 Heq [Hl HPd] Hk.
      assert (Ht : In t (upto (nb * bs))).
      { rewrite Heq. apply in_or_app. right. left. reflexivity. }
      apply In_upto in Ht.
      pose proof (NoDup_split_notin _ _ _ _ (upto_NoDup _) Heq) as Hfresh.
      destruct (Z_lt_ge_dec t n) as [Hlt|Hge].
      + destruct (Hin t s s1 (conj (proj1 Ht) Hlt) Hl Hk) as (Hl1 & Hsame & Hother).
        split; [exact Hl1|]. intros q. split.
        * intros Hq Hqn. apply in_app_or in Hq.
          destruct (Nat.eq_dec q (Z.to_nat t)) as [->|Hne].
          -- rewrite Z2Nat.id by lia.
             replace (slot s0 (Z.to_nat t)) with (slot s (Z.to_nat t)); [exact Hsame|].
             apply (HPd (Z.to_nat t)). left.
             rewrite Z2Nat.id by lia. exact Hfresh.
          -- rewrite Hother by exact Hne.
             destruct Hq as [Hq|[Hq|[]]]; [apply HPd; assumption | lia].
        * intros Hq.
          assert (Hne : q <> Z.to_nat t).
          { intros ->. rewrite Z2Nat.id in Hq by lia.
            destruct Hq as [Hq|Hq]; [|lia].
            apply Hq. apply in_or_app. right. left. reflexivity. }
          rewrite Hother by exact Hne. apply HPd.
          destruct Hq as [Hq|Hq]; [left|right; exact Hq].
          intros Hd. apply Hq. apply in_or_app. left. exact Hd.
      + rewrite Hout in Hk by lia. inversion Hk; subst s1.
        split; [exact Hl|]. intros q. split.
        * intros Hq Hqn. apply in_app_or in Hq.
          destruct Hq as [Hq|[Hq|[]]]; [apply HPd; assumption | lia].
        * intros Hq. apply HPd.
          destruct Hq as [Hq|Hq]; [|right; exact Hq].
          destruct (Z_lt_ge_dec (Z.of_nat q) n) as [Hqn|Hqn]; [left|right; lia].
          intros Hd. apply Hq. apply in_or_app. left. exact Hd. }
  destruct HP as [Hl HP]. split; [exact Hl|].
  intros q. split.
  - intros Hq. apply HP; [|exact Hq]. apply In_upto. lia.
  - intros Hq. apply HP. right. exact Hq.
Qed.

(** ** Intersection and shading launches *)

Lemma computeIntersections_thread {scene : Scene} (depth n i : Z)
    (ps : list PathSegment) (ins : list ShadeableIntersection) (ks : list Z) :
  0 <= i < n -> i < Z.of_nat (length ps) -> i < Z.of_nat (length ins) ->
  i < Z.of_nat (length ks) ->
  let p := nth (Z.to_nat i) ps blank_path in
  let old := nth (Z.to_nat i) ins zeroIntersection in
  exists ps' ins' ks',
    computeIntersections depth n i (ps, ins, ks) = Done (ps', ins', ks')
    /\ store ps i (intersect_path p) = Done ps'
    /\ store ins i (intersect_record p old) = Done ins'
    /\ store ks i (materialId (intersect_record p old)) = Done ks'.
Proof.
  intros Hi Hp His Hks p old. unfold computeIntersections.
  replace (i >=? n) with false by (symmetry; rewrite Z.geb_leb; apply Z.leb_gt; lia).
  rewrite (read_in ps i blank_path) by lia. rewrite bind_Done. fold p.
  unfold intersect_path, intersect_record.
  destruct (traverseAABBTree (ray p) (lastGeom p)) as [[hit t_hit] tok]. simpl fst.
  rewrite (store_in ps) by lia. rewrite bind_Done.
  rewrite (read_in ins i zeroIntersection) by lia. rewrite bind_Done. fold old.
  rewrite (store_in ins) by lia. rewrite bind_Done.
  rewrite (store_in ks) by lia. rewrite bind_Done.
  do 3 eexists. repeat split; reflexivity.
Qed.

Lemma launch_computeIntersections {scene : Scene} (depth n nb : Z)
    (ps0 : list PathSegment) (ins0 : list ShadeableIntersection) (ks0 : list Z) :
  0 <= n <= nb * 128 ->
  n <= Z.of_nat (length ps0) -> n <= Z.of_nat (length ins0) ->
  n <= Z.of_nat (length ks0) ->
  exists ps ins ks,
    launch1D nb 128 (computeIntersections depth n) (ps0, ins0, ks0)
    = Done (ps, ins, ks)
    /\ length ps = length ps0 /\ length ins = length ins0 /\ length ks = length ks0
    /\ forall q : nat,
         (Z.of_nat q < n ->
          nth q ps blank_path = intersect_path (nth q ps0 blank_path)
          /\ nth q ins zeroIntersection
             = intersect_record (nth q ps0 blank_path) (nth q ins0 zeroIntersection))
         /\ (n <= Z.of_nat q ->
             nth q ps blank_path = nth q ps0 blank_path
             /\ nth q ins zeroIntersection = nth q ins0 zeroIntersection).
Proof.
  intros Hn Hp Hi Hk.
  pose (slot := fun (s : IsectArrays) (q : nat) =>
    let '(ps, ins, ks) := s in (nth q ps blank_path, nth q ins zeroIntersection)).
  pose (Inv := fun (s : IsectArrays) =>
    let '(ps, ins, ks) := s in
    length ps = length ps0 /\ length ins = length ins0 /\ length ks = length ks0).
  pose (F := fun (i : Z) (v : PathSegment * ShadeableIntersection) =>
    (intersect_path (fst v), intersect_record (fst v) (snd v))).
  destruct (launch1D_slots slot Inv nb 128 n (computeIntersections depth n) F
              (ps0, ins0, ks0)) as ([[ps ins] ks] & Hrun & (Hl1 & Hl2 & Hl3) & Hslots).
  - exact Hn.
  - simpl. auto.
  - intros i [[ps ins] ks] Hin (Hl1 & Hl2 & Hl3).
    destruct (computeIntersections_thread depth n i ps ins ks Hin)
      as (ps' & ins' & ks' & Hrun & Hs1 & Hs2 & Hs3); try lia.
    exists (ps', ins', ks'). split; [exact Hrun|].
    destruct (store_spec _ _ _ _ blank_path Hs1) as (L1 & _ & S1 & O1).
    destruct (store_spec _ _ _ _ zeroIntersection Hs2) as (L2 & _ & S2 & O2).
    destruct (store_spec _ _ _ _ 0 Hs3) as (L3 & _ & _ & _).
    split; [simpl; repeat split; congruence|].
    split.
    + simpl. rewrite S1, S2. reflexivity.
    + intros q Hq. simpl. rewrite O1, O2 by exact Hq. reflexivity.
  - intros i [[ps ins] ks] Hi'. unfold computeIntersections.
    replace (i >=? n) with true by (symmetry; apply Z.geb_le; lia). reflexivity.
  - exists ps, ins, ks. split; [exact Hrun|]. repeat (split; [assumption|]).
    intros q. destruct (Hslots q) as [Hlt Hge]. split; intros Hq.
    + specialize (Hlt Hq). simpl in Hlt. inversion Hlt. split; reflexivity.
    + specialize (Hge Hq). simpl in Hge. inversion Hge. split; reflexivity.
Qed.

(** The shading launch, when it returns: every active slot holds the result
    of the shading step on the path that was there. *)
Lemma launch_shade_inv {scene : Scene} (iter depth n nb : Z)
    (isects : list ShadeableIntersection) (pool : list IntersectionSample)
    (offset : Z) (range : R) (count lightMis numLights : Z)
    (paths0 paths : list PathSegment) :
  0 <= n <= nb * 128 ->
  n <= Z.of_nat (length paths0) -> n <= Z.of_nat (length isects) ->
  launch1D nb 128
    (shade iter depth n isects pool offset range count lightMis numLights) paths0
  = Done paths ->
  length paths = length paths0
  /\ forall q : nat,
       (Z.of_nat q < n ->
        shade_path iter depth pool offset range count lightMis numLights
          (Z.of_nat q) (nth q isects zeroIntersection) (nth q paths0 blank_path)
        = Done (nth q paths blank_path))
       /\ (n <= Z.of_nat q -> nth q paths blank_path = nth q paths0 blank_path).
Proof.
  intros Hn Hp Hi Hrun.
  pose (Rel := fun (i : Z) (v v' : PathSegment) =>
    shade_path iter depth pool offset range count lightMis numLights i
      (nth (Z.to_nat i) isects zeroIntersection) v = Done v').
  destruct (launch1D_slots_rel (fun s q => nth q s blank_path)
              (fun s => length s = length paths0) nb 128 n
              (shade iter depth n isects pool offset range count lightMis numLights)
              Rel paths0 Hn eq_refl) with (s' := paths) as (Hl & Hslots).
  - intros i s s' Hin Hl Hk. unfold shade in Hk.
    replace (i >=? n) with false in Hk
      by (symmetry; rewrite Z.geb_leb; apply Z.leb_gt; lia).
    rewrite (read_in isects i zeroIntersection) in Hk by lia. rewrite bind_Done in Hk.
    rewrite (read_in s i blank_path) in Hk by lia. rewrite bind_Done in Hk.
    apply bind_eq_Done in Hk. destruct Hk as (p' & Hsp & Hst).
    destruct (store_spec _ _ _ _ blank_path Hst) as (L & _ & Ss & Os).
    split; [lia|]. split; [|exact Os].
    unfold Rel. rewrite Ss. exact Hsp.
  - intros i s Hi'. unfold shade.
    replace (i >=? n) with true by (symmetry; apply Z.geb_le; lia). reflexivity.
  - exact Hrun.
  - split; [exact Hl|].
    intros q. destruct (Hslots q) as [Hlt Hge]. split; intros Hq.
    + specialize (Hlt Hq). unfold Rel in Hlt. rewrite Nat2Z.id in Hlt. exact Hlt.
    + exact (Hge Hq).
Qed.

(** The shading launch returns when every shading step does. *)
Lemma launch_shade {scene : Scene} (iter depth n nb : Z)
    (isects : list ShadeableIntersection) (pool : list IntersectionSample)
    (offset : Z) (range : R) (count lightMis numLights : Z)
    (paths0 : list PathSegment) :
  0 <= n <= nb * 128 ->
  n <= Z.of_nat (length paths0) -> n <= Z.of_nat (length isects) ->
  (forall q : nat, Z.of_nat q < n -> forall path, exists path',
     shade_path iter depth pool offset range count lightMis numLights
       (Z.of_nat q) (nth q isects zeroIntersection) path
     = Done path') ->
  exists paths,
    launch1D nb 128
      (shade iter depth n isects pool offset range count lightMis numLights) paths0
    = Done paths.
Proof.
  intros Hn Hp Hi Hret.
  pose (F := fun (i : Z) (p : PathSegment) =>
    match shade_path iter depth pool offset range count lightMis numLights i
            (nth (Z.to_nat i) isects zeroIntersection) p with
    | Done p' => p'
    | _ => p
    end).
  destruct (launch1D_slots (fun s q => nth q s blank_path)
              (fun s => length s = length paths0) nb 128 n
              (shade iter depth n isects pool offset range count lightMis numLights)
              F paths0) as (paths & Hrun & _).
  - exact Hn.
  - reflexivity.
  - intros i s Hin Hl. unfold shade.
    replace (i >=? n) with false by (symmetry; rewrite Z.geb_leb; apply Z.leb_gt; lia).
    rewrite (read_in isects i zeroIntersection) by lia. rewrite bind_Done.
    rewrite (read_in s i blank_path) by lia. rewrite bind_Done.
    unfold F.
    destruct (Hret (Z.to_nat i) ltac:(lia) (nth (Z.to_nat i) s blank_path))
      as (p' & Hsp).
    rewrite Z2Nat.id in Hsp by lia.
    rewrite Hsp, bind_Done.
    assert (Hidx : 0 <= i < Z.of_nat (length s)) by lia.
    assert (Hst := store_in s i p' Hidx).
    rewrite Hst. eexists. split; [reflexivity|].
    destruct (store_spec _ _ _ _ blank_path Hst) as (L & _ & Ss & Os).
    split; [lia|]. split; [exact Ss | exact Os].
  - intros i s Hi'. unfold shade.
    replace (i >=? n) with true by (symmetry; apply Z.geb_le; lia). reflexivity.
  - exists paths. exact Hrun.
Qed.

(** ** One depth of the loop *)

Lemma memset0_sized {A : Type} (zero : A) (a : list A) :
  memset0 zero a (Z.of_nat (length a)) = Done (repeat zero (length a)).
Proof.
  unfold memset0.
  replace (0 <=? Z.of_nat (length a)) with true by (symmetry; apply Z.leb_le; lia).
  rewrite Z.leb_refl. simpl andb. cbv iota.
  rewrite Nat2Z.id. rewrite skipn_all. rewrite app_nil_r. reflexivity.
Qed.

Lemma partition_length {A : Type} (p : A -> bool) (a : list A) (n : Z) :
  length (fst (partition p a n)) = length a.
Proof. apply Permutation_length. apply partition_Permutation. Qed.

Lemma partition_count_bound {A : Type} (p : A -> bool) (a : list A) (n : Z) :
  0 <= n -> 0 <= snd (partition p a n) <= n.
Proof.
  intros Hn. rewrite partition_count.
  pose proof (filter_length_le p (firstn (Z.to_nat n) a)) as H.
  rewrite length_firstn in H. lia.
Qed.

(** The body of the depth loop on a device of [pixelcount] pixels with [n]
    active paths, when it returns: every active slot is intersected, then
    shaded, the other slots are kept; then the array is partitioned. *)
Lemma depthIteration_inv {scene : Scene} (iter lightMis numLights pixelcount : Z)
    (depth n : Z) (d d' : Device) (n' : Z) :
  sized pixelcount d -> 0 <= n <= pixelcount ->
  depthIteration iter lightMis numLights pixelcount depth n d = Done (d', n') ->
  exists shaded,
    n' = snd (partition IsRayTravelling shaded n)
    /\ dev_paths d' = fst (partition IsRayTravelling shaded n)
    /\ sized pixelcount d'
    /\ handles d' = handles d /\ memory d' = memory d
    /\ length shaded = length (dev_paths d)
    /\ forall q : nat,
         (Z.of_nat q < n ->
          shade_path iter depth samplePool (depth * numStratifiedSamples)
            stratifiedSamplingRange numStratifiedSamples lightMis numLights
            (Z.of_nat q)
            (intersect_record (nth q (dev_paths d) blank_path) zeroIntersection)
            (intersect_path (nth q (dev_paths d) blank_path))
          = Done (nth q shaded blank_path))
         /\ (n <= Z.of_nat q -> nth q shaded blank_path = nth q (dev_paths d) blank_path).
Proof.
  intros (Hp & Hi & Hk & Hc) Hn Hrun. unfold depthIteration in Hrun.
  assert (Hm : memset0 zeroIntersection (dev_intersections d) pixelcount
               = Done (repeat zeroIntersection (length (dev_intersections d)))).
  { rewrite <- Hi. apply memset0_sized. }
  rewrite Hm in Hrun. rewrite bind_Done in Hrun.
  rewrite Hc in Hrun. rewrite andb_false_r in Hrun. cbv iota in Hrun.
  assert (Hblocks : 0 <= n <= Z.quot (n + 128 - 1) 128 * 128).
  { split; [lia | apply blocks_cover; lia]. }
  destruct (launch_computeIntersections depth n (Z.quot (n + 128 - 1) 128)
              (dev_paths d) (repeat zeroIntersection (length (dev_intersections d)))
              (dev_materialSortBuffer d))
    as (ps & ins & ks & Hrun1 & L1 & L2 & L3 & Hslots1);
    try (rewrite ?repeat_length; lia).
  rewrite Hrun1 in Hrun. rewrite bind_Done in Hrun.
  unfold cacheFirstBounce, sortByMaterial in Hrun. simpl andb in Hrun. cbv iota in Hrun.
  rewrite !bind_Done in Hrun.
  apply bind_eq_Done in Hrun. destruct Hrun as (shaded & Hrun2 & Hrest).
  destruct (launch_shade_inv iter depth n (Z.quot (n + 128 - 1) 128) ins samplePool
              (depth * numStratifiedSamples) stratifiedSamplingRange
              numStratifiedSamples lightMis numLights ps shaded)
    as (L4 & Hslots2); try (rewrite ?L1, ?L2, ?repeat_length; lia); [exact Hrun2|].
  exists shaded.
  destruct (partition IsRayTravelling shaded n) as [paths' np] eqn:Epart.
  inversion Hrest; subst d' n'. simpl dev_paths. simpl handles. simpl memory.
  assert (Hlen' : length paths' = length shaded).
  { change paths' with (fst (paths', np)). rewrite <- Epart. apply partition_length. }
  split; [reflexivity|]. split; [reflexivity|]. split.
  - unfold sized. simpl. rewrite L2, repeat_length in *. repeat split; lia.
  - split; [reflexivity|]. split; [reflexivity|]. split; [lia|].
    intros q. destruct (Hslots2 q) as [Hlt2 Hge2]. destruct (Hslots1 q) as [Hlt1 Hge1].
    split; intros Hq.
    + specialize (Hlt2 Hq). destruct (Hlt1 Hq) as [E1 E2]. rewrite E1, E2 in Hlt2.
      rewrite nth_repeat in Hlt2. exact Hlt2.
    + rewrite (Hge2 Hq). apply (Hge1 Hq).
Qed.

(** The body of the depth loop returns when every shading step of its depth
    does. *)
Lemma depthIteration_returns {scene : Scene} (iter lightMis numLights pixelcount : Z)
    (depth n : Z) (d : Device) :
  sized pixelcount d -> 0 <= n <= pixelcount ->
  (forall q : nat, Z.of_nat q < n -> forall path, exists path',
     shade_path iter depth samplePool (depth * numStratifiedSamples)
       stratifiedSamplingRange numStratifiedSamples lightMis numLights (Z.of_nat q)
       (intersect_record (nth q (dev_paths d) blank_path) zeroIntersection) path
     = Done path') ->
  exists d' n', depthIteration iter lightMis numLights pixelcount depth n d = Done (d', n').
Proof.
  intros (Hp & Hi & Hk & Hc) Hn Hret. unfold depthIteration.
  assert (Hm : memset0 zeroIntersection (dev_intersections d) pixelcount
               = Done (repeat zeroIntersection (length (dev_intersections d)))).
  { rewrite <- Hi. apply memset0_sized. }
  rewrite Hm. rewrite bind_Done.
  rewrite Hc. rewrite andb_false_r. cbv iota.
  assert (Hblocks : 0 <= n <= Z.quot (n + 128 - 1) 128 * 128).
  { split; [lia | apply blocks_cover; lia]. }
  destruct (launch_computeIntersections depth n (Z.quot (n + 128 - 1) 128)
              (dev_paths d) (repeat zeroIntersection (length (dev_intersections d)))
              (dev_materialSortBuffer d))
    as (ps & ins & ks & Hrun1 & L1 & L2 & L3 & Hslots1);
    try (rewrite ?repeat_length; lia).
  rewrite Hrun1. rewrite bind_Done.
  unfold cacheFirstBounce, sortByMaterial. simpl andb. cbv iota.
  rewrite !bind_Done.
  destruct (launch_shade iter depth n (Z.quot (n + 128 - 1) 128) ins samplePool
              (depth * numStratifiedSamples) stratifiedSamplingRange
              numStratifiedSamples lightMis numLights ps)
    as (shaded & Hrun2); try (rewrite ?L1, ?L2, ?repeat_length; lia).
  { intros q Hq path. destruct (Hslots1 q) as [Hlt _]. destruct (Hlt Hq) as [_ E2].
    rewrite E2. rewrite nth_repeat. apply Hret. exact Hq. }
  rewrite Hrun2. rewrite bind_Done.
  destruct (partition IsRayTravelling shaded n) as [paths' np].
  do 2 eexists. reflexivity.
Qed.

(** Both together, for a pool that holds the samples of the depth. *)
Lemma depthIteration_spec {scene : Scene} (iter lightMis numLights pixelcount : Z)
    (depth n : Z) (d : Device) :
  sized pixelcount d -> 0 <= n <= pixelcount ->
  0 < numStratifiedSamples < 2 ^ 31 -> 0 <= depth ->
  (depth + 1) * numStratifiedSamples <= Z.of_nat (length samplePool) ->
  exists shaded d',
    depthIteration iter lightMis numLights pixelcount depth n d
    = Done (d', snd (partition IsRayTravelling shaded n))
    /\ dev_paths d' = fst (partition IsRayTravelling shaded n)
    /\ sized pixelcount d'
    /\ handles d' = handles d /\ memory d' = memory d
    /\ length shaded = length (dev_paths d)
    /\ forall q : nat,
         (Z.of_nat q < n ->
          shade_path iter depth samplePool (depth * numStratifiedSamples)
            stratifiedSamplingRange numStratifiedSamples lightMis numLights
            (Z.of_nat q)
            (intersect_record (nth q (dev_paths d) blank_path) zeroIntersection)
            (intersect_path (nth q (dev_paths d) blank_path))
          = Done (nth q shaded blank_path))
         /\ (n <= Z.of_nat q -> nth q shaded blank_path = nth q (dev_paths d) blank_path).
Proof.
  intros Hs Hn HN Hd Hpool.
  destruct (depthIteration_returns iter lightMis numLights pixelcount depth n d Hs Hn)
    as (d' & n' & Hrun).
  { intros q Hq path. apply shade_path_returns; [exact HN | nia | nia]. }
  destruct (depthIteration_inv iter lightMis numLights pixelcount depth n d d' n'
              Hs Hn Hrun) as (shaded & En & Hrest).
  exists shaded, d'. subst n'. split; [exact Hrun | exact Hrest].
Qed.

(** ** The active prefix after compaction *)

Lemma In_firstn_nth {A : Type} (a : list A) (k : nat) (x d : A) :
  In x (firstn k a) -> exists q, (q < k)%nat /\ (q < length a)%nat /\ nth q a d = x.
Proof.
  revert k. induction a as [|h tl IH]; intros k H.
  - rewrite firstn_nil in H. destruct H.
  - destruct k as [|k]; simpl in H; [destruct H|].
    destruct H as [<-|H].
    + exists 0%nat. simpl. repeat split; lia.
    + destruct (IH k H) as (q & Hq & Hl & E).
      exists (S q). simpl. repeat split; try lia. exact E.
Qed.

Lemma partition_prefix {A : Type} (p : A -> bool) (a : list A) (n : Z) (q : nat) (d : A) :
  Z.of_nat q < snd (partition p a n) ->
  p (nth q (fst (partition p a n)) d) = true
  /\ exists q0 : nat, Z.of_nat q0 < n /\ (q0 < length a)%nat
       /\ nth q0 a d = nth q (fst (partition p a n)) d.
Proof.
  intros Hq. rewrite partition_count in Hq. unfold partition. simpl.
  rewrite app_nth1 by lia.
  assert (Hin : In (nth q (filter p (firstn (Z.to_nat n) a)) d)
                   (filter p (firstn (Z.to_nat n) a))) by (apply nth_In; lia).
  apply filter_In in Hin. destruct Hin as [Hin Hp]. split; [exact Hp|].
  destruct (In_firstn_nth _ _ _ d Hin) as (q0 & Hq0 & Hl & E).
  exists q0. repeat split; try assumption.
  destruct (Z_lt_ge_dec 0 n); [lia|].
  replace (Z.to_nat n) with 0%nat in Hq0 by lia. lia.
Qed.

Lemma intersect_path_bounces {scene : Scene} (p : PathSegment) :
  remainingBounces (intersect_path p) = remainingBounces p.
Proof. reflexivity. Qed.

Section DepthLoop.
Context {scene : Scene}.
Variables (iter lightMis numLights pixelcount : Z).

(** Each shading step either uses up one bounce or ends the path. *)
Hypothesis shading_consumes : forall depth i isect path path',
  shade_path iter depth samplePool (depth * numStratifiedSamples)
    stratifiedSamplingRange numStratifiedSamples lightMis numLights i isect path
  = Done path' ->
  remainingBounces path' = remainingBounces path - 1 \/ remainingBounces path' = 0.

(** The sample pool is as [pathtraceInit] allocates it, for a number of
    strata that is a positive [int]. *)
Hypothesis strata : 0 < numStratifiedSamples < 2 ^ 31.
Hypothesis pool_sized :
  Z.of_nat (length samplePool) = traceDepth * numStratifiedSamples.

(** After one depth, every path of the new active prefix has a positive
    number of bounces left, one fewer than some path that was active. *)
Lemma depthIteration_active (depth n : Z) (d : Device) :
  0 <= depth < traceDepth ->
  sized pixelcount d -> 0 <= n <= pixelcount ->
  exists d' n',
    depthIteration iter lightMis numLights pixelcount depth n d = Done (d', n')
    /\ sized pixelcount d' /\ 0 <= n' <= n
    /\ handles d' = handles d /\ memory d' = memory d
    /\ forall q : nat, Z.of_nat q < n' ->
         0 < remainingBounces (nth q (dev_paths d') blank_path)
         /\ exists q0 : nat, Z.of_nat q0 < n
              /\ remainingBounces (nth q (dev_paths d') blank_path)
                 = remainingBounces (nth q0 (dev_paths d) blank_path) - 1.
Proof.
  intros Hd Hs Hn.
  destruct (depthIteration_spec iter lightMis numLights pixelcount depth n d Hs Hn
              strata ltac:(lia) ltac:(rewrite pool_sized; nia))
    as (shaded & d' & Hrun & Hpaths & Hs' & Hh & Hm & Hlen & Hslots).
  exists d', (snd (partition IsRayTravelling shaded n)).
  split; [exact Hrun|]. split; [exact Hs'|].
  split; [apply partition_count_bound; lia|].
  split; [exact Hh|]. split; [exact Hm|].
  intros q Hq. rewrite Hpaths.
  destruct (partition_prefix IsRayTravelling shaded n q blank_path Hq)
    as (Hpos & q0 & Hq0 & _ & E).
  rewrite <- E in Hpos |- *.
  unfold IsRayTravelling in Hpos. rewrite Z.gtb_ltb in Hpos. apply Z.ltb_lt in Hpos.
  split; [exact Hpos|]. exists q0. split; [exact Hq0|].
  destruct (Hslots q0) as [Hlt _]. specialize (Hlt Hq0).
  destruct (shading_consumes _ _ _ _ _ Hlt) as [Hdec|Hzero].
  - rewrite Hdec. reflexivity.
  - rewrite Hzero in Hpos. lia.
Qed.

(** Once every active path has between [1] and [B] bounces left, with the
    samples of [B] more depths in the pool, the loop ends within [B] more
    depths. *)
Lemma depthLoop_bounded (fuel : nat) :
  forall (B depth n : Z) (d : Device),
    0 <= depth -> depth + B <= traceDepth ->
    sized pixelcount d -> 0 <= n <= pixelcount ->
    (forall q : nat, Z.of_nat q < n ->
       0 < remainingBounces (nth q (dev_paths d) blank_path) <= B) ->
    B <= Z.of_nat fuel ->
    exists d' depth',
      depthLoop fuel iter lightMis numLights pixelcount depth n d
      = Some (Done (d', depth'))
      /\ depth <= depth' <= depth + Z.max B 0
      /\ sized pixelcount d'
      /\ handles d' = handles d /\ memory d' = memory d.
Proof.
  induction fuel as [|fuel IH]; intros B depth n d Hd0 HdB Hs Hn Hrb Hfuel.
  - assert (n = 0).
    { destruct (Z.eq_dec n 0) as [E|E]; [exact E|].
      specialize (Hrb 0%nat ltac:(lia)). simpl in Hfuel. lia. }
    subst n. simpl. exists d, depth.
    split; [reflexivity|]. split; [lia|]. split; [exact Hs|]. split; reflexivity.
  - simpl. destruct (n >? 0) eqn:En.
    + rewrite Z.gtb_ltb in En. apply Z.ltb_lt in En.
      assert (HB : 1 <= B) by (specialize (Hrb 0%nat ltac:(lia)); lia).
      destruct (depthIteration_active depth n d ltac:(lia) Hs Hn)
        as (d1 & n1 & Hrun & Hs1 & Hn1 & Hh1 & Hm1 & Hact).
      rewrite Hrun.
      destruct (IH (B - 1) (depth + 1) n1 d1 ltac:(lia) ltac:(lia) Hs1 ltac:(lia))
        as (d' & depth' & Hloop & Hd & Hs' & Hh & Hm).
      * intros q Hq. destruct (Hact q Hq) as (Hpos & q0 & Hq0 & E).
        specialize (Hrb q0 Hq0). lia.
      * lia.
      * exists d', depth'. split; [exact Hloop|].
        split; [lia|]. split; [exact Hs'|]. split; congruence.
    + exists d, depth.
      split; [reflexivity|]. split; [lia|]. split; [exact Hs|]. split; reflexivity.
Qed.

(** From paths that all start with [D] bounces the loop ends within
    [max D 0 + 1] depths. *)
Lemma depthLoop_from_start (D : Z) (d : Device) :
  0 < traceDepth -> D <= traceDepth ->
  sized pixelcount d ->
  (forall p, In p (dev_paths d) -> remainingBounces p = D) ->
  exists d' depth',
    depthLoop (S (Z.to_nat D)) iter lightMis numLights pixelcount 0 pixelcount d
    = Some (Done (d', depth'))
    /\ 0 <= depth' <= Z.max D 0 + 1
    /\ sized pixelcount d'
    /\ handles d' = handles d /\ memory d' = memory d.
Proof.
  intros HT HD Hs Hall. cbn [depthLoop].
  assert (Hpc : 0 <= pixelcount) by (destruct Hs as (Hp & _); lia).
  destruct (pixelcount >? 0) eqn:En.
  - rewrite Z.gtb_ltb in En. apply Z.ltb_lt in En.
    destruct (depthIteration_active 0 pixelcount d ltac:(lia) Hs ltac:(lia))
      as (d1 & n1 & Hrun & Hs1 & Hn1 & Hh1 & Hm1 & Hact).
    rewrite Hrun.
    destruct (depthLoop_bounded (Z.to_nat D) (D - 1) (0 + 1) n1 d1
                ltac:(lia) ltac:(lia) Hs1 ltac:(lia))
      as (d' & depth' & Hloop & Hd & Hs' & Hh & Hm).
    + intros q Hq. destruct (Hact q Hq) as (Hpos & q0 & Hq0 & E).
      assert (Hin : In (nth q0 (dev_paths d) blank_path) (dev_paths d)).
      { apply nth_In. destruct Hs as (Hp & _). lia. }
      rewrite (Hall _ Hin) in E. lia.
    + lia.
    + exists d', depth'. split; [exact Hloop|].
      split; [lia|]. split; [exact Hs'|]. split; congruence.
  - exists d, 0.
    split; [reflexivity|]. split; [lia|]. split; [exact Hs|]. split; reflexivity.
Qed.
End DepthLoop.

(** C5 (as amended).  Let every shading step either decrement
    [remainingBounces] or set it to zero, let the trace depth be positive and
    the sample pool hold [traceDepth * numStratifiedSamples] samples, as
    [pathtraceInit] allocates it, for a positive number of strata.  Then one
    depth of the loop, at a depth below the trace depth, returns and leaves
    an active-path count that is at most the count it started from, and the
    paths of the new active prefix are those with [remainingBounces > 0]; and
    from paths that all start with [remainingBounces = D], [D] at most the
    trace depth, the depth loop ends, with an empty active set, after at most
    [D + 1] depths ([1] when [D] is negative). *)
Theorem depth_loop_terminates {scene : Scene}
    (iter lightMis numLights pixelcount D : Z) (d : Device) :
  (forall depth i isect path path',
     shade_path iter depth samplePool (depth * numStratifiedSamples)
       stratifiedSamplingRange numStratifiedSamples lightMis numLights i isect path
     = Done path' ->
     remainingBounces path' = remainingBounces path - 1
     \/ remainingBounces path' = 0) ->
  0 < numStratifiedSamples < 2 ^ 31 ->
  Z.of_nat (length samplePool) = traceDepth * numStratifiedSamples ->
  0 < traceDepth -> D <= traceDepth ->
  sized pixelcount d ->
  (forall p, In p (dev_paths d) -> remainingBounces p = D) ->
  (forall depth n d0,
     0 <= depth < traceDepth ->
     sized pixelcount d0 -> 0 <= n <= pixelcount ->
     exists d1 n1,
       depthIteration iter lightMis numLights pixelcount depth n d0 = Done (d1, n1)
       /\ sized pixelcount d1 /\ 0 <= n1 <= n
       /\ forall q : nat, Z.of_nat q < n1 ->
            0 < remainingBounces (nth q (dev_paths d1) blank_path))
  /\ exists d' depth',
       depthLoop (S (Z.to_nat D)) iter lightMis numLights pixelcount 0 pixelcount d
       = Some (Done (d', depth'))
       /\ 0 <= depth' <= Z.max D 0 + 1.
Proof.
  intros Hshade HN Hpool HT HD Hs Hall. split.
  - intros depth n d0 Hdepth Hs0 Hn.
    destruct (depthIteration_active iter lightMis numLights pixelcount Hshade HN Hpool
                depth n d0 Hdepth Hs0 Hn)
      as (d1 & n1 & Hrun & Hs1 & Hn1 & _ & _ & Hact).
    exists d1, n1. repeat (split; [assumption|]).
    intros q Hq. apply (Hact q Hq).
  - destruct (depthLoop_from_start iter lightMis numLights pixelcount Hshade HN Hpool
                D d HT HD Hs Hall)
      as (d' & depth' & Hloop & Hd & _).
    exists d', depth'. split; assumption.
Qed.

Lemma simple_scene_shading_consumes (hash : Z -> Z) (hit D : Z)
    (iter lightMis numLights : Z) :
  let scene := simple_scene hash hit D in
  forall depth i isect path path',
    shade_path iter depth samplePool (depth * numStratifiedSamples)
      stratifiedSamplingRange numStratifiedSamples lightMis numLights i isect path
    = Done path' ->
    remainingBounces path' = remainingBounces path - 1
    \/ remainingBounces path' = 0.
Proof.
  intros scene depth i isect path path' H.
  destruct (shade_path_cases _ _ _ _ _ _ _ _ _ _ _ _ H) as [[_ ->]|[_ [sample ->]]].
  - right. reflexivity.
  - left. unfold shade_hit. simpl.
    destruct (negb (lightMis =? -1) && true); reflexivity.
Qed.

Lemma simple_scene_pool (hash : Z -> Z) (hit D : Z) :
  0 <= D ->
  let scene := simple_scene hash hit D in
  0 < numStratifiedSamples < 2 ^ 31
  /\ Z.of_nat (length camSamplePool) = numStratifiedSamples
  /\ Z.of_nat (length samplePool) = traceDepth * numStratifiedSamples.
Proof.
  intros HD scene. simpl. rewrite repeat_length. lia.
Qed.

Lemma depth_loop_terminates_witness :
  let scene := simple_scene complement_hash 0 2 in
  exists d' depth',
    depthLoop 3 1 0 0 2 0 2
      (with_paths (blank_device 2) (repeat (path_with_bounces 2) 2))
    = Some (Done (d', depth'))
    /\ 0 <= depth' <= 3.
Proof.
  intros scene.
  assert (Hs : sized 2 (with_paths (blank_device 2) (repeat (path_with_bounces 2) 2))).
  { repeat split. }
  assert (Hall : forall p,
    In p (dev_paths (with_paths (blank_device 2) (repeat (path_with_bounces 2) 2))) ->
    remainingBounces p = 2).
  { intros p Hin. simpl in Hin. destruct Hin as [<-|[<-|[]]]; reflexivity. }
  destruct (simple_scene_pool complement_hash 0 2 ltac:(lia)) as (HN & _ & Hpool).
  assert (HT : 0 < @traceDepth scene) by (simpl; lia).
  assert (HD : 2 <= @traceDepth scene) by (simpl; lia).
  destruct (@depth_loop_terminates scene 1 0 0 2 2 _
              (simple_scene_shading_consumes complement_hash 0 2 1 0 0)
              HN Hpool HT HD Hs Hall)
    as (_ & d' & depth' & Hloop & Hd).
  exists d', depth'. split; [exact Hloop | exact Hd].
Defined.

(** C5, as stated, fails for a trace depth of zero: the sample pool then has
    no element, the first depth of the loop shades every path, and a path
    that hit geometry reads a sample outside the pool.  Here one path with
    [remainingBounces = 0] in a scene where every ray hits and shading uses
    up one bounce: the loop has no defined result. *)
Lemma depth_loop_reads_outside_empty_pool :
  let scene := simple_scene complement_hash 0 0 in
  let d := with_paths (blank_device 1) [path_with_bounces 0] in
  (forall depth i isect path path',
     shade_path 1 depth samplePool (depth * numStratifiedSamples)
       stratifiedSamplingRange numStratifiedSamples 0 0 i isect path
     = Done path' ->
     remainingBounces path' = remainingBounces path - 1
     \/ remainingBounces path' = 0)
  /\ traceDepth = 0 /\ numStratifiedSamples = 1
  /\ Z.of_nat (length samplePool) = traceDepth * numStratifiedSamples
  /\ sized 1 d
  /\ (forall p, In p (dev_paths d) -> remainingBounces p = 0)
  /\ depthIteration 1 0 0 1 0 1 d = Undefined OutOfBounds
  /\ forall fuel, depthLoop (S fuel) 1 0 0 1 0 1 d = Some (Undefined OutOfBounds).
Proof.
  intros scene d.
  assert (Hiter : depthIteration 1 0 0 1 0 1 d = Undefined OutOfBounds)
    by (vm_compute; reflexivity).
  split; [exact (simple_scene_shading_consumes complement_hash 0 0 1 0 0)|].
  split; [reflexivity|]. split; [reflexivity|]. split; [reflexivity|].
  split; [repeat split|].
  split; [intros p [<-|[]]; reflexivity|].
  split; [exact Hiter|].
  intros fuel. cbn [depthLoop]. change (1 >? 0) with true. cbv iota.
  rewrite Hiter. reflexivity.
Qed.

(** ** Camera rays on a resolution the blocks cover exactly *)

Lemma divisible_blocks (w : Z) : (8 | w) -> (w + 8 - 1) / 8 * 8 = w.
Proof.
  intros [k ->].
  pose proof (Z.div_mod (k * 8 + 8 - 1) 8 ltac:(lia)).
  pose proof (Z.mod_pos_bound (k * 8 + 8 - 1) 8 ltac:(lia)). lia.
Qed.

(** A thread that passes the guard reads its camera sample and computes the
    path segment of index [x + y * resolution.x], when the camera pool holds
    the [numStratifiedSamples] samples [pathtraceInit] allocates, their
    number a positive [int]. *)
Lemma generateRayFromCamera_passes {scene : Scene} (cam : Camera) (iter D x y : Z) :
  0 < numStratifiedSamples < 2 ^ 31 ->
  Z.of_nat (length camSamplePool) = numStratifiedSamples ->
  0 < resolution_x cam ->
  (x >=? resolution_x cam) && (y >=? resolution_y cam) = false ->
  exists seg,
    generateRayFromCamera cam iter D x y
    = Done (Some (x + y * resolution_x cam, seg))
    /\ pixelIndex seg = x + y * resolution_x cam
    /\ colorThroughput seg = vec3_splat 1
    /\ directAccum seg = vec3_splat 0 /\ indirectAccum seg = vec3_splat 0
    /\ lastGeom seg = -1 /\ remainingBounces seg = D
    /\ prevBounceNoMis seg = true /\ prevBounceSpecular seg = true
    /\ indirectIllum seg = false.
Proof.
  intros HN Hpool Hw Hguard. unfold generateRayFromCamera. rewrite Hguard.
  destruct (stratifiedSampleIndex_call_in_pool iter (x + y * resolution_x cam)
              numStratifiedSamples HN) as [E B].
  rewrite E, bind_Done.
  rewrite (read_in camSamplePool _ (mkCameraSample (mkVec2 0 0) (mkVec2 0 0))) by lia.
  rewrite bind_Done.
  assert (Hnz : IZR (resolution_x cam) <> 0%R) by (apply not_0_IZR; lia).
  rewrite !fdiv_nonzero by exact Hnz. rewrite !bind_Done.
  eexists. split; [reflexivity|]. simpl. repeat split; reflexivity.
Qed.

Lemma generateRayFromCamera_inside {scene : Scene} (cam : Camera) (iter D x y : Z) :
  0 < numStratifiedSamples < 2 ^ 31 ->
  Z.of_nat (length camSamplePool) = numStratifiedSamples ->
  0 < resolution_x cam -> x < resolution_x cam ->
  exists seg,
    generateRayFromCamera cam iter D x y
    = Done (Some (x + y * resolution_x cam, seg))
    /\ pixelIndex seg = x + y * resolution_x cam
    /\ directAccum seg = vec3_splat 0 /\ indirectAccum seg = vec3_splat 0
    /\ remainingBounces seg = D.
Proof.
  intros HN Hpool Hw Hx.
  destruct (generateRayFromCamera_passes cam iter D x y HN Hpool Hw)
    as (seg & Hgen & Hpi & _ & Hda & Hia & _ & Hrb & _).
  { replace (x >=? resolution_x cam) with false
      by (symmetry; rewrite Z.geb_leb; apply Z.leb_gt; lia).
    reflexivity. }
  exists seg. repeat split; assumption.
Qed.

(** When the blocks of 8 x 8 threads cover the resolution exactly, the ray
    generation launch stays inside the path array and leaves in every slot a
    fresh path of its own pixel. *)
Lemma launch_generateRayFromCamera_exact {scene : Scene}
    (cam : Camera) (iter D : Z) (paths0 : list PathSegment) :
  0 < numStratifiedSamples < 2 ^ 31 ->
  Z.of_nat (length camSamplePool) = numStratifiedSamples ->
  0 < resolution_x cam -> 0 < resolution_y cam ->
  (8 | resolution_x cam) -> (8 | resolution_y cam) ->
  Z.of_nat (length paths0) = resolution_x cam * resolution_y cam ->
  exists paths,
    launch_generateRayFromCamera cam iter D paths0 = Done paths
    /\ length paths = length paths0
    /\ forall q : nat, (q < length paths)%nat ->
         pixelIndex (nth q paths blank_path) = Z.of_nat q
         /\ directAccum (nth q paths blank_path) = vec3_splat 0
         /\ indirectAccum (nth q paths blank_path) = vec3_splat 0
         /\ remainingBounces (nth q paths blank_path) = D.
Proof.
  intros HN Hpool Hw Hh Dw Dh Hlen.
  set (w := resolution_x cam) in *. set (h := resolution_y cam) in *.
  pose (k := fun (x y : Z) (paths : list PathSegment) =>
    r <- generateRayFromCamera cam iter D x y ;;
    match r with
    | None => Done paths
    | Some (index, segment) => store paths index segment
    end).
  pose (g := fun (x y : Z) =>
    match generateRayFromCamera cam iter D x y with
    | Done (Some (_, seg)) => seg
    | _ => blank_path
    end).
  change (launch_generateRayFromCamera cam iter D paths0)
    with (launch2D 8 w h k paths0).
  assert (Hgrid : forall x y, In (x, y) (grid2D 8 w h) -> 0 <= x < w /\ 0 <= y < h).
  { intros x y Hin. apply In_grid2D in Hin.
    rewrite (divisible_blocks w Dw), (divisible_blocks h Dh) in Hin. exact Hin. }
  destruct (launch2D_stores 8 w h k g paths0 blank_path) as (paths & Hrun & Hl & Hval);
    try lia.
  - intros x y s Hin Hx Hy. unfold k, g.
    destruct (generateRayFromCamera_inside cam iter D x y HN Hpool Hw (proj2 Hx))
      as (seg & Hgen & _). rewrite Hgen. rewrite bind_Done.
    fold w. f_equal. lia.
  - intros x y s Hin Hno. exfalso. apply Hno.
    destruct (Hgrid x y Hin). lia.
  - exists paths. split; [exact Hrun|]. split; [exact Hl|].
    intros q Hq.
    assert (Hq' : 0 <= Z.of_nat q < w * h) by lia.
    pose proof (Z.div_mod (Z.of_nat q) w ltac:(lia)) as Edm.
    pose proof (Z.mod_pos_bound (Z.of_nat q) w Hw) as Bm.
    assert (Hy : 0 <= Z.of_nat q / w < h).
    { split; [apply Z.div_pos; lia | apply Z.div_lt_upper_bound; lia]. }
    specialize (Hval (Z.of_nat q mod w) (Z.of_nat q / w) Bm Hy).
    replace (Z.of_nat q / w * w + Z.of_nat q mod w) with (Z.of_nat q) in Hval by lia.
    rewrite Nat2Z.id in Hval. rewrite Hval. unfold g.
    destruct (generateRayFromCamera_inside cam iter D (Z.of_nat q mod w)
                (Z.of_nat q / w) HN Hpool Hw (proj2 Bm)) as (seg & Hgen & Hpi & Hda & Hia & Hrb).
    rewrite Hgen. fold w in Hpi. repeat split; try assumption. lia.
Qed.

(** ** Misses *)

Lemma shade_path_miss {scene : Scene} (iter depth : Z)
    (pool : list IntersectionSample) (offset : Z) (range : R)
    (count lightMis numLights i : Z)
    (isect : ShadeableIntersection) (path : PathSegment) :
  materialId isect = -1 ->
  shade_path iter depth pool offset range count lightMis numLights i isect path
  = Done (terminate_miss path).
Proof. intros H. unfold shade_path. rewrite H. reflexivity. Qed.




(** ** Accumulating zero *)







Lemma In_nth_index {A : Type} (l : list A) (x d : A) :
  In x l -> exists q, (q < length l)%nat /\ nth q l d = x.
Proof. intros H. destruct (In_nth l x d H) as (q & Hq & E). eauto. Qed.




(** ** Pixels of the paths across one depth *)

Lemma depthIteration_pixels {scene : Scene} (iter lightMis numLights pixelcount : Z)
    (depth n : Z) (d d1 : Device) (n1 : Z) :
  (forall p a b c m u v l k i,
     pixelIndex (multipleImportanceSampling p a b c m u v l k i) = pixelIndex p) ->
  (forall p a b c m u s f i,
     pixelIndex (fst (scatterRay p a b c m u s f i)) = pixelIndex p) ->
  sized pixelcount d -> 0 <= n <= pixelcount ->
  depthIteration iter lightMis numLights pixelcount depth n d = Done (d1, n1) ->
  Permutation (map pixelIndex (dev_paths d1)) (map pixelIndex (dev_paths d)).
Proof.
  intros Hmis Hscatter Hs Hn Hrun.
  destruct (depthIteration_inv iter lightMis numLights pixelcount depth n d d1 n1
              Hs Hn Hrun)
    as (shaded & _ & Hpaths & _ & _ & _ & Hlen & Hslots).
  rewrite Hpaths.
  eapply Permutation_trans.
  - apply Permutation_map. apply partition_Permutation.
  - replace (map pixelIndex shaded) with (map pixelIndex (dev_paths d));
      [apply Permutation_refl|].
    apply (nth_ext _ _ 0 0); [rewrite !length_map; lia|].
    intros q Hq. rewrite length_map in Hq.
    rewrite (nth_indep _ 0 (pixelIndex blank_path)) by (rewrite length_map; lia).
    rewrite (nth_indep (map pixelIndex shaded) 0 (pixelIndex blank_path))
      by (rewrite length_map; lia).
    rewrite !map_nth.
    destruct (Hslots q) as [Hlt Hge].
    destruct (Z_lt_ge_dec (Z.of_nat q) n) as [Hqn|Hqn].
    + rewrite (shade_path_pixelIndex Hmis Hscatter _ _ _ _ _ _ _ _ _ _ _ _ (Hlt Hqn)).
      reflexivity.
    + rewrite (Hge ltac:(lia)). reflexivity.
Qed.



(** ** The estimates of phase 1 are not negative *)

Lemma aTrousComputeVariance_pixel_nonneg (sum : vec3) (sumSqr : R) (iter : Z) (s : R) :
  aTrousComputeVariance_pixel sum sumSqr iter = Done s -> (0 <= s)%R.
Proof.
  intros H. destruct (Z_lt_ge_dec 1 iter) as [Hi|Hi].
  - rewrite aTrousComputeVariance_pixel_many in H by exact Hi.
    inversion H. apply sqrt_pos.
  - rewrite aTrousComputeVariance_pixel_few in H by lia. inversion H. lra.
Qed.

Lemma launch_aTrousComputeVariance_nonneg (colorTotal : list vec3) (colorSqr : list R)
    (width height iter : Z) (stddev0 : list R) :
  0 <= width -> 0 <= height ->
  Z.of_nat (length colorTotal) = width * height ->
  Z.of_nat (length colorSqr) = width * height ->
  Z.of_nat (length stddev0) = width * height ->
  exists stddev,
    launch2D 16 width height
      (aTrousComputeVariance colorTotal colorSqr width height iter) stddev0
    = Done stddev
    /\ length stddev = length stddev0
    /\ forall s, In s stddev -> (0 <= s)%R.
Proof.
  intros Hw Hh Ht Hs H0.
  destruct (launch_aTrousComputeVariance colorTotal colorSqr width height iter
              stddev0 Hw Hh Ht Hs H0) as (sd & Hrun & Hlen & Hval).
  exists sd. split; [exact Hrun|]. split; [exact Hlen|].
  intros s Hin. destruct (In_nth_index _ _ 0%R Hin) as (q & Hq & <-).
  assert (Hwpos : 0 < width) by nia.
  pose proof (Z.div_mod (Z.of_nat q) width ltac:(lia)) as Edm.
  pose proof (Z.mod_pos_bound (Z.of_nat q) width Hwpos) as Bm.
  assert (Hy : 0 <= Z.of_nat q / width < height).
  { split; [apply Z.div_pos; lia | apply Z.div_lt_upper_bound; nia]. }
  specialize (Hval (Z.of_nat q mod width) (Z.of_nat q / width) Bm Hy).
  replace (Z.of_nat q / width * width + Z.of_nat q mod width) with (Z.of_nat q)
    in Hval by lia.
  apply aTrousComputeVariance_pixel_nonneg in Hval.
  unfold load in Hval.
  replace (Z.of_nat q <? 0) with false in Hval by (symmetry; apply Z.ltb_ge; lia).
  rewrite Nat2Z.id in Hval. exact Hval.
Qed.

(** ** A-trous filter level *)

Lemma clampZ_range (x lo hi : Z) : lo <= hi -> lo <= clampZ x lo hi <= hi.
Proof. intros H. unfold clampZ. lia. Qed.

Lemma clampZ_inside (x lo hi : Z) : lo <= x <= hi -> clampZ x lo hi = x.
Proof. intros H. unfold clampZ. lia. Qed.

Lemma texelFetch_texel (tex : list vec3) (width height x y : Z) :
  0 < width -> 0 < height -> Z.of_nat (length tex) = width * height ->
  texelFetch tex width height x y = Done (texel tex width height x y).
Proof.
  intros Hw Hh Hlen. unfold texelFetch, texel.
  pose proof (clampZ_range x 0 (width - 1) ltac:(lia)).
  pose proof (clampZ_range y 0 (height - 1) ltac:(lia)).
  apply read_load. nia.
Qed.

Lemma textureSampleBilinear_bilinear (tex : list vec3) (width height : Z) (px py : R) :
  0 < width -> 0 < height -> Z.of_nat (length tex) = width * height ->
  textureSampleBilinear tex width height px py = Done (bilinear tex width height px py).
Proof.
  intros Hw Hh Hlen. unfold textureSampleBilinear.
  rewrite !texelFetch_texel by assumption. reflexivity.
Qed.

Lemma to_int_range (z : Z) : - 2 ^ 31 <= z < 2 ^ 31 -> to_int z = z.
Proof.
  intros H. unfold to_int, two32.
  destruct (Z_lt_ge_dec z 0) as [Hneg|Hpos].
  - assert (E : z mod 2 ^ 32 = z + 2 ^ 32)
      by (symmetry; apply (Z.mod_unique z (2 ^ 32) (-1)); lia).
    rewrite E.
    destruct (z + 2 ^ 32 <? 2 ^ 31) eqn:L; [apply Z.ltb_lt in L; lia | lia].
  - rewrite Z.mod_small by lia.
    destruct (z <? 2 ^ 31) eqn:L; [reflexivity | apply Z.ltb_ge in L; lia].
Qed.

Lemma truncZ_IZR (k : Z) : truncZ (IZR k) = k.
Proof.
  unfold truncZ. destruct (Rle_lt_dec 0 (IZR k)); [apply ZfloorZ|].
  unfold Zceil. rewrite <- opp_IZR, ZfloorZ. lia.
Qed.

(** Inside the range of [int] the conversion of a floor is the floor. *)
Lemma float_to_int_floorf (r : R) :
  (- 2 ^ 31 <= r < 2 ^ 31)%R -> float_to_int (floorf r) = Zfloor r.
Proof.
  intros [Hlo Hhi]. unfold float_to_int, floorf. rewrite truncZ_IZR.
  apply clampZ_inside.
  pose proof (Zfloor_bound r) as [Hfl Hfu].
  assert (Hl : - 2 ^ 31 <= Zfloor r).
  { apply Zfloor_lub. change (- 2 ^ 31) with (-2147483648). lra. }
  assert (Hu : Zfloor r < 2 ^ 31).
  { apply lt_IZR. change (2 ^ 31) with 2147483648. lra. }
  lia.
Qed.

(** At a position that can be sampled, the two coordinates the code takes
    texels at are the floor and the floor plus one. *)
Lemma samplable_exact (p : R) :
  samplable p ->
  float_to_int (floorf (p - 0.5)) = Zfloor (p - 0.5)
  /\ to_int (Zfloor (p - 0.5) + 1) = Zfloor (p - 0.5) + 1.
Proof.
  intros [Hlo Hhi]. split.
  - apply float_to_int_floorf. lra.
  - pose proof (Zfloor_bound (p - 0.5)) as [Hfl Hfu].
    assert (Hl : - 2 ^ 31 <= Zfloor (p - 0.5)).
    { apply Zfloor_lub. change (- 2 ^ 31) with (-2147483648). lra. }
    assert (Hu : Zfloor (p - 0.5) < 2 ^ 31 - 1).
    { apply lt_IZR. change (2 ^ 31 - 1) with 2147483647. lra. }
    apply to_int_range. lia.
Qed.

(** The taps of a pixel of an image of at most [2^30] by [2^30] pixels, for
    a step size below [2^29], can be sampled. *)
Lemma taps_samplable (n i : Z) (stepSize : R) (x : nat) :
  0 <= i < n -> n <= 2 ^ 30 -> (Rabs stepSize < 2 ^ 29)%R -> (x < 5)%nat ->
  samplable (IZR i + 0.5 + (INR x - 2) * stepSize).
Proof.
  intros Hi Hn Hs Hx. unfold samplable.
  assert (Hi1 : (0 <= IZR i)%R) by (apply IZR_le; lia).
  assert (Hi2 : (IZR i <= 2 ^ 30 - 1)%R).
  { assert (H : i <= 2 ^ 30 - 1) by lia. apply IZR_le in H.
    change (2 ^ 30 - 1) with 1073741823 in H. lra. }
  apply Rabs_def2 in Hs. destruct Hs as [Hs1 Hs2].
  do 5 (destruct x as [|x]; [simpl INR; lra|]). lia.
Qed.

Lemma vmix_zero (a b : vec3) : vmix a b 0 = a.
Proof. destruct a, b. unfold vmix, mixR. simpl. f_equal; ring. Qed.

Lemma vmix_same (c : vec3) (a : R) : vmix c c a = c.
Proof. destruct c. unfold vmix, mixR. simpl. f_equal; ring. Qed.



Lemma aTrous_offsets_nth (stepSize : R) (x : nat) :
  (x < 5)%nat -> nth x (aTrous_offsets stepSize) 0%R = ((INR x - 2) * stepSize)%R.
Proof.
  intros H. do 5 (destruct x as [|x]; [simpl; lra|]). lia.
Qed.

Lemma vadd_assoc (a b c : vec3) : vadd (vadd a b) c = vadd a (vadd b c).
Proof. unfold vadd. simpl. f_equal; ring. Qed.

Lemma vadd_zero_l (v : vec3) : vadd (vec3_splat 0) v = v.
Proof. destruct v. unfold vadd. simpl. f_equal; ring. Qed.

(** Accumulating weights and weighted colours tap after tap gives the two
    sums over the taps. *)
Lemma fold_taps {T : Type} (tap : T -> R * vec3 -> outcome (R * vec3))
    (W : T -> R) (C : T -> vec3) (l : list T) :
  (forall t w c, In t l -> tap t (w, c) = Done ((w + W t)%R, vadd c (vscale (W t) (C t)))) ->
  forall w0 c0,
    fold_left (fun acc t => a <- acc ;; tap t a) l (Done (w0, c0))
    = Done ((w0 + Rsum (map W l))%R,
            vadd c0 (vsum (map (fun t => vscale (W t) (C t)) l))).
Proof.
  induction l as [|t l IH]; intros Htap w0 c0; simpl.
  - f_equal. f_equal; [ring|]. unfold vzero. destruct c0. unfold vadd. simpl.
    f_equal; ring.
  - rewrite Htap by (left; reflexivity).
    rewrite IH by (intros; apply Htap; right; assumption).
    f_equal. f_equal; [ring | apply vadd_assoc].
Qed.

Lemma Rsum_nonneg (l : list R) :
  (forall r, In r l -> 0 <= r)%R -> (0 <= Rsum l)%R.
Proof.
  induction l as [|r l IH]; intros H; simpl; [lra|].
  pose proof (H r (or_introl eq_refl)).
  pose proof (IH (fun r' Hr => H r' (or_intror Hr))). lra.
Qed.

Lemma Rsum_pos (l : list R) (r0 : R) :
  (forall r, In r l -> 0 <= r)%R -> In r0 l -> (0 < r0)%R -> (0 < Rsum l)%R.
Proof.
  induction l as [|r l IH]; intros H Hin Hpos; simpl; [destruct Hin|].
  pose proof (H r (or_introl eq_refl)).
  pose proof (Rsum_nonneg l (fun r' Hr => H r' (or_intror Hr))).
  destruct Hin as [->|Hin]; [lra|].
  pose proof (IH (fun r' Hr => H r' (or_intror Hr)) Hin Hpos). lra.
Qed.

Lemma binomial_nonneg (x : nat) : (0 <= nth x binomial 0)%R.
Proof. do 5 (destruct x as [|x]; [simpl; lra|]). destruct x; simpl; lra. Qed.

Lemma In_taps5x5 (x y : nat) : In (x, y) taps5x5 <-> (x < 5)%nat /\ (y < 5)%nat.
Proof.
  unfold taps5x5. rewrite in_prod_iff. rewrite !in_seq. lia.
Qed.

Lemma vdiv_vscale (v : vec3) (s : R) :
  mkVec3 (vx v / s) (vy v / s) (vz v / s) = vscale (/ s) v.
Proof. unfold vscale, Rdiv. f_equal; ring. Qed.

Section FilterLevelProofs.
Variables (color normal position : list vec3) (stddev : list R).
Variables (width height : Z) (stepSize : R).
Variables (colorWeight normalWeight positionWeight : R).
Variables (ix iy : Z).

Hypothesis inside_x : 0 <= ix < width.
Hypothesis inside_y : 0 <= iy < height.
Hypothesis color_sized : Z.of_nat (length color) = width * height.
Hypothesis normal_sized : Z.of_nat (length normal) = width * height.
Hypothesis position_sized : Z.of_nat (length position) = width * height.
Hypothesis stddev_sized : Z.of_nat (length stddev) = width * height.
Hypothesis color_divisor :
  (colorWeight * colorWeight * load 0 stddev (iy * width + ix) + 0.01 <> 0)%R.
Hypothesis normal_divisor : normalWeight <> 0%R.
Hypothesis step_nonzero : stepSize <> 0%R.
Hypothesis position_divisor : positionWeight <> 0%R.

Let W := tapWeight color normal position stddev width height stepSize
                   colorWeight normalWeight positionWeight ix iy.
Let C := tapColor color width height stepSize ix iy.

Lemma aTrousIter_tap_value (x y : nat) (w : R) (c : vec3) :
  (x < 5)%nat -> (y < 5)%nat ->
  aTrousIter_tap color normal position width height stepSize
    (colorWeight * colorWeight) (normalWeight * normalWeight)
    (positionWeight * positionWeight)
    (load vzero color (iy * width + ix)) (load vzero normal (iy * width + ix))
    (load vzero position (iy * width + ix)) (load 0%R stddev (iy * width + ix))
    (IZR ix + 0.5) (IZR iy + 0.5) x y (w, c)
  = Done ((w + W (x, y))%R, vadd c (vscale (W (x, y)) (C (x, y)))).
Proof.
  intros Hx Hy. unfold aTrousIter_tap, W, C, tapWeight, tapColor, is_center.
  cbn [fst snd].
  destruct (Nat.eqb x 2 && Nat.eqb y 2) eqn:Ecenter.
  - apply andb_prop in Ecenter. destruct Ecenter as [Ex Ey].
    apply Nat.eqb_eq in Ex, Ey. subst x y. reflexivity.
  - assert (Hw : 0 < width) by lia. assert (Hh : 0 < height) by lia.
    rewrite !aTrous_offsets_nth by assumption.
    rewrite !textureSampleBilinear_bilinear by assumption.
    rewrite !bind_Done.
    rewrite fdiv_nonzero by exact color_divisor. rewrite !bind_Done.
    rewrite fdiv_nonzero.
    2:{ intros Hz. apply Rmult_integral in Hz. destruct Hz as [Hz|Hz]; [|contradiction].
        apply Rmult_integral in Hz. destruct Hz as [Hz|Hz]; [|contradiction].
        apply Rmult_integral in Hz. destruct Hz; contradiction. }
    rewrite !bind_Done.
    rewrite fdiv_nonzero.
    2:{ intros Hz. apply Rmult_integral in Hz. destruct Hz; contradiction. }
    rewrite !bind_Done.
    unfold colorTerm, normalTerm, positionTerm, tapX, tapY,
      centerColor, centerNormal, centerPosition, centerEstimate, centerIndex.
    replace (normalWeight * normalWeight * stepSize * stepSize)%R
      with (normalWeight * normalWeight * (stepSize * stepSize))%R by ring.
    reflexivity.
Qed.

Lemma tapWeight_nonneg (xy : nat * nat) : (0 <= W xy)%R.
Proof.
  unfold W, tapWeight. destruct (is_center xy); [lra|].
  apply Rmult_le_pos; [apply Rmult_le_pos; apply binomial_nonneg|].
  left. apply exp_pos.
Qed.

Lemma totalTapWeight_pos :
  (0 < totalTapWeight color normal position stddev width height stepSize
         colorWeight normalWeight positionWeight ix iy)%R.
Proof.
  unfold totalTapWeight. fold W.
  apply (Rsum_pos _ (W (2%nat, 2%nat))).
  - intros r Hr. apply in_map_iff in Hr. destruct Hr as (xy & <- & _).
    apply tapWeight_nonneg.
  - apply in_map. apply In_taps5x5. lia.
  - unfold W, tapWeight. simpl. lra.
Qed.

(** The value thread [(ix, iy)] computes is the weighted average. *)
Lemma aTrousIter_pixel_value :
  aTrousIter_pixel color normal position stddev width height stepSize
    (colorWeight * colorWeight) (normalWeight * normalWeight)
    (positionWeight * positionWeight) ix iy
  = Done (weightedAverage color normal position stddev width height stepSize
            colorWeight normalWeight positionWeight ix iy).
Proof.
  unfold aTrousIter_pixel.
  assert (Hidx : 0 <= iy * width + ix < width * height) by nia.
  rewrite (read_load color _ vzero) by lia. rewrite bind_Done.
  rewrite (read_load normal _ vzero) by lia. rewrite bind_Done.
  rewrite (read_load position _ vzero) by lia. rewrite bind_Done.
  rewrite (read_load stddev _ 0%R) by lia. rewrite bind_Done.
  match goal with |- context [aTrousIter_loops ?a ?b ?c ?d ?e ?f ?g ?h ?i ?j ?k ?l ?m ?n ?o] =>
    change (aTrousIter_loops a b c d e f g h i j k l m n o)
      with (fold_left (fun acc xy => acc' <- acc ;;
                         aTrousIter_tap a b c d e f g h i j k l m n o
                                        (fst xy) (snd xy) acc')
                      taps5x5 (Done (0%R, vec3_splat 0)))
  end.
  rewrite (fold_taps _ W C).
  2:{ intros [x y] w c Hin. apply In_taps5x5 in Hin.
      apply aTrousIter_tap_value; tauto. }
  rewrite bind_Done. cbv beta iota.
  rewrite Rplus_0_l, vadd_zero_l.
  pose proof totalTapWeight_pos as Hpos. unfold totalTapWeight in Hpos. fold W in Hpos.
  rewrite vdivs_nonzero by lra. rewrite vdiv_vscale. reflexivity.
Qed.
End FilterLevelProofs.

Lemma load_repeat {A : Type} (d : A) (n : nat) (p : Z) : load d (repeat d n) p = d.
Proof. unfold load. destruct (p <? 0); [reflexivity | apply nth_repeat]. Qed.

Lemma load_nonneg (l : list R) (i : Z) :
  (forall s, In s l -> 0 <= s)%R -> (0 <= load 0 l i)%R.
Proof.
  intros H. unfold load. destruct (i <? 0); [lra|].
  destruct (Nat.lt_ge_cases (Z.to_nat i) (length l)) as [Hlt|Hge].
  - apply H. apply nth_In. exact Hlt.
  - rewrite nth_overflow by exact Hge. lra.
Qed.

(** One launch of [aTrousIter]: every pixel receives the weighted average
    of its taps. *)
Lemma launch_aTrousIter_average
    (color normal position : list vec3) (stddev : list R)
    (width height : Z) (stepSize colorWeight normalWeight positionWeight : R)
    (colorOut0 : list vec3) :
  0 <= width -> 0 <= height ->
  Z.of_nat (length color) = width * height ->
  Z.of_nat (length normal) = width * height ->
  Z.of_nat (length position) = width * height ->
  Z.of_nat (length stddev) = width * height ->
  Z.of_nat (length colorOut0) = width * height ->
  (forall s, In s stddev -> 0 <= s)%R ->
  normalWeight <> 0%R -> stepSize <> 0%R -> positionWeight <> 0%R ->
  exists colorOut,
    launch2D 16 width height
      (aTrousIter color normal position stddev width height stepSize
         (colorWeight * colorWeight) (normalWeight * normalWeight)
         (positionWeight * positionWeight))
      colorOut0
    = Done colorOut
    /\ length colorOut = length colorOut0
    /\ forall ix iy, 0 <= ix < width -> 0 <= iy < height ->
         load vzero colorOut (iy * width + ix)
         = weightedAverage color normal position stddev width height stepSize
             colorWeight normalWeight positionWeight ix iy
         /\ (0 < totalTapWeight color normal position stddev width height stepSize
                   colorWeight normalWeight positionWeight ix iy)%R
         /\ tapWeight color normal position stddev width height stepSize
              colorWeight normalWeight positionWeight ix iy (2%nat, 2%nat)
            = (0.375 * 0.375)%R
         /\ tapColor color width height stepSize ix iy (2%nat, 2%nat)
            = load vzero color (iy * width + ix).
Proof.
  intros Hw Hh Lc Ln Lp Ls Lo Hnn Hnw Hstep Hpw.
  assert (Hdiv : forall ix iy,
    (colorWeight * colorWeight * load 0 stddev (iy * width + ix) + 0.01 <> 0)%R).
  { intros ix iy. pose proof (load_nonneg stddev (iy * width + ix) Hnn).
    pose proof (Rle_0_sqr colorWeight) as Hsq. unfold Rsqr in Hsq.
    pose proof (Rmult_le_pos _ _ Hsq H). lra. }
  destruct (launch2D_stores 16 width height
              (aTrousIter color normal position stddev width height stepSize
                 (colorWeight * colorWeight) (normalWeight * normalWeight)
                 (positionWeight * positionWeight))
              (fun x y => weightedAverage color normal position stddev width height
                            stepSize colorWeight normalWeight positionWeight x y)
              colorOut0 vzero) as (out & Hrun & Hlen & Hval); try assumption; try lia.
  - intros x y s _ Hx Hy. unfold aTrousIter.
    replace (x >=? width) with false by (symmetry; rewrite Z.geb_leb; apply Z.leb_gt; lia).
    replace (y >=? height) with false by (symmetry; rewrite Z.geb_leb; apply Z.leb_gt; lia).
    simpl orb. cbv iota.
    rewrite aTrousIter_pixel_value by (assumption || apply Hdiv).
    reflexivity.
  - intros x y s _ Hno. unfold aTrousIter.
    destruct (x >=? width) eqn:Ex; [reflexivity|].
    destruct (y >=? height) eqn:Ey; [reflexivity|].
    rewrite Z.geb_leb in Ex, Ey. apply Z.leb_gt in Ex, Ey. contradiction Hno. lia.
  - exists out. split; [exact Hrun|]. split; [exact Hlen|].
    intros ix iy Hx Hy. split; [|split; [|split]].
    + unfold load. replace (iy * width + ix <? 0) with false
        by (symmetry; apply Z.ltb_ge; nia).
      apply Hval; assumption.
    + apply totalTapWeight_pos.
    + reflexivity.
    + reflexivity.
Qed.



(** ** A level on two pixels: the divisor is the deviation *)


Section TwoPixels.
Variable estimate : list R.
Let color := [mkVec3 1 1 0; vzero].



End TwoPixels.



(** ** The denoiser on the handles *)

Lemma exchanged_refl (r : result_handle) (h : Handles) : exchanged r h h.
Proof. unfold exchanged. repeat (split; [reflexivity|]). left. split; reflexivity. Qed.

Lemma exchanged_swap (r : result_handle) (h : Handles) :
  exchanged r h (swap_result_temp h r).
Proof.
  unfold exchanged. destruct r; simpl; repeat (split; [reflexivity|]);
    right; split; reflexivity.
Qed.

Lemma exchanged_trans (r : result_handle) (h1 h2 h3 : Handles) :
  exchanged r h1 h2 -> exchanged r h2 h3 -> exchanged r h1 h3.
Proof.
  unfold exchanged.
  intros (A1 & A2 & A3 & A4 & A5 & A6 & A7 & A8 & A9)
         (B1 & B2 & B3 & B4 & B5 & B6 & B7 & B8 & B9).
  repeat (split; [congruence|]).
  destruct A9 as [[Ar At]|[Ar At]], B9 as [[Br Bt]|[Br Bt]];
    [left | right | right | left]; split; congruence.
Qed.

(** The loop over the levels does on the arrays behind [*resultBuf] and
    [dev_filteredTemp] what [denoise_levels] does on arrays; at its end
    [*resultBuf] is the handle of the last output. *)
Lemma aTrous_levels_denoise (n : nat) :
  forall (res_x res_y : Z) (r : result_handle) (stepSize cw nw pw : R) (d : Device),
    get_result (handles d) r <> dev_filteredTemp (handles d) ->
    dev_normalBuffer (handles d) <> get_result (handles d) r ->
    dev_normalBuffer (handles d) <> dev_filteredTemp (handles d) ->
    dev_positionBuffer (handles d) <> get_result (handles d) r ->
    dev_positionBuffer (handles d) <> dev_filteredTemp (handles d) ->
    match denoise_levels n res_x res_y
            (vmem (memory d) (dev_normalBuffer (handles d)))
            (vmem (memory d) (dev_positionBuffer (handles d)))
            (fmem (memory d) (dev_stddevBuffer (handles d)))
            stepSize cw nw pw
            (vmem (memory d) (get_result (handles d) r))
            (vmem (memory d) (dev_filteredTemp (handles d))) with
    | Done (cur, scratch) =>
        exists d',
          aTrous_levels n res_x res_y r stepSize cw nw pw d = Done d'
          /\ vmem (memory d') (get_result (handles d') r) = cur
          /\ vmem (memory d') (dev_filteredTemp (handles d')) = scratch
          /\ exchanged r (handles d) (handles d')
          /\ (forall b, b <> get_result (handles d) r ->
                        b <> dev_filteredTemp (handles d) ->
                        vmem (memory d') b = vmem (memory d) b)
          /\ (forall fb, fmem (memory d') fb = fmem (memory d) fb)
    | Aborted => aTrous_levels n res_x res_y r stepSize cw nw pw d = Aborted
    | Undefined f => aTrous_levels n res_x res_y r stepSize cw nw pw d = Undefined f
    end.
Proof.
  induction n as [|n IH]; intros res_x res_y r stepSize cw nw pw d HRT HNR HNT HPR HPT.
  - simpl. exists d. split; [reflexivity|]. split; [reflexivity|].
    split; [reflexivity|]. split; [apply exchanged_refl|]. split; reflexivity.
  - cbn [denoise_levels aTrous_levels].
    set (h := handles d) in *. set (m := memory d) in *.
    destruct (launch2D 16 res_x res_y
                (aTrousIter (vmem m (get_result h r)) (vmem m (dev_normalBuffer h))
                   (vmem m (dev_positionBuffer h)) (fmem m (dev_stddevBuffer h))
                   res_x res_y stepSize (cw * cw) (nw * nw) (pw * pw))
                (vmem m (dev_filteredTemp h))) as [out| |f]; simpl bind;
      [|reflexivity|reflexivity].
    set (d1 := with_handles_memory d (swap_result_temp h r)
                 (vset m (dev_filteredTemp h) out)).
    assert (Hr1 : get_result (handles d1) r = dev_filteredTemp h)
      by (destruct r; reflexivity).
    assert (Ht1 : dev_filteredTemp (handles d1) = get_result h r) by reflexivity.
    assert (Hn1 : dev_normalBuffer (handles d1) = dev_normalBuffer h) by reflexivity.
    assert (Hp1 : dev_positionBuffer (handles d1) = dev_positionBuffer h) by reflexivity.
    assert (Hs1 : dev_stddevBuffer (handles d1) = dev_stddevBuffer h) by reflexivity.
    assert (Hm1 : memory d1 = vset m (dev_filteredTemp h) out) by reflexivity.
    specialize (IH res_x res_y r (stepSize * 2)%R cw nw pw d1).
    rewrite Hr1, Ht1, Hn1, Hp1, Hs1, Hm1 in IH.
    rewrite vmem_vset_same in IH.
    rewrite !vmem_vset_other in IH by congruence.
    rewrite fmem_vset in IH.
    specialize (IH ltac:(congruence) ltac:(congruence) ltac:(congruence)
                   ltac:(congruence) ltac:(congruence)).
    destruct (denoise_levels n res_x res_y (vmem m (dev_normalBuffer h))
                (vmem m (dev_positionBuffer h)) (fmem m (dev_stddevBuffer h))
                (stepSize * 2) cw nw pw out (vmem m (get_result h r)))
      as [[cur scratch]| |f]; [|exact IH|exact IH].
    destruct IH as (d' & Hrun & Hcur & Hscr & Hex & Hframe & Hf).
    exists d'. split; [exact Hrun|]. split; [exact Hcur|]. split; [exact Hscr|].
    split; [|split].
    + eapply exchanged_trans; [apply exchanged_swap | exact Hex].
    + intros b HbR HbT. rewrite Hframe by congruence.
      apply vmem_vset_other. congruence.
    + intros fb. rewrite Hf. apply fmem_vset.
Qed.

(** A denoiser run whose selection is [(colorBuf, colorSqrBuf, resultBuf)]
    does on the arrays behind those handles what [denoise] does on arrays. *)
Lemma aTrous_denoise (cam : Camera) (buf : BufferType) (levels : Z) (radius : R)
    (iter : Z) (cw nw pw : R) (d : Device)
    (colorBuf : vbuf) (colorSqrBuf : fbuf) (r : result_handle) :
  aTrous_select (handles d) buf = Done (colorBuf, colorSqrBuf, r) ->
  colorBuf <> get_result (handles d) r ->
  get_result (handles d) r <> dev_filteredTemp (handles d) ->
  dev_normalBuffer (handles d) <> get_result (handles d) r ->
  dev_normalBuffer (handles d) <> dev_filteredTemp (handles d) ->
  dev_positionBuffer (handles d) <> get_result (handles d) r ->
  dev_positionBuffer (handles d) <> dev_filteredTemp (handles d) ->
  match denoise cam levels radius iter cw nw pw
          (vmem (memory d) colorBuf) (fmem (memory d) colorSqrBuf)
          (vmem (memory d) (dev_normalBuffer (handles d)))
          (vmem (memory d) (dev_positionBuffer (handles d)))
          (vmem (memory d) (get_result (handles d) r))
          (vmem (memory d) (dev_filteredTemp (handles d)))
          (fmem (memory d) (dev_stddevBuffer (handles d))) with
  | Done (cur, scratch, sd) =>
      exists d',
        aTrous cam buf levels radius iter cw nw pw d = Done d'
        /\ vmem (memory d') (get_result (handles d') r) = cur
        /\ fmem (memory d') (dev_stddevBuffer (handles d')) = sd
        /\ exchanged r (handles d) (handles d')
        /\ (forall b, b <> get_result (handles d) r ->
                      b <> dev_filteredTemp (handles d) ->
                      vmem (memory d') b = vmem (memory d) b)
        /\ (forall fb, fb <> dev_stddevBuffer (handles d) ->
                       fmem (memory d') fb = fmem (memory d) fb)
  | Aborted => aTrous cam buf levels radius iter cw nw pw d = Aborted
  | Undefined f => aTrous cam buf levels radius iter cw nw pw d = Undefined f
  end.
Proof.
  intros Hsel HcR HRT HNR HNT HPR HPT. unfold denoise, aTrous.
  rewrite Hsel. rewrite bind_Done. cbv beta iota.
  set (h := handles d) in *. set (m := memory d) in *.
  destruct (launch1D _ 128 (aTrousCopyBuffer (vmem m colorBuf) _ iter)
              (vmem m (get_result h r))) as [target| |f]; simpl bind;
    [|reflexivity|reflexivity].
  rewrite vmem_vset_other by congruence. rewrite !fmem_vset.
  destruct (launch2D 16 (resolution_x cam) (resolution_y cam)
              (aTrousComputeVariance (vmem m colorBuf) (fmem m colorSqrBuf)
                 (resolution_x cam) (resolution_y cam) iter)
              (fmem m (dev_stddevBuffer h))) as [sd| |f]; simpl bind;
    [|reflexivity|reflexivity].
  destruct (fdiv (0.5 * radius) (powf 2 (IZR levels))) as [stepSize| |f]; simpl bind;
    [|reflexivity|reflexivity].
  set (m2 := fset (vset m (get_result h r) target) (dev_stddevBuffer h) sd).
  pose proof (aTrous_levels_denoise (Z.to_nat levels) (resolution_x cam)
                (resolution_y cam) r stepSize cw nw pw (with_handles_memory d h m2))
    as Hlev.
  change (handles (with_handles_memory d h m2)) with h in Hlev.
  change (memory (with_handles_memory d h m2)) with m2 in Hlev.
  specialize (Hlev HRT HNR HNT HPR HPT).
  unfold m2 in Hlev. rewrite !vmem_fset in Hlev. rewrite fmem_fset_same in Hlev.
  rewrite vmem_vset_same in Hlev.
  rewrite !vmem_vset_other in Hlev by congruence.
  fold m2 in Hlev.
  destruct (denoise_levels (Z.to_nat levels) (resolution_x cam) (resolution_y cam)
              (vmem m (dev_normalBuffer h)) (vmem m (dev_positionBuffer h)) sd
              stepSize cw nw pw target (vmem m (dev_filteredTemp h)))
    as [[cur scratch]| |f]; simpl bind; [|exact Hlev|exact Hlev].
  destruct Hlev as (d' & Hrun & Hcur & _ & Hex & Hframe & Hf).
  exists d'. split; [exact Hrun|]. split; [exact Hcur|].
  split; [|split; [exact Hex|split]].
  - destruct Hex as (_ & _ & _ & _ & _ & _ & Hsd & _). rewrite Hsd.
    rewrite Hf. simpl. unfold m2. apply fmem_fset_same.
  - intros b HbR HbT. rewrite (Hframe b HbR HbT). simpl. unfold m2.
    rewrite vmem_fset. apply vmem_vset_other. congruence.
  - intros fb Hfb. rewrite Hf. simpl. unfold m2.
    rewrite fmem_fset_other by congruence. apply fmem_vset.
Qed.

Lemma NoDup_vec_handles (h : Handles) :
  NoDup (vec_handles h) ->
  forall a b ia ib, nth_error (vec_handles h) ia = Some a ->
                    nth_error (vec_handles h) ib = Some b -> ia <> ib -> a <> b.
Proof.
  intros Hnd a b ia ib Ha Hb Hne Heq. subst b.
  apply Hne. apply (proj1 (NoDup_nth_error (vec_handles h)) Hnd).
  - apply nth_error_Some. rewrite Ha. discriminate.
  - rewrite Ha, Hb. reflexivity.
Qed.


Lemma pathtraceInit_handles_distinct : NoDup (vec_handles pathtraceInit_handles).
Proof.
  unfold vec_handles. simpl.
  repeat (constructor; [simpl; intuition discriminate|]). constructor.
Qed.


(** ** The denoiser returns *)

Lemma launch_aTrousCopyBuffer (accumBuf target0 : list vec3) (numPixels iter : Z) :
  Z.of_nat (length accumBuf) = numPixels ->
  Z.of_nat (length target0) = numPixels ->
  iter <> 0 ->
  exists target,
    launch1D (Z.quot (numPixels + 128 - 1) 128) 128
      (aTrousCopyBuffer accumBuf numPixels iter) target0 = Done target
    /\ length target = length target0
    /\ forall q : nat, Z.of_nat q < numPixels ->
         nth q target vzero = vscale (/ IZR iter) (nth q accumBuf vzero).
Proof.
  intros La Lt Hiter.
  assert (Hn : 0 <= numPixels) by lia.
  destruct (launch1D_slots (fun s q => nth q s vzero)
              (fun s => length s = length target0)
              (Z.quot (numPixels + 128 - 1) 128) 128 numPixels
              (aTrousCopyBuffer accumBuf numPixels iter)
              (fun i _ => vscale (/ IZR iter) (nth (Z.to_nat i) accumBuf vzero))
              target0) as (target & Hrun & Hl & Hslots).
  - split; [lia | apply blocks_cover; lia].
  - reflexivity.
  - intros i s Hi Hl. unfold aTrousCopyBuffer.
    replace (i >=? numPixels) with false
      by (symmetry; rewrite Z.geb_leb; apply Z.leb_gt; lia).
    rewrite (read_in accumBuf i vzero) by lia. rewrite bind_Done.
    rewrite vdivs_nonzero by (apply not_0_IZR; exact Hiter). rewrite bind_Done.
    rewrite vdiv_vscale.
    assert (Hidx : 0 <= i < Z.of_nat (length s)) by lia.
    match goal with |- context [store s i ?v] =>
      assert (Hst := store_in s i v Hidx) end.
    rewrite Hst. eexists. split; [reflexivity|].
    destruct (store_spec _ _ _ _ vzero Hst) as (L & _ & Ss & Os).
    split; [lia|]. split; [exact Ss | exact Os].
  - intros i s Hi. unfold aTrousCopyBuffer.
    replace (i >=? numPixels) with true by (symmetry; apply Z.geb_le; lia).
    reflexivity.
  - exists target. split; [exact Hrun|]. split; [exact Hl|].
    intros q Hq. destruct (Hslots q) as [Hlt _]. rewrite (Hlt Hq).
    rewrite Nat2Z.id. reflexivity.
Qed.

Lemma denoise_levels_returns (n : nat) :
  forall (res_x res_y : Z) (normal position : list vec3) (stddev : list R)
         (stepSize cw nw pw : R) (cur scratch : list vec3),
    0 <= res_x -> 0 <= res_y ->
    Z.of_nat (length normal) = res_x * res_y ->
    Z.of_nat (length position) = res_x * res_y ->
    Z.of_nat (length stddev) = res_x * res_y ->
    Z.of_nat (length cur) = res_x * res_y ->
    Z.of_nat (length scratch) = res_x * res_y ->
    (forall s, In s stddev -> 0 <= s)%R ->
    nw <> 0%R -> stepSize <> 0%R -> pw <> 0%R ->
    exists cur' scratch',
      denoise_levels n res_x res_y normal position stddev stepSize cw nw pw cur scratch
      = Done (cur', scratch').
Proof.
  induction n as [|n IH];
    intros res_x res_y normal position stddev stepSize cw nw pw cur scratch
           Hw Hh Ln Lp Ls Lc Lt Hnn Hnw Hstep Hpw.
  - simpl. eauto.
  - cbn [denoise_levels].
    destruct (launch_aTrousIter_average cur normal position stddev res_x res_y
                stepSize cw nw pw scratch Hw Hh Lc Ln Lp Ls Lt Hnn Hnw Hstep Hpw)
      as (out & Hrun & Hlen & _).
    rewrite Hrun. rewrite bind_Done.
    apply IH; try assumption; try lia. lra.
Qed.

Lemma powf_two_nonzero (y : R) : powf 2 y <> 0%R.
Proof.
  unfold powf. destruct (Req_dec_T 2 0) as [E|_]; [lra|].
  unfold Rpower. pose proof (exp_pos (y * ln 2)). lra.
Qed.

(** On arrays of one size, with at least one accumulated iteration and
    non-zero radius and normal and position weights, the denoiser returns. *)
Lemma denoise_returns (cam : Camera) (levels : Z) (radius : R) (iter : Z)
    (cw nw pw : R) (colorTotal : list vec3) (colorSqr : list R)
    (normal position result0 temp0 : list vec3) (stddev0 : list R) :
  0 <= resolution_x cam -> 0 <= resolution_y cam ->
  let n := resolution_x cam * resolution_y cam in
  Z.of_nat (length colorTotal) = n -> Z.of_nat (length colorSqr) = n ->
  Z.of_nat (length normal) = n -> Z.of_nat (length position) = n ->
  Z.of_nat (length result0) = n -> Z.of_nat (length temp0) = n ->
  Z.of_nat (length stddev0) = n ->
  iter <> 0 -> radius <> 0%R -> nw <> 0%R -> pw <> 0%R ->
  exists result,
    denoise cam levels radius iter cw nw pw colorTotal colorSqr normal position
            result0 temp0 stddev0 = Done result.
Proof.
  intros Hw Hh n Lc Lq Ln Lp Lr Lt Ls Hiter Hrad Hnw Hpw. unfold denoise. fold n.
  destruct (launch_aTrousCopyBuffer colorTotal result0 n iter Lc Lr Hiter)
    as (target & Hcopy & Ltarget & _).
  rewrite Hcopy. rewrite bind_Done.
  destruct (launch_aTrousComputeVariance_nonneg colorTotal colorSqr
              (resolution_x cam) (resolution_y cam) iter stddev0 Hw Hh Lc Lq Ls)
    as (sd & Hvar & Lsd & Hnn).
  rewrite Hvar. rewrite bind_Done.
  rewrite fdiv_nonzero by apply powf_two_nonzero. rewrite bind_Done.
  destruct (denoise_levels_returns (Z.to_nat levels) (resolution_x cam)
              (resolution_y cam) normal position sd
              (0.5 * radius / powf 2 (IZR levels)) cw nw pw target temp0)
    as (cur & scratch & Hlev); try assumption; try (fold n; lia).
  - pose proof (powf_two_nonzero (IZR levels)) as Hp.
    intros Hz. apply Rmult_integral in Hz. destruct Hz as [Hz|Hz]; [lra|].
    apply Rinv_neq_0_compat in Hp. contradiction.
  - rewrite Hlev. rewrite bind_Done. eauto.
Qed.

Lemma pathtraceInit_handles_distinct_blank (n : nat) :
  NoDup (vec_handles (handles (blank_device n))).
Proof. apply pathtraceInit_handles_distinct. Qed.


(** ** Launches that fault *)

Lemma fold_threads_stuck {St T : Type} (k : T -> St -> outcome St) (l : list T)
    (f : fault) :
  fold_left (fun acc t => s <- acc ;; k t s) l (Undefined f) = Undefined f.
Proof. induction l as [|t l IH]; simpl; [reflexivity | exact IH]. Qed.

(** When every thread either keeps an invariant or faults with [f], and one
    thread faults with [f] on every state with the invariant, the launch
    faults with [f]. *)
Lemma fold_threads_fault {St T : Type} (k : T -> St -> outcome St)
    (Inv : St -> Prop) (f : fault) (l : list T) :
  (forall t s, In t l -> Inv s ->
     (exists s', k t s = Done s' /\ Inv s') \/ k t s = Undefined f) ->
  (exists t, In t l /\ forall s, Inv s -> k t s = Undefined f) ->
  forall s0, Inv s0 ->
    fold_left (fun acc t => s <- acc ;; k t s) l (Done s0) = Undefined f.
Proof.
  induction l as [|t l IH]; intros Hall (t0 & Hin & Hfault) s0 H0.
  - destruct Hin.
  - simpl. destruct (Hall t s0 (or_introl eq_refl) H0) as [(s1 & Hk & H1)|Hk].
    + rewrite Hk. apply IH.
      * intros t' s Ht' Hs. apply Hall; [right; exact Ht' | exact Hs].
      * destruct Hin as [<-|Hin].
        -- rewrite (Hfault s0 H0) in Hk. discriminate.
        -- exists t0. split; assumption.
      * exact H1.
    + rewrite Hk. apply fold_threads_stuck.
Qed.

(** A launch in which one thread never returns, on any state the threads
    before it can leave, does not return. *)
Lemma fold_threads_halted {St T : Type} (k : T -> St -> outcome St) (l : list T)
    (m : outcome St) :
  returns m = false ->
  returns (fold_left (fun acc t => s <- acc ;; k t s) l m) = false.
Proof.
  revert m. induction l as [|t l IH]; intros m Hm; simpl; [exact Hm|].
  apply IH. destruct m; [discriminate | reflexivity | reflexivity].
Qed.

Lemma fold_threads_no_return {St T : Type} (k : T -> St -> outcome St)
    (Inv : St -> Prop) (l : list T) :
  (forall t s s', In t l -> Inv s -> k t s = Done s' -> Inv s') ->
  (exists t, In t l /\ forall s, Inv s -> returns (k t s) = false) ->
  forall s0, Inv s0 ->
    returns (fold_left (fun acc t => s <- acc ;; k t s) l (Done s0)) = false.
Proof.
  induction l as [|t l IH]; intros Hall (t0 & Hin & Hstop) s0 H0.
  - destruct Hin.
  - simpl. destruct (k t s0) as [s1| |f] eqn:Hk.
    + apply IH.
      * intros t' s s' Ht' Hs. apply Hall; [right; exact Ht' | exact Hs].
      * destruct Hin as [<-|Hin].
        -- pose proof (Hstop s0 H0) as Hr. rewrite Hk in Hr. discriminate.
        -- exists t0. split; assumption.
      * apply (Hall t s0 s1 (or_introl eq_refl) H0 Hk).
    + apply fold_threads_halted. reflexivity.
    + apply fold_threads_halted. reflexivity.
Qed.

(** ** Camera rays: the early-return guard *)

(** A thread that returns either left by the guard or computed the segment
    of index [x + y * resolution.x]; one that passes the guard did not leave
    by it. *)
Lemma generateRayFromCamera_index {scene : Scene}
    (cam : Camera) (iter D x y : Z) (r : option (Z * PathSegment)) :
  generateRayFromCamera cam iter D x y = Done r ->
  match r with
  | None => (x >=? resolution_x cam) && (y >=? resolution_y cam) = true
  | Some (index, _) =>
      index = x + y * resolution_x cam
      /\ (x >=? resolution_x cam) && (y >=? resolution_y cam) = false
  end.
Proof.
  unfold generateRayFromCamera.
  destruct ((x >=? resolution_x cam) && (y >=? resolution_y cam)).
  - intros H. inversion H. reflexivity.
  - intros H.
    apply bind_eq_Done in H. destruct H as (k & _ & H).
    apply bind_eq_Done in H. destruct H as (sample & _ & H).
    apply bind_eq_Done in H. destruct H as (qx & _ & H).
    apply bind_eq_Done in H. destruct H as (qy & _ & H).
    inversion H. split; reflexivity.
Qed.

Lemma generateRayFromCamera_outside {scene : Scene}
    (cam : Camera) (iter D x y : Z) :
  0 < numStratifiedSamples < 2 ^ 31 ->
  Z.of_nat (length camSamplePool) = numStratifiedSamples ->
  0 < resolution_x cam -> resolution_x cam <= x -> y < resolution_y cam ->
  exists seg,
    generateRayFromCamera cam iter D x y
    = Done (Some (x + y * resolution_x cam, seg)).
Proof.
  intros HN Hpool Hw Hx Hy.
  destruct (generateRayFromCamera_passes cam iter D x y HN Hpool Hw) as (seg & E & _).
  { replace (y >=? resolution_y cam) with false
      by (symmetry; rewrite Z.geb_leb; apply Z.leb_gt; lia).
    apply andb_false_r. }
  exists seg. exact E.
Qed.

Lemma generateRayFromCamera_cases {scene : Scene}
    (cam : Camera) (iter D x y : Z) :
  0 < numStratifiedSamples < 2 ^ 31 ->
  Z.of_nat (length camSamplePool) = numStratifiedSamples ->
  0 < resolution_x cam ->
  generateRayFromCamera cam iter D x y = Done None
  \/ exists seg, generateRayFromCamera cam iter D x y
                 = Done (Some (x + y * resolution_x cam, seg)).
Proof.
  intros HN Hpool Hw.
  destruct ((x >=? resolution_x cam) && (y >=? resolution_y cam)) eqn:G.
  - left. unfold generateRayFromCamera. rewrite G. reflexivity.
  - right. destruct (generateRayFromCamera_passes cam iter D x y HN Hpool Hw G)
      as (seg & E & _).
    exists seg. exact E.
Qed.

(** The thread [(resolution.x, resolution.y - 1)] of the launch, and the
    threads of the row [y = resolution.y]. *)
Lemma grid2D_beside (w h : Z) :
  0 < w -> 0 < h -> w mod 8 <> 0 -> In (w, h - 1) (grid2D 8 w h).
Proof.
  intros Hw Hh Hmod. apply In_grid2D.
  pose proof (Z.div_mod (w + 8 - 1) 8 ltac:(lia)) as Ew.
  pose proof (Z.mod_pos_bound (w + 8 - 1) 8 ltac:(lia)) as Bw.
  pose proof (Z.div_mod w 8 ltac:(lia)) as Ew'.
  pose proof (Z.mod_pos_bound w 8 ltac:(lia)) as Bw'.
  pose proof (Z.div_mod (h + 8 - 1) 8 ltac:(lia)) as Eh.
  pose proof (Z.mod_pos_bound (h + 8 - 1) 8 ltac:(lia)) as Bh.
  lia.
Qed.

Lemma grid2D_below (w h : Z) :
  0 < w -> 0 < h -> h mod 8 <> 0 -> In (0, h) (grid2D 8 w h).
Proof.
  intros Hw Hh Hmod. apply In_grid2D.
  pose proof (Z.div_mod (w + 8 - 1) 8 ltac:(lia)) as Ew.
  pose proof (Z.mod_pos_bound (w + 8 - 1) 8 ltac:(lia)) as Bw.
  pose proof (Z.div_mod (h + 8 - 1) 8 ltac:(lia)) as Eh.
  pose proof (Z.mod_pos_bound (h + 8 - 1) 8 ltac:(lia)) as Bh.
  pose proof (Z.div_mod h 8 ltac:(lia)) as Eh'.
  pose proof (Z.mod_pos_bound h 8 ltac:(lia)) as Bh'.
  lia.
Qed.

(** A launch with a thread that passes the guard with an index outside the
    path array stores outside it, when the camera samples can be read. *)
Lemma launch_generateRayFromCamera_escapes {scene : Scene}
    (cam : Camera) (iter D : Z) (pathSegments : list PathSegment) (x0 y0 : Z) :
  0 < numStratifiedSamples < 2 ^ 31 ->
  Z.of_nat (length camSamplePool) = numStratifiedSamples ->
  0 < resolution_x cam -> 0 < resolution_y cam ->
  Z.of_nat (length pathSegments) = resolution_x cam * resolution_y cam ->
  In (x0, y0) (grid2D 8 (resolution_x cam) (resolution_y cam)) ->
  (x0 >=? resolution_x cam) && (y0 >=? resolution_y cam) = false ->
  resolution_x cam * resolution_y cam <= x0 + y0 * resolution_x cam ->
  launch_generateRayFromCamera cam iter D pathSegments = Undefined OutOfBounds.
Proof.
  intros HN Hpool Hw Hh Hlen Hgrid Hguard Hout.
  set (w := resolution_x cam) in *. set (h := resolution_y cam) in *.
  unfold launch_generateRayFromCamera. fold w h.
  apply (fold_threads_fault
           (fun xy paths =>
              r <- generateRayFromCamera cam iter D (fst xy) (snd xy) ;;
              match r with
              | None => Done paths
              | Some (index, segment) => store paths index segment
              end)
           (fun s => Z.of_nat (length s) = w * h)).
  - intros [x y] s _ Hs. simpl.
    destruct (generateRayFromCamera_cases cam iter D x y HN Hpool Hw) as [E|(seg & E)];
      rewrite E; rewrite bind_Done.
    + left. exists s. split; [reflexivity | exact Hs].
    + destruct (store s (x + y * resolution_x cam) seg) as [s'| |f] eqn:Est.
      * left. exists s'. split; [reflexivity|].
        destruct (store_spec _ _ _ _ blank_path Est) as (L & _). lia.
      * unfold store in Est. destruct (_ <? 0); [discriminate|].
        destruct (store_nat _ _ _); discriminate.
      * right. unfold store in Est. destruct (_ <? 0); [symmetry; exact Est|].
        destruct (store_nat _ _ _); [discriminate | symmetry; exact Est].
  - exists (x0, y0). split; [exact Hgrid|].
    intros s Hs. simpl.
    destruct (generateRayFromCamera_passes cam iter D x0 y0 HN Hpool Hw Hguard)
      as (seg & E & _).
    rewrite E. rewrite bind_Done. apply store_out. right. fold w. lia.
  - exact Hlen.
Qed.

Lemma launch_generateRayFromCamera_faults {scene : Scene}
    (cam : Camera) (iter D : Z) (pathSegments : list PathSegment) :
  0 < numStratifiedSamples < 2 ^ 31 ->
  Z.of_nat (length camSamplePool) = numStratifiedSamples ->
  0 < resolution_x cam -> 0 < resolution_y cam ->
  resolution_x cam mod 8 <> 0 ->
  Z.of_nat (length pathSegments) = resolution_x cam * resolution_y cam ->
  launch_generateRayFromCamera cam iter D pathSegments = Undefined OutOfBounds.
Proof.
  intros HN Hpool Hw Hh Hmod Hlen.
  apply (launch_generateRayFromCamera_escapes cam iter D pathSegments
           (resolution_x cam) (resolution_y cam - 1)); try assumption.
  - apply grid2D_beside; assumption.
  - replace (resolution_y cam - 1 >=? resolution_y cam) with false
      by (symmetry; rewrite Z.geb_leb; apply Z.leb_gt; lia).
    apply andb_false_r.
  - nia.
Qed.

(** Whatever the camera pool holds, a launch with such a thread does not
    return: the thread faults at its sample, or it stores outside the
    array. *)
Lemma launch_generateRayFromCamera_no_return {scene : Scene}
    (cam : Camera) (iter D : Z) (pathSegments : list PathSegment) (x0 y0 : Z) :
  Z.of_nat (length pathSegments) = resolution_x cam * resolution_y cam ->
  In (x0, y0) (grid2D 8 (resolution_x cam) (resolution_y cam)) ->
  (x0 >=? resolution_x cam) && (y0 >=? resolution_y cam) = false ->
  resolution_x cam * resolution_y cam <= x0 + y0 * resolution_x cam ->
  returns (launch_generateRayFromCamera cam iter D pathSegments) = false.
Proof.
  intros Hlen Hgrid Hguard Hout.
  set (w := resolution_x cam) in *. set (h := resolution_y cam) in *.
  unfold launch_generateRayFromCamera. fold w h.
  apply (fold_threads_no_return
           (fun xy paths =>
              r <- generateRayFromCamera cam iter D (fst xy) (snd xy) ;;
              match r with
              | None => Done paths
              | Some (index, segment) => store paths index segment
              end)
           (fun s => Z.of_nat (length s) = w * h)).
  - intros [x y] s s' _ Hs Hk. simpl in Hk.
    apply bind_eq_Done in Hk. destruct Hk as ([[index seg]|] & _ & Hst).
    + destruct (store_spec _ _ _ _ blank_path Hst) as (L & _). lia.
    + inversion Hst; subst. exact Hs.
  - exists (x0, y0). split; [exact Hgrid|].
    intros s Hs. simpl.
    destruct (generateRayFromCamera cam iter D x0 y0) as [r| |f] eqn:E;
      [|reflexivity|reflexivity].
    rewrite bind_Done. pose proof (generateRayFromCamera_index _ _ _ _ _ _ E) as Hr.
    fold w h in Hr.
    destruct r as [[index seg]|].
    + destruct Hr as [-> _]. rewrite store_out by (right; fold w; lia). reflexivity.
    + rewrite Hguard in Hr. discriminate.
  - exact Hlen.
Qed.

(** C9 (the code at the failing inputs).  The guard of
    [generateRayFromCamera] returns only when both coordinates are out of
    range.  For a resolution whose width is not a multiple of 8, the launch
    has the thread [(resolution.x, resolution.y - 1)]: its [x] is out of
    range and the guard lets it through, so the launch, and [pathtrace] with
    it, does not return, whatever the camera pool holds.  With the camera pool
    that [pathtraceInit] allocates for a positive number of strata, the
    thread computes its path segment and stores it at index
    [resolution.x * resolution.y], outside the [pixelCount]-sized path array. *)
Theorem generateRayFromCamera_guard_escapes {scene : Scene}
    (cam : Camera) (iter D : Z) (pathSegments : list PathSegment) :
  0 < resolution_x cam -> 0 < resolution_y cam ->
  resolution_x cam mod 8 <> 0 ->
  Z.of_nat (length pathSegments) = resolution_x cam * resolution_y cam ->
  let x := resolution_x cam in
  let y := resolution_y cam - 1 in
  In (x, y) (grid2D 8 (resolution_x cam) (resolution_y cam))
  /\ ~ (x < resolution_x cam /\ y < resolution_y cam)
  /\ returns (launch_generateRayFromCamera cam iter D pathSegments) = false
  /\ (forall fuel frame lightMis numLights d,
        dev_paths d = pathSegments ->
        exists r, pathtrace fuel cam frame iter lightMis numLights d = Some r
                  /\ returns r = false)
  /\ (0 < numStratifiedSamples < 2 ^ 31 ->
      Z.of_nat (length camSamplePool) = numStratifiedSamples ->
      (exists seg,
         generateRayFromCamera cam iter D x y
         = Done (Some (resolution_x cam * resolution_y cam, seg)))
      /\ launch_generateRayFromCamera cam iter D pathSegments = Undefined OutOfBounds
      /\ forall fuel frame lightMis numLights d,
           dev_paths d = pathSegments ->
           pathtrace fuel cam frame iter lightMis numLights d
           = Some (Undefined OutOfBounds)).
Proof.
  intros Hw Hh Hmod Hlen x y.
  assert (Hgrid : In (x, y) (grid2D 8 (resolution_x cam) (resolution_y cam)))
    by (apply grid2D_beside; assumption).
  assert (Hguard : (x >=? resolution_x cam) && (y >=? resolution_y cam) = false).
  { replace (y >=? resolution_y cam) with false
      by (symmetry; rewrite Z.geb_leb; apply Z.leb_gt; unfold y; lia).
    apply andb_false_r. }
  assert (Hout : resolution_x cam * resolution_y cam <= x + y * resolution_x cam)
    by (unfold x, y; nia).
  split; [exact Hgrid|]. split; [unfold x; lia|]. split; [|split].
  - exact (launch_generateRayFromCamera_no_return cam iter D pathSegments x y
             Hlen Hgrid Hguard Hout).
  - intros fuel frame lightMis numLights d Hd. unfold pathtrace. rewrite Hd.
    pose proof (launch_generateRayFromCamera_no_return cam iter traceDepth
                  pathSegments x y Hlen Hgrid Hguard Hout) as Hr.
    destruct (launch_generateRayFromCamera cam iter traceDepth pathSegments);
      [discriminate | eexists; split; reflexivity | eexists; split; reflexivity].
  - intros HN Hpool. split; [|split].
    + destruct (generateRayFromCamera_outside cam iter D x y HN Hpool Hw) as (seg & E);
        [unfold x; lia | unfold y; lia |].
      exists seg. rewrite E. do 3 f_equal. unfold x, y. ring.
    + apply launch_generateRayFromCamera_faults; assumption.
    + intros fuel frame lightMis numLights d Hd. unfold pathtrace. rewrite Hd.
      rewrite (launch_generateRayFromCamera_faults cam iter traceDepth pathSegments
                 HN Hpool Hw Hh Hmod Hlen).
      reflexivity.
Qed.

(** A 3 x 3 image is launched as one block of 8 x 8 threads; thread
    [(3, 2)] is one of them and stores at index [9] of the 9 path
    segments. *)
Lemma generateRayFromCamera_guard_escapes_witness :
  let scene := simple_scene complement_hash (-1) 1 in
  In (3, 2) (grid2D 8 3 3)
  /\ (exists seg, generateRayFromCamera (simple_camera 3 3) 1 1 3 2 = Done (Some (9, seg)))
  /\ launch_generateRayFromCamera (simple_camera 3 3) 1 1 (repeat blank_path 9)
     = Undefined OutOfBounds
  /\ pathtrace 2 (simple_camera 3 3) 0 1 0 0 (blank_device 9)
     = Some (Undefined OutOfBounds).
Proof.
  intros scene.
  assert (Hw : 0 < resolution_x (simple_camera 3 3)) by (simpl; lia).
  assert (Hh : 0 < resolution_y (simple_camera 3 3)) by (simpl; lia).
  assert (Hmod : resolution_x (simple_camera 3 3) mod 8 <> 0) by (simpl; discriminate).
  assert (Hlen : Z.of_nat (length (repeat blank_path 9))
                 = resolution_x (simple_camera 3 3) * resolution_y (simple_camera 3 3))
    by reflexivity.
  destruct (simple_scene_pool complement_hash (-1) 1 ltac:(lia)) as (HN & Hcam & _).
  destruct (@generateRayFromCamera_guard_escapes scene (simple_camera 3 3) 1 1
              (repeat blank_path 9) Hw Hh Hmod Hlen) as (Hg & _ & _ & _ & Hpool).
  destruct (Hpool HN Hcam) as (Hseg & Hl & Hp).
  split; [exact Hg|]. split; [exact Hseg|]. split; [exact Hl|].
  apply Hp. reflexivity.
Defined.


(** ** Dispatch on a buffer identifier *)

Lemma grid2D_origin (w h : Z) : 0 < w -> 0 < h -> In (0, 0) (grid2D 8 w h).
Proof.
  intros Hw Hh. apply In_grid2D.
  pose proof (Z.div_mod (w + 8 - 1) 8 ltac:(lia)) as Ew.
  pose proof (Z.mod_pos_bound (w + 8 - 1) 8 ltac:(lia)) as Bw.
  pose proof (Z.div_mod (h + 8 - 1) 8 ltac:(lia)) as Eh.
  pose proof (Z.mod_pos_bound (h + 8 - 1) 8 ltac:(lia)) as Bh.
  lia.
Qed.

Lemma processImage_unset_pointer (m : Memory) (in2 : pointer anybuf)
    (res_x res_y iter : Z) (bufType : BufferType) (x y : Z) (out : list vec3) :
  processImage m Indeterminate in2 res_x res_y iter bufType x y out
  = if (x <? res_x) && (y <? res_y) then Undefined BadPointer else Done out.
Proof. unfold processImage. destruct ((x <? res_x) && (y <? res_y)); reflexivity. Qed.

Lemma saveBufferState_unlisted (cam : Camera) (raw iter : Z)
    (tmpBuffer : list vec3) (d : Device) :
  0 < resolution_x cam -> 0 < resolution_y cam ->
  saveBufferState cam (UnlistedBufferType raw) iter tmpBuffer d = Undefined BadPointer.
Proof.
  intros Hw Hh. unfold saveBufferState. simpl getBuffers. cbv iota beta.
  unfold launch2D.
  apply (fold_threads_fault
           (fun xy out =>
              processImage (memory d) Indeterminate Null (resolution_x cam)
                (resolution_y cam) iter (UnlistedBufferType raw) (fst xy) (snd xy) out)
           (fun _ => True)).
  - intros [x y] s _ _. rewrite processImage_unset_pointer. simpl fst. simpl snd.
    destruct ((x <? resolution_x cam) && (y <? resolution_y cam)).
    + right. reflexivity.
    + left. exists s. split; [reflexivity | exact I].
  - exists (0, 0). split; [apply grid2D_origin; assumption|].
    intros s _. rewrite processImage_unset_pointer. simpl fst. simpl snd.
    assert (Ex : (0 <? resolution_x cam) = true) by (apply Z.ltb_lt; lia).
    assert (Ey : (0 <? resolution_y cam) = true) by (apply Z.ltb_lt; lia).
    rewrite Ex, Ey. reflexivity.
  - exact I.
Qed.

(** C8 (as amended).  No operation that dispatches on a buffer identifier
    returns an error result.  The denoiser run aborts for every identifier
    that is not one of the two illumination categories, unlisted ones
    included, before any launch.  Buffer selection has no case for an
    unlisted identifier: it returns with the secondary pointer null and the
    primary pointer as the caller left it, and it assigns no static.  The
    display transform has no case for it either: it never returns a value,
    and once the texel is loaded control reaches the end of the function.
    Saving the image of an unlisted identifier reads through the primary
    pointer that selection left unset. *)
Theorem unlisted_buffer_dispatch
    (buf : BufferType) (raw : Z) :
  buf <> DirectSpecularIllumination -> buf <> IndirectDiffuseIllumination ->
  (forall cam levels radius iter cw nw pw d,
     aTrous cam buf levels radius iter cw nw pw d = Aborted)
  /\ (forall cam levels radius iter cw nw pw d,
        aTrous cam (UnlistedBufferType raw) levels radius iter cw nw pw d = Aborted)
  /\ (forall h buf1 buf2,
        getBuffers h (UnlistedBufferType raw) buf1 buf2 = (buf1, Null))
  /\ (forall m buf1 buf2 index iter,
        returns (processTexel m buf1 buf2 index (UnlistedBufferType raw) iter) = false)
  /\ (forall m b buf2 index iter,
        0 <= index < Z.of_nat (length (vmem m b)) ->
        processTexel m (PointsTo b) buf2 index (UnlistedBufferType raw) iter
        = Undefined MissingReturn)
  /\ (forall cam iter tmpBuffer d,
        0 < resolution_x cam -> 0 < resolution_y cam ->
        saveBufferState cam (UnlistedBufferType raw) iter tmpBuffer d
        = Undefined BadPointer).
Proof.
  intros Hd Hi. repeat split.
  - intros. unfold aTrous.
    destruct buf; try reflexivity; contradiction.
  - intros m buf1 buf2 index iter. unfold processTexel.
    destruct (deref_vec3 m buf1); simpl; try reflexivity.
    destruct (read a index); reflexivity.
  - intros m b buf2 index iter Hidx. unfold processTexel. simpl.
    rewrite (read_in _ _ vzero Hidx). reflexivity.
  - intros cam iter tmpBuffer d Hw Hh. apply saveBufferState_unlisted; assumption.
Qed.

Lemma unlisted_buffer_dispatch_witness :
  aTrous (simple_camera 8 8) FullIllumination 1 1 2 1 1 1 (blank_device 64) = Aborted
  /\ getBuffers pathtraceInit_handles (UnlistedBufferType 99) Indeterminate Indeterminate
     = (Indeterminate, Null)
  /\ saveBufferState (simple_camera 8 8) (UnlistedBufferType 99) 2
       (repeat vzero 64) (blank_device 64) = Undefined BadPointer.
Proof.
  assert (Hd : FullIllumination <> DirectSpecularIllumination) by discriminate.
  assert (Hi : FullIllumination <> IndirectDiffuseIllumination) by discriminate.
  destruct (unlisted_buffer_dispatch FullIllumination 99 Hd Hi)
    as (Ha & _ & Hg & _ & _ & Hs).
  split; [apply Ha|]. split; [apply Hg|].
  apply Hs; simpl; lia.
Defined.

(** C8, as stated, fails: for the unlisted identifier [99] the denoiser run
    aborts, the selection returns without an error and leaves the primary
    pointer unset, and the transform reaches the end of the function. *)
Lemma unlisted_buffer_no_error_result :
  aTrous (simple_camera 8 8) (UnlistedBufferType 99) 1 1 2 1 1 1 (blank_device 64)
  = Aborted
  /\ returns (aTrous (simple_camera 8 8) (UnlistedBufferType 99) 1 1 2 1 1 1
                (blank_device 64)) = false
  /\ getBuffers pathtraceInit_handles (UnlistedBufferType 99) Indeterminate Indeterminate
     = (Indeterminate, Null)
  /\ processTexel (blank_memory 64) (PointsTo A_directIllum) Null 0
       (UnlistedBufferType 99) 2 = Undefined MissingReturn.
Proof. repeat split. Qed.

(* ===================================================================== *)
(** * Further properties of the code *)
(* ===================================================================== *)

(** ** Sample pool indices *)

(** The index [stratifiedSampleIndex] returns lies inside a pool of [N]
    samples, for every iteration counter and pixel: the reads
    [samples[stratifiedSampleIndex(...)]] of the ray-generation and shading
    kernels stay inside a pool of that size. *)
Theorem stratifiedSampleIndex_in_pool {scene : Scene} (iter p N : Z) :
  0 < N < 2 ^ 31 ->
  0 <= stratifiedSampleIndex iter p N < N.
Proof.
  intros HN. unfold stratifiedSampleIndex, stratifiedSplat, stratifiedSampleIndex_policy.
  rewrite (to_unsigned_small N) by lia.
  pose proof (Z.mod_pos_bound (to_unsigned (to_unsigned iter + utilhash p)) N) as B.
  rewrite to_int_small by lia. lia.
Qed.

Lemma stratifiedSampleIndex_in_pool_witness :
  let scene := simple_scene complement_hash (-1) 1 in
  0 <= stratifiedSampleIndex (-7) 12 16 < 16.
Proof.
  intros scene. apply (@stratifiedSampleIndex_in_pool scene (-7) 12 16). lia.
Defined.

Lemma mod_shift_unique (a N k k' : Z) :
  0 < N -> 0 <= k < N -> 0 <= k' < N ->
  (a + k') mod N = (a + k) mod N -> k' = k.
Proof.
  intros HN Hk Hk' E.
  pose proof (Z.div_mod (a + k) N ltac:(lia)) as E1.
  pose proof (Z.div_mod (a + k') N ltac:(lia)) as E2.
  rewrite E in E2.
  assert (Hq : (a + k') / N = (a + k) / N) by nia.
  rewrite Hq in E2. lia.
Qed.

(** Over [N] consecutive iterations a pixel uses every slot of a pool of
    [N] samples exactly once, as long as the unsigned sum of the iteration
    counter and the hash does not wrap inside the window. *)
Theorem stratifiedSampleIndex_cycle {scene : Scene} (iter p N : Z) :
  0 < N -> 0 <= iter -> iter + N < 2 ^ 31 ->
  0 <= utilhash p -> iter + N + utilhash p <= 2 ^ 32 ->
  forall s, 0 <= s < N ->
    exists k, 0 <= k < N
      /\ stratifiedSampleIndex (iter + k) p N = s
      /\ forall k', 0 <= k' < N ->
           stratifiedSampleIndex (iter + k') p N = s -> k' = k.
Proof.
  intros HN Hi HiN Hh Hsum s Hs.
  assert (Hval : forall k, 0 <= k < N ->
            stratifiedSampleIndex (iter + k) p N = (iter + utilhash p + k) mod N).
  { intros k Hk. unfold stratifiedSampleIndex, stratifiedSplat.
    rewrite full_stratified_value by lia.
    rewrite (Z.mod_small (iter + k + utilhash p)) by lia.
    f_equal. lia. }
  set (k := (s - (iter + utilhash p)) mod N).
  assert (Hk : 0 <= k < N) by (apply Z.mod_pos_bound; lia).
  assert (Hks : (iter + utilhash p + k) mod N = s).
  { unfold k. rewrite Z.add_mod_idemp_r by lia.
    replace (iter + utilhash p + (s - (iter + utilhash p))) with s by lia.
    apply Z.mod_small; lia. }
  exists k. split; [exact Hk|]. split.
  - rewrite Hval by exact Hk. exact Hks.
  - intros k' Hk' E. rewrite Hval in E by exact Hk'.
    apply (mod_shift_unique (iter + utilhash p) N k k'); try lia.
Qed.

Lemma stratifiedSampleIndex_cycle_witness :
  let scene := simple_scene (fun a => a mod 1000) (-1) 1 in
  exists k, 0 <= k < 4 /\ stratifiedSampleIndex (10 + k) 7 4 = 3.
Proof.
  intros scene.
  assert (HN : 0 < 4) by lia.
  assert (Hi : 0 <= 10) by lia.
  assert (HiN : 10 + 4 < 2 ^ 31) by lia.
  assert (Hh : 0 <= utilhash 7) by (vm_compute; congruence).
  assert (Hsum : 10 + 4 + utilhash 7 <= 2 ^ 32) by (vm_compute; congruence).
  assert (Hs : 0 <= 3 < 4) by lia.
  destruct (@stratifiedSampleIndex_cycle scene 10 7 4 HN Hi HiN Hh Hsum 3 Hs)
    as (k & Hk & Hv & _).
  exists k. split; assumption.
Defined.

(** ** Random engine seeds *)

Lemma makeSeededRandomEngine_key {scene : Scene} (iter index depth : Z) :
  makeSeededRandomEngine iter index depth
  = to_int (Z.lxor (utilhash (engine_key iter depth)) (utilhash index)).
Proof. reflexivity. Qed.

(** Bit-or with a number that fits below the lowest set bit is a sum. *)
Lemma lor_low_bits (q b n : Z) :
  0 <= n -> 0 <= b < 2 ^ n -> Z.lor (q * 2 ^ n) b = q * 2 ^ n + b.
Proof.
  intros Hn Hb.
  assert (Hland : Z.land (q * 2 ^ n) b = 0).
  { apply Z.bits_inj_0. intros m. rewrite Z.land_spec.
    destruct (Z_lt_le_dec m n) as [Hlt|Hge].
    - rewrite <- Z.shiftl_mul_pow2 by exact Hn.
      rewrite Z.shiftl_spec_low by exact Hlt. reflexivity.
    - assert (Hbm : Z.testbit b m = false).
      { apply Z.testbit_false; [lia|].
        assert (2 ^ n <= 2 ^ m) by (apply Z.pow_le_mono_r; lia).
        rewrite Z.div_small by lia. reflexivity. }
      rewrite Hbm. apply andb_false_r. }
  pose proof (Z.add_lor_land (q * 2 ^ n) b) as E. rewrite Hland in E. lia.
Qed.

Lemma engine_key_value (iter depth : Z) :
  0 <= iter < 2 ^ 22 -> -1 <= depth <= 510 ->
  engine_key iter depth
  = (if depth =? -1 then - 2 ^ 22 else - 2 ^ 31 + depth * 2 ^ 22) + iter.
Proof.
  intros Hi Hd. unfold engine_key.
  destruct (depth =? -1) eqn:E.
  - apply Z.eqb_eq in E. subst depth.
    change (Z.lor (- 2 ^ 31) (to_int (Z.shiftl (-1) 22))) with ((-1) * 2 ^ 22).
    rewrite lor_low_bits by lia. lia.
  - apply Z.eqb_neq in E.
    rewrite Z.shiftl_mul_pow2 by lia.
    rewrite to_int_small by lia.
    rewrite Z.lor_comm.
    replace (- 2 ^ 31) with ((-1) * 2 ^ 31) by lia.
    rewrite Z.lor_comm. rewrite lor_low_bits by lia.
    replace (-1 * 2 ^ 31 + depth * 2 ^ 22) with ((depth - 512) * 2 ^ 22) by lia.
    rewrite lor_low_bits by lia. lia.
Qed.

(** The engine of a kernel thread is seeded from a key made of the iteration
    counter and the depth.  For fewer than [2^22] iterations and a depth from
    [-1] (the camera rays) to [510], different pairs of iteration and depth
    give different keys. *)
Theorem engine_key_distinct {scene : Scene} (iter1 depth1 iter2 depth2 : Z) :
  0 <= iter1 < 2 ^ 22 -> 0 <= iter2 < 2 ^ 22 ->
  -1 <= depth1 <= 510 -> -1 <= depth2 <= 510 ->
  (forall index,
     makeSeededRandomEngine iter1 index depth1
     = to_int (Z.lxor (utilhash (engine_key iter1 depth1)) (utilhash index)))
  /\ (iter1 <> iter2 \/ depth1 <> depth2 ->
      engine_key iter1 depth1 <> engine_key iter2 depth2).
Proof.
  intros H1 H2 D1 D2. split; [intros; reflexivity|].
  rewrite (engine_key_value iter1 depth1) by assumption.
  rewrite (engine_key_value iter2 depth2) by assumption.
  destruct (Z.eqb_spec depth1 (-1)) as [E1|E1];
    destruct (Z.eqb_spec depth2 (-1)) as [E2|E2]; intros Hne E; lia.
Qed.

Lemma engine_key_distinct_witness :
  let scene := simple_scene complement_hash (-1) 1 in
  engine_key 5 (-1) <> engine_key 5 3.
Proof.
  intros scene.
  assert (H1 : 0 <= 5 < 2 ^ 22) by lia.
  assert (D1 : -1 <= -1 <= 510) by lia.
  assert (D2 : -1 <= 3 <= 510) by lia.
  apply (proj2 (@engine_key_distinct scene 5 (-1) 5 3 H1 H1 D1 D2)).
  right. discriminate.
Defined.

(** From iteration [2^22] on the keys repeat: at an even depth, iteration
    [iter + 2^22] seeds the engines of a launch exactly as iteration [iter]
    does one depth further. *)
Theorem engine_key_repeats {scene : Scene} (iter depth index : Z) :
  0 <= iter < 2 ^ 22 -> 0 <= depth <= 509 -> Z.even depth = true ->
  engine_key (iter + 2 ^ 22) depth = engine_key iter (depth + 1)
  /\ makeSeededRandomEngine (iter + 2 ^ 22) index depth
     = makeSeededRandomEngine iter index (depth + 1).
Proof.
  intros Hi Hd Hev.
  assert (Hkey : engine_key (iter + 2 ^ 22) depth = engine_key iter (depth + 1)).
  { rewrite (engine_key_value iter (depth + 1)) by lia.
    replace (depth + 1 =? -1) with false by (symmetry; apply Z.eqb_neq; lia).
    unfold engine_key.
    rewrite Z.shiftl_mul_pow2 by lia.
    rewrite to_int_small by lia.
    replace (- 2 ^ 31) with ((-1) * 2 ^ 31) by lia.
    rewrite lor_low_bits by lia.
    apply Zeven_bool_iff in Hev. destruct (Zeven_ex depth Hev) as [h Hh].
    replace (-1 * 2 ^ 31 + depth * 2 ^ 22) with ((h - 256) * 2 ^ 23) by lia.
    rewrite lor_low_bits by lia. lia. }
  split; [exact Hkey|].
  rewrite !makeSeededRandomEngine_key. rewrite Hkey. reflexivity.
Qed.

Lemma engine_key_repeats_witness :
  let scene := simple_scene complement_hash (-1) 1 in
  engine_key (3 + 2 ^ 22) 0 = engine_key 3 1.
Proof.
  intros scene.
  assert (Hi : 0 <= 3 < 2 ^ 22) by lia.
  assert (Hd : 0 <= 0 <= 509) by lia.
  exact (proj1 (@engine_key_repeats scene 3 0 0 Hi Hd eq_refl)).
Defined.

(** ** Final gather: the sums it leaves *)

Lemma update_nat_spec {A : Type} (a a' : list A) (n : nat) (f : A -> A) (d : A) :
  update_nat a n f = Some a' ->
  length a' = length a /\ (n < length a)%nat /\ nth n a' d = f (nth n a d)
  /\ forall j, j <> n -> nth j a' d = nth j a d.
Proof.
  revert n a'. induction a as [|h tl IH]; intros n a' H; simpl in H; [discriminate|].
  destruct n as [|n].
  - inversion H; subst. simpl. repeat split; try lia.
    intros [|j] Hj; [lia | reflexivity].
  - destruct (update_nat tl n f) as [tl'|] eqn:E; simpl in H; [|discriminate].
    inversion H; subst. destruct (IH n tl' E) as (Hl & Hn & Hs & Ho).
    simpl. repeat split; try lia; [exact Hs|].
    intros [|j] Hj; [reflexivity | apply Ho; lia].
Qed.

Lemma update_load {A : Type} (a : list A) (i : Z) (f : A -> A) (d : A) :
  0 <= i < Z.of_nat (length a) ->
  exists a', update a i f = Done a' /\ length a' = length a
    /\ forall p, load d a' p = if p =? i then f (load d a p) else load d a p.
Proof.
  intros Hi. unfold update.
  destruct (i <? 0) eqn:E; [apply Z.ltb_lt in E; lia|].
  destruct (update_nat a (Z.to_nat i) f) as [a'|] eqn:U.
  - destruct (update_nat_spec a a' (Z.to_nat i) f d U) as (Hl & _ & Hs & Ho).
    exists a'. split; [reflexivity|]. split; [exact Hl|].
    intros p. unfold load. destruct (Z.eqb_spec p i) as [->|Hne].
    + rewrite E. exact Hs.
    + destruct (p <? 0) eqn:Ep; [reflexivity|].
      apply Z.ltb_ge in Ep. apply Ho. lia.
  - rewrite (update_nat_in a _ f d) in U by lia. discriminate.
Qed.

Lemma vadd_at_load (m : Memory) (b : vbuf) (i : Z) (v : vec3) :
  0 <= i < Z.of_nat (length (vmem m b)) ->
  exists a, vadd_at m b i v = Done (vset m b a)
    /\ length a = length (vmem m b)
    /\ forall p, load vzero a p
         = if p =? i then vadd (load vzero (vmem m b) p) v else load vzero (vmem m b) p.
Proof.
  intros Hi. unfold vadd_at.
  destruct (update_load (vmem m b) i (fun old => vadd old v) vzero Hi) as (a & E & Hl & Hp).
  exists a. rewrite E. split; [reflexivity|]. split; assumption.
Qed.

Lemma fadd_at_load (m : Memory) (b : fbuf) (i : Z) (v : R) :
  0 <= i < Z.of_nat (length (fmem m b)) ->
  exists a, fadd_at m b i v = Done (fset m b a)
    /\ length a = length (fmem m b)
    /\ forall p, load 0%R a p
         = if p =? i then (load 0%R (fmem m b) p + v)%R else load 0%R (fmem m b) p.
Proof.
  intros Hi. unfold fadd_at.
  destruct (update_load (fmem m b) i (fun old => (old + v)%R) 0%R Hi) as (a & E & Hl & Hp).
  exists a. rewrite E. split; [reflexivity|]. split; assumption.
Qed.

Lemma gather_one (n : Z) (D : vbuf) (Ds : fbuf) (I : vbuf) (Is : fbuf)
    (s : PathSegment) (m : Memory) :
  D <> I -> Ds <> Is -> accum_sized n D Ds I Is m -> 0 <= pixelIndex s < n ->
  exists m1,
    run_ops (gather_ops D Ds I Is s) m = Done m1
    /\ accum_sized n D Ds I Is m1
    /\ (forall p, load vzero (vmem m1 D) p
          = if p =? pixelIndex s then vadd (load vzero (vmem m D) p) (directAccum s)
            else load vzero (vmem m D) p)
    /\ (forall p, load 0%R (fmem m1 Ds) p
          = if p =? pixelIndex s
            then (load 0%R (fmem m Ds) p + length2 (directAccum s))%R
            else load 0%R (fmem m Ds) p)
    /\ (forall p, load vzero (vmem m1 I) p
          = if p =? pixelIndex s then vadd (load vzero (vmem m I) p) (indirectAccum s)
            else load vzero (vmem m I) p)
    /\ (forall p, load 0%R (fmem m1 Is) p
          = if p =? pixelIndex s
            then (load 0%R (fmem m Is) p + length2 (indirectAccum s))%R
            else load 0%R (fmem m Is) p)
    /\ (forall b, b <> D -> b <> I -> vmem m1 b = vmem m b)
    /\ (forall fb, fb <> Ds -> fb <> Is -> fmem m1 fb = fmem m fb).
Proof.
  intros HDI HDsIs (L1 & L2 & L3 & L4) Hp.
  unfold gather_ops, run_ops, run_op.
  destruct (vadd_at_load m D (pixelIndex s) (directAccum s) ltac:(lia))
    as (a1 & E1 & Hl1 & Hv1).
  rewrite E1, bind_Done.
  destruct (fadd_at_load (vset m D a1) Ds (pixelIndex s) (length2 (directAccum s)))
    as (a2 & E2 & Hl2 & Hv2); [rewrite fmem_vset; lia|].
  rewrite E2, bind_Done. rewrite fmem_vset in Hl2, Hv2.
  destruct (vadd_at_load (fset (vset m D a1) Ds a2) I (pixelIndex s) (indirectAccum s))
    as (a3 & E3 & Hl3 & Hv3);
    [rewrite vmem_fset, vmem_vset_other by exact HDI; lia|].
  rewrite E3, bind_Done.
  rewrite vmem_fset, vmem_vset_other in Hl3, Hv3 by exact HDI.
  destruct (fadd_at_load (vset (fset (vset m D a1) Ds a2) I a3) Is (pixelIndex s)
              (length2 (indirectAccum s)))
    as (a4 & E4 & Hl4 & Hv4);
    [rewrite fmem_vset, fmem_fset_other, fmem_vset by exact HDsIs; lia|].
  rewrite fmem_vset, fmem_fset_other, fmem_vset in Hl4, Hv4 by exact HDsIs.
  rewrite E4, bind_Done.
  eexists. split; [reflexivity|].
  assert (VD : vmem (fset (vset (fset (vset m D a1) Ds a2) I a3) Is a4) D = a1).
  { rewrite vmem_fset, vmem_vset_other by congruence.
    rewrite vmem_fset, vmem_vset_same. reflexivity. }
  assert (VI : vmem (fset (vset (fset (vset m D a1) Ds a2) I a3) Is a4) I = a3).
  { rewrite vmem_fset, vmem_vset_same. reflexivity. }
  assert (FDs : fmem (fset (vset (fset (vset m D a1) Ds a2) I a3) Is a4) Ds = a2).
  { rewrite fmem_fset_other by congruence.
    rewrite fmem_vset, fmem_fset_same. reflexivity. }
  assert (FIs : fmem (fset (vset (fset (vset m D a1) Ds a2) I a3) Is a4) Is = a4).
  { rewrite fmem_fset_same. reflexivity. }
  rewrite VD, VI, FDs, FIs.
  split; [unfold accum_sized; rewrite VD, VI, FDs, FIs; lia|].
  split; [exact Hv1|]. split; [exact Hv2|]. split; [exact Hv3|]. split; [exact Hv4|].
  split.
  - intros b HbD HbI. rewrite vmem_fset, vmem_vset_other by congruence.
    rewrite vmem_fset, vmem_vset_other by congruence. reflexivity.
  - intros fb HbD HbI. rewrite fmem_fset_other by congruence.
    rewrite fmem_vset, fmem_fset_other by congruence. rewrite fmem_vset. reflexivity.
Qed.

Lemma vadd_zero_r (v : vec3) : vadd v vzero = v.
Proof. destruct v. unfold vadd, vzero, vec3_splat. simpl. f_equal; ring. Qed.

Lemma gather_all (n : Z) (D : vbuf) (Ds : fbuf) (I : vbuf) (Is : fbuf)
    (paths : list PathSegment) :
  D <> I -> Ds <> Is ->
  (forall s, In s paths -> 0 <= pixelIndex s < n) ->
  forall m, accum_sized n D Ds I Is m ->
  exists m',
    run_ops (flat_map (gather_ops D Ds I Is) paths) m = Done m'
    /\ accum_sized n D Ds I Is m'
    /\ (forall p, load vzero (vmem m' D) p
          = vadd (load vzero (vmem m D) p) (pixel_vtotal directAccum paths p))
    /\ (forall p, load 0%R (fmem m' Ds) p
          = (load 0%R (fmem m Ds) p
             + pixel_ftotal (fun s => length2 (directAccum s)) paths p)%R)
    /\ (forall p, load vzero (vmem m' I) p
          = vadd (load vzero (vmem m I) p) (pixel_vtotal indirectAccum paths p))
    /\ (forall p, load 0%R (fmem m' Is) p
          = (load 0%R (fmem m Is) p
             + pixel_ftotal (fun s => length2 (indirectAccum s)) paths p)%R)
    /\ (forall b, b <> D -> b <> I -> vmem m' b = vmem m b)
    /\ (forall fb, fb <> Ds -> fb <> Is -> fmem m' fb = fmem m fb).
Proof.
  intros HDI HDsIs. induction paths as [|s paths IH]; intros Hin m Hm.
  - exists m. split; [reflexivity|]. split; [exact Hm|].
    unfold pixel_vtotal, pixel_ftotal. simpl.
    repeat split; intros; rewrite ?vadd_zero_r, ?Rplus_0_r; reflexivity.
  - destruct (gather_one n D Ds I Is s m HDI HDsIs Hm (Hin s (or_introl eq_refl)))
      as (m1 & E1 & Hm1 & HD & HDs & HI & HIs & Hv & Hf).
    destruct (IH (fun s' H => Hin s' (or_intror H)) m1 Hm1)
      as (m' & E' & Hm' & HD' & HDs' & HI' & HIs' & Hv' & Hf').
    exists m'. split.
    { change (flat_map (gather_ops D Ds I Is) (s :: paths))
        with (gather_ops D Ds I Is s ++ flat_map (gather_ops D Ds I Is) paths).
      rewrite run_ops_app, E1, bind_Done. exact E'. }
    split; [exact Hm'|].
    unfold pixel_vtotal, pixel_ftotal in *. simpl filter.
    split; [|split; [|split; [|split; [|split]]]].
    + intros p. rewrite HD', HD. rewrite (Z.eqb_sym p).
      destruct (pixelIndex s =? p); simpl; [apply vadd_assoc | reflexivity].
    + intros p. rewrite HDs', HDs. rewrite (Z.eqb_sym p).
      destruct (pixelIndex s =? p); simpl; [ring | reflexivity].
    + intros p. rewrite HI', HI. rewrite (Z.eqb_sym p).
      destruct (pixelIndex s =? p); simpl; [apply vadd_assoc | reflexivity].
    + intros p. rewrite HIs', HIs. rewrite (Z.eqb_sym p).
      destruct (pixelIndex s =? p); simpl; [ring | reflexivity].
    + intros b H1 H2. rewrite Hv', Hv by assumption. reflexivity.
    + intros fb H1 H2. rewrite Hf', Hf by assumption. reflexivity.
Qed.



Lemma gather_fault (n : Z) (D : vbuf) (Ds : fbuf) (I : vbuf) (Is : fbuf)
    (paths : list PathSegment) :
  D <> I -> Ds <> Is ->
  (exists s, In s paths /\ ~ 0 <= pixelIndex s < n) ->
  forall m, accum_sized n D Ds I Is m ->
    run_ops (flat_map (gather_ops D Ds I Is) paths) m = Undefined OutOfBounds.
Proof.
  intros HDI HDsIs. induction paths as [|s paths IH]; intros (bad & Hin & Hbad) m Hm.
  - destruct Hin.
  - change (flat_map (gather_ops D Ds I Is) (s :: paths))
      with (gather_ops D Ds I Is s ++ flat_map (gather_ops D Ds I Is) paths).
    rewrite run_ops_app.
    destruct (Z_lt_ge_dec (pixelIndex s) 0) as [Hneg|Hnn];
      [|destruct (Z_lt_ge_dec (pixelIndex s) n) as [Hlt|Hge]].
    + unfold gather_ops, run_ops, run_op, vadd_at.
      rewrite update_out by (left; exact Hneg). reflexivity.
    + destruct (gather_one n D Ds I Is s m HDI HDsIs Hm ltac:(lia))
        as (m1 & E1 & Hm1 & _).
      rewrite E1, bind_Done. apply IH; [|exact Hm1].
      destruct Hin as [<-|Hin]; [exfalso; apply Hbad; lia|].
      exists bad. split; assumption.
    + unfold gather_ops, run_ops, run_op, vadd_at.
      destruct Hm as (L1 & _).
      rewrite update_out by (right; lia). reflexivity.
Qed.

(** Final gather indexes the running sums with the [pixelIndex] a path slot
    carries, without a check: one slot whose [pixelIndex] is outside the
    image makes the launch write out of bounds. *)
Theorem final_gather_out_of_range {scene : Scene} (pixelcount : Z) (d : Device) :
  let h := handles d in
  Z.of_nat (length (dev_paths d)) = pixelcount ->
  accum_sized pixelcount (dev_directIllum h) (dev_directIllumSqr h)
              (dev_indirectIllum h) (dev_indirectIllumSqr h) (memory d) ->
  dev_directIllum h <> dev_indirectIllum h ->
  dev_directIllumSqr h <> dev_indirectIllumSqr h ->
  (exists s, In s (dev_paths d) /\ ~ 0 <= pixelIndex s < pixelcount) ->
  launch_finalGather pixelcount d = Undefined OutOfBounds.
Proof.
  intros h Hlen Hm HDI HDsIs Hbad.
  rewrite (launch_finalGather_run_ops pixelcount d Hlen).
  apply (gather_fault pixelcount); assumption.
Qed.

Lemma final_gather_out_of_range_witness :
  let scene := simple_scene complement_hash (-1) 1 in
  launch_finalGather 2
    (with_paths (blank_device 2)
       [path_with_radiance 0 vzero vzero; path_with_radiance 2 vzero vzero])
  = Undefined OutOfBounds.
Proof.
  intros scene.
  apply (@final_gather_out_of_range scene 2).
  - reflexivity.
  - repeat split.
  - discriminate.
  - discriminate.
  - exists (path_with_radiance 2 vzero vzero). split.
    + right. left. reflexivity.
    + simpl. lia.
Defined.

(** ** Camera rays: what a covered launch leaves *)

(** With the camera pool that [pathtraceInit] allocates for a positive
    number of strata, and width and height multiples of the block size 8,
    the ray generation launch writes every slot of the path array and
    nothing else: slot [q] holds a fresh path of pixel [q], with throughput
    one, zero accumulators, no last geometry, [traceDepth] bounces left and
    the flags of a camera ray. *)
Theorem ray_generation_initialises {scene : Scene}
    (cam : Camera) (iter D : Z) (paths0 : list PathSegment) :
  0 < numStratifiedSamples < 2 ^ 31 ->
  Z.of_nat (length camSamplePool) = numStratifiedSamples ->
  0 < resolution_x cam -> 0 < resolution_y cam ->
  (8 | resolution_x cam) -> (8 | resolution_y cam) ->
  Z.of_nat (length paths0) = resolution_x cam * resolution_y cam ->
  exists paths,
    launch_generateRayFromCamera cam iter D paths0 = Done paths
    /\ length paths = length paths0
    /\ forall q : nat, (q < length paths)%nat ->
         let seg := nth q paths blank_path in
         pixelIndex seg = Z.of_nat q
         /\ colorThroughput seg = vec3_splat 1
         /\ directAccum seg = vec3_splat 0 /\ indirectAccum seg = vec3_splat 0
         /\ lastGeom seg = -1 /\ remainingBounces seg = D
         /\ prevBounceNoMis seg = true /\ prevBounceSpecular seg = true
         /\ indirectIllum seg = false.
Proof.
  intros HN Hpool Hw Hh Dw Dh Hlen.
  set (w := resolution_x cam) in *. set (h := resolution_y cam) in *.
  pose (k := fun (x y : Z) (paths : list PathSegment) =>
    r <- generateRayFromCamera cam iter D x y ;;
    match r with
    | None => Done paths
    | Some (index, segment) => store paths index segment
    end).
  pose (g := fun (x y : Z) =>
    match generateRayFromCamera cam iter D x y with
    | Done (Some (_, seg)) => seg
    | _ => blank_path
    end).
  change (launch_generateRayFromCamera cam iter D paths0)
    with (launch2D 8 w h k paths0).
  assert (Hgrid : forall x y, In (x, y) (grid2D 8 w h) -> 0 <= x < w /\ 0 <= y < h).
  { intros x y Hin. apply In_grid2D in Hin.
    rewrite (divisible_blocks w Dw), (divisible_blocks h Dh) in Hin. exact Hin. }
  assert (Hpass : forall x y, x < w ->
    (x >=? resolution_x cam) && (y >=? resolution_y cam) = false).
  { intros x y Hx. replace (x >=? resolution_x cam) with false
      by (symmetry; rewrite Z.geb_leb; apply Z.leb_gt; exact Hx).
    reflexivity. }
  destruct (launch2D_stores 8 w h k g paths0 blank_path) as (paths & Hrun & Hl & Hval);
    try lia.
  - intros x y s Hin Hx Hy. unfold k, g.
    destruct (generateRayFromCamera_passes cam iter D x y HN Hpool Hw
                (Hpass x y (proj2 Hx)))
      as (seg & Hgen & _). rewrite Hgen. rewrite bind_Done.
    fold w. f_equal. lia.
  - intros x y s Hin Hno. exfalso. apply Hno.
    destruct (Hgrid x y Hin). lia.
  - exists paths. split; [exact Hrun|]. split; [exact Hl|].
    intros q Hq.
    assert (Hq' : 0 <= Z.of_nat q < w * h) by lia.
    pose proof (Z.div_mod (Z.of_nat q) w ltac:(lia)) as Edm.
    pose proof (Z.mod_pos_bound (Z.of_nat q) w Hw) as Bm.
    assert (Hy : 0 <= Z.of_nat q / w < h).
    { split; [apply Z.div_pos; lia | apply Z.div_lt_upper_bound; lia]. }
    specialize (Hval (Z.of_nat q mod w) (Z.of_nat q / w) Bm Hy).
    replace (Z.of_nat q / w * w + Z.of_nat q mod w) with (Z.of_nat q) in Hval by lia.
    rewrite Nat2Z.id in Hval. cbv zeta. rewrite Hval. unfold g.
    destruct (generateRayFromCamera_passes cam iter D (Z.of_nat q mod w)
                (Z.of_nat q / w) HN Hpool Hw (Hpass _ _ (proj2 Bm)))
      as (seg & Hgen & Hpi & Hct & Hda & Hia & Hlg & Hrb & Hf1 & Hf2 & Hf3).
    rewrite Hgen. fold w in Hpi. repeat split; try assumption. lia.
Qed.

Lemma ray_generation_initialises_witness :
  let scene := simple_scene complement_hash (-1) 5 in
  exists paths,
    launch_generateRayFromCamera (simple_camera 8 16) 1 5 (repeat blank_path 128)
    = Done paths
    /\ length paths = 128%nat
    /\ pixelIndex (nth 100 paths blank_path) = 100
    /\ remainingBounces (nth 100 paths blank_path) = 5.
Proof.
  intros scene.
  destruct (simple_scene_pool complement_hash (-1) 5 ltac:(lia)) as (HN & Hcam & _).
  assert (Hw : 0 < resolution_x (simple_camera 8 16)) by (simpl; lia).
  assert (Hh : 0 < resolution_y (simple_camera 8 16)) by (simpl; lia).
  assert (Dw : (8 | resolution_x (simple_camera 8 16))) by (exists 1; reflexivity).
  assert (Dh : (8 | resolution_y (simple_camera 8 16))) by (exists 2; reflexivity).
  assert (Hlen : Z.of_nat (length (repeat blank_path 128))
                 = resolution_x (simple_camera 8 16) * resolution_y (simple_camera 8 16))
    by reflexivity.
  destruct (@ray_generation_initialises scene (simple_camera 8 16) 1 5
              (repeat blank_path 128) HN Hcam Hw Hh Dw Dh Hlen)
    as (paths & Hrun & Hl & Hslots).
  exists paths. split; [exact Hrun|].
  rewrite repeat_length in Hl. split; [exact Hl|].
  assert (Hq : (100 < length paths)%nat) by (rewrite Hl; lia).
  destruct (Hslots 100%nat Hq) as (Hpi & _ & _ & _ & _ & Hrb & _).
  split; [exact Hpi | exact Hrb].
Defined.

(** ** Intersection launch: the three arrays it leaves *)

Lemma intersect_record_cases {scene : Scene} (p : PathSegment)
    (old : ShadeableIntersection) :
  let hit := traverseAABBTree (ray p) (lastGeom p) in
  let g := fst (fst hit) in
  (g = -1 ->
   intersect_record p old
   = mkShadeableIntersection (-1) (-1) (geometricNormal old) (shadingNormal old))
  /\ (g <> -1 ->
      intersect_record p old
      = mkShadeableIntersection (snd (fst hit)) (geom_materialid g)
          (fst (computeNormals g (snd hit))) (snd (computeNormals g (snd hit)))).
Proof.
  unfold intersect_record.
  destruct (traverseAABBTree (ray p) (lastGeom p)) as [[g t_hit] tok]. simpl.
  split; intros Hg.
  - subst g. reflexivity.
  - replace (g =? -1) with false by (symmetry; apply Z.eqb_neq; exact Hg).
    destruct (computeNormals g tok). reflexivity.
Qed.

(** A launch of [computeIntersections] over the first [numPaths] slots.
    For each of them, with [g] the geometry the traversal returns for the
    ray of the slot: the path keeps everything but [lastGeom], which becomes
    [g]; on a miss ([g = -1]) the intersection record gets distance and
    material [-1] and keeps the normals it had; on a hit it gets the
    distance found, the material of [g] and the two normals computed for
    [g]; the sort key of the slot is the material of the record.  The slots
    from [numPaths] on are left as they were in all three arrays. *)
Theorem intersection_launch_slots {scene : Scene} (depth numPaths : Z)
    (ps0 : list PathSegment) (ins0 : list ShadeableIntersection) (ks0 : list Z) :
  0 <= numPaths ->
  numPaths <= Z.of_nat (length ps0) -> numPaths <= Z.of_nat (length ins0) ->
  numPaths <= Z.of_nat (length ks0) ->
  exists ps ins ks,
    launch1D (Z.quot (numPaths + 128 - 1) 128) 128
      (computeIntersections depth numPaths) (ps0, ins0, ks0)
    = Done (ps, ins, ks)
    /\ length ps = length ps0 /\ length ins = length ins0 /\ length ks = length ks0
    /\ forall q : nat,
         let p := nth q ps0 blank_path in
         let old := nth q ins0 zeroIntersection in
         let hit := traverseAABBTree (ray p) (lastGeom p) in
         let g := fst (fst hit) in
         (Z.of_nat q < numPaths ->
          nth q ps blank_path = set_lastGeom p g
          /\ (g = -1 ->
              nth q ins zeroIntersection
              = mkShadeableIntersection (-1) (-1)
                  (geometricNormal old) (shadingNormal old))
          /\ (g <> -1 ->
              nth q ins zeroIntersection
              = mkShadeableIntersection (snd (fst hit)) (geom_materialid g)
                  (fst (computeNormals g (snd hit)))
                  (snd (computeNormals g (snd hit))))
          /\ nth q ks 0 = materialId (nth q ins zeroIntersection))
         /\ (numPaths <= Z.of_nat q ->
             nth q ps blank_path = p
             /\ nth q ins zeroIntersection = old
             /\ nth q ks 0 = nth q ks0 0).
Proof.
  intros Hn Hp Hi Hk.
  pose (slot := fun (s : IsectArrays) (q : nat) =>
    let '(ps, ins, ks) := s in
    (nth q ps blank_path, nth q ins zeroIntersection, nth q ks 0)).
  pose (Inv := fun (s : IsectArrays) =>
    let '(ps, ins, ks) := s in
    length ps = length ps0 /\ length ins = length ins0 /\ length ks = length ks0).
  pose (F := fun (i : Z) (v : PathSegment * ShadeableIntersection * Z) =>
    (intersect_path (fst (fst v)), intersect_record (fst (fst v)) (snd (fst v)),
     materialId (intersect_record (fst (fst v)) (snd (fst v))))).
  destruct (launch1D_slots slot Inv (Z.quot (numPaths + 128 - 1) 128) 128 numPaths
              (computeIntersections depth numPaths) F
              (ps0, ins0, ks0)) as ([[ps ins] ks] & Hrun & (Hl1 & Hl2 & Hl3) & Hslots).
  - split; [exact Hn | apply blocks_cover; exact Hn].
  - simpl. auto.
  - intros i [[ps ins] ks] Hin (Hl1 & Hl2 & Hl3).
    destruct (computeIntersections_thread depth numPaths i ps ins ks Hin)
      as (ps' & ins' & ks' & Hrun & Hs1 & Hs2 & Hs3); try lia.
    exists (ps', ins', ks'). split; [exact Hrun|].
    destruct (store_spec _ _ _ _ blank_path Hs1) as (L1 & _ & S1 & O1).
    destruct (store_spec _ _ _ _ zeroIntersection Hs2) as (L2 & _ & S2 & O2).
    destruct (store_spec _ _ _ _ 0 Hs3) as (L3 & _ & S3 & O3).
    split; [simpl; repeat split; congruence|].
    split.
    + simpl. rewrite S1, S2, S3. reflexivity.
    + intros q Hq. simpl. rewrite O1, O2, O3 by exact Hq. reflexivity.
  - intros i [[ps ins] ks] Hi'. unfold computeIntersections.
    replace (i >=? numPaths) with true by (symmetry; apply Z.geb_le; lia). reflexivity.
  - exists ps, ins, ks. split; [exact Hrun|]. repeat (split; [assumption|]).
    intros q p old hit g. destruct (Hslots q) as [Hlt Hge]. split; intros Hq.
    + specialize (Hlt Hq). unfold F in Hlt. simpl in Hlt.
      injection Hlt as E1 E2 E3.
      destruct (intersect_record_cases (nth q ps0 blank_path)
                  (nth q ins0 zeroIntersection)) as [Hmiss Hhit].
      rewrite E1, E3, E2. split; [reflexivity|].
      split; [exact Hmiss|]. split; [exact Hhit | reflexivity].
    + specialize (Hge Hq). simpl in Hge. injection Hge as E1 E2 E3.
      split; [exact E1 | split; [exact E2 | exact E3]].
Qed.

Lemma intersection_launch_slots_witness :
  let scene := simple_scene complement_hash 4 1 in
  exists ps ins ks,
    launch1D (Z.quot (2 + 128 - 1) 128) 128 (computeIntersections 0 2)
      (repeat blank_path 3, repeat zeroIntersection 3, [7; 7; 7])
    = Done (ps, ins, ks)
    /\ lastGeom (nth 1 ps blank_path) = 4
    /\ nth 1 ks 0 = 0
    /\ nth 2 ks 0 = 7.
Proof.
  intros scene.
  destruct (@intersection_launch_slots scene 0 2
              (repeat blank_path 3) (repeat zeroIntersection 3) [7; 7; 7])
    as (ps & ins & ks & Hrun & _ & _ & _ & Hslots); try (simpl; lia).
  exists ps, ins, ks. split; [exact Hrun|].
  destruct (Hslots 1%nat) as [Hlt _]. destruct (Hslots 2%nat) as [_ Hge].
  destruct (Hlt ltac:(lia)) as (Hp & _ & Hhit & Hk).
  destruct (Hge ltac:(lia)) as (_ & _ & Hk2).
  split; [rewrite Hp; reflexivity|].
  split; [|exact Hk2].
  rewrite Hk. rewrite Hhit; [reflexivity|]. simpl. discriminate.
Defined.

(** ** The path array at loop exit *)

Lemma skipn_length_app {A : Type} (l r : list A) : skipn (length l) (l ++ r) = r.
Proof. induction l as [|x l IH]; simpl; [reflexivity | exact IH]. Qed.

Lemma partition_suffix {A : Type} (p : A -> bool) (a : list A) (n : Z) (x : A) :
  In x (skipn (Z.to_nat (snd (partition p a n))) (fst (partition p a n))) ->
  p x = false \/ In x (skipn (Z.to_nat n) a).
Proof.
  unfold partition. simpl. rewrite Nat2Z.id. rewrite skipn_length_app.
  intros Hin. apply in_app_or in Hin. destruct Hin as [Hin|Hin]; [left|right; exact Hin].
  apply filter_In in Hin. destruct Hin as [_ Hp].
  destruct (p x); [discriminate | reflexivity].
Qed.

Lemma skipn_ext {A : Type} (a b : list A) (n : nat) (d : A) :
  length a = length b ->
  (forall q, (n <= q)%nat -> nth q a d = nth q b d) ->
  skipn n a = skipn n b.
Proof.
  intros Hl Hq. apply (nth_ext _ _ d d).
  - rewrite !length_skipn. lia.
  - intros i _. rewrite !nth_skipn. apply Hq. lia.
Qed.

Lemma depthIteration_dead {scene : Scene} (iter lightMis numLights pixelcount : Z)
    (depth n : Z) (d d1 : Device) (n1 : Z) :
  sized pixelcount d -> 0 <= n <= pixelcount ->
  depthIteration iter lightMis numLights pixelcount depth n d = Done (d1, n1) ->
  dead_from n d -> dead_from n1 d1.
Proof.
  intros Hs Hn Hrun Hdead.
  destruct (depthIteration_inv iter lightMis numLights pixelcount depth n d d1 n1
              Hs Hn Hrun)
    as (shaded & En & Hpaths & _ & _ & _ & Hlen & Hslots).
  subst n1.
  intros x Hin. rewrite Hpaths in Hin.
  apply partition_suffix in Hin. destruct Hin as [Hp|Hin].
  - unfold IsRayTravelling in Hp. rewrite Z.gtb_ltb in Hp. apply Z.ltb_ge in Hp. exact Hp.
  - apply Hdead.
    rewrite (skipn_ext shaded (dev_paths d) (Z.to_nat n) blank_path Hlen) in Hin;
      [exact Hin|].
    intros q Hq. destruct (Hslots q) as [_ Hge]. apply Hge. lia.
Qed.

Section DepthLoopExit.
Context {scene : Scene}.
Variables (iter lightMis numLights pixelcount : Z).

Hypothesis shading_consumes : forall depth i isect path path',
  shade_path iter depth samplePool (depth * numStratifiedSamples)
    stratifiedSamplingRange numStratifiedSamples lightMis numLights i isect path
  = Done path' ->
  remainingBounces path' = remainingBounces path - 1 \/ remainingBounces path' = 0.
Hypothesis mis_keeps_pixel : forall p a b c m u v l k i,
  pixelIndex (multipleImportanceSampling p a b c m u v l k i) = pixelIndex p.
Hypothesis scatter_keeps_pixel : forall p a b c m u s f i,
  pixelIndex (fst (scatterRay p a b c m u s f i)) = pixelIndex p.
Hypothesis strata : 0 < numStratifiedSamples < 2 ^ 31.
Hypothesis pool_sized :
  Z.of_nat (length samplePool) = traceDepth * numStratifiedSamples.

Lemma dead_from_zero (d : Device) :
  dead_from 0 d -> forall x, In x (dev_paths d) -> remainingBounces x <= 0.
Proof. intros H x Hin. apply H. exact Hin. Qed.

Lemma depthLoop_exit (fuel : nat) :
  forall (B depth n : Z) (d : Device),
    0 <= depth -> depth + B <= traceDepth ->
    sized pixelcount d -> 0 <= n <= pixelcount ->
    (forall q : nat, Z.of_nat q < n ->
       0 < remainingBounces (nth q (dev_paths d) blank_path) <= B) ->
    B <= Z.of_nat fuel ->
    dead_from n d ->
    exists d' depth',
      depthLoop fuel iter lightMis numLights pixelcount depth n d
      = Some (Done (d', depth'))
      /\ depth <= depth' <= depth + Z.max B 0
      /\ sized pixelcount d'
      /\ handles d' = handles d /\ memory d' = memory d
      /\ (forall x, In x (dev_paths d') -> remainingBounces x <= 0)
      /\ Permutation (map pixelIndex (dev_paths d')) (map pixelIndex (dev_paths d)).
Proof.
  induction fuel as [|fuel IH]; intros B depth n d Hd0 HdB Hs Hn Hrb Hfuel Hdead.
  - assert (n = 0).
    { destruct (Z.eq_dec n 0) as [E|E]; [exact E|].
      specialize (Hrb 0%nat ltac:(lia)). simpl in Hfuel. lia. }
    subst n. simpl. exists d, depth.
    split; [reflexivity|]. split; [lia|]. split; [exact Hs|].
    split; [reflexivity|]. split; [reflexivity|].
    split; [apply dead_from_zero; exact Hdead | apply Permutation_refl].
  - simpl. destruct (n >? 0) eqn:En.
    + rewrite Z.gtb_ltb in En. apply Z.ltb_lt in En.
      assert (HB : 1 <= B) by (specialize (Hrb 0%nat ltac:(lia)); lia).
      destruct (depthIteration_active iter lightMis numLights pixelcount
                  shading_consumes strata pool_sized depth n d ltac:(lia) Hs Hn)
        as (d1 & n1 & Hrun & Hs1 & Hn1 & Hh1 & Hm1 & Hact).
      rewrite Hrun.
      pose proof (depthIteration_dead _ _ _ _ _ _ _ _ _ Hs Hn Hrun Hdead) as Hdead1.
      pose proof (depthIteration_pixels _ _ _ _ _ _ _ _ _ mis_keeps_pixel
                    scatter_keeps_pixel Hs Hn Hrun) as Hperm1.
      destruct (IH (B - 1) (depth + 1) n1 d1 ltac:(lia) ltac:(lia) Hs1 ltac:(lia))
        as (d' & depth' & Hloop & Hd & Hs' & Hh & Hm & Hall & Hperm).
      * intros q Hq. destruct (Hact q Hq) as (Hpos & q0 & Hq0 & E).
        specialize (Hrb q0 Hq0). lia.
      * lia.
      * exact Hdead1.
      * exists d', depth'. split; [exact Hloop|].
        split; [lia|]. split; [exact Hs'|].
        split; [congruence|]. split; [congruence|].
        split; [exact Hall|].
        eapply Permutation_trans; [exact Hperm | exact Hperm1].
    + assert (n = 0) by (rewrite Z.gtb_ltb in En; apply Z.ltb_ge in En; lia).
      subst n. exists d, depth.
      split; [reflexivity|]. split; [lia|]. split; [exact Hs|].
      split; [reflexivity|]. split; [reflexivity|].
      split; [apply dead_from_zero; exact Hdead | apply Permutation_refl].
Qed.

Lemma depthLoop_exit_from_start (D : Z) (d : Device) :
  0 < traceDepth -> D <= traceDepth ->
  sized pixelcount d ->
  (forall p, In p (dev_paths d) -> remainingBounces p = D) ->
  exists d' depth',
    depthLoop (S (Z.to_nat D)) iter lightMis numLights pixelcount 0 pixelcount d
    = Some (Done (d', depth'))
    /\ 0 <= depth' <= Z.max D 0 + 1
    /\ (0 < pixelcount -> 1 <= depth')
    /\ sized pixelcount d'
    /\ handles d' = handles d /\ memory d' = memory d
    /\ (0 < pixelcount ->
        forall x, In x (dev_paths d') -> remainingBounces x <= 0)
    /\ Permutation (map pixelIndex (dev_paths d')) (map pixelIndex (dev_paths d)).
Proof.
  intros HT HD Hs Hall. cbn [depthLoop].
  assert (Hlen : Z.of_nat (length (dev_paths d)) = pixelcount) by (destruct Hs; assumption).
  assert (Hpc : 0 <= pixelcount) by lia.
  destruct (pixelcount >? 0) eqn:En.
  - rewrite Z.gtb_ltb in En. apply Z.ltb_lt in En.
    assert (Hdead0 : dead_from pixelcount d).
    { intros x Hin. rewrite <- Hlen, Nat2Z.id, skipn_all in Hin. destruct Hin. }
    assert (Hn0 : 0 <= pixelcount <= pixelcount) by lia.
    assert (Hd0 : 0 <= 0 < traceDepth) by lia.
    destruct (depthIteration_active iter lightMis numLights pixelcount
                shading_consumes strata pool_sized 0 pixelcount d Hd0 Hs Hn0)
      as (d1 & n1 & Hrun & Hs1 & Hn1 & Hh1 & Hm1 & Hact).
    rewrite Hrun.
    pose proof (depthIteration_dead _ _ _ _ _ _ _ _ _ Hs Hn0 Hrun Hdead0) as Hdead1.
    pose proof (depthIteration_pixels _ _ _ _ _ _ _ _ _ mis_keeps_pixel
                  scatter_keeps_pixel Hs Hn0 Hrun) as Hperm1.
    destruct (depthLoop_exit (Z.to_nat D) (D - 1) (0 + 1) n1 d1
                ltac:(lia) ltac:(lia) Hs1 ltac:(lia))
      as (d' & depth' & Hloop & Hd & Hs' & Hh & Hm & Hdead & Hperm).
    + intros q Hq. destruct (Hact q Hq) as (Hpos & q0 & Hq0 & E).
      assert (Hin : In (nth q0 (dev_paths d) blank_path) (dev_paths d)).
      { apply nth_In. lia. }
      rewrite (Hall _ Hin) in E. lia.
    + lia.
    + exact Hdead1.
    + exists d', depth'. split; [exact Hloop|].
      split; [lia|]. split; [lia|]. split; [exact Hs'|].
      split; [congruence|]. split; [congruence|].
      split; [intros _; exact Hdead|].
      eapply Permutation_trans; [exact Hperm | exact Hperm1].
  - exists d, 0.
    split; [reflexivity|]. split; [lia|].
    split; [rewrite Z.gtb_ltb in En; apply Z.ltb_ge in En; lia|].
    split; [exact Hs|]. split; [reflexivity|]. split; [reflexivity|].
    split; [rewrite Z.gtb_ltb in En; apply Z.ltb_ge in En; lia|].
    apply Permutation_refl.
Qed.
End DepthLoopExit.

(** Let every shading step either use up one bounce or end the path, let
    light sampling and scattering keep the pixel of a path, let the trace
    depth be positive and the sample pool hold the
    [traceDepth * numStratifiedSamples] samples [pathtraceInit] allocates,
    for a positive number of strata.  From paths that all start with [D]
    bounces, [D] at most the trace depth, the depth loop ends after at most
    [max D 0 + 1] depths and, for a non-empty image, at least one; it leaves
    the accumulation memory and the handles alone; at its exit every path slot
    is dead; and the slots are a rearrangement of the ones it started from:
    the pixels the slots report to are the same, each as often as before. *)
Theorem depth_loop_exit_state {scene : Scene}
    (iter lightMis numLights pixelcount D : Z) (d : Device) :
  (forall depth i isect path path',
     shade_path iter depth samplePool (depth * numStratifiedSamples)
       stratifiedSamplingRange numStratifiedSamples lightMis numLights i isect path
     = Done path' ->
     remainingBounces path' = remainingBounces path - 1 \/ remainingBounces path' = 0) ->
  (forall p a b c m u v l k i,
     pixelIndex (multipleImportanceSampling p a b c m u v l k i) = pixelIndex p) ->
  (forall p a b c m u s f i,
     pixelIndex (fst (scatterRay p a b c m u s f i)) = pixelIndex p) ->
  0 < numStratifiedSamples < 2 ^ 31 ->
  Z.of_nat (length samplePool) = traceDepth * numStratifiedSamples ->
  0 < traceDepth -> D <= traceDepth ->
  sized pixelcount d -> 0 < pixelcount ->
  (forall p, In p (dev_paths d) -> remainingBounces p = D) ->
  exists d' depth',
    depthLoop (S (Z.to_nat D)) iter lightMis numLights pixelcount 0 pixelcount d
    = Some (Done (d', depth'))
    /\ 1 <= depth' <= Z.max D 0 + 1
    /\ handles d' = handles d /\ memory d' = memory d
    /\ (forall x, In x (dev_paths d') -> remainingBounces x <= 0)
    /\ Permutation (map pixelIndex (dev_paths d')) (map pixelIndex (dev_paths d)).
Proof.
  intros Hc Hmis Hsc HN Hpool HT HD Hs Hpc Hall.
  destruct (depthLoop_exit_from_start iter lightMis numLights pixelcount Hc Hmis Hsc
              HN Hpool D d HT HD Hs Hall)
    as (d' & depth' & Hloop & Hd & Hd1 & _ & Hh & Hm & Hdead & Hperm).
  exists d', depth'. split; [exact Hloop|].
  split; [specialize (Hd1 Hpc); lia|]. split; [exact Hh|]. split; [exact Hm|].
  split; [exact (Hdead Hpc) | exact Hperm].
Qed.

Lemma depth_loop_exit_state_witness :
  let scene := simple_scene complement_hash 0 2 in
  exists d' depth',
    depthLoop 3 1 0 0 2 0 2
      (with_paths (blank_device 2) (repeat (path_with_bounces 2) 2))
    = Some (Done (d', depth'))
    /\ 1 <= depth' <= 3
    /\ (forall x, In x (dev_paths d') -> remainingBounces x <= 0).
Proof.
  intros scene.
  assert (Hs : sized 2 (with_paths (blank_device 2) (repeat (path_with_bounces 2) 2))).
  { repeat split. }
  assert (Hall : forall p,
    In p (dev_paths (with_paths (blank_device 2) (repeat (path_with_bounces 2) 2))) ->
    remainingBounces p = 2).
  { intros p Hin. simpl in Hin. destruct Hin as [<-|[<-|[]]]; reflexivity. }
  assert (Hmis : forall p a b c m u v l k i,
    pixelIndex (multipleImportanceSampling p a b c m u v l k i) = pixelIndex p)
    by reflexivity.
  assert (Hsc : forall p a b c m u s f i,
    pixelIndex (fst (scatterRay p a b c m u s f i)) = pixelIndex p)
    by reflexivity.
  assert (Hpc : 0 < 2) by lia.
  destruct (simple_scene_pool complement_hash 0 2 ltac:(lia)) as (HN & _ & Hpool).
  assert (HT : 0 < @traceDepth scene) by (simpl; lia).
  assert (HD : 2 <= @traceDepth scene) by (simpl; lia).
  destruct (@depth_loop_exit_state scene 1 0 0 2 2 _
              (simple_scene_shading_consumes complement_hash 0 2 1 0 0)
              Hmis Hsc HN Hpool HT HD Hs Hpc Hall)
    as (d' & depth' & Hloop & Hd & _ & _ & Hdead & _).
  exists d', depth'. split; [exact Hloop|]. split; [exact Hd | exact Hdead].
Defined.

(** ** One render iteration: one sample for every pixel *)

Lemma filter_pixel_none (paths : list PathSegment) (p : Z) :
  ~ In p (map pixelIndex paths) ->
  filter (fun s => pixelIndex s =? p) paths = [].
Proof.
  induction paths as [|x l IH]; intros Hn; simpl; [reflexivity|].
  destruct (Z.eqb_spec (pixelIndex x) p) as [E|E].
  - exfalso. apply Hn. left. exact E.
  - apply IH. intros Hin. apply Hn. right. exact Hin.
Qed.

Lemma filter_pixel_unique (paths : list PathSegment) (s : PathSegment) :
  NoDup (map pixelIndex paths) -> In s paths ->
  filter (fun x => pixelIndex x =? pixelIndex s) paths = [s].
Proof.
  induction paths as [|x l IH]; intros Hnd Hin; [destruct Hin|].
  simpl in Hnd. inversion Hnd as [|k ks Hnotin Hnd']. subst.
  simpl. destruct Hin as [->|Hin].
  - rewrite Z.eqb_refl. f_equal. apply filter_pixel_none. exact Hnotin.
  - destruct (Z.eqb_spec (pixelIndex x) (pixelIndex s)) as [E|E].
    + exfalso. apply Hnotin. rewrite E. apply in_map. exact Hin.
    + apply IH; assumption.
Qed.

Lemma map_pixelIndex_upto (paths : list PathSegment) :
  (forall q : nat, (q < length paths)%nat ->
     pixelIndex (nth q paths blank_path) = Z.of_nat q) ->
  map pixelIndex paths = upto (Z.of_nat (length paths)).
Proof.
  intros H. unfold upto. rewrite Nat2Z.id.
  apply (nth_ext _ _ 0 0).
  - rewrite !length_map, length_seq. reflexivity.
  - intros q Hq. rewrite length_map in Hq.
    rewrite (nth_indep _ 0 (pixelIndex blank_path)) by (rewrite length_map; exact Hq).
    rewrite map_nth. rewrite (H q Hq).
    change 0 with (Z.of_nat 0). rewrite map_nth. rewrite seq_nth by exact Hq.
    reflexivity.
Qed.

(** One call of [pathtrace] on a resolution the 8 x 8 blocks cover exactly,
    when every shading step uses up one bounce or ends the path and the
    collaborators keep the pixel of a path, with a positive trace depth, a
    positive number of strata and the two sample pools as [pathtraceInit]
    allocates them: [numStratifiedSamples] camera samples and
    [traceDepth * numStratifiedSamples] intersection samples.  The call
    returns after at least one and at most [traceDepth + 1] depths; every
    path slot is dead;
    no two slots report to the same pixel; and every pixel has its slot,
    whose direct and indirect radiance and their squared magnitudes are what
    the call has added to the four running sums at that pixel.  The handles
    and the other arrays are as before. *)
Theorem pathtrace_one_sample_per_pixel {scene : Scene} (cam : Camera)
    (frame iter lightMis numLights : Z) (d : Device) :
  (forall depth i isect path path',
     shade_path iter depth samplePool (depth * numStratifiedSamples)
       stratifiedSamplingRange numStratifiedSamples lightMis numLights i isect path
     = Done path' ->
     remainingBounces path' = remainingBounces path - 1 \/ remainingBounces path' = 0) ->
  (forall p a b c m u v l k i,
     pixelIndex (multipleImportanceSampling p a b c m u v l k i) = pixelIndex p) ->
  (forall p a b c m u s f i,
     pixelIndex (fst (scatterRay p a b c m u s f i)) = pixelIndex p) ->
  0 < traceDepth ->
  0 < numStratifiedSamples < 2 ^ 31 ->
  Z.of_nat (length camSamplePool) = numStratifiedSamples ->
  Z.of_nat (length samplePool) = traceDepth * numStratifiedSamples ->
  0 < resolution_x cam -> 0 < resolution_y cam ->
  (8 | resolution_x cam) -> (8 | resolution_y cam) ->
  let pixelcount := resolution_x cam * resolution_y cam in
  let h := handles d in
  let m := memory d in
  sized pixelcount d ->
  accum_sized pixelcount (dev_directIllum h) (dev_directIllumSqr h)
              (dev_indirectIllum h) (dev_indirectIllumSqr h) m ->
  dev_directIllum h <> dev_indirectIllum h ->
  dev_directIllumSqr h <> dev_indirectIllumSqr h ->
  exists d' depth,
    pathtrace (S (Z.to_nat traceDepth)) cam frame iter lightMis numLights d
    = Some (Done (d', depth))
    /\ 1 <= depth <= Z.max traceDepth 0 + 1
    /\ handles d' = h
    /\ (forall s, In s (dev_paths d') -> remainingBounces s <= 0)
    /\ NoDup (map pixelIndex (dev_paths d'))
    /\ (forall p, 0 <= p < pixelcount ->
          exists s, In s (dev_paths d') /\ pixelIndex s = p
            /\ load vzero (vmem (memory d') (dev_directIllum h)) p
               = vadd (load vzero (vmem m (dev_directIllum h)) p) (directAccum s)
            /\ load 0%R (fmem (memory d') (dev_directIllumSqr h)) p
               = (load 0%R (fmem m (dev_directIllumSqr h)) p
                  + length2 (directAccum s))%R
            /\ load vzero (vmem (memory d') (dev_indirectIllum h)) p
               = vadd (load vzero (vmem m (dev_indirectIllum h)) p) (indirectAccum s)
            /\ load 0%R (fmem (memory d') (dev_indirectIllumSqr h)) p
               = (load 0%R (fmem m (dev_indirectIllumSqr h)) p
                  + length2 (indirectAccum s))%R)
    /\ (forall b, b <> dev_directIllum h -> b <> dev_indirectIllum h ->
                  vmem (memory d') b = vmem m b)
    /\ (forall fb, fb <> dev_directIllumSqr h -> fb <> dev_indirectIllumSqr h ->
                   fmem (memory d') fb = fmem m fb).
Proof.
  intros Hc Hmis Hsc HT HN Hcam Hpool Hw Hh Dw Dh pixelcount h m Hs Hm HDI HDsIs.
  assert (Hpc : 0 < pixelcount) by (unfold pixelcount; nia).
  unfold pathtrace. fold pixelcount.
  destruct Hs as (Sp & Si & Sk & Sc).
  destruct (launch_generateRayFromCamera_exact cam iter traceDepth (dev_paths d)
              HN Hcam Hw Hh Dw Dh Sp) as (paths & Hgen & Lp & Hfresh).
  rewrite Hgen.
  assert (Hs1 : sized pixelcount (with_paths d paths)).
  { unfold sized. simpl. repeat split; try assumption. lia. }
  assert (Hall : forall p, In p (dev_paths (with_paths d paths)) ->
                           remainingBounces p = traceDepth).
  { intros p Hin. simpl in Hin.
    destruct (In_nth_index _ _ blank_path Hin) as (q & Hq & <-).
    apply (Hfresh q Hq). }
  destruct (depthLoop_exit_from_start iter lightMis numLights pixelcount Hc Hmis Hsc
              HN Hpool traceDepth (with_paths d paths) HT (Z.le_refl _) Hs1 Hall)
    as (d1 & depth & Hloop & Hd & Hd1 & Hs2 & Hh1 & Hm1 & Hdead & Hperm).
  rewrite Hloop. simpl dev_paths in Hperm. simpl handles in Hh1. simpl memory in Hm1.
  assert (Hpix : map pixelIndex paths = upto pixelcount).
  { rewrite (map_pixelIndex_upto paths); [f_equal; lia|].
    intros q Hq. apply (Hfresh q Hq). }
  rewrite Hpix in Hperm.
  assert (Hnd : NoDup (map pixelIndex (dev_paths d1))).
  { apply (Permutation_NoDup (Permutation_sym Hperm)). apply upto_NoDup. }
  assert (Hrange : forall s, In s (dev_paths d1) -> 0 <= pixelIndex s < pixelcount).
  { intros s Hin. apply In_upto. apply (Permutation_in _ Hperm).
    apply in_map. exact Hin. }
  rewrite launch_finalGather_run_ops by (destruct Hs2 as (Sp2 & _); exact Sp2).
  rewrite Hh1, Hm1. fold h m.
  destruct (gather_all pixelcount _ _ _ _ (dev_paths d1) HDI HDsIs Hrange m Hm)
    as (m' & E & _ & H1 & H2 & H3 & H4 & H5 & H6).
  rewrite E, bind_Done.
  exists (with_memory d1 m'), depth. split; [reflexivity|].
  split; [specialize (Hd1 Hpc); lia|]. split; [exact Hh1|].
  split; [exact (Hdead Hpc)|]. split; [exact Hnd|].
  split; [|split; assumption].
  intros p Hp. simpl memory. simpl dev_paths.
  assert (Hin : In p (map pixelIndex (dev_paths d1))).
  { apply (Permutation_in _ (Permutation_sym Hperm)). apply In_upto. exact Hp. }
  apply in_map_iff in Hin. destruct Hin as (s & Hps & Hin).
  exists s. split; [exact Hin|]. split; [exact Hps|].
  rewrite H1, H2, H3, H4. unfold pixel_vtotal, pixel_ftotal.
  rewrite <- Hps. rewrite (filter_pixel_unique _ s Hnd Hin). simpl.
  rewrite !vadd_zero_r, !Rplus_0_r. repeat split; reflexivity.
Qed.

Lemma pathtrace_one_sample_per_pixel_witness :
  let scene := simple_scene complement_hash 0 2 in
  exists d' depth,
    pathtrace 3 (simple_camera 8 8) 0 1 0 0 (blank_device 64) = Some (Done (d', depth))
    /\ 1 <= depth <= 3
    /\ NoDup (map pixelIndex (dev_paths d')).
Proof.
  intros scene.
  assert (Hmis : forall p a b c m u v l k i,
    pixelIndex (multipleImportanceSampling p a b c m u v l k i) = pixelIndex p)
    by reflexivity.
  assert (Hsc : forall p a b c m u s f i,
    pixelIndex (fst (scatterRay p a b c m u s f i)) = pixelIndex p)
    by reflexivity.
  assert (Hw : 0 < resolution_x (simple_camera 8 8)) by (simpl; lia).
  assert (Hh : 0 < resolution_y (simple_camera 8 8)) by (simpl; lia).
  assert (Dw : (8 | resolution_x (simple_camera 8 8))) by (exists 1; reflexivity).
  assert (Dh : (8 | resolution_y (simple_camera 8 8))) by (exists 1; reflexivity).
  assert (Hs : sized (resolution_x (simple_camera 8 8) * resolution_y (simple_camera 8 8))
                 (blank_device 64)) by (repeat split).
  assert (Hm : accum_sized
                 (resolution_x (simple_camera 8 8) * resolution_y (simple_camera 8 8))
                 (dev_directIllum (handles (blank_device 64)))
                 (dev_directIllumSqr (handles (blank_device 64)))
                 (dev_indirectIllum (handles (blank_device 64)))
                 (dev_indirectIllumSqr (handles (blank_device 64)))
                 (memory (blank_device 64))) by (repeat split).
  assert (HDI : dev_directIllum (handles (blank_device 64))
                <> dev_indirectIllum (handles (blank_device 64))) by discriminate.
  assert (HDsIs : dev_directIllumSqr (handles (blank_device 64))
                  <> dev_indirectIllumSqr (handles (blank_device 64))) by discriminate.
  destruct (simple_scene_pool complement_hash 0 2 ltac:(lia)) as (HN & Hcam & Hpool).
  assert (HT : 0 < @traceDepth scene) by (simpl; lia).
  destruct (@pathtrace_one_sample_per_pixel scene (simple_camera 8 8) 0 1 0 0
              (blank_device 64)
              (simple_scene_shading_consumes complement_hash 0 2 1 0 0)
              Hmis Hsc HT HN Hcam Hpool Hw Hh Dw Dh Hs Hm HDI HDsIs)
    as (d' & depth & Hrun & Hd & _ & _ & Hnd & _).
  exists d', depth. split; [exact Hrun|]. split; [exact Hd | exact Hnd].
Defined.

(** ** Uploading the sample pools *)

Lemma memcpy_at_in {A : Type} (dst src : list A) (off : nat) :
  (off + length src <= length dst)%nat ->
  memcpy_at dst (Z.of_nat off) src (Z.of_nat (length src))
  = Done (firstn off dst ++ src ++ skipn (off + length src) dst).
Proof.
  intros H. unfold memcpy_at.
  replace (0 <=? Z.of_nat off) with true by (symmetry; apply Z.leb_le; lia).
  replace (0 <=? Z.of_nat (length src)) with true by (symmetry; apply Z.leb_le; lia).
  replace (Z.of_nat off + Z.of_nat (length src) <=? Z.of_nat (length dst)) with true
    by (symmetry; apply Z.leb_le; lia).
  rewrite Z.leb_refl. simpl andb. cbv iota.
  rewrite <- Nat2Z.inj_add. rewrite !Nat2Z.id. rewrite firstn_all. reflexivity.
Qed.

Lemma memcpy_at_out {A : Type} (dst src : list A) (off : nat) :
  (length dst < off + length src)%nat ->
  memcpy_at dst (Z.of_nat off) src (Z.of_nat (length src)) = Undefined OutOfBounds.
Proof.
  intros H. unfold memcpy_at.
  replace (Z.of_nat off + Z.of_nat (length src) <=? Z.of_nat (length dst)) with false
    by (symmetry; apply Z.leb_gt; lia).
  rewrite andb_false_r. reflexivity.
Qed.

Lemma skipn_app_length {A : Type} (l r : list A) (n : nat) :
  skipn (length l + n) (l ++ r) = skipn n r.
Proof. induction l as [|x l IH]; simpl; [reflexivity | exact IH]. Qed.

Lemma copy_pools_layout (pools : list (list IntersectionSample)) :
  forall (dst : list IntersectionSample) (off : nat),
    (off + length (concat pools) <= length dst)%nat ->
    copy_pools pools dst (Z.of_nat off)
    = Done (firstn off dst ++ concat pools
            ++ skipn (off + length (concat pools)) dst).
Proof.
  induction pools as [|pool rest IH]; intros dst off H.
  - simpl. rewrite Nat.add_0_r. rewrite firstn_skipn. reflexivity.
  - simpl in H. rewrite length_app in H. cbn [copy_pools].
    rewrite memcpy_at_in by lia. rewrite bind_Done.
    rewrite <- Nat2Z.inj_add.
    set (dst' := firstn off dst ++ pool ++ skipn (off + length pool) dst).
    assert (Hl : length dst' = length dst).
    { unfold dst'. rewrite !length_app, length_firstn, length_skipn. lia. }
    rewrite IH by lia. f_equal.
    assert (Hpre : firstn (off + length pool) dst' = firstn off dst ++ pool).
    { unfold dst'. rewrite app_assoc.
      replace (off + length pool)%nat with (length (firstn off dst ++ pool) + 0)%nat
        by (rewrite length_app, length_firstn; lia).
      rewrite firstn_app_2. simpl. rewrite app_nil_r. reflexivity. }
    assert (Hsuf : skipn (off + length pool + length (concat rest)) dst'
                   = skipn (off + (length pool + length (concat rest))) dst).
    { unfold dst'. rewrite app_assoc.
      assert (Hlp : length (firstn off dst ++ pool) = (off + length pool)%nat)
        by (rewrite length_app, length_firstn; lia).
      rewrite <- Hlp at 1. rewrite skipn_app_length. rewrite skipn_skipn.
      f_equal. lia. }
    rewrite Hpre, Hsuf. simpl concat. rewrite length_app.
    rewrite <- !app_assoc. reflexivity.
Qed.

Lemma copy_pools_overflow (pools : list (list IntersectionSample)) :
  forall (dst : list IntersectionSample) (off : nat),
    (off <= length dst)%nat ->
    (length dst < off + length (concat pools))%nat ->
    copy_pools pools dst (Z.of_nat off) = Undefined OutOfBounds.
Proof.
  induction pools as [|pool rest IH]; intros dst off Hoff H.
  - simpl in H. lia.
  - simpl in H. rewrite length_app in H. cbn [copy_pools].
    destruct (Nat.le_gt_cases (off + length pool) (length dst)) as [Hfit|Hover].
    + rewrite memcpy_at_in by exact Hfit. rewrite bind_Done.
      rewrite <- Nat2Z.inj_add. apply IH.
      * rewrite !length_app, length_firstn, length_skipn. lia.
      * rewrite !length_app, length_firstn, length_skipn. lia.
    + rewrite memcpy_at_out by exact Hover. reflexivity.
Qed.

Lemma nth_concat_uniform {A : Type} (pools : list (list A)) (N : nat) (d : A) :
  (forall p, In p pools -> length p = N) ->
  forall depth k, (depth < length pools)%nat -> (k < N)%nat ->
    nth (depth * N + k) (concat pools) d = nth k (nth depth pools []) d.
Proof.
  induction pools as [|pool rest IH]; intros Hall depth k Hd Hk; [simpl in Hd; lia|].
  assert (Hp : length pool = N) by (apply Hall; left; reflexivity).
  simpl concat. destruct depth as [|depth].
  - simpl. apply app_nth1. lia.
  - rewrite app_nth2 by (simpl; lia).
    replace (S depth * N + k - length pool)%nat with (depth * N + k)%nat
      by (simpl; lia).
    simpl nth. apply IH; [|simpl in Hd; lia | exact Hk].
    intros p Hin. apply Hall. right. exact Hin.
Qed.

(** [updateStratifiedSamples] lays the host pools out one after the other
    from the start of the device pool, and the camera samples from the start
    of the camera pool, when each fits; what lies behind them is kept.  When
    every host pool has [N] samples, sample [k] of the pool of bounce [depth]
    is at index [depth * N + k], which is where the shading kernel of that
    depth reads it. *)
Theorem updateStratifiedSamples_layout
    (pools : list (list IntersectionSample)) (camSamples : list CameraSample)
    (dev_samplePool : list IntersectionSample) (dev_camSamplePool : list CameraSample) :
  (length (concat pools) <= length dev_samplePool)%nat ->
  (length camSamples <= length dev_camSamplePool)%nat ->
  let pool' := concat pools ++ skipn (length (concat pools)) dev_samplePool in
  updateStratifiedSamples pools camSamples dev_samplePool dev_camSamplePool
  = Done (pool', camSamples ++ skipn (length camSamples) dev_camSamplePool)
  /\ length pool' = length dev_samplePool
  /\ forall (N : nat) (d : IntersectionSample),
       (forall p, In p pools -> length p = N) ->
       forall depth k, (depth < length pools)%nat -> (k < N)%nat ->
         load d pool' (Z.of_nat depth * Z.of_nat N + Z.of_nat k)
         = nth k (nth depth pools []) d.
Proof.
  intros Hp Hc pool'. split; [|split].
  - unfold updateStratifiedSamples.
    change (copy_pools pools dev_samplePool 0)
      with (copy_pools pools dev_samplePool (Z.of_nat 0)).
    rewrite (copy_pools_layout pools dev_samplePool 0) by (simpl; exact Hp).
    rewrite bind_Done. simpl firstn. simpl app. fold pool'.
    unfold memcpy.
    replace (0 <=? Z.of_nat (length camSamples)) with true
      by (symmetry; apply Z.leb_le; lia).
    replace (Z.of_nat (length camSamples) <=? Z.of_nat (length dev_camSamplePool))
      with true by (symmetry; apply Z.leb_le; lia).
    rewrite Z.leb_refl. simpl andb. cbv iota. rewrite bind_Done.
    rewrite Nat2Z.id, firstn_all. reflexivity.
  - unfold pool'. rewrite length_app, length_skipn. lia.
  - intros N d Hall depth k Hd Hk. unfold load.
    replace (Z.of_nat depth * Z.of_nat N + Z.of_nat k <? 0) with false
      by (symmetry; apply Z.ltb_ge; lia).
    replace (Z.to_nat (Z.of_nat depth * Z.of_nat N + Z.of_nat k))
      with (depth * N + k)%nat by lia.
    unfold pool'.
    assert (Hlen : (depth * N + k < length (concat pools))%nat).
    { clear - Hall Hd Hk. revert depth Hd.
      induction pools as [|pool rest IH]; intros depth Hd; [simpl in Hd; lia|].
      simpl concat. rewrite length_app.
      assert (length pool = N) by (apply Hall; left; reflexivity).
      destruct depth as [|depth]; [simpl; lia|].
      assert ((depth * N + k < length (concat rest))%nat).
      { apply IH; [intros p Hin; apply Hall; right; exact Hin | simpl in Hd; lia]. }
      simpl. lia. }
    rewrite app_nth1 by exact Hlen.
    apply nth_concat_uniform; assumption.
Qed.

Lemma updateStratifiedSamples_layout_witness :
  let s (a : R) := mkIntersectionSample (mkVec2 a 0) (mkVec2 0 0) (mkVec2 0 0) in
  let c := mkCameraSample (mkVec2 0 0) (mkVec2 0 0) in
  updateStratifiedSamples [[s 1%R; s 2%R]; [s 3%R; s 4%R]] [c] (repeat (s 0%R) 5) [c; c]
  = Done ([s 1%R; s 2%R; s 3%R; s 4%R; s 0%R], [c; c]).
Proof.
  intros s c.
  assert (Hp : (length (concat [[s 1%R; s 2%R]; [s 3%R; s 4%R]])
                <= length (repeat (s 0%R) 5))%nat) by (simpl; lia).
  assert (Hc : (length [c] <= length [c; c])%nat) by (simpl; lia).
  exact (proj1 (updateStratifiedSamples_layout _ _ _ _ Hp Hc)).
Defined.

(** When the host pools together hold more samples than the device pool
    was allocated for, the copy runs past the end of the device pool. *)
Theorem updateStratifiedSamples_overflow
    (pools : list (list IntersectionSample)) (camSamples : list CameraSample)
    (dev_samplePool : list IntersectionSample) (dev_camSamplePool : list CameraSample) :
  (length dev_samplePool < length (concat pools))%nat ->
  updateStratifiedSamples pools camSamples dev_samplePool dev_camSamplePool
  = Undefined OutOfBounds.
Proof.
  intros H. unfold updateStratifiedSamples.
  change (copy_pools pools dev_samplePool 0)
    with (copy_pools pools dev_samplePool (Z.of_nat 0)).
  rewrite (copy_pools_overflow pools dev_samplePool 0) by (simpl; lia).
  reflexivity.
Qed.

Lemma updateStratifiedSamples_overflow_witness :
  let s := mkIntersectionSample (mkVec2 0 0) (mkVec2 0 0) (mkVec2 0 0) in
  updateStratifiedSamples [[s; s]; [s; s]] [] [s; s; s] [] = Undefined OutOfBounds.
Proof.
  intros s.
  apply (updateStratifiedSamples_overflow [[s; s]; [s; s]] [] [s; s; s] []).
  simpl. lia.
Defined.

(** ** Texture sampling *)

(** A sample taken at the centre of a pixel is the texel of that pixel:
    no neighbour contributes.  The pixel coordinates are [int]s, as the
    kernels pass them. *)
Theorem textureSampleBilinear_at_centre (tex : list vec3) (width height x y : Z) :
  0 <= x < width -> 0 <= y < height ->
  x < 2 ^ 31 -> y < 2 ^ 31 ->
  Z.of_nat (length tex) = width * height ->
  textureSampleBilinear tex width height (IZR x + 0.5) (IZR y + 0.5)
  = Done (load vzero tex (y * width + x)).
Proof.
  intros Hx Hy Hxi Hyi Hlen.
  rewrite textureSampleBilinear_bilinear by lia.
  unfold bilinear.
  replace (IZR x + 0.5 - 0.5)%R with (IZR x) by lra.
  replace (IZR y + 0.5 - 0.5)%R with (IZR y) by lra.
  unfold floorf, float_to_int. rewrite !ZfloorZ, !truncZ_IZR.
  rewrite (clampZ_inside x (- 2 ^ 31)) by lia.
  rewrite (clampZ_inside y (- 2 ^ 31)) by lia.
  replace (IZR x - IZR x)%R with 0%R by lra.
  replace (IZR y - IZR y)%R with 0%R by lra.
  rewrite !vmix_zero. unfold texel.
  rewrite !clampZ_inside by lia. reflexivity.
Qed.

Lemma textureSampleBilinear_at_centre_witness :
  textureSampleBilinear [mkVec3 1 0 0; mkVec3 0 1 0; mkVec3 0 0 1; mkVec3 1 1 1] 2 2
    (IZR 1 + 0.5) (IZR 0 + 0.5)
  = Done (mkVec3 0 1 0).
Proof.
  apply (textureSampleBilinear_at_centre
           [mkVec3 1 0 0; mkVec3 0 1 0; mkVec3 0 0 1; mkVec3 1 1 1] 2 2 1 0).
  - lia.
  - lia.
  - lia.
  - lia.
  - reflexivity.
Defined.

Lemma texel_constant (tex : list vec3) (width height x y : Z) (c : vec3) :
  0 < width -> 0 < height -> Z.of_nat (length tex) = width * height ->
  (forall v, In v tex -> v = c) ->
  texel tex width height x y = c.
Proof.
  intros Hw Hh Hlen Hc. unfold texel, load.
  pose proof (clampZ_range x 0 (width - 1) ltac:(lia)).
  pose proof (clampZ_range y 0 (height - 1) ltac:(lia)).
  replace (clampZ y 0 (height - 1) * width + clampZ x 0 (width - 1) <? 0) with false
    by (symmetry; apply Z.ltb_ge; nia).
  apply Hc. apply nth_In. nia.
Qed.

Lemma bilinear_constant (tex : list vec3) (width height : Z) (px py : R) (c : vec3) :
  0 < width -> 0 < height -> Z.of_nat (length tex) = width * height ->
  (forall v, In v tex -> v = c) ->
  bilinear tex width height px py = c.
Proof.
  intros Hw Hh Hlen Hc. unfold bilinear.
  rewrite !(texel_constant tex width height _ _ c) by assumption.
  rewrite !vmix_same. reflexivity.
Qed.

(** A sample of an image of one colour is that colour, wherever in the
    range of [int] it is taken, inside the image or outside of it. *)
Theorem textureSampleBilinear_constant (tex : list vec3) (width height : Z)
    (px py : R) (c : vec3) :
  0 < width -> 0 < height -> Z.of_nat (length tex) = width * height ->
  (forall v, In v tex -> v = c) ->
  samplable px -> samplable py ->
  textureSampleBilinear tex width height px py = Done c.
Proof.
  intros Hw Hh Hlen Hc _ _.
  rewrite textureSampleBilinear_bilinear by assumption.
  rewrite (bilinear_constant tex width height px py c) by assumption.
  reflexivity.
Qed.

Lemma textureSampleBilinear_constant_witness :
  textureSampleBilinear (repeat (mkVec3 1 2 3) 6) 3 2 (-40.25) 7.75
  = Done (mkVec3 1 2 3).
Proof.
  apply (textureSampleBilinear_constant (repeat (mkVec3 1 2 3) 6) 3 2).
  - lia.
  - lia.
  - reflexivity.
  - intros v Hin. apply repeat_spec in Hin. exact Hin.
  - unfold samplable. lra.
  - unfold samplable. lra.
Defined.

(** ** A filter level on an image of one colour *)

Lemma vsum_scaled {T : Type} (w : T -> R) (c : vec3) (l : list T) :
  vsum (map (fun t => vscale (w t) c) l) = vscale (Rsum (map w l)) c.
Proof.
  induction l as [|t l IH]; simpl.
  - destruct c. unfold vscale, vzero, vec3_splat. simpl. f_equal; ring.
  - rewrite IH. destruct c. unfold vadd, vscale. simpl. f_equal; ring.
Qed.

Lemma weightedAverage_constant
    (color normal position : list vec3) (estimate : list R)
    (width height : Z) (stepSize colorWeight normalWeight positionWeight : R)
    (ix iy : Z) (c : vec3) :
  0 <= ix < width -> 0 <= iy < height ->
  Z.of_nat (length color) = width * height ->
  (forall v, In v color -> v = c) ->
  (0 < totalTapWeight color normal position estimate width height stepSize
         colorWeight normalWeight positionWeight ix iy)%R ->
  weightedAverage color normal position estimate width height stepSize
    colorWeight normalWeight positionWeight ix iy = c.
Proof.
  intros Hx Hy Hlen Hc Hpos. unfold weightedAverage.
  rewrite (map_ext _ (fun xy => vscale
             (tapWeight color normal position estimate width height stepSize
                colorWeight normalWeight positionWeight ix iy xy) c)).
  - rewrite vsum_scaled. fold (totalTapWeight color normal position estimate width
      height stepSize colorWeight normalWeight positionWeight ix iy).
    set (W := totalTapWeight _ _ _ _ _ _ _ _ _ _ _ _) in *.
    destruct c. unfold vscale. simpl. f_equal; field; lra.
  - intros xy. f_equal. unfold tapColor.
    destruct (is_center xy).
    + unfold centerColor, centerIndex, load.
      replace (iy * width + ix <? 0) with false by (symmetry; apply Z.ltb_ge; nia).
      apply Hc. apply nth_In. nia.
    + apply bilinear_constant; try assumption; lia.
Qed.

Lemma launch_aTrousIter_constant
    (color normal position : list vec3) (stddev : list R)
    (width height : Z) (stepSize cw nw pw : R) (colorOut0 : list vec3) (c : vec3) :
  0 < width -> 0 < height ->
  Z.of_nat (length color) = width * height ->
  Z.of_nat (length normal) = width * height ->
  Z.of_nat (length position) = width * height ->
  Z.of_nat (length stddev) = width * height ->
  Z.of_nat (length colorOut0) = width * height ->
  (forall s, In s stddev -> 0 <= s)%R ->
  nw <> 0%R -> stepSize <> 0%R -> pw <> 0%R ->
  (forall v, In v color -> v = c) ->
  exists colorOut,
    launch2D 16 width height
      (aTrousIter color normal position stddev width height stepSize
         (cw * cw) (nw * nw) (pw * pw))
      colorOut0
    = Done colorOut
    /\ Z.of_nat (length colorOut) = width * height
    /\ forall v, In v colorOut -> v = c.
Proof.
  intros Hw Hh Lc Ln Lp Ls Lo Hsd Hnw Hst Hpw Hc.
  destruct (launch_aTrousIter_average color normal position stddev width height
              stepSize cw nw pw colorOut0)
    as (colorOut & Hrun & Hl & Hval); try assumption; try lia.
  exists colorOut. split; [exact Hrun|]. split; [lia|].
  intros v Hin.
  destruct (In_nth_index _ _ vzero Hin) as (q & Hq & <-).
  assert (Hq' : 0 <= Z.of_nat q < width * height) by lia.
  pose proof (Z.div_mod (Z.of_nat q) width ltac:(lia)) as Edm.
  pose proof (Z.mod_pos_bound (Z.of_nat q) width Hw) as Bm.
  assert (Hy : 0 <= Z.of_nat q / width < height).
  { split; [apply Z.div_pos; lia | apply Z.div_lt_upper_bound; lia]. }
  destruct (Hval (Z.of_nat q mod width) (Z.of_nat q / width) Bm Hy)
    as (Havg & Hpos & _).
  replace (Z.of_nat q / width * width + Z.of_nat q mod width) with (Z.of_nat q)
    in Havg by lia.
  unfold load in Havg.
  replace (Z.of_nat q <? 0) with false in Havg by (symmetry; apply Z.ltb_ge; lia).
  rewrite Nat2Z.id in Havg. rewrite Havg.
  apply weightedAverage_constant; assumption.
Qed.

(** A filter level leaves an image of one colour as it is, whatever the
    normals, the positions, the estimates and the weights are: the weights
    of the taps cancel against the total weight.  The image has at most
    [2 ^ 30] pixels each way and the step size is below [2 ^ 29] in
    magnitude, so that every tap is sampled inside the range of [int]. *)
Theorem atrous_level_keeps_constant
    (color normal position : list vec3) (stddev : list R)
    (width height : Z) (stepSize colorWeight normalWeight positionWeight : R)
    (colorOut0 : list vec3) (c : vec3) :
  0 < width <= 2 ^ 30 -> 0 < height <= 2 ^ 30 ->
  (Rabs stepSize < 2 ^ 29)%R ->
  Z.of_nat (length color) = width * height ->
  Z.of_nat (length normal) = width * height ->
  Z.of_nat (length position) = width * height ->
  Z.of_nat (length stddev) = width * height ->
  Z.of_nat (length colorOut0) = width * height ->
  (forall s, In s stddev -> 0 <= s)%R ->
  normalWeight <> 0%R -> stepSize <> 0%R -> positionWeight <> 0%R ->
  (forall v, In v color -> v = c) ->
  exists colorOut,
    launch2D 16 width height
      (aTrousIter color normal position stddev width height stepSize
         (colorWeight * colorWeight) (normalWeight * normalWeight)
         (positionWeight * positionWeight))
      colorOut0
    = Done colorOut
    /\ length colorOut = length colorOut0
    /\ (forall v, In v colorOut -> v = c)
    /\ forall ix iy (x y : nat),
         0 <= ix < width -> 0 <= iy < height -> (x < 5)%nat -> (y < 5)%nat ->
         samplable (tapX stepSize ix x) /\ samplable (tapY stepSize iy y).
Proof.
  intros Hw Hh Hbound Lc Ln Lp Ls Lo Hsd Hnw Hst Hpw Hc.
  destruct (launch_aTrousIter_constant color normal position stddev width height
              stepSize colorWeight normalWeight positionWeight colorOut0 c
              ltac:(lia) ltac:(lia) Lc Ln Lp Ls Lo Hsd Hnw Hst Hpw Hc)
    as (colorOut & Hrun & Hl & Hall).
  exists colorOut. split; [exact Hrun|]. split; [lia|]. split; [exact Hall|].
  intros ix iy x y Hx Hy Hx5 Hy5. split.
  - apply (taps_samplable width ix stepSize x); (assumption || lia).
  - apply (taps_samplable height iy stepSize y); (assumption || lia).
Qed.

Lemma atrous_level_keeps_constant_witness :
  exists colorOut,
    launch2D 16 2 2
      (aTrousIter (repeat (mkVec3 1 2 3) 4) (repeat vzero 4) (repeat vzero 4)
         (repeat 1%R 4) 2 2 1 (1 * 1) (1 * 1) (1 * 1))
      (repeat vzero 4)
    = Done colorOut
    /\ forall v, In v colorOut -> v = mkVec3 1 2 3.
Proof.
  destruct (atrous_level_keeps_constant (repeat (mkVec3 1 2 3) 4) (repeat vzero 4)
              (repeat vzero 4) (repeat 1%R 4) 2 2 1 1 1 1 (repeat vzero 4)
              (mkVec3 1 2 3))
    as (colorOut & Hrun & _ & Hall & _);
    try reflexivity; try lia; try lra.
  - rewrite Rabs_R1. lra.
  - intros s Hin. apply repeat_spec in Hin. subst s. lra.
  - intros v Hin. apply repeat_spec in Hin. exact Hin.
  - exists colorOut. split; [exact Hrun | exact Hall].
Defined.

(** ** Denoiser runs: iteration count zero, no levels, the handles *)

Lemma aTrous_select_cases (h : Handles) (buf : BufferType) :
  buf = DirectSpecularIllumination \/ buf = IndirectDiffuseIllumination ->
  exists colorBuf colorSqrBuf r,
    aTrous_select h buf = Done (colorBuf, colorSqrBuf, r)
    /\ In colorBuf [dev_directIllum h; dev_indirectIllum h]
    /\ In (get_result h r) [dev_filteredDirectSpecular h; dev_filteredIndirectDiffuse h].
Proof.
  intros [->| ->]; simpl; do 3 eexists; (split; [reflexivity|]); simpl; auto.
Qed.

(** A denoiser run with iteration count [0] divides the accumulated sums by
    zero in its first kernel, [aTrousCopyBuffer], for either category and any
    image with at least one pixel. *)
Theorem atrous_zero_iterations (cam : Camera) (buf : BufferType) (levels : Z)
    (radius colorWeight normalWeight positionWeight : R) (d : Device) :
  buf = DirectSpecularIllumination \/ buf = IndirectDiffuseIllumination ->
  0 < resolution_x cam -> 0 < resolution_y cam ->
  arrays_sized (resolution_x cam * resolution_y cam) (memory d) ->
  aTrous cam buf levels radius 0 colorWeight normalWeight positionWeight d
  = Undefined DivisionByZero.
Proof.
  intros Hbuf Hw Hh [Hv Hf].
  destruct (aTrous_select_cases (handles d) buf Hbuf) as (cb & cs & r & Hsel & _).
  unfold aTrous. rewrite Hsel. rewrite bind_Done. cbv zeta.
  set (n := resolution_x cam * resolution_y cam) in *.
  assert (Hn : 0 < n) by (unfold n; nia).
  assert (Hlaunch :
    launch1D (Z.quot (n + 128 - 1) 128) 128
      (aTrousCopyBuffer (vmem (memory d) cb) n 0)
      (vmem (memory d) (get_result (handles d) r)) = Undefined DivisionByZero).
  { unfold launch1D.
    apply (fold_threads_fault (aTrousCopyBuffer (vmem (memory d) cb) n 0)
             (fun _ => True)).
    - intros i s Hin _. apply In_upto in Hin. unfold aTrousCopyBuffer.
      destruct (i >=? n) eqn:E.
      + left. exists s. split; [reflexivity | exact I].
      + right. rewrite Z.geb_leb in E. apply Z.leb_gt in E.
        rewrite (read_in _ i vzero) by (rewrite Hv; lia). rewrite bind_Done.
        unfold vdivs. rewrite fdiv_zero. reflexivity.
    - exists 0. split.
      + apply In_upto. pose proof (blocks_cover n ltac:(lia)). lia.
      + intros s _. unfold aTrousCopyBuffer.
        replace (0 >=? n) with false
          by (symmetry; rewrite Z.geb_leb; apply Z.leb_gt; lia).
        rewrite (read_in _ 0 vzero) by (rewrite Hv; lia). rewrite bind_Done.
        unfold vdivs. rewrite fdiv_zero. reflexivity.
    - exact I. }
  rewrite Hlaunch. reflexivity.
Qed.

Lemma arrays_sized_blank (n : nat) : arrays_sized (Z.of_nat n) (blank_memory n).
Proof.
  split; [intros b; destruct b | intros fb; destruct fb];
    simpl; rewrite repeat_length; reflexivity.
Qed.

Lemma atrous_zero_iterations_witness :
  aTrous (simple_camera 8 8) DirectSpecularIllumination 2 1 0 1 1 1 (blank_device 64)
  = Undefined DivisionByZero.
Proof.
  apply atrous_zero_iterations.
  - left. reflexivity.
  - simpl. lia.
  - simpl. lia.
  - exact (arrays_sized_blank 64).
Defined.

(** The variance pass by pixel index. *)
Lemma launch_aTrousComputeVariance_index (colorTotal : list vec3) (colorSqr : list R)
    (width height iter : Z) (stddev0 : list R) :
  0 <= width -> 0 <= height ->
  Z.of_nat (length colorTotal) = width * height ->
  Z.of_nat (length colorSqr) = width * height ->
  Z.of_nat (length stddev0) = width * height ->
  exists stddev,
    launch2D 16 width height
      (aTrousComputeVariance colorTotal colorSqr width height iter) stddev0
    = Done stddev
    /\ length stddev = length stddev0
    /\ forall p, 0 <= p < width * height ->
         load 0%R stddev p
         = if iter >? 1
           then sqrt (Rmax 0 (unbiasedSampleVariance (load vzero colorTotal p)
                                                     (load 0%R colorSqr p) iter))
           else 1%R.
Proof.
  intros Hw Hh Ht Hs H0.
  destruct (launch_aTrousComputeVariance colorTotal colorSqr width height iter
              stddev0 Hw Hh Ht Hs H0) as (sd & Hrun & Hlen & Hval).
  exists sd. split; [exact Hrun|]. split; [exact Hlen|].
  intros p Hp.
  assert (Hwpos : 0 < width) by nia.
  pose proof (Z.div_mod p width ltac:(lia)) as Edm.
  pose proof (Z.mod_pos_bound p width Hwpos) as Bm.
  assert (Hy : 0 <= p / width < height).
  { split; [apply Z.div_pos; lia | apply Z.div_lt_upper_bound; nia]. }
  specialize (Hval (p mod width) (p / width) Bm Hy).
  replace (p / width * width + p mod width) with p in Hval by lia.
  destruct (iter >? 1) eqn:Ei.
  - rewrite Z.gtb_ltb in Ei. apply Z.ltb_lt in Ei.
    rewrite aTrousComputeVariance_pixel_many in Hval by exact Ei.
    inversion Hval as [E]. reflexivity.
  - rewrite Z.gtb_ltb in Ei. apply Z.ltb_ge in Ei.
    rewrite aTrousComputeVariance_pixel_few in Hval by exact Ei.
    inversion Hval as [E]. reflexivity.
Qed.

(** With no level to run ([levels <= 0]) a denoiser run leaves in the
    filtered array of its category the mean of the accumulated sums,
    [sum / iter] at every pixel; it leaves in the estimate buffer, at every
    pixel, the square root of the unbiased sample variance of the category
    clamped below at [0] when [iter > 1], and [1] otherwise; it exchanges no
    handle and changes no other array. *)
Theorem atrous_no_levels_is_mean (cam : Camera) (buf : BufferType) (levels : Z)
    (radius : R) (iter : Z) (colorWeight normalWeight positionWeight : R)
    (d : Device) (colorBuf : vbuf) (colorSqrBuf : fbuf) (r : result_handle) :
  let h := handles d in
  let m := memory d in
  aTrous_select h buf = Done (colorBuf, colorSqrBuf, r) ->
  colorBuf <> get_result h r ->
  0 < resolution_x cam -> 0 < resolution_y cam ->
  arrays_sized (resolution_x cam * resolution_y cam) m ->
  iter <> 0 -> levels <= 0 ->
  exists d',
    aTrous cam buf levels radius iter colorWeight normalWeight positionWeight d
    = Done d'
    /\ handles d' = h
    /\ (forall p, 0 <= p < resolution_x cam * resolution_y cam ->
          load vzero (vmem (memory d') (get_result h r)) p
          = vscale (/ IZR iter) (load vzero (vmem m colorBuf) p))
    /\ (forall p, 0 <= p < resolution_x cam * resolution_y cam ->
          load 0%R (fmem (memory d') (dev_stddevBuffer h)) p
          = if iter >? 1
            then sqrt (Rmax 0 (unbiasedSampleVariance
                                 (load vzero (vmem m colorBuf) p)
                                 (load 0%R (fmem m colorSqrBuf) p) iter))
            else 1%R)
    /\ (forall b, b <> get_result h r -> vmem (memory d') b = vmem m b)
    /\ (forall fb, fb <> dev_stddevBuffer h -> fmem (memory d') fb = fmem m fb).
Proof.
  intros h m Hsel Hne Hw Hh [Hv Hf] Hiter Hlev.
  unfold aTrous. fold h m. rewrite Hsel. rewrite bind_Done. cbv zeta.
  set (n := resolution_x cam * resolution_y cam) in *.
  destruct (launch_aTrousCopyBuffer (vmem m colorBuf) (vmem m (get_result h r)) n iter
              (Hv _) (Hv _) Hiter) as (target & Hcopy & Lt & Hmean).
  rewrite Hcopy. rewrite bind_Done.
  rewrite vmem_vset_other by (intros E; apply Hne; symmetry; exact E).
  rewrite !fmem_vset.
  destruct (launch_aTrousComputeVariance_index (vmem m colorBuf) (fmem m colorSqrBuf)
              (resolution_x cam) (resolution_y cam) iter (fmem m (dev_stddevBuffer h)))
    as (sd & Hvar & Lsd & Hsd); try lia; try apply Hv; try apply Hf.
  rewrite Hvar. rewrite bind_Done.
  rewrite fdiv_nonzero by apply powf_two_nonzero. rewrite bind_Done.
  replace (Z.to_nat levels) with 0%nat by lia. cbn [aTrous_levels].
  eexists. split; [reflexivity|]. simpl handles. simpl memory.
  split; [reflexivity|]. split; [|split; [|split]].
  - intros p Hp. rewrite vmem_fset, vmem_vset_same. unfold load.
    replace (p <? 0) with false by (symmetry; apply Z.ltb_ge; lia).
    apply Hmean. lia.
  - intros p Hp. rewrite fmem_fset_same. apply Hsd. exact Hp.
  - intros b Hb. rewrite vmem_fset. apply vmem_vset_other.
    intros E. apply Hb. symmetry. exact E.
  - intros fb Hfb. rewrite fmem_fset_other by (intros E; apply Hfb; symmetry; exact E).
    apply fmem_vset.
Qed.

Lemma atrous_no_levels_is_mean_witness :
  exists d',
    aTrous (simple_camera 8 8) IndirectDiffuseIllumination 0 1 4 1 1 1 (blank_device 64)
    = Done d'
    /\ handles d' = pathtraceInit_handles
    /\ load 0%R (fmem (memory d') A_stddevBuffer) 9
       = sqrt (Rmax 0 (unbiasedSampleVariance vzero 0 4)).
Proof.
  destruct (atrous_no_levels_is_mean (simple_camera 8 8) IndirectDiffuseIllumination
              0 1 4 1 1 1 (blank_device 64) A_directIllum A_directIllumSqr
              addr_filteredDirectSpecular)
    as (d' & Hrun & Hh & _ & Hsd & _).
  - reflexivity.
  - discriminate.
  - simpl. lia.
  - simpl. lia.
  - exact (arrays_sized_blank 64).
  - lia.
  - lia.
  - exists d'. split; [exact Hrun|]. split; [exact Hh|].
    apply (Hsd 9). simpl. lia.
Defined.

Lemma swap_result_temp_twice (h : Handles) (r : result_handle) :
  swap_result_temp (swap_result_temp h r) r = h.
Proof. destruct h, r; reflexivity. Qed.

Lemma swap_iter_parity (h : Handles) (r : result_handle) (n : nat) :
  Nat.iter n (fun h' => swap_result_temp h' r) h
  = if Z.even (Z.of_nat n) then h else swap_result_temp h r.
Proof.
  induction n as [|n IH]; [reflexivity|].
  rewrite Nat.iter_succ, IH. rewrite Nat2Z.inj_succ, Z.even_succ, <- Z.negb_even.
  destruct (Z.even (Z.of_nat n)); simpl; [reflexivity|].
  apply swap_result_temp_twice.
Qed.

Lemma aTrous_levels_handles (n : nat) :
  forall (res_x res_y : Z) (r : result_handle) (stepSize cw nw pw : R) (d d' : Device),
    aTrous_levels n res_x res_y r stepSize cw nw pw d = Done d' ->
    handles d' = Nat.iter n (fun h' => swap_result_temp h' r) (handles d).
Proof.
  induction n as [|n IH]; intros res_x res_y r stepSize cw nw pw d d' Hrun.
  - simpl in Hrun. injection Hrun as <-. reflexivity.
  - cbn [aTrous_levels] in Hrun.
    apply bind_eq_Done in Hrun. destruct Hrun as (out & _ & Hrun).
    apply IH in Hrun. rewrite Hrun. rewrite Nat.iter_succ_r. reflexivity.
Qed.

Lemma aTrous_returns (cam : Camera) (buf : BufferType) (levels : Z) (radius : R)
    (iter : Z) (cw nw pw : R) (d : Device) :
  buf = DirectSpecularIllumination \/ buf = IndirectDiffuseIllumination ->
  NoDup (vec_handles (handles d)) ->
  0 <= resolution_x cam -> 0 <= resolution_y cam ->
  arrays_sized (resolution_x cam * resolution_y cam) (memory d) ->
  iter <> 0 -> radius <> 0%R -> nw <> 0%R -> pw <> 0%R ->
  exists d',
    aTrous cam buf levels radius iter cw nw pw d = Done d'
    /\ (forall b, b <> dev_filteredDirectSpecular (handles d) ->
                  b <> dev_filteredIndirectDiffuse (handles d) ->
                  b <> dev_filteredTemp (handles d) ->
                  vmem (memory d') b = vmem (memory d) b)
    /\ (forall fb, fb <> dev_stddevBuffer (handles d) ->
                   fmem (memory d') fb = fmem (memory d) fb).
Proof.
  intros Hbuf Hnd Hw Hh [Hv Hf] Hiter Hrad Hnw Hpw.
  pose proof (NoDup_vec_handles (handles d) Hnd) as Hne.
  assert (Hd : forall ia ib a b,
    nth_error (vec_handles (handles d)) ia = Some a ->
    nth_error (vec_handles (handles d)) ib = Some b -> ia <> ib -> a <> b).
  { intros ia ib a b Ha Hb Hi. exact (Hne a b ia ib Ha Hb Hi). }
  destruct Hbuf as [-> | ->].
  - pose proof (aTrous_denoise cam DirectSpecularIllumination levels radius iter
                  cw nw pw d
                  (dev_indirectIllum (handles d)) (dev_indirectIllumSqr (handles d))
                  addr_filteredIndirectDiffuse eq_refl) as H.
    cbn [get_result] in H.
    specialize (H (Hd 1%nat 5%nat _ _ eq_refl eq_refl ltac:(lia))
                  (Hd 5%nat 6%nat _ _ eq_refl eq_refl ltac:(lia))
                  (Hd 2%nat 5%nat _ _ eq_refl eq_refl ltac:(lia))
                  (Hd 2%nat 6%nat _ _ eq_refl eq_refl ltac:(lia))
                  (Hd 3%nat 5%nat _ _ eq_refl eq_refl ltac:(lia))
                  (Hd 3%nat 6%nat _ _ eq_refl eq_refl ltac:(lia))).
    destruct (denoise_returns cam levels radius iter cw nw pw
                (vmem (memory d) (dev_indirectIllum (handles d)))
                (fmem (memory d) (dev_indirectIllumSqr (handles d)))
                (vmem (memory d) (dev_normalBuffer (handles d)))
                (vmem (memory d) (dev_positionBuffer (handles d)))
                (vmem (memory d) (dev_filteredIndirectDiffuse (handles d)))
                (vmem (memory d) (dev_filteredTemp (handles d)))
                (fmem (memory d) (dev_stddevBuffer (handles d))))
      as ([[cur scratch] sd] & Hden); try assumption; try apply Hv; try apply Hf.
    rewrite Hden in H. destruct H as (d' & Hrun & _ & _ & _ & Hframe & Hfr).
    exists d'. split; [exact Hrun|]. split; [|exact Hfr].
    intros b H1 H2 H3. apply Hframe; assumption.
  - pose proof (aTrous_denoise cam IndirectDiffuseIllumination levels radius iter
                  cw nw pw d
                  (dev_directIllum (handles d)) (dev_directIllumSqr (handles d))
                  addr_filteredDirectSpecular eq_refl) as H.
    cbn [get_result] in H.
    specialize (H (Hd 0%nat 4%nat _ _ eq_refl eq_refl ltac:(lia))
                  (Hd 4%nat 6%nat _ _ eq_refl eq_refl ltac:(lia))
                  (Hd 2%nat 4%nat _ _ eq_refl eq_refl ltac:(lia))
                  (Hd 2%nat 6%nat _ _ eq_refl eq_refl ltac:(lia))
                  (Hd 3%nat 4%nat _ _ eq_refl eq_refl ltac:(lia))
                  (Hd 3%nat 6%nat _ _ eq_refl eq_refl ltac:(lia))).
    destruct (denoise_returns cam levels radius iter cw nw pw
                (vmem (memory d) (dev_directIllum (handles d)))
                (fmem (memory d) (dev_directIllumSqr (handles d)))
                (vmem (memory d) (dev_normalBuffer (handles d)))
                (vmem (memory d) (dev_positionBuffer (handles d)))
                (vmem (memory d) (dev_filteredDirectSpecular (handles d)))
                (vmem (memory d) (dev_filteredTemp (handles d)))
                (fmem (memory d) (dev_stddevBuffer (handles d))))
      as ([[cur scratch] sd] & Hden); try assumption; try apply Hv; try apply Hf.
    rewrite Hden in H. destruct H as (d' & Hrun & _ & _ & _ & Hframe & Hfr).
    exists d'. split; [exact Hrun|]. split; [|exact Hfr].
    intros b H1 H2 H3. apply Hframe; assumption.
Qed.

Lemma aTrous_handles (cam : Camera) (buf : BufferType) (levels : Z) (radius : R)
    (iter : Z) (cw nw pw : R) (d d' : Device)
    (colorBuf : vbuf) (colorSqrBuf : fbuf) (r : result_handle) :
  aTrous_select (handles d) buf = Done (colorBuf, colorSqrBuf, r) ->
  aTrous cam buf levels radius iter cw nw pw d = Done d' ->
  handles d'
  = if Z.even (Z.max levels 0) then handles d else swap_result_temp (handles d) r.
Proof.
  intros Hsel Hrun. unfold aTrous in Hrun. rewrite Hsel in Hrun.
  rewrite bind_Done in Hrun. cbv zeta in Hrun.
  apply bind_eq_Done in Hrun. destruct Hrun as (target & _ & Hrun).
  apply bind_eq_Done in Hrun. destruct Hrun as (sd & _ & Hrun).
  apply bind_eq_Done in Hrun. destruct Hrun as (stepSize & _ & Hrun).
  apply aTrous_levels_handles in Hrun. rewrite Hrun.
  simpl handles. rewrite swap_iter_parity.
  replace (Z.of_nat (Z.to_nat levels)) with (Z.max levels 0) by lia. reflexivity.
Qed.

(** The loop over the levels exchanges the filtered handle of the category
    with [dev_filteredTemp] once per level.  A run with an even number of
    levels returns with every handle as it was; a run with an odd number
    returns with the two exchanged, so that [dev_filteredTemp] then points to
    the array the filtered handle pointed to before the run. *)
Theorem atrous_handles_parity (cam : Camera) (buf : BufferType) (levels : Z)
    (radius : R) (iter : Z) (colorWeight normalWeight positionWeight : R)
    (d : Device) (colorBuf : vbuf) (colorSqrBuf : fbuf) (r : result_handle) :
  aTrous_select (handles d) buf = Done (colorBuf, colorSqrBuf, r) ->
  NoDup (vec_handles (handles d)) ->
  0 <= resolution_x cam -> 0 <= resolution_y cam ->
  arrays_sized (resolution_x cam * resolution_y cam) (memory d) ->
  0 <= levels -> iter <> 0 -> radius <> 0%R ->
  normalWeight <> 0%R -> positionWeight <> 0%R ->
  exists d',
    aTrous cam buf levels radius iter colorWeight normalWeight positionWeight d
    = Done d'
    /\ handles d'
       = (if Z.even levels then handles d else swap_result_temp (handles d) r)
    /\ (Z.even levels = false ->
        dev_filteredTemp (handles d') = get_result (handles d) r
        /\ get_result (handles d') r = dev_filteredTemp (handles d)).
Proof.
  intros Hsel Hnd Hw Hh Hsz Hlev Hiter Hrad Hnw Hpw.
  assert (Hbuf : buf = DirectSpecularIllumination \/ buf = IndirectDiffuseIllumination).
  { destruct buf; simpl in Hsel; try discriminate; auto. }
  destruct (aTrous_returns cam buf levels radius iter colorWeight normalWeight
              positionWeight d Hbuf Hnd Hw Hh Hsz Hiter Hrad Hnw Hpw)
    as (d' & Hrun & _).
  exists d'. split; [exact Hrun|].
  pose proof (aTrous_handles _ _ _ _ _ _ _ _ _ _ _ _ _ Hsel Hrun) as Hh'.
  rewrite Z.max_l in Hh' by exact Hlev.
  split; [exact Hh'|].
  intros Hodd. rewrite Hodd in Hh'. rewrite Hh'.
  destruct r; split; reflexivity.
Qed.

Lemma atrous_handles_parity_witness :
  exists d',
    aTrous (simple_camera 8 8) DirectSpecularIllumination 3 1 4 1 1 1 (blank_device 64)
    = Done d'
    /\ dev_filteredTemp (handles d') = A_filteredIndirectDiffuse
    /\ dev_filteredIndirectDiffuse (handles d') = A_filteredTemp.
Proof.
  destruct (atrous_handles_parity (simple_camera 8 8) DirectSpecularIllumination
              3 1 4 1 1 1 (blank_device 64) A_indirectIllum A_indirectIllumSqr
              addr_filteredIndirectDiffuse)
    as (d' & Hrun & _ & Hodd).
  - reflexivity.
  - apply pathtraceInit_handles_distinct_blank.
  - simpl. lia.
  - simpl. lia.
  - exact (arrays_sized_blank 64).
  - lia.
  - lia.
  - lra.
  - lra.
  - lra.
  - exists d'. split; [exact Hrun|]. exact (Hodd eq_refl).
Defined.

(** ** Geometry buffers of the denoiser *)

(** A 2D launch of a kernel whose threads inside the image each set the slot
    of their own pixel and keep an invariant, and whose other threads do
    nothing. *)
Lemma launch2D_pixels {St V : Type} (slot : St -> Z -> V) (Inv : St -> Prop)
    (b w h : Z) (k : Z -> Z -> St -> outcome St) (g : Z -> Z -> V) (s0 : St) :
  0 < b -> 0 <= w -> 0 <= h -> Inv s0 ->
  (forall x y s, In (x, y) (grid2D b w h) -> 0 <= x < w -> 0 <= y < h -> Inv s ->
     exists s', k x y s = Done s' /\ Inv s'
       /\ slot s' (y * w + x) = g x y
       /\ forall p, p <> y * w + x -> slot s' p = slot s p) ->
  (forall x y s, In (x, y) (grid2D b w h) -> ~ (x < w /\ y < h) -> k x y s = Done s) ->
  exists s', launch2D b w h k s0 = Done s' /\ Inv s'
    /\ forall x y, 0 <= x < w -> 0 <= y < h -> slot s' (y * w + x) = g x y.
Proof.
  intros Hb Hw Hh Hinv Hin Hout. unfold launch2D.
  pose (P := fun (done : list (Z * Z)) (s : St) =>
    Inv s /\ forall x y, In (x, y) done -> 0 <= x < w -> 0 <= y < h ->
                         slot s (y * w + x) = g x y).
  destruct (fold_threads_invariant (fun xy s => k (fst xy) (snd xy) s) P
              (grid2D b w h) s0) as (s' & Hrun & HI & HP).
  - split; [exact Hinv|]. intros x y [].
  - intros done [x y] rest s Heq [HI HPd]. simpl fst. simpl snd.
    assert (Ht : In (x, y) (grid2D b w h)).
    { rewrite Heq. apply in_or_app. right. left. reflexivity. }
    assert (Hpos : 0 <= x /\ 0 <= y) by (apply In_grid2D in Ht; lia).
    destruct (Z_lt_ge_dec x w) as [Hx|Hx]; [destruct (Z_lt_ge_dec y h) as [Hy|Hy]|].
    + destruct (Hin x y s Ht ltac:(lia) ltac:(lia) HI) as (s1 & Hk & HI1 & Hset & Hoth).
      exists s1. split; [exact Hk|]. split; [exact HI1|].
      intros x' y' Hin' Hx' Hy'.
      destruct (Z.eq_dec (y' * w + x') (y * w + x)) as [E|E].
      * destruct (pixel_index_inj w x' y' x y Hx' ltac:(lia) E) as [-> ->]. exact Hset.
      * rewrite (Hoth _ E). apply in_app_or in Hin'.
        destruct Hin' as [Hd|[Hd|[]]]; [apply HPd; assumption|].
        injection Hd as -> ->. contradiction.
    + rewrite (Hout x y s Ht) by lia. exists s. split; [reflexivity|].
      split; [exact HI|]. intros x' y' Hin' Hx' Hy'. apply in_app_or in Hin'.
      destruct Hin' as [Hd|[Hd|[]]]; [apply HPd; assumption|].
      injection Hd as -> ->. lia.
    + rewrite (Hout x y s Ht) by lia. exists s. split; [reflexivity|].
      split; [exact HI|]. intros x' y' Hin' Hx' Hy'. apply in_app_or in Hin'.
      destruct Hin' as [Hd|[Hd|[]]]; [apply HPd; assumption|].
      injection Hd as -> ->. lia.
  - exists s'. split; [exact Hrun|]. split; [exact HI|].
    intros x y Hx Hy. apply HP; try assumption. apply grid2D_covers; assumption.
Qed.

Lemma store_load {A : Type} (a : list A) (i : Z) (v d : A) :
  0 <= i < Z.of_nat (length a) ->
  exists a', store a i v = Done a' /\ length a' = length a
    /\ forall p, load d a' p = if p =? i then v else load d a p.
Proof.
  intros Hi. pose proof (store_in a i v Hi) as E.
  destruct (store_spec _ _ _ _ d E) as (Hl & _ & Hs & Ho).
  eexists. split; [exact E|]. split; [exact Hl|].
  intros p. unfold load. destruct (Z.eqb_spec p i) as [->|Hne].
  - replace (i <? 0) with false by (symmetry; apply Z.ltb_ge; lia). exact Hs.
  - destruct (p <? 0) eqn:Ep; [reflexivity|].
    apply Z.ltb_ge in Ep. apply Ho. lia.
Qed.

Lemma vstore_at_load (m : Memory) (b : vbuf) (i : Z) (v : vec3) :
  0 <= i < Z.of_nat (length (vmem m b)) ->
  exists a, vstore_at m b i v = Done (vset m b a)
    /\ length a = length (vmem m b)
    /\ forall p, load vzero a p = if p =? i then v else load vzero (vmem m b) p.
Proof.
  intros Hi. unfold vstore_at.
  destruct (store_load (vmem m b) i v vzero Hi) as (a & E & Hl & Hp).
  exists a. rewrite E. split; [reflexivity|]. split; assumption.
Qed.

(** What a thread of [aTrousGenBuffers] inside the image leaves. *)
Lemma aTrousGenBuffers_thread {scene : Scene} (cam : Camera) (N P : vbuf)
    (width height iter ix iy : Z) (m : Memory) (vn vp : vec3) :
  N <> P -> 0 < resolution_x cam ->
  0 <= ix < width -> 0 <= iy < height ->
  Z.of_nat (length (vmem m N)) = width * height ->
  Z.of_nat (length (vmem m P)) = width * height ->
  (let hit := traverseAABBTree (primary_ray cam ix iy) (-1) in
   let g := fst (fst hit) in
   (g = -1 -> vn = vzero /\ vp = vzero)
   /\ (g <> -1 ->
       vn = snd (computeNormals g (snd hit))
       /\ vp = vadd (position cam)
                 (vscale (snd (fst hit)) (direction (primary_ray cam ix iy))))) ->
  exists an ap,
    aTrousGenBuffers cam N P width height iter ix iy m
    = Done (vset (vset m P ap) N an)
    /\ length an = length (vmem m N) /\ length ap = length (vmem m P)
    /\ (forall p, load vzero an p
          = if p =? iy * width + ix then vn else load vzero (vmem m N) p)
    /\ (forall p, load vzero ap p
          = if p =? iy * width + ix then vp else load vzero (vmem m P) p).
Proof.
  intros HNP Hrx Hx Hy LN LP Hval. unfold aTrousGenBuffers.
  replace ((ix >=? width) || (iy >=? height)) with false.
  2:{ symmetry. apply orb_false_iff. rewrite !Z.geb_leb. split; apply Z.leb_gt; lia. }
  assert (Hnz : IZR (resolution_x cam) <> 0%R) by (apply not_0_IZR; lia).
  rewrite !fdiv_nonzero by exact Hnz. rewrite !bind_Done. cbv zeta.
  fold (primary_ray cam ix iy). cbv zeta in Hval.
  assert (Hidx : 0 <= iy * width + ix < width * height) by nia.
  destruct (traverseAABBTree (primary_ray cam ix iy) (-1)) as [[g dist] tok].
  simpl fst in Hval. simpl snd in Hval. destruct Hval as [Hmiss Hhit].
  assert (Hstores : forall v1 v2,
    exists an ap,
      (m1 <- vstore_at m P (iy * width + ix) v1 ;; vstore_at m1 N (iy * width + ix) v2)
      = Done (vset (vset m P ap) N an)
      /\ length an = length (vmem m N) /\ length ap = length (vmem m P)
      /\ (forall p, load vzero an p
            = if p =? iy * width + ix then v2 else load vzero (vmem m N) p)
      /\ (forall p, load vzero ap p
            = if p =? iy * width + ix then v1 else load vzero (vmem m P) p)).
  { intros v1 v2.
    destruct (vstore_at_load m P (iy * width + ix) v1 ltac:(lia)) as (ap & E1 & L1 & H1).
    rewrite E1, bind_Done.
    destruct (vstore_at_load (vset m P ap) N (iy * width + ix) v2) as (an & E2 & L2 & H2).
    { rewrite vmem_vset_other by (intros E; apply HNP; symmetry; exact E). lia. }
    rewrite vmem_vset_other in L2, H2 by (intros E; apply HNP; symmetry; exact E).
    exists an, ap. split; [exact E2|]. repeat split; assumption. }
  destruct (Z.eqb_spec g (-1)) as [Eg|Eg]; simpl negb; cbv iota.
  - destruct (Hmiss Eg) as [-> ->]. apply Hstores.
  - destruct (Hhit Eg) as [-> ->].
    destruct (computeNormals g tok) as [gn sn]. simpl snd. apply Hstores.
Qed.

(** [aTrousPrepare] writes the normal and the position of every pixel, for
    any resolution, and nothing else.  A pixel whose ray from the camera
    hits nothing gets the zero vector in both buffers; a pixel whose ray
    hits a geometry gets the shading normal computed there and the point
    [origin + dist * direction] on its ray. *)
Theorem aTrousPrepare_fills_buffers {scene : Scene} (cam : Camera) (iter : Z)
    (d : Device) :
  let h := handles d in
  let m := memory d in
  let w := resolution_x cam in
  0 < w -> 0 < resolution_y cam ->
  Z.of_nat (length (vmem m (dev_normalBuffer h))) = w * resolution_y cam ->
  Z.of_nat (length (vmem m (dev_positionBuffer h))) = w * resolution_y cam ->
  dev_normalBuffer h <> dev_positionBuffer h ->
  exists d',
    aTrousPrepare cam iter d = Done d'
    /\ handles d' = h /\ dev_paths d' = dev_paths d
    /\ (forall ix iy, 0 <= ix < w -> 0 <= iy < resolution_y cam ->
          let hit := traverseAABBTree (primary_ray cam ix iy) (-1) in
          let g := fst (fst hit) in
          let normal' := load vzero (vmem (memory d') (dev_normalBuffer h)) (iy * w + ix) in
          let position' :=
            load vzero (vmem (memory d') (dev_positionBuffer h)) (iy * w + ix) in
          (g = -1 -> normal' = vzero /\ position' = vzero)
          /\ (g <> -1 ->
              normal' = snd (computeNormals g (snd hit))
              /\ position'
                 = vadd (position cam)
                     (vscale (snd (fst hit)) (direction (primary_ray cam ix iy)))))
    /\ (forall b, b <> dev_normalBuffer h -> b <> dev_positionBuffer h ->
                  vmem (memory d') b = vmem m b)
    /\ (forall fb, fmem (memory d') fb = fmem m fb).
Proof.
  intros h m w Hw Hh LN LP HNP.
  set (N := dev_normalBuffer h) in *. set (P := dev_positionBuffer h) in *.
  set (hh := resolution_y cam) in *.
  pose (value := fun (ix iy : Z) =>
    let hit := traverseAABBTree (primary_ray cam ix iy) (-1) in
    let g := fst (fst hit) in
    if g =? -1 then (vzero, vzero)
    else (snd (computeNormals g (snd hit)),
          vadd (position cam)
            (vscale (snd (fst hit)) (direction (primary_ray cam ix iy))))).
  pose (slot := fun (s : Memory) (p : Z) =>
    (load vzero (vmem s N) p, load vzero (vmem s P) p)).
  pose (Inv := fun (s : Memory) =>
    Z.of_nat (length (vmem s N)) = w * hh /\ Z.of_nat (length (vmem s P)) = w * hh
    /\ (forall b, b <> N -> b <> P -> vmem s b = vmem m b)
    /\ (forall fb, fmem s fb = fmem m fb)).
  destruct (launch2D_pixels slot Inv 16 w hh
              (aTrousGenBuffers cam N P w hh iter) value m)
    as (m' & Hrun & (_ & _ & Hv & Hf) & Hslots); try lia.
  - unfold Inv. repeat split; auto.
  - intros x y s _ Hx Hy (L1 & L2 & Hv & Hf).
    destruct (aTrousGenBuffers_thread cam N P w hh iter x y s
                (fst (value x y)) (snd (value x y)) HNP Hw Hx Hy L1 L2)
      as (an & ap & Ek & Lan & Lap & Han & Hap).
    { cbv zeta. unfold value. cbv zeta.
      destruct (Z.eqb_spec (fst (fst (traverseAABBTree (primary_ray cam x y) (-1)))) (-1))
        as [E|E]; simpl fst; simpl snd; split; intros Hg; try contradiction;
        split; reflexivity. }
    eexists. split; [exact Ek|]. split; [|split].
    + unfold Inv. rewrite vmem_vset_same.
      rewrite vmem_vset_other by exact HNP. rewrite vmem_vset_same.
      split; [lia|]. split; [lia|]. split.
      * intros b HbN HbP. rewrite !vmem_vset_other by congruence. apply Hv; assumption.
      * intros fb. rewrite !fmem_vset. apply Hf.
    + unfold slot. rewrite vmem_vset_same.
      rewrite vmem_vset_other by exact HNP. rewrite vmem_vset_same.
      rewrite Han, Hap. rewrite Z.eqb_refl. destruct (value x y); reflexivity.
    + intros p Hp. unfold slot. rewrite vmem_vset_same.
      rewrite vmem_vset_other by exact HNP. rewrite vmem_vset_same.
      rewrite Han, Hap.
      replace (p =? y * w + x) with false by (symmetry; apply Z.eqb_neq; exact Hp).
      reflexivity.
  - intros x y s _ Hno. unfold aTrousGenBuffers.
    replace ((x >=? w) || (y >=? hh)) with true; [reflexivity|].
    symmetry. apply orb_true_iff. rewrite !Z.geb_leb.
    destruct (Z_lt_ge_dec x w); [right|left]; apply Z.leb_le; lia.
  - unfold aTrousPrepare. fold h N P w hh m. rewrite Hrun, bind_Done.
    eexists. split; [reflexivity|]. simpl handles. simpl dev_paths. simpl memory.
    split; [reflexivity|]. split; [reflexivity|]. split; [|split; assumption].
    intros ix iy Hx Hy. cbv zeta.
    pose proof (Hslots ix iy Hx Hy) as Hs. unfold slot, value in Hs. cbv zeta in Hs.
    destruct (Z.eqb_spec (fst (fst (traverseAABBTree (primary_ray cam ix iy) (-1)))) (-1))
      as [E|E]; injection Hs as Hn Hp; split; intros Hg; try contradiction;
      split; assumption.
Qed.

Lemma aTrousPrepare_fills_buffers_witness :
  let scene := simple_scene complement_hash (-1) 1 in
  exists d',
    aTrousPrepare (simple_camera 3 5) 1 (blank_device 15) = Done d'
    /\ load vzero (vmem (memory d') A_normalBuffer) 14 = vzero.
Proof.
  intros scene.
  destruct (@aTrousPrepare_fills_buffers scene (simple_camera 3 5) 1 (blank_device 15))
    as (d' & Hrun & _ & _ & Hpix & _).
  - simpl. lia.
  - simpl. lia.
  - reflexivity.
  - reflexivity.
  - discriminate.
  - exists d'. split; [exact Hrun|].
    assert (Hx : 0 <= 2 < resolution_x (simple_camera 3 5)) by (simpl; lia).
    assert (Hy : 0 <= 4 < resolution_y (simple_camera 3 5)) by (simpl; lia).
    destruct (Hpix 2 4 Hx Hy) as [Hmiss _].
    exact (proj1 (Hmiss eq_refl)).
Defined.

(** ** Readback and display of a buffer *)

Lemma processTexel_display (h : Handles) (m : Memory) (buf : BufferType)
    (iter n p : Z) :
  recognized buf = true -> arrays_sized n m -> 0 <= p < n -> 1 < iter ->
  processTexel m (fst (getBuffers h buf Indeterminate Indeterminate))
               (snd (getBuffers h buf Indeterminate Indeterminate)) p buf iter
  = Done (display_value h m buf iter p).
Proof.
  intros Hrec [Hv Hf] Hp Hiter.
  assert (Hi : IZR iter <> 0%R) by (apply not_0_IZR; lia).
  assert (Hi1 : IZR (iter - 1) <> 0%R) by (apply not_0_IZR; lia).
  assert (Rv : forall b, read (vmem m b) p = Done (load vzero (vmem m b) p)).
  { intros b. apply read_load. rewrite Hv. exact Hp. }
  assert (Rf : forall b, read (fmem m b) p = Done (load 0%R (fmem m b) p)).
  { intros b. apply read_load. rewrite Hf. exact Hp. }
  destruct buf; try discriminate Hrec; unfold processTexel, display_value, gamma_curve;
    simpl getBuffers; simpl fst; simpl snd; simpl deref_vec3; simpl deref_as_vec3;
    simpl deref_as_float; simpl is_nonnull; cbv iota;
    rewrite ?bind_Done, ?Rv, ?Rf, ?bind_Done, ?Rv, ?Rf, ?bind_Done.
  - rewrite vdivs_nonzero by exact Hi. rewrite bind_Done, vdiv_vscale. reflexivity.
  - rewrite vdivs_nonzero by exact Hi. rewrite bind_Done, vdiv_vscale. reflexivity.
  - rewrite fdiv_nonzero by exact Hi. rewrite bind_Done.
    rewrite fdiv_nonzero by exact Hi1. reflexivity.
  - rewrite fdiv_nonzero by exact Hi. rewrite bind_Done.
    rewrite fdiv_nonzero by exact Hi1. reflexivity.
  - rewrite vdivs_nonzero by exact Hi. rewrite bind_Done, vdiv_vscale. reflexivity.
  - reflexivity.
  - rewrite vdivs_nonzero by lra. rewrite vdiv_vscale. do 2 f_equal.
    unfold vadds. f_equal; lra.
  - reflexivity.
  - reflexivity.
  - reflexivity.
Qed.

(** For every identifier of the closed set and an iteration count above
    one, on a memory where no vector that the transform raises to a power
    has a negative component, [saveBufferState] returns an image of the size
    of the frame: buffer selection hands the transform pointers of the types
    it reads.  The pixels are: for the three illumination buffers the gamma curve of the
    running sum (for the full image the sum of the direct and the indirect
    one) over [iter]; for the two variance buffers the curve [v ^ 0.3] of the
    unbiased sample variance in the red channel; for normals [(n + 1) / 2];
    for positions [(p + 15) / 30]; for the filtered buffers the gamma curve of
    the array, or of the sum of the two arrays, not divided by [iter]. *)
Theorem saveBufferState_image (cam : Camera) (buf : BufferType) (iter : Z)
    (tmpBuffer : list vec3) (d : Device) :
  let w := resolution_x cam in
  recognized buf = true -> 1 < iter ->
  0 < w -> 0 < resolution_y cam ->
  arrays_sized (w * resolution_y cam) (memory d) ->
  Z.of_nat (length tmpBuffer) = w * resolution_y cam ->
  (forall x y, 0 <= x < w -> 0 <= y < resolution_y cam ->
     nonnegative (curve_base (handles d) (memory d) buf iter (x + y * w))) ->
  exists image,
    saveBufferState cam buf iter tmpBuffer d = Done image
    /\ length image = length tmpBuffer
    /\ forall x y, 0 <= x < w -> 0 <= y < resolution_y cam ->
         load vzero image (x + y * w)
         = display_value (handles d) (memory d) buf iter (x + y * w).
Proof.
  intros w Hrec Hiter Hw Hh Hsz Hlen _. unfold saveBufferState.
  destruct (getBuffers (handles d) buf Indeterminate Indeterminate) as [buf1 buf2] eqn:Eg.
  fold w.
  destruct (launch2D_stores 8 w (resolution_y cam)
              (processImage (memory d) buf1 buf2 w (resolution_y cam) iter buf)
              (fun x y => display_value (handles d) (memory d) buf iter (x + y * w))
              tmpBuffer vzero) as (image & Hrun & Hl & Hval); try lia.
  - intros x y s _ Hx Hy. unfold processImage.
    replace ((x <? w) && (y <? resolution_y cam)) with true.
    2:{ symmetry. apply andb_true_iff. split; apply Z.ltb_lt; lia. }
    cbv zeta.
    pose proof (processTexel_display (handles d) (memory d) buf iter
                  (w * resolution_y cam) (x + y * w) Hrec Hsz ltac:(nia) Hiter) as E.
    rewrite Eg in E. simpl fst in E. simpl snd in E. rewrite E, bind_Done.
    f_equal. lia.
  - intros x y s Hin Hno. unfold processImage.
    replace ((x <? w) && (y <? resolution_y cam)) with false; [reflexivity|].
    symmetry. apply andb_false_iff.
    destruct (Z_lt_ge_dec x w); [right|left]; apply Z.ltb_ge; lia.
  - exists image. split; [exact Hrun|]. split; [exact Hl|].
    intros x y Hx Hy. specialize (Hval x y Hx Hy). unfold load.
    replace (x + y * w <? 0) with false by (symmetry; apply Z.ltb_ge; nia).
    replace (x + y * w) with (y * w + x) at 1 by lia. exact Hval.
Qed.

Lemma saveBufferState_image_witness :
  exists image,
    saveBufferState (simple_camera 3 2) FilteredColor 2 (repeat vzero 6) (blank_device 6)
    = Done image
    /\ length image = 6%nat.
Proof.
  destruct (saveBufferState_image (simple_camera 3 2) FilteredColor 2 (repeat vzero 6)
              (blank_device 6)) as (image & Hrun & Hl & _).
  - reflexivity.
  - lia.
  - simpl. lia.
  - simpl. lia.
  - exact (arrays_sized_blank 6).
  - reflexivity.
  - intros x y _ _. unfold curve_base.
    cbn [handles memory blank_device vmem blank_memory
         dev_filteredDirectSpecular dev_filteredIndirectDiffuse pathtraceInit_handles
         m_filteredDirectSpecular m_filteredIndirectDiffuse].
    rewrite !load_repeat. unfold nonnegative. simpl. lra.
  - exists image. split; [exact Hrun|]. rewrite Hl. reflexivity.
Defined.

Lemma quantize_range (r : R) : 0 <= quantize r <= 255.
Proof. unfold quantize. apply clampZ_range. lia. Qed.

Lemma to_uchar_channel (r : R) :
  to_uchar (clampZ (float_to_int (r * 255)) 0 255) = quantize r.
Proof.
  unfold to_uchar, quantize, float_to_int.
  assert (E : clampZ (clampZ (truncZ (r * 255)) (- 2 ^ 31) (2 ^ 31 - 1)) 0 255
              = clampZ (truncZ (r * 255)) 0 255).
  { unfold clampZ. change (2 ^ 31) with 2147483648. lia. }
  rewrite E. apply Z.mod_small.
  pose proof (clampZ_range (truncZ (r * 255)) 0 255 ltac:(lia)). lia.
Qed.

Lemma sendImageToPBO_thread (m : Memory) (buf1 : pointer vbuf) (buf2 : pointer anybuf)
    (res_x res_y iter : Z) (bufType : BufferType) (x y : Z) (pbo : list uchar4)
    (pix : vec3) (dflt : uchar4) :
  0 <= x < res_x -> 0 <= y < res_y ->
  Z.of_nat (length pbo) = res_x * res_y ->
  processTexel m buf1 buf2 (x + y * res_x) bufType iter = Done pix ->
  exists pbo',
    sendImageToPBO m buf1 buf2 res_x res_y iter bufType x y pbo = Done pbo'
    /\ length pbo' = length pbo
    /\ forall p, load dflt pbo' p
         = if p =? x + y * res_x
           then mkUchar4 (quantize (vx pix)) (quantize (vy pix)) (quantize (vz pix)) 0
           else load dflt pbo p.
Proof.
  intros Hx Hy Hlen Hpix. unfold sendImageToPBO.
  replace ((x <? res_x) && (y <? res_y)) with true.
  2:{ symmetry. apply andb_true_iff. split; apply Z.ltb_lt; lia. }
  cbv zeta. rewrite Hpix, bind_Done. rewrite !to_uchar_channel.
  assert (Hidx : 0 <= x + y * res_x < res_x * res_y) by nia.
  destruct (update_load pbo (x + y * res_x) (fun p => set_u4w p 0) dflt ltac:(lia))
    as (p1 & E1 & L1 & H1).
  rewrite E1, bind_Done.
  destruct (update_load p1 (x + y * res_x)
              (fun p => set_u4x p (quantize (vx pix))) dflt ltac:(lia))
    as (p2 & E2 & L2 & H2).
  rewrite E2, bind_Done.
  destruct (update_load p2 (x + y * res_x)
              (fun p => set_u4y p (quantize (vy pix))) dflt ltac:(lia))
    as (p3 & E3 & L3 & H3).
  rewrite E3, bind_Done.
  destruct (update_load p3 (x + y * res_x)
              (fun p => set_u4z p (quantize (vz pix))) dflt ltac:(lia))
    as (p4 & E4 & L4 & H4).
  rewrite E4. exists p4. split; [reflexivity|]. split; [lia|].
  intros p. rewrite H4, H3, H2, H1.
  destruct (p =? x + y * res_x); reflexivity.
Qed.

(** For every identifier of the closed set and an iteration count above
    one, on a memory where no vector that the transform raises to a power
    has a negative component, [sendBufferToPbo] writes every pixel of the
    pixel buffer: the three
    colour bytes are the channels of the colour that [saveBufferState] reads
    back for that pixel, times 255, cut to an integer and clamped to
    [0, 255], and the fourth byte is [0]. *)
Theorem sendBufferToPbo_bytes (cam : Camera) (buf : BufferType) (iter : Z)
    (pbo : list uchar4) (d : Device) (dflt : uchar4) :
  let w := resolution_x cam in
  recognized buf = true -> 1 < iter ->
  0 < w -> 0 < resolution_y cam ->
  arrays_sized (w * resolution_y cam) (memory d) ->
  Z.of_nat (length pbo) = w * resolution_y cam ->
  (forall x y, 0 <= x < w -> 0 <= y < resolution_y cam ->
     nonnegative (curve_base (handles d) (memory d) buf iter (x + y * w))) ->
  exists pbo',
    sendBufferToPbo cam buf iter pbo d = Done pbo'
    /\ length pbo' = length pbo
    /\ forall x y, 0 <= x < w -> 0 <= y < resolution_y cam ->
         let c := display_value (handles d) (memory d) buf iter (x + y * w) in
         let texel := load dflt pbo' (x + y * w) in
         texel = mkUchar4 (quantize (vx c)) (quantize (vy c)) (quantize (vz c)) 0
         /\ 0 <= u4x texel <= 255 /\ 0 <= u4y texel <= 255 /\ 0 <= u4z texel <= 255.
Proof.
  intros w Hrec Hiter Hw Hh Hsz Hlen _. unfold sendBufferToPbo.
  destruct (getBuffers (handles d) buf Indeterminate Indeterminate) as [buf1 buf2] eqn:Eg.
  fold w.
  pose (g := fun (x y : Z) =>
    let c := display_value (handles d) (memory d) buf iter (x + y * w) in
    mkUchar4 (quantize (vx c)) (quantize (vy c)) (quantize (vz c)) 0).
  destruct (launch2D_pixels (fun (s : list uchar4) p => load dflt s p)
              (fun s => length s = length pbo) 8 w (resolution_y cam)
              (sendImageToPBO (memory d) buf1 buf2 w (resolution_y cam) iter buf)
              g pbo) as (pbo' & Hrun & Hl & Hval); try lia.
  - intros x y s _ Hx Hy Hs.
    pose proof (processTexel_display (handles d) (memory d) buf iter
                  (w * resolution_y cam) (x + y * w) Hrec Hsz ltac:(nia) Hiter) as E.
    rewrite Eg in E. simpl fst in E. simpl snd in E.
    destruct (sendImageToPBO_thread (memory d) buf1 buf2 w (resolution_y cam) iter buf
                x y s _ dflt Hx Hy ltac:(lia) E) as (s' & Ek & Ls & Hp).
    exists s'. split; [exact Ek|]. split; [lia|]. split.
    + rewrite Hp. replace (y * w + x =? x + y * w) with true
        by (symmetry; apply Z.eqb_eq; lia).
      unfold g. cbv zeta. reflexivity.
    + intros p Hne. rewrite Hp.
      replace (p =? x + y * w) with false by (symmetry; apply Z.eqb_neq; lia).
      reflexivity.
  - intros x y s Hin Hno. unfold sendImageToPBO.
    replace ((x <? w) && (y <? resolution_y cam)) with false; [reflexivity|].
    symmetry. apply andb_false_iff.
    destruct (Z_lt_ge_dec x w); [right|left]; apply Z.ltb_ge; lia.
  - exists pbo'. split; [exact Hrun|]. split; [exact Hl|].
    intros x y Hx Hy. cbv zeta. specialize (Hval x y Hx Hy).
    replace (y * w + x) with (x + y * w) in Hval by lia.
    rewrite Hval. unfold g. cbv zeta. simpl u4x. simpl u4y. simpl u4z.
    split; [reflexivity|]. repeat split; apply quantize_range.
Qed.

Lemma sendBufferToPbo_bytes_witness :
  exists pbo',
    sendBufferToPbo (simple_camera 3 2) Normal 2 (repeat (mkUchar4 9 9 9 9) 6)
      (blank_device 6) = Done pbo'
    /\ u4w (load (mkUchar4 9 9 9 9) pbo' 5) = 0.
Proof.
  destruct (sendBufferToPbo_bytes (simple_camera 3 2) Normal 2
              (repeat (mkUchar4 9 9 9 9) 6) (blank_device 6) (mkUchar4 9 9 9 9))
    as (pbo' & Hrun & _ & Hpix).
  - reflexivity.
  - lia.
  - simpl. lia.
  - simpl. lia.
  - exact (arrays_sized_blank 6).
  - reflexivity.
  - intros x y _ _. unfold curve_base, nonnegative. simpl. lra.
  - exists pbo'. split; [exact Hrun|].
    assert (Hx : 0 <= 2 < resolution_x (simple_camera 3 2)) by (simpl; lia).
    assert (Hy : 0 <= 1 < resolution_y (simple_camera 3 2)) by (simpl; lia).
    destruct (Hpix 2 1 Hx Hy) as (E & _).
    change (2 + 1 * resolution_x (simple_camera 3 2)) with 5 in E.
    rewrite E. reflexivity.
Defined.

(** ** Camera rays: when the launch stays inside the path array *)

Lemma launch_generateRayFromCamera_faults_rows {scene : Scene}
    (cam : Camera) (iter D : Z) (pathSegments : list PathSegment) :
  0 < numStratifiedSamples < 2 ^ 31 ->
  Z.of_nat (length camSamplePool) = numStratifiedSamples ->
  0 < resolution_x cam -> 0 < resolution_y cam ->
  resolution_y cam mod 8 <> 0 ->
  Z.of_nat (length pathSegments) = resolution_x cam * resolution_y cam ->
  launch_generateRayFromCamera cam iter D pathSegments = Undefined OutOfBounds.
Proof.
  intros HN Hpool Hw Hh Hmod Hlen.
  apply (launch_generateRayFromCamera_escapes cam iter D pathSegments
           0 (resolution_y cam)); try assumption.
  - apply grid2D_below; assumption.
  - replace (0 >=? resolution_x cam) with false
      by (symmetry; rewrite Z.geb_leb; apply Z.leb_gt; lia).
    reflexivity.
  - nia.
Qed.

(** A launch over a resolution that is not a multiple of the block size in
    both directions has a thread outside the image that passes the guard. *)
Lemma launch_generateRayFromCamera_uncovered {scene : Scene}
    (cam : Camera) (iter D : Z) (pathSegments : list PathSegment) :
  0 < resolution_x cam -> 0 < resolution_y cam ->
  Z.of_nat (length pathSegments) = resolution_x cam * resolution_y cam ->
  ~ ((8 | resolution_x cam) /\ (8 | resolution_y cam)) ->
  returns (launch_generateRayFromCamera cam iter D pathSegments) = false.
Proof.
  intros Hw Hh Hlen Hno.
  destruct (Z.eq_dec (resolution_x cam mod 8) 0) as [Ex|Ex].
  - destruct (Z.eq_dec (resolution_y cam mod 8) 0) as [Ey|Ey].
    + exfalso. apply Hno. split; apply Z.mod_divide; (lia || assumption).
    + apply (launch_generateRayFromCamera_no_return cam iter D pathSegments
               0 (resolution_y cam)); try assumption.
      * apply grid2D_below; assumption.
      * replace (0 >=? resolution_x cam) with false
          by (symmetry; rewrite Z.geb_leb; apply Z.leb_gt; lia).
        reflexivity.
      * nia.
  - apply (launch_generateRayFromCamera_no_return cam iter D pathSegments
             (resolution_x cam) (resolution_y cam - 1)); try assumption.
    + apply grid2D_beside; assumption.
    + replace (resolution_y cam - 1 >=? resolution_y cam) with false
        by (symmetry; rewrite Z.geb_leb; apply Z.leb_gt; lia).
      apply andb_false_r.
    + nia.
Qed.

(** The ray generation launch of [pathtrace], on a path array of one slot
    per pixel, with a positive number of strata and a camera pool holding
    that many samples, returns exactly when the width and the height of the
    image are both multiples of the block size 8; for every other resolution
    a thread outside the image passes the guard and stores outside the
    array.  Whatever the pool holds, the launch returns only when the width
    and the height are both multiples of 8. *)
Theorem ray_generation_in_bounds_iff {scene : Scene}
    (cam : Camera) (iter D : Z) (pathSegments : list PathSegment) :
  0 < resolution_x cam -> 0 < resolution_y cam ->
  Z.of_nat (length pathSegments) = resolution_x cam * resolution_y cam ->
  ((exists paths, launch_generateRayFromCamera cam iter D pathSegments = Done paths)
   -> (8 | resolution_x cam) /\ (8 | resolution_y cam))
  /\ (0 < numStratifiedSamples < 2 ^ 31 ->
      Z.of_nat (length camSamplePool) = numStratifiedSamples ->
      ((exists paths, launch_generateRayFromCamera cam iter D pathSegments = Done paths)
       <-> (8 | resolution_x cam) /\ (8 | resolution_y cam))
      /\ (~ ((8 | resolution_x cam) /\ (8 | resolution_y cam)) ->
          launch_generateRayFromCamera cam iter D pathSegments
          = Undefined OutOfBounds)).
Proof.
  intros Hw Hh Hlen.
  assert (Honly :
    (exists paths, launch_generateRayFromCamera cam iter D pathSegments = Done paths)
    -> (8 | resolution_x cam) /\ (8 | resolution_y cam)).
  { intros (paths & Hrun).
    destruct (Z.eq_dec (resolution_x cam mod 8) 0) as [Ex|Ex];
      [destruct (Z.eq_dec (resolution_y cam mod 8) 0) as [Ey|Ey]|].
    - split; apply Z.mod_divide; (lia || assumption).
    - pose proof (launch_generateRayFromCamera_uncovered cam iter D pathSegments
                    Hw Hh Hlen) as Hr.
      rewrite Hrun in Hr. simpl in Hr.
      assert (true = false); [|discriminate].
      apply Hr. intros [_ Dh]. apply Z.mod_divide in Dh; lia.
    - pose proof (launch_generateRayFromCamera_uncovered cam iter D pathSegments
                    Hw Hh Hlen) as Hr.
      rewrite Hrun in Hr. simpl in Hr.
      assert (true = false); [|discriminate].
      apply Hr. intros [Dw _]. apply Z.mod_divide in Dw; lia. }
  split; [exact Honly|].
  intros HN Hpool. split; [split; [exact Honly|]|].
  - intros [Dw Dh].
    destruct (launch_generateRayFromCamera_exact cam iter D pathSegments
                HN Hpool Hw Hh Dw Dh Hlen) as (paths & Hrun & _).
    exists paths. exact Hrun.
  - intros Hno.
    destruct (Z.eq_dec (resolution_x cam mod 8) 0) as [Ex|Ex].
    + destruct (Z.eq_dec (resolution_y cam mod 8) 0) as [Ey|Ey].
      * exfalso. apply Hno. split; apply Z.mod_divide; (lia || assumption).
      * apply launch_generateRayFromCamera_faults_rows; assumption.
    + apply launch_generateRayFromCamera_faults; assumption.
Qed.

Lemma ray_generation_in_bounds_iff_witness :
  let scene := simple_scene complement_hash (-1) 1 in
  launch_generateRayFromCamera (simple_camera 8 4) 1 1 (repeat blank_path 32)
  = Undefined OutOfBounds.
Proof.
  intros scene.
  assert (Hw : 0 < resolution_x (simple_camera 8 4)) by (simpl; lia).
  assert (Hh : 0 < resolution_y (simple_camera 8 4)) by (simpl; lia).
  assert (Hlen : Z.of_nat (length (repeat blank_path 32))
                 = resolution_x (simple_camera 8 4) * resolution_y (simple_camera 8 4))
    by reflexivity.
  destruct (simple_scene_pool complement_hash (-1) 1 ltac:(lia)) as (HN & Hcam & _).
  apply (proj2 (proj2 (@ray_generation_in_bounds_iff scene (simple_camera 8 4) 1 1
                         (repeat blank_path 32) Hw Hh Hlen) HN Hcam)).
  intros [_ [k Hk]]. simpl in Hk. lia.
Defined.

(** ** Shading: the flags of a path *)

(** The flag [indirectIllum] of a path never goes back to false in the
    shading stage.  On a hit it becomes true as soon as the bounce before
    was not specular, whatever light sampling and scattering do to the path,
    and [prevBounceNoMis] records whether the material hit is specular; on a
    miss the three flags are kept.  The step returns on every miss, and on a
    hit when the part of the pool it is handed holds the [stratCount]
    samples, [stratCount] positive. *)
Theorem shade_keeps_indirect_flag {scene : Scene} (iter depth : Z)
    (pool : list IntersectionSample) (offset : Z) (stratRange : R)
    (stratCount lightMis numLights iSelf : Z)
    (intersection : ShadeableIntersection) (path : PathSegment) :
  (forall path',
     shade_path iter depth pool offset stratRange stratCount lightMis numLights
                iSelf intersection path = Done path' ->
     (indirectIllum path = true -> indirectIllum path' = true)
     /\ (materialId intersection <> -1 ->
         indirectIllum path' = indirectIllum path || negb (prevBounceSpecular path)
         /\ prevBounceNoMis path'
            = mat_isSpecular (materials (materialId intersection)))
     /\ (materialId intersection = -1 ->
         indirectIllum path' = indirectIllum path
         /\ prevBounceNoMis path' = prevBounceNoMis path
         /\ prevBounceSpecular path' = prevBounceSpecular path))
  /\ (materialId intersection = -1
      \/ (0 < stratCount < 2 ^ 31 /\ 0 <= offset
          /\ offset + stratCount <= Z.of_nat (length pool)) ->
      exists path',
        shade_path iter depth pool offset stratRange stratCount lightMis numLights
                   iSelf intersection path = Done path').
Proof.
  split.
  - intros path' Hrun.
    assert (Hhit : materialId intersection <> -1 ->
      indirectIllum path' = indirectIllum path || negb (prevBounceSpecular path)
      /\ prevBounceNoMis path' = mat_isSpecular (materials (materialId intersection))).
    { intros Hne.
      destruct (shade_path_cases _ _ _ _ _ _ _ _ _ _ _ _ Hrun)
        as [(E & _)|(_ & sample & ->)]; [contradiction|].
      unfold shade_hit.
      destruct (scatterRay _ _ _ _ _ _ _ _ _) as [p' spec]. split; reflexivity. }
    assert (Hmiss : materialId intersection = -1 ->
      indirectIllum path' = indirectIllum path
      /\ prevBounceNoMis path' = prevBounceNoMis path
      /\ prevBounceSpecular path' = prevBounceSpecular path).
    { intros He. rewrite shade_path_miss in Hrun by exact He.
      inversion Hrun. repeat split; reflexivity. }
    split; [|split; assumption].
    intros Hflag. destruct (Z.eq_dec (materialId intersection) (-1)) as [E|E].
    + rewrite (proj1 (Hmiss E)). exact Hflag.
    + rewrite (proj1 (Hhit E)). rewrite Hflag. reflexivity.
  - intros [He|(Hc & Ho & Hl)].
    + eexists. apply shade_path_miss. exact He.
    + apply shade_path_returns; assumption.
Qed.

Lemma shade_keeps_indirect_flag_witness :
  let scene := simple_scene complement_hash 0 2 in
  let path := set_flags (path_with_bounces 2) true false false in
  exists path',
    shade_path 1 1 samplePool 1 1 1 0 1 0
      (mkShadeableIntersection 1 0 vzero vzero) path = Done path'
    /\ indirectIllum path' = true.
Proof.
  intros scene path.
  pose proof (@shade_keeps_indirect_flag scene 1 1 samplePool 1 1 1 0 1 0
                (mkShadeableIntersection 1 0 vzero vzero) path) as [Hflags Hret].
  destruct Hret as (path' & Hrun).
  { right. simpl. lia. }
  exists path'. split; [exact Hrun|].
  apply (proj1 (Hflags path' Hrun)). reflexivity.
Defined.

(** ** Initialization *)

Lemma cudaMalloc_length {A : Type} (fresh : nat -> A) (n : Z) :
  0 <= n -> Z.of_nat (length (cudaMalloc fresh n)) = n.
Proof. intros H. unfold cudaMalloc. rewrite length_map, length_seq. lia. Qed.

Lemma memset0_fresh {A : Type} (zero : A) (fresh : nat -> A) (n : Z) :
  0 <= n ->
  memset0 zero (cudaMalloc fresh n) n = Done (repeat zero (Z.to_nat n)).
Proof.
  intros H.
  pose proof (memset0_sized zero (cudaMalloc fresh n)) as E.
  rewrite (cudaMalloc_length fresh n H) in E. rewrite E.
  f_equal. f_equal. unfold cudaMalloc. rewrite length_map, length_seq. reflexivity.
Qed.



(** With no stratum ([sqrtNumStratifiedSamples = 0]) the jitter range
    [1.0f / sqrtNumStratifiedSamples] is a quotient by zero. *)
Theorem pathtraceInit_no_strata {scene : Scene} (cam : Camera) (u : Uninitialized) :
  0 < resolution_x cam -> 0 < resolution_y cam ->
  pathtraceInit cam 0 u = Undefined DivisionByZero.
Proof.
  intros Hw Hh.
  assert (Hn : 0 <= resolution_x cam * resolution_y cam) by nia.
  unfold pathtraceInit.
  rewrite !memset0_fresh by exact Hn. rewrite !bind_Done.
  rewrite fdiv_zero. reflexivity.
Qed.

Lemma pathtraceInit_no_strata_witness :
  let scene := simple_scene complement_hash 0 2 in
  let u := mkUninitialized (fun _ _ => vzero) (fun _ _ => 0%R)
             (fun _ => blank_path) (fun _ => zeroIntersection)
             (fun _ => 0) (fun _ => 0)
             (fun _ => mkIntersectionSample (mkVec2 0 0) (mkVec2 0 0) (mkVec2 0 0))
             (fun _ => mkCameraSample (mkVec2 0 0) (mkVec2 0 0)) in
  pathtraceInit (simple_camera 8 8) 0 u = Undefined DivisionByZero.
Proof.
  intros scene u. apply (@pathtraceInit_no_strata scene (simple_camera 8 8) u).
  - simpl. lia.
  - simpl. lia.
Defined.

(** ** Denoiser runs: totality and what is left alone *)

(** The variance pass never divides by zero, whatever the iteration count:
    it returns an estimate for every pixel, and no estimate is negative.  So
    the divisor [colorWeight^2 * estimate + 0.01] of the colour term of the
    filter is at least [0.01]. *)
Theorem variance_pass_total_nonnegative (colorTotal : list vec3) (colorSqr : list R)
    (width height iter : Z) (stddev0 : list R) :
  0 < width -> 0 < height ->
  Z.of_nat (length colorTotal) = width * height ->
  Z.of_nat (length colorSqr) = width * height ->
  Z.of_nat (length stddev0) = width * height ->
  exists stddev,
    launch2D 16 width height
      (aTrousComputeVariance colorTotal colorSqr width height iter) stddev0
    = Done stddev
    /\ length stddev = length stddev0
    /\ forall s, In s stddev ->
         (0 <= s)%R
         /\ forall colorWeight : R, (0.01 <= colorWeight * colorWeight * s + 0.01)%R.
Proof.
  intros Hw Hh Lc Ls L0.
  destruct (launch_aTrousComputeVariance_nonneg colorTotal colorSqr width height iter
              stddev0 ltac:(lia) ltac:(lia) Lc Ls L0) as (sd & Hrun & Hl & Hnn).
  exists sd. split; [exact Hrun|]. split; [exact Hl|].
  intros s Hin. specialize (Hnn s Hin). split; [exact Hnn|].
  intros cw. pose proof (Rle_0_sqr cw) as Hsq. unfold Rsqr in Hsq.
  pose proof (Rmult_le_pos _ _ Hsq Hnn). lra.
Qed.

Lemma variance_pass_total_nonnegative_witness :
  exists stddev,
    launch2D 16 2 1
      (aTrousComputeVariance [mkVec3 1 0 0; mkVec3 0 5 0] [0%R; 1%R] 2 1 0) [0%R; 0%R]
    = Done stddev
    /\ forall s, In s stddev -> (0 <= s)%R.
Proof.
  destruct (variance_pass_total_nonnegative [mkVec3 1 0 0; mkVec3 0 5 0] [0%R; 1%R]
              2 1 0 [0%R; 0%R]) as (sd & Hrun & _ & Hnn);
    try reflexivity; try lia.
  exists sd. split; [exact Hrun|]. intros s Hin. apply (Hnn s Hin).
Defined.

(** A denoiser run for either category returns, for any number of levels,
    when the arrays have the size of the image behind handles of their own,
    the iteration count is not zero and the radius, the normal weight and the
    position weight are not zero.  It changes neither the running sums, nor
    the normals and positions: the only arrays it writes are the two filtered
    ones, the scratch one and the estimates. *)
Theorem atrous_run_returns (cam : Camera) (buf : BufferType) (levels : Z)
    (radius : R) (iter : Z) (colorWeight normalWeight positionWeight : R) (d : Device) :
  buf = DirectSpecularIllumination \/ buf = IndirectDiffuseIllumination ->
  NoDup (vec_handles (handles d)) ->
  0 < resolution_x cam -> 0 < resolution_y cam ->
  arrays_sized (resolution_x cam * resolution_y cam) (memory d) ->
  iter <> 0 -> radius <> 0%R -> normalWeight <> 0%R -> positionWeight <> 0%R ->
  exists d',
    aTrous cam buf levels radius iter colorWeight normalWeight positionWeight d
    = Done d'
    /\ vmem (memory d') (dev_directIllum (handles d))
       = vmem (memory d) (dev_directIllum (handles d))
    /\ vmem (memory d') (dev_indirectIllum (handles d))
       = vmem (memory d) (dev_indirectIllum (handles d))
    /\ vmem (memory d') (dev_normalBuffer (handles d))
       = vmem (memory d) (dev_normalBuffer (handles d))
    /\ vmem (memory d') (dev_positionBuffer (handles d))
       = vmem (memory d) (dev_positionBuffer (handles d))
    /\ (forall fb, fb <> dev_stddevBuffer (handles d) ->
                   fmem (memory d') fb = fmem (memory d) fb).
Proof.
  intros Hbuf Hnd Hw Hh Hsz Hiter Hrad Hnw Hpw.
  destruct (aTrous_returns cam buf levels radius iter colorWeight normalWeight
              positionWeight d Hbuf Hnd ltac:(lia) ltac:(lia) Hsz Hiter Hrad Hnw Hpw)
    as (d' & Hrun & Hframe & Hf).
  pose proof (NoDup_vec_handles (handles d) Hnd) as Hne.
  assert (Hd : forall ia ib a b,
    nth_error (vec_handles (handles d)) ia = Some a ->
    nth_error (vec_handles (handles d)) ib = Some b -> ia <> ib -> a <> b).
  { intros ia ib a b Ha Hb Hi. exact (Hne a b ia ib Ha Hb Hi). }
  exists d'. split; [exact Hrun|].
  split; [apply Hframe;
          [exact (Hd 0%nat 4%nat _ _ eq_refl eq_refl ltac:(lia))
          |exact (Hd 0%nat 5%nat _ _ eq_refl eq_refl ltac:(lia))
          |exact (Hd 0%nat 6%nat _ _ eq_refl eq_refl ltac:(lia))]|].
  split; [apply Hframe;
          [exact (Hd 1%nat 4%nat _ _ eq_refl eq_refl ltac:(lia))
          |exact (Hd 1%nat 5%nat _ _ eq_refl eq_refl ltac:(lia))
          |exact (Hd 1%nat 6%nat _ _ eq_refl eq_refl ltac:(lia))]|].
  split; [apply Hframe;
          [exact (Hd 2%nat 4%nat _ _ eq_refl eq_refl ltac:(lia))
          |exact (Hd 2%nat 5%nat _ _ eq_refl eq_refl ltac:(lia))
          |exact (Hd 2%nat 6%nat _ _ eq_refl eq_refl ltac:(lia))]|].
  split; [apply Hframe;
          [exact (Hd 3%nat 4%nat _ _ eq_refl eq_refl ltac:(lia))
          |exact (Hd 3%nat 5%nat _ _ eq_refl eq_refl ltac:(lia))
          |exact (Hd 3%nat 6%nat _ _ eq_refl eq_refl ltac:(lia))]|].
  exact Hf.
Qed.

Lemma atrous_run_returns_witness :
  exists d',
    aTrous (simple_camera 8 8) IndirectDiffuseIllumination 5 2 3 1 1 1 (blank_device 64)
    = Done d'
    /\ vmem (memory d') A_directIllum = repeat vzero 64.
Proof.
  destruct (atrous_run_returns (simple_camera 8 8) IndirectDiffuseIllumination
              5 2 3 1 1 1 (blank_device 64))
    as (d' & Hrun & Hd & _).
  - right. reflexivity.
  - apply pathtraceInit_handles_distinct_blank.
  - simpl. lia.
  - simpl. lia.
  - exact (arrays_sized_blank 64).
  - lia.
  - lra.
  - lra.
  - lra.
  - exists d'. split; [exact Hrun | exact Hd].
Defined.

(** ** Denoiser run on a flat image *)

Lemma denoise_levels_constant (n : nat) :
  forall (res_x res_y : Z) (normal position : list vec3) (stddev : list R)
         (stepSize cw nw pw : R) (cur scratch : list vec3) (c : vec3),
    0 < res_x -> 0 < res_y ->
    Z.of_nat (length normal) = res_x * res_y ->
    Z.of_nat (length position) = res_x * res_y ->
    Z.of_nat (length stddev) = res_x * res_y ->
    Z.of_nat (length cur) = res_x * res_y ->
    Z.of_nat (length scratch) = res_x * res_y ->
    (forall s, In s stddev -> 0 <= s)%R ->
    nw <> 0%R -> stepSize <> 0%R -> pw <> 0%R ->
    (forall v, In v cur -> v = c) ->
    exists cur' scratch',
      denoise_levels n res_x res_y normal position stddev stepSize cw nw pw cur scratch
      = Done (cur', scratch')
      /\ forall v, In v cur' -> v = c.
Proof.
  induction n as [|n IH];
    intros res_x res_y normal position stddev stepSize cw nw pw cur scratch c
           Hw Hh Ln Lp Ls Lc Lt Hsd Hnw Hst Hpw Hc.
  - exists cur, scratch. split; [reflexivity | exact Hc].
  - cbn [denoise_levels].
    destruct (launch_aTrousIter_constant cur normal position stddev res_x res_y
                stepSize cw nw pw scratch c)
      as (out & Hrun & Lout & Hout); try assumption.
    rewrite Hrun, bind_Done.
    apply IH; try assumption. lra.
Qed.

Lemma denoise_constant (cam : Camera) (levels : Z) (radius : R) (iter : Z)
    (cw nw pw : R) (colorTotal : list vec3) (colorSqr : list R)
    (normal position result0 temp0 : list vec3) (stddev0 : list R) (c : vec3) :
  0 < resolution_x cam -> 0 < resolution_y cam ->
  let n := resolution_x cam * resolution_y cam in
  Z.of_nat (length colorTotal) = n -> Z.of_nat (length colorSqr) = n ->
  Z.of_nat (length normal) = n -> Z.of_nat (length position) = n ->
  Z.of_nat (length result0) = n -> Z.of_nat (length temp0) = n ->
  Z.of_nat (length stddev0) = n ->
  iter <> 0 -> radius <> 0%R -> nw <> 0%R -> pw <> 0%R ->
  (forall v, In v colorTotal -> v = vscale (IZR iter) c) ->
  exists cur scratch sd,
    denoise cam levels radius iter cw nw pw colorTotal colorSqr normal position
            result0 temp0 stddev0 = Done (cur, scratch, sd)
    /\ forall v, In v cur -> v = c.
Proof.
  intros Hw Hh n Lc Lq Ln Lp Lr Lt Ls Hiter Hrad Hnw Hpw Hflat. unfold denoise. fold n.
  destruct (launch_aTrousCopyBuffer colorTotal result0 n iter Lc Lr Hiter)
    as (target & Hcopy & Ltarget & Hmean).
  rewrite Hcopy. rewrite bind_Done.
  destruct (launch_aTrousComputeVariance_nonneg colorTotal colorSqr
              (resolution_x cam) (resolution_y cam) iter stddev0
              ltac:(lia) ltac:(lia) Lc Lq Ls)
    as (sd & Hvar & Lsd & Hnn).
  rewrite Hvar. rewrite bind_Done.
  rewrite fdiv_nonzero by apply powf_two_nonzero. rewrite bind_Done.
  assert (Htarget : forall v, In v target -> v = c).
  { intros v Hin. destruct (In_nth_index _ _ vzero Hin) as (q & Hq & <-).
    rewrite Hmean by lia.
    rewrite (Hflat (nth q colorTotal vzero)) by (apply nth_In; lia).
    assert (Hi : IZR iter <> 0%R) by (apply not_0_IZR; exact Hiter).
    destruct c. unfold vscale. simpl. f_equal; field; exact Hi. }
  destruct (denoise_levels_constant (Z.to_nat levels) (resolution_x cam)
              (resolution_y cam) normal position sd
              (0.5 * radius / powf 2 (IZR levels)) cw nw pw target temp0 c)
    as (cur & scratch & Hlev & Hcur); try assumption; try (fold n; lia).
  - pose proof (powf_two_nonzero (IZR levels)) as Hp.
    intros Hz. apply Rmult_integral in Hz. destruct Hz as [Hz|Hz]; [lra|].
    apply Rinv_neq_0_compat in Hp. contradiction.
  - rewrite Hlev. rewrite bind_Done. exists cur, scratch, sd.
    split; [reflexivity | exact Hcur].
Qed.

(** A denoiser run on a flat image gives that image back: when every pixel
    of the accumulation buffer the run reads holds [iter] times one colour,
    the filtered array of the category holds that colour at every pixel after
    the run, for any number of levels and any weights the run is defined
    for.  The image has at most [2 ^ 30] pixels each way and the radius is
    below [2 ^ 30] in magnitude: the step of a level is at most a quarter
    of the radius, so every tap is sampled inside the range of [int]. *)
Theorem atrous_keeps_flat_image (cam : Camera) (buf : BufferType) (levels : Z)
    (radius : R) (iter : Z) (colorWeight normalWeight positionWeight : R)
    (d : Device) (colorBuf : vbuf) (colorSqrBuf : fbuf) (r : result_handle)
    (c : vec3) :
  aTrous_select (handles d) buf = Done (colorBuf, colorSqrBuf, r) ->
  NoDup (vec_handles (handles d)) ->
  0 < resolution_x cam <= 2 ^ 30 -> 0 < resolution_y cam <= 2 ^ 30 ->
  (Rabs radius < 2 ^ 30)%R ->
  arrays_sized (resolution_x cam * resolution_y cam) (memory d) ->
  iter <> 0 -> radius <> 0%R -> normalWeight <> 0%R -> positionWeight <> 0%R ->
  (forall v, In v (vmem (memory d) colorBuf) -> v = vscale (IZR iter) c) ->
  exists d',
    aTrous cam buf levels radius iter colorWeight normalWeight positionWeight d
    = Done d'
    /\ forall v, In v (vmem (memory d') (get_result (handles d') r)) -> v = c.
Proof.
  intros Hsel Hnd [Hw _] [Hh _] _ [Hv Hf] Hiter Hrad Hnw Hpw Hflat.
  pose proof (NoDup_vec_handles (handles d) Hnd) as Hne.
  assert (Hd : forall ia ib a b,
    nth_error (vec_handles (handles d)) ia = Some a ->
    nth_error (vec_handles (handles d)) ib = Some b -> ia <> ib -> a <> b).
  { intros ia ib a b Ha Hb Hi. exact (Hne a b ia ib Ha Hb Hi). }
  pose proof (aTrous_denoise cam buf levels radius iter colorWeight normalWeight
                positionWeight d colorBuf colorSqrBuf r Hsel) as H.
  assert (Hineq :
    colorBuf <> get_result (handles d) r
    /\ get_result (handles d) r <> dev_filteredTemp (handles d)
    /\ dev_normalBuffer (handles d) <> get_result (handles d) r
    /\ dev_normalBuffer (handles d) <> dev_filteredTemp (handles d)
    /\ dev_positionBuffer (handles d) <> get_result (handles d) r
    /\ dev_positionBuffer (handles d) <> dev_filteredTemp (handles d)).
  { destruct buf; simpl in Hsel; try discriminate; injection Hsel as <- <- <-;
      cbn [get_result].
    - split; [exact (Hd 1%nat 5%nat _ _ eq_refl eq_refl ltac:(lia))|].
      split; [exact (Hd 5%nat 6%nat _ _ eq_refl eq_refl ltac:(lia))|].
      split; [exact (Hd 2%nat 5%nat _ _ eq_refl eq_refl ltac:(lia))|].
      split; [exact (Hd 2%nat 6%nat _ _ eq_refl eq_refl ltac:(lia))|].
      split; [exact (Hd 3%nat 5%nat _ _ eq_refl eq_refl ltac:(lia))|].
      exact (Hd 3%nat 6%nat _ _ eq_refl eq_refl ltac:(lia)).
    - split; [exact (Hd 0%nat 4%nat _ _ eq_refl eq_refl ltac:(lia))|].
      split; [exact (Hd 4%nat 6%nat _ _ eq_refl eq_refl ltac:(lia))|].
      split; [exact (Hd 2%nat 4%nat _ _ eq_refl eq_refl ltac:(lia))|].
      split; [exact (Hd 2%nat 6%nat _ _ eq_refl eq_refl ltac:(lia))|].
      split; [exact (Hd 3%nat 4%nat _ _ eq_refl eq_refl ltac:(lia))|].
      exact (Hd 3%nat 6%nat _ _ eq_refl eq_refl ltac:(lia)). }
  destruct Hineq as (I1 & I2 & I3 & I4 & I5 & I6).
  specialize (H I1 I2 I3 I4 I5 I6).
  destruct (denoise_constant cam levels radius iter colorWeight normalWeight
              positionWeight
              (vmem (memory d) colorBuf) (fmem (memory d) colorSqrBuf)
              (vmem (memory d) (dev_normalBuffer (handles d)))
              (vmem (memory d) (dev_positionBuffer (handles d)))
              (vmem (memory d) (get_result (handles d) r))
              (vmem (memory d) (dev_filteredTemp (handles d)))
              (fmem (memory d) (dev_stddevBuffer (handles d))) c)
    as (cur & scratch & sd & Hden & Hcur);
    try assumption; try apply Hv; try apply Hf.
  rewrite Hden in H. destruct H as (d' & Hrun & Hres & _).
  exists d'. split; [exact Hrun|]. rewrite Hres. exact Hcur.
Qed.

Lemma atrous_keeps_flat_image_witness :
  let m := vset (blank_memory 64) A_indirectIllum (repeat (mkVec3 4 8 12) 64) in
  exists d',
    aTrous (simple_camera 8 8) DirectSpecularIllumination 3 2 4 1 1 1
      (with_memory (blank_device 64) m) = Done d'
    /\ forall v, In v (vmem (memory d') (dev_filteredIndirectDiffuse (handles d'))) ->
                 v = mkVec3 1 2 3.
Proof.
  intros m.
  destruct (atrous_keeps_flat_image (simple_camera 8 8) DirectSpecularIllumination
              3 2 4 1 1 1 (with_memory (blank_device 64) m)
              A_indirectIllum A_indirectIllumSqr addr_filteredIndirectDiffuse
              (mkVec3 1 2 3))
    as (d' & Hrun & Hall).
  - reflexivity.
  - apply pathtraceInit_handles_distinct.
  - simpl. lia.
  - simpl. lia.
  - unfold Rabs. destruct (Rcase_abs 2); lra.
  - split; [intros b; destruct b | intros fb; destruct fb];
      cbn [memory with_memory blank_device vmem fmem vset m blank_memory vbuf_eqb
           m_directIllum m_indirectIllum m_normalBuffer m_positionBuffer
           m_filteredDirectSpecular m_filteredIndirectDiffuse m_filteredTemp
           m_directIllumSqr m_indirectIllumSqr m_stddevBuffer];
      rewrite repeat_length; reflexivity.
  - lia.
  - lra.
  - lra.
  - lra.
  - intros v Hin. cbn [memory with_memory vmem vset m vbuf_eqb m_indirectIllum] in Hin. apply repeat_spec in Hin. subst v.
    unfold vscale. simpl. f_equal; lra.
  - exists d'. split; [exact Hrun | exact Hall].
Defined.

(** ** The material comparator *)

(** [MaterialCompare] is a strict weak ordering, as a comparator for a sort
    has to be: it is irreflexive and transitive, and so is being unordered by
    it, which is having the same material.  A sort with it puts the larger
    material identifiers first, so the misses ([-1]) last. *)
Theorem MaterialCompare_strict_weak_order (a b c : ShadeableIntersection) :
  MaterialCompare a a = false
  /\ (MaterialCompare a b = true -> MaterialCompare b c = true ->
      MaterialCompare a c = true)
  /\ (MaterialCompare a b = false /\ MaterialCompare b a = false
      <-> materialId a = materialId b)
  /\ (MaterialCompare a b = false -> MaterialCompare b a = false ->
      MaterialCompare b c = false -> MaterialCompare c b = false ->
      MaterialCompare a c = false /\ MaterialCompare c a = false)
  /\ (materialId a = -1 -> 0 <= materialId b -> MaterialCompare b a = true).
Proof.
  unfold MaterialCompare. rewrite !Z.gtb_ltb.
  assert (T : forall x y, (x <? y) = true <-> x < y) by (intros; apply Z.ltb_lt).
  assert (F : forall x y, (x <? y) = false <-> y <= x) by (intros; apply Z.ltb_ge).
  rewrite ?T, ?F. repeat split; intros; lia.
Qed.

Lemma MaterialCompare_strict_weak_order_witness :
  MaterialCompare (mkShadeableIntersection 1 3 vzero vzero)
                  (mkShadeableIntersection (-1) (-1) vzero vzero) = true.
Proof.
  destruct (MaterialCompare_strict_weak_order
              (mkShadeableIntersection (-1) (-1) vzero vzero)
              (mkShadeableIntersection 1 3 vzero vzero)
              (mkShadeableIntersection 1 3 vzero vzero)) as (_ & _ & _ & _ & H).
  apply H; simpl; lia.
Defined.
